(** * Veil block template assembler and miner loop (miner.cpp)

    A shallow embedding of [BlockAssembler] (resource accounting, package
    selection, [CreateNewBlock]), of [IncrementExtraNonce], of the two critical
    sections in which the proof-of-work threads of [BitcoinMiner] take their
    extra nonce, under any schedule, and of one round of its proof-of-stake
    branch.  Sets of mempool iterators and of hashes are [gset]s,
    [mapModifiedTx] is a [gmap] keyed by the iterator, vectors are lists.
    Collaborators that live outside miner.cpp (chain state, wallet, UTXO view,
    consensus checks) are fields of the record [Node]. *)

From stdpp Require Import gmap sorting list.
From Stdlib Require Import ZArith Lia.
Local Open Scope Z_scope.

(** ** Machine integers *)

Abbreviation uint256 := Z (only parsing).
Abbreviation CAmount := Z (only parsing).

(** Unsigned arithmetic wraps; a [uint64_t] result [x] is [u64 x]. *)
Definition u64 (x : Z) : Z := x mod 2 ^ 64.
Definition u32 (x : Z) : Z := x mod 2 ^ 32.

(** A value stored in an [int] or [int32_t] keeps its residue modulo 2^32,
    in the range of the type. *)
Definition i32 (x : Z) : Z := (x + 2 ^ 31) mod 2 ^ 32 - 2 ^ 31.

(** The range of [int64_t] ([CAmount]); signed arithmetic that leaves it is
    undefined. *)
Definition in_int64 (x : Z) : bool := (- 2 ^ 63 <=? x) && (x <? 2 ^ 63).

(** ** Scripts, outputs, transactions *)

(** A script is kept as the sequence of things pushed with [operator<<]. *)
Inductive ScriptItem :=
| PushInt (n : Z)        (* CScript() << int64_t *)
| PushScriptNum (n : Z)  (* CScript() << CScriptNum(n) *)
| Opcode (op : Z).       (* CScript() << opcodetype, also a raw byte *)

Abbreviation CScript := (list ScriptItem) (only parsing).

#[global] Instance ScriptItem_eq_dec : EqDecision ScriptItem.
Proof. solve_decision. Defined.

Definition OP_0 : ScriptItem := Opcode 0.

(** [CTxOutBase]: only a standard output carries a script and a value that the
    assembler reads. *)
Record CTxOutBase := {
  IsStandardOutput : bool;
  GetPScriptPubKey : CScript;
  GetValue : CAmount;
}.

(** [MAKE_OUTPUT<CTxOutStandard>()]. *)
Definition CTxOutStandard_new : CTxOutBase :=
  {| IsStandardOutput := true; GetPScriptPubKey := []; GetValue := 0 |}.

Definition CTxOutStandard_mk (script : CScript) (value : CAmount) : CTxOutBase :=
  {| IsStandardOutput := true; GetPScriptPubKey := script; GetValue := value |}.

(** What miner.cpp reads of a transaction. *)
Record CMutableTransaction := {
  vin0_prevout_IsNull : bool;
  vin0_scriptSig : CScript;
  vin0_IsAnonInput : bool;
  IsZerocoinSpend : bool;
  IsZerocoinMint : bool;
  SerialHashes : list uint256;   (* what TxToSerialHashSet collects *)
  PubcoinHashes : list uint256;  (* what TxToPubcoinHashSet collects *)
  HasWitness : bool;
  vpout : list CTxOutBase;
}.

Definition CMutableTransaction_new : CMutableTransaction :=
  {| vin0_prevout_IsNull := false; vin0_scriptSig := []; vin0_IsAnonInput := false;
     IsZerocoinSpend := false; IsZerocoinMint := false;
     SerialHashes := []; PubcoinHashes := []; HasWitness := false; vpout := [] |}.

(** [CTransaction] caches its hash. *)
Record CTransaction := {
  tx : CMutableTransaction;
  GetHash : uint256;
}.

(** [CTransactionRef]: a shared pointer, [None] when null. *)
Abbreviation CTransactionRef := (option CTransaction) (only parsing).

(** ** The mempool as the assembler sees it *)

(** A mempool iterator ([CTxMemPool::txiter]) is named by the hash of its
    transaction, the key of [setEntries] ([CompareIteratorByHash]). *)
Abbreviation txiter := Z (only parsing).

Record CTxMemPoolEntry := {
  GetSharedTx : CTransaction;
  GetTxSize : Z;
  GetTxWeight : Z;
  GetFee : CAmount;
  GetModifiedFee : CAmount;
  GetSigOpCost : Z;
  GetCountWithAncestors : Z;
  GetSizeWithAncestors : Z;
  GetModFeesWithAncestors : CAmount;
  GetSigOpCostWithAncestors : Z;
  GetMemPoolParents : list txiter;
}.

#[global] Instance CTxMemPoolEntry_inhabited : Inhabited CTxMemPoolEntry :=
  populate {| GetSharedTx := {| tx := CMutableTransaction_new; GetHash := 0 |};
              GetTxSize := 0; GetTxWeight := 0; GetFee := 0; GetModifiedFee := 0;
              GetSigOpCost := 0; GetCountWithAncestors := 0; GetSizeWithAncestors := 0;
              GetModFeesWithAncestors := 0; GetSigOpCostWithAncestors := 0;
              GetMemPoolParents := [] |}.

(** [mapTx], indexed by transaction hash. *)
Abbreviation CTxMemPool := (gmap Z CTxMemPoolEntry) (only parsing).

(** Iteration over a [std::set<uint256>] or a [setEntries] goes by ascending
    hash. *)
Definition in_order (s : gset Z) : list Z := merge_sort Z.le (elements s).

(** Modelled from the spec: [CalculateMemPoolAncestors] is in txmempool.cpp; the
    selector calls it with every limit at its maximum, "all pool ancestors".
    [ancestors_upto n] follows the parent links at most [n] times. *)
Fixpoint ancestors_upto (n : nat) (pool : CTxMemPool) (it : txiter) : gset Z :=
  match n with
  | O => ∅
  | S n' =>
      match pool !! it with
      | None => ∅
      | Some e =>
          let parents := filter (λ p, is_Some (pool !! p)) (GetMemPoolParents e) in
          list_to_set parents ∪ ⋃ (ancestors_upto n' pool <$> parents)
      end
  end.

Definition CalculateMemPoolAncestors (pool : CTxMemPool) (it : txiter) : gset Z :=
  ancestors_upto (size pool) pool it.

(** Modelled from the spec: [CalculateDescendants] (txmempool.cpp) "enumerates
    in-mempool descendants"; like the original it returns the entry itself too. *)
Definition CalculateDescendants (pool : CTxMemPool) (it : txiter) : gset Z :=
  {[ it ]} ∪ filter (λ d, it ∈ CalculateMemPoolAncestors pool d) (dom pool).

(** Modelled from the spec: [CompareTxMemPoolEntryByAncestorFee] (txmempool.h)
    orders by modFeesWithAncestors / sizeWithAncestors, descending, with the
    hash as tie-break; the division is avoided by cross-multiplying. *)
Definition CompareTxMemPoolEntryByAncestorFee
    (a_fee a_size a_hash b_fee b_size b_hash : Z) : bool :=
  let f1 := a_fee * b_size in
  let f2 := a_size * b_fee in
  if f1 =? f2 then a_hash <? b_hash else f2 <? f1.

(** [mapTx.get<ancestor_score>()]: the pool's iterators in that order. *)
Definition ancestor_score_le (pool : CTxMemPool) (a b : txiter) : Prop :=
  a = b ∨
  CompareTxMemPoolEntryByAncestorFee
    (GetModFeesWithAncestors (pool !!! a)) (GetSizeWithAncestors (pool !!! a)) a
    (GetModFeesWithAncestors (pool !!! b)) (GetSizeWithAncestors (pool !!! b)) b = true.

#[global] Instance ancestor_score_le_dec pool : RelDecision (ancestor_score_le pool).
Proof. intros a b. unfold ancestor_score_le. apply _. Defined.

Definition by_ancestor_score (pool : CTxMemPool) : list txiter :=
  merge_sort (ancestor_score_le pool) (elements (dom pool)).

(** Modelled from the spec: [CompareTxIterByAncestorCount] (miner.h), "sort the
    package by ancestor count ascending", ties by hash. *)
Definition CompareTxIterByAncestorCount (pool : CTxMemPool) (a b : txiter) : Prop :=
  GetCountWithAncestors (pool !!! a) < GetCountWithAncestors (pool !!! b) ∨
  (GetCountWithAncestors (pool !!! a) = GetCountWithAncestors (pool !!! b) ∧ a ≤ b).

#[global] Instance CompareTxIterByAncestorCount_dec pool :
  RelDecision (CompareTxIterByAncestorCount pool).
Proof. intros a b. unfold CompareTxIterByAncestorCount. apply _. Defined.

(** ** Consensus and policy constants (consensus.h, policy.h, chainparams) *)

Record Constants := {
  WITNESS_SCALE_FACTOR : Z;
  MAX_BLOCK_WEIGHT : Z;
  MAX_BLOCK_SIGOPS_COST : Z;
  DEFAULT_BLOCK_MAX_WEIGHT : Z;
  DEFAULT_BLOCK_MIN_TX_FEE : CAmount;
  MAX_PAST_BLOCK_TIME : Z;
  STANDARD_LOCKTIME_VERIFY_FLAGS : Z;
  LOCKTIME_MEDIAN_TIME_PAST : Z;
  HeightPoSStart : Z;
  MaxNetworkReward : CAmount;
  MineBlocksOnDemand : bool;
  fPowAllowMinDifficultyBlocks : bool;
}.

(** ** BlockAssembler *)

Record Options := {
  opt_nBlockMaxWeight : Z;
  opt_blockMinFeeRate : CAmount;
}.

(** The members of [BlockAssembler], with the vectors of the template under
    construction ([pblock->vtx], [vTxFees], [vTxSigOpsCost]). *)
Record BlockAssembler := {
  blockMinFeeRate : CAmount;
  nBlockMaxWeight : Z;
  fIncludeWitness : bool;
  vtx : list CTransactionRef;
  vTxFees : list CAmount;
  vTxSigOpsCost : list Z;
  nBlockWeight : Z;
  nBlockTx : Z;
  nBlockSigOpsCost : Z;
  nFees : CAmount;
  inBlock : gset Z;
  nHeight : Z;
  nLockTimeCutoff : Z;
}.

(** [BlockAssembler::Options::Options()]. *)
Definition Options_new (K : Constants) : Options :=
  {| opt_nBlockMaxWeight := DEFAULT_BLOCK_MAX_WEIGHT K;
     opt_blockMinFeeRate := DEFAULT_BLOCK_MIN_TX_FEE K |}.

(** The command line as [DefaultOptions] reads it: [-blockmaxweight], and
    [-blockmintxfee] with the result of [ParseMoney] ([None] when it fails and
    leaves [n = 0]).  [GetArg] returns an [int64_t]; [nBlockMaxWeight] of
    [Options] is a [size_t], so a negative argument becomes a large weight. *)
Record gArgs := {
  arg_blockmaxweight : option Z;
  arg_blockmintxfee : option (option CAmount);
  arg_blockversion : option Z;
}.

Definition DefaultOptions (K : Constants) (args : gArgs) : Options :=
  {| opt_nBlockMaxWeight :=
       u64 (default (DEFAULT_BLOCK_MAX_WEIGHT K) (arg_blockmaxweight args));
     opt_blockMinFeeRate :=
       match arg_blockmintxfee args with
       | Some parsed => default 0 parsed
       | None => DEFAULT_BLOCK_MIN_TX_FEE K
       end |}.

(** The constructor: the weight is clamped to [4000, MAX_BLOCK_WEIGHT/4]. *)
Definition BlockAssembler_new (K : Constants) (options : Options) : BlockAssembler :=
  {| blockMinFeeRate := opt_blockMinFeeRate options;
     nBlockMaxWeight :=
       Z.max 4000 (Z.min (MAX_BLOCK_WEIGHT K / 4) (opt_nBlockMaxWeight options));
     fIncludeWitness := false;
     vtx := []; vTxFees := []; vTxSigOpsCost := [];
     nBlockWeight := 0; nBlockTx := 0; nBlockSigOpsCost := 0; nFees := 0;
     inBlock := ∅; nHeight := 0; nLockTimeCutoff := 0 |}.

Definition resetBlock (a : BlockAssembler) : BlockAssembler :=
  {| blockMinFeeRate := blockMinFeeRate a;
     nBlockMaxWeight := nBlockMaxWeight a;
     fIncludeWitness := false;
     vtx := vtx a; vTxFees := vTxFees a; vTxSigOpsCost := vTxSigOpsCost a;
     nBlockWeight := 4000; nBlockTx := 0; nBlockSigOpsCost := 400; nFees := 0;
     inBlock := ∅; nHeight := nHeight a; nLockTimeCutoff := nLockTimeCutoff a |}.

(** [onlyUnconfirmed]: erase from [testSet] what is already in the block. *)
Definition onlyUnconfirmed (a : BlockAssembler) (testSet : gset Z) : gset Z :=
  testSet ∖ inBlock a.

(** [TestPackage].  [nBlockWeight] and [nBlockSigOpsCost] are [uint64_t], so
    both sums are taken modulo 2^64. *)
Definition TestPackage (K : Constants) (a : BlockAssembler)
    (packageSize packageSigOpsCost : Z) : bool :=
  if nBlockMaxWeight a <=? u64 (nBlockWeight a + WITNESS_SCALE_FACTOR K * packageSize)
  then false
  else if MAX_BLOCK_SIGOPS_COST K <=? u64 (nBlockSigOpsCost a + packageSigOpsCost)
  then false
  else true.

(** ** Collaborators outside miner.cpp *)

Record CBlockIndex := {
  bi_nHeight : Z;
  GetBlockHash : uint256;
  GetBlockTime : Z;
  GetMedianTimePast : Z;
  nNetworkRewardReserve : CAmount;
  bi_mapAccumulatorHashes : list (Z * uint256);
}.

Record CBlock := {
  nVersion : Z;
  hashPrevBlock : uint256;
  hashMerkleRoot : uint256;
  hashWitnessMerkleRoot : uint256;
  nTime : Z;
  nBits : Z;
  nNonce : Z;
  mapAccumulatorHashes : list (Z * uint256);
  hashVeilData : uint256;
  hashPoFN : uint256;
  fProofOfStake : bool;
  vchBlockSig : list Z;
  block_vtx : list CTransactionRef;
}.

(** Chain state, wallet, UTXO view, consensus and hashing, as functions of
    what miner.cpp passes to them. *)
Record Node := {
  chainActive_Tip : CBlockIndex;
  GetAdjustedTime : Z;
  GetMainWallet : bool;                       (* a main wallet is loaded *)
  CreateCoinStake : CBlockIndex → Z → option (CMutableTransaction * Z);
  mempool_TRY_LOCK : bool;
  ComputeBlockVersion : CBlockIndex → Z;
  GetNextWorkRequired : CBlockIndex → Z → bool → Z;   (* prev, block time, PoS *)
  IsFinalTx : CTransaction → Z → Z → bool;
  (** Modelled from the spec: zchain's lookups, "already recorded on-chain at
      height < height"; the serial lookup is given the height of the template. *)
  IsSerialInBlockchain : uint256 → Z → bool;
  IsPubcoinInBlockchain : uint256 → CBlockIndex → bool;
  HaveInputs : CTransaction → bool;           (* CCoinsViewCache over pcoinsTip *)
  rewardScript : CScript;                     (* script of NetworkRewardAddress *)
  GetBlockRewards : Z → CAmount * CAmount * CAmount * CAmount;
  budgetScript : CScript;
  labScript : CScript;
  founderScript : CScript;
  ComputeHash : CMutableTransaction → uint256;
  COINBASE_FLAGS : CScript;
  CScript_size : CScript → Z;                 (* length of the serialized script *)
  BlockMerkleRoot : list CTransactionRef → uint256;
  BlockWitnessMerkleRoot : list CTransactionRef → uint256;
  GetLegacySigOpCount : CTransaction → Z;
  CalculateAccumulatorCheckpoint : Z → list (Z * uint256);
  GetFullNodeHash : CBlock → CBlockIndex → uint256;
  GetVeilDataHash : CBlock → uint256;
  CBlock_GetHash : CBlock → uint256;
  TxInToZerocoinSpend : CTransaction → option Z;     (* the spend's serial *)
  GetZerocoinKey : Z → option Z;
  CKey_Sign : Z → uint256 → option (list Z);
  TestBlockValidity : CBlock → CBlockIndex → bool;
}.

(** [MakeTransactionRef]. *)
Definition MakeTransactionRef (N : Node) (m : CMutableTransaction) : CTransaction :=
  {| tx := m; GetHash := ComputeHash N m |}.

(** ** Package selection *)

Record CTxMemPoolModifiedEntry := {
  iter : txiter;
  nSizeWithAncestors : Z;
  nModFeesWithAncestors : CAmount;
  nSigOpCostWithAncestors : Z;
}.

Definition CTxMemPoolModifiedEntry_new (pool : CTxMemPool) (it : txiter)
    : CTxMemPoolModifiedEntry :=
  {| iter := it;
     nSizeWithAncestors := GetSizeWithAncestors (pool !!! it);
     nModFeesWithAncestors := GetModFeesWithAncestors (pool !!! it);
     nSigOpCostWithAncestors := GetSigOpCostWithAncestors (pool !!! it) |}.

(** Modelled from the spec: [update_for_parent_inclusion] (miner.h), "mutate the
    existing overlay entry by subtracting a's contributions in-place". *)
Definition update_for_parent_inclusion (pool : CTxMemPool) (it : txiter)
    (e : CTxMemPoolModifiedEntry) : CTxMemPoolModifiedEntry :=
  {| iter := iter e;
     nSizeWithAncestors := u64 (nSizeWithAncestors e - GetTxSize (pool !!! it));
     nModFeesWithAncestors := nModFeesWithAncestors e - GetModifiedFee (pool !!! it);
     nSigOpCostWithAncestors := nSigOpCostWithAncestors e - GetSigOpCost (pool !!! it) |}.

(** The order of [mapModifiedTx.get<ancestor_score>()]. *)
Definition modified_score_le (a b : CTxMemPoolModifiedEntry) : Prop :=
  iter a = iter b ∨
  CompareTxMemPoolEntryByAncestorFee
    (nModFeesWithAncestors a) (nSizeWithAncestors a) (iter a)
    (nModFeesWithAncestors b) (nSizeWithAncestors b) (iter b) = true.

#[global] Instance modified_score_le_dec : RelDecision modified_score_le.
Proof. intros a b. unfold modified_score_le. apply _. Defined.

(** [mapModifiedTx.get<ancestor_score>().begin()], [None] at [end()]. *)
Definition modified_begin (mapModifiedTx : gmap Z CTxMemPoolModifiedEntry)
    : option CTxMemPoolModifiedEntry :=
  head (merge_sort modified_score_le (snd <$> map_to_list mapModifiedTx)).

(** [TestPackageTransactions]. *)
Definition TestPackageTransactions (N : Node) (pool : CTxMemPool)
    (a : BlockAssembler) (package : gset Z) : bool :=
  forallb
    (λ it, let t := GetSharedTx (pool !!! it) in
           IsFinalTx N t (nHeight a) (nLockTimeCutoff a)
           && negb (negb (fIncludeWitness a) && HasWitness (tx t)))
    (in_order package).

(** [AddToBlock]. *)
Definition AddToBlock (pool : CTxMemPool) (a : BlockAssembler) (it : txiter)
    : BlockAssembler :=
  let e := pool !!! it in
  {| blockMinFeeRate := blockMinFeeRate a;
     nBlockMaxWeight := nBlockMaxWeight a;
     fIncludeWitness := fIncludeWitness a;
     vtx := vtx a ++ [Some (GetSharedTx e)];
     vTxFees := vTxFees a ++ [GetFee e];
     vTxSigOpsCost := vTxSigOpsCost a ++ [GetSigOpCost e];
     nBlockWeight := u64 (nBlockWeight a + GetTxWeight e);
     nBlockTx := u64 (nBlockTx a + 1);
     nBlockSigOpsCost := u64 (nBlockSigOpsCost a + GetSigOpCost e);
     nFees := nFees a + GetFee e;
     inBlock := {[ it ]} ∪ inBlock a;
     nHeight := nHeight a;
     nLockTimeCutoff := nLockTimeCutoff a |}.

(** The body of the inner loop of [UpdatePackagesForAdded], for one
    descendant [desc] of the added entry [it]. *)
Definition UpdatePackagesForAdded_desc (pool : CTxMemPool) (alreadyAdded : gset Z)
    (it : txiter) (acc : Z * gmap Z CTxMemPoolModifiedEntry) (desc : txiter)
    : Z * gmap Z CTxMemPoolModifiedEntry :=
  if decide (desc ∈ alreadyAdded) then acc
  else
    match acc.2 !! desc with
    | None =>
        let modEntry := CTxMemPoolModifiedEntry_new pool desc in
        (acc.1 + 1,
         <[ desc :=
              {| iter := desc;
                 nSizeWithAncestors :=
                   u64 (nSizeWithAncestors modEntry - GetTxSize (pool !!! it));
                 nModFeesWithAncestors :=
                   nModFeesWithAncestors modEntry - GetModifiedFee (pool !!! it);
                 nSigOpCostWithAncestors :=
                   nSigOpCostWithAncestors modEntry - GetSigOpCost (pool !!! it) |} ]>
           acc.2)
    | Some mit =>
        (acc.1 + 1, <[ desc := update_for_parent_inclusion pool it mit ]> acc.2)
    end.

(** [UpdatePackagesForAdded]: the number of updates and the new overlay. *)
Definition UpdatePackagesForAdded (pool : CTxMemPool) (alreadyAdded : gset Z)
    (mapModifiedTx : gmap Z CTxMemPoolModifiedEntry)
    : Z * gmap Z CTxMemPoolModifiedEntry :=
  foldl
    (λ acc it,
       foldl (UpdatePackagesForAdded_desc pool alreadyAdded it) acc
             (in_order (CalculateDescendants pool it)))
    (0, mapModifiedTx) (in_order alreadyAdded).

(** [SkipMapTxEntry]. *)
Definition SkipMapTxEntry (a : BlockAssembler) (it : txiter)
    (mapModifiedTx : gmap Z CTxMemPoolModifiedEntry) (failedTx : gset Z) : bool :=
  bool_decide (is_Some (mapModifiedTx !! it))
  || bool_decide (it ∈ inBlock a) || bool_decide (it ∈ failedTx).

(** [SortForBlock]. *)
Definition SortForBlock (pool : CTxMemPool) (package : gset Z) : list txiter :=
  merge_sort (CompareTxIterByAncestorCount pool) (in_order package).

(** The locals of [addPackageTxs] with the assembler they work on.  [mi] is the
    part of the ancestor-score index from the cursor on ([[]] at [end()]). *)
Record PackageSelection := {
  assembler : BlockAssembler;
  mapModifiedTx : gmap Z CTxMemPoolModifiedEntry;
  failedTx : gset Z;
  mi : list txiter;
  nConsecutiveFailed : Z;
  nPackagesSelected : Z;
  nDescendantsUpdated : Z;
}.

Inductive LoopStep :=
| Continue (s : PackageSelection)   (* next iteration *)
| Break (s : PackageSelection)      (* the loop is left *)
| AssertFailed.                     (* assert(!inBlock.count(iter)) fails *)

Definition MAX_CONSECUTIVE_FAILURES : Z := 1000.

(** Erase a failed candidate from [mapModifiedTx] and remember it, when it was
    taken from there. *)
Definition drop_failed (fUsingModified : bool) (it : txiter) (s : PackageSelection)
    : PackageSelection :=
  if fUsingModified then
    {| assembler := assembler s;
       mapModifiedTx := delete it (mapModifiedTx s);
       failedTx := {[ it ]} ∪ failedTx s;
       mi := mi s;
       nConsecutiveFailed := nConsecutiveFailed s;
       nPackagesSelected := nPackagesSelected s;
       nDescendantsUpdated := nDescendantsUpdated s |}
  else s.

(** The loop body from the [assert] on: the candidate [it] has been chosen,
    [modit] is the entry it was taken from when [fUsingModified]. *)
Definition consider_package (K : Constants) (N : Node) (pool : CTxMemPool)
    (s : PackageSelection) (it : txiter) (fUsingModified : bool)
    (modit : CTxMemPoolModifiedEntry) : LoopStep :=
  let a := assembler s in
  if decide (it ∈ inBlock a) then AssertFailed
  else
    let packageSize :=
      if fUsingModified then nSizeWithAncestors modit
      else GetSizeWithAncestors (pool !!! it) in
    let packageSigOpsCost :=
      if fUsingModified then nSigOpCostWithAncestors modit
      else GetSigOpCostWithAncestors (pool !!! it) in
    if negb (TestPackage K a packageSize packageSigOpsCost) then
      let s1 := drop_failed fUsingModified it s in
      let s2 :=
        {| assembler := assembler s1;
           mapModifiedTx := mapModifiedTx s1;
           failedTx := failedTx s1;
           mi := mi s1;
           nConsecutiveFailed := nConsecutiveFailed s1 + 1;
           nPackagesSelected := nPackagesSelected s1;
           nDescendantsUpdated := nDescendantsUpdated s1 |} in
      if (MAX_CONSECUTIVE_FAILURES <? nConsecutiveFailed s2)
         && (u32 (nBlockMaxWeight a - 4000) <? nBlockWeight a)
      then Break s2 else Continue s2
    else
      let ancestors :=
        {[ it ]} ∪ onlyUnconfirmed a (CalculateMemPoolAncestors pool it) in
      if negb (TestPackageTransactions N pool a ancestors) then
        Continue (drop_failed fUsingModified it s)
      else
        let sortedEntries := SortForBlock pool ancestors in
        let a' := foldl (AddToBlock pool) a sortedEntries in
        let erased := foldl (λ m e, delete e m) (mapModifiedTx s) sortedEntries in
        let upd := UpdatePackagesForAdded pool ancestors erased in
        Continue
          {| assembler := a';
             mapModifiedTx := upd.2;
             failedTx := failedTx s;
             mi := mi s;
             nConsecutiveFailed := 0;
             nPackagesSelected := nPackagesSelected s + 1;
             nDescendantsUpdated := nDescendantsUpdated s + upd.1 |}.

Definition advance_mi (s : PackageSelection) : PackageSelection :=
  {| assembler := assembler s;
     mapModifiedTx := mapModifiedTx s;
     failedTx := failedTx s;
     mi := tail (mi s);
     nConsecutiveFailed := nConsecutiveFailed s;
     nPackagesSelected := nPackagesSelected s;
     nDescendantsUpdated := nDescendantsUpdated s |}.

(** One evaluation of the [while] condition followed by the loop body. *)
Definition addPackageTxs_step (K : Constants) (N : Node) (pool : CTxMemPool)
    (s : PackageSelection) : LoopStep :=
  let modit := modified_begin (mapModifiedTx s) in
  match mi s, modit with
  | [], None => Break s
  | [], Some m => consider_package K N pool s (iter m) true m
  | it :: _, _ =>
      if SkipMapTxEntry (assembler s) it (mapModifiedTx s) (failedTx s)
      then Continue (advance_mi s)
      else
        match modit with
        | Some m =>
            if CompareTxMemPoolEntryByAncestorFee
                 (nModFeesWithAncestors m) (nSizeWithAncestors m) (iter m)
                 (GetModFeesWithAncestors (pool !!! it))
                 (GetSizeWithAncestors (pool !!! it)) it
            then consider_package K N pool s (iter m) true m
            else consider_package K N pool (advance_mi s) it false m
        | None =>
            consider_package K N pool (advance_mi s) it false
                             (CTxMemPoolModifiedEntry_new pool it)
        end
  end.

Inductive Run :=
| Finished (s : PackageSelection)
| OutOfFuel (s : PackageSelection)
| Aborted.

Fixpoint addPackageTxs_loop (fuel : nat) (K : Constants) (N : Node)
    (pool : CTxMemPool) (s : PackageSelection) : Run :=
  match fuel with
  | O => OutOfFuel s
  | S fuel' =>
      match addPackageTxs_step K N pool s with
      | Continue s' => addPackageTxs_loop fuel' K N pool s'
      | Break s' => Finished s'
      | AssertFailed => Aborted
      end
  end.

(** [addPackageTxs] up to the loop: the overlay is seeded from [inBlock], the
    cursor is at [begin()]. *)
Definition addPackageTxs_init (pool : CTxMemPool) (a : BlockAssembler)
    : PackageSelection :=
  {| assembler := a;
     mapModifiedTx := (UpdatePackagesForAdded pool (inBlock a) ∅).2;
     failedTx := ∅;
     mi := by_ancestor_score pool;
     nConsecutiveFailed := 0;
     nPackagesSelected := 0;
     nDescendantsUpdated := 0 |}.

Definition addPackageTxs (fuel : nat) (K : Constants) (N : Node)
    (pool : CTxMemPool) (a : BlockAssembler) : Run :=
  addPackageTxs_loop fuel K N pool (addPackageTxs_init pool a).

(** Iterations that suffice for a pool of [n] entries: an iteration either
    moves the cursor, or shrinks the overlay, or puts an entry in the block. *)
Definition selection_fuel (pool : CTxMemPool) : nat :=
  S ((size pool + 1) * (2 * size pool + 2))%nat.

(** ** CreateNewBlock *)

Record CBlockTemplate := {
  block : CBlock;
  tmpl_vTxFees : list CAmount;
  tmpl_vTxSigOpsCost : list Z;
}.

(** What a call leaves behind: the template ([None] for [nullptr]) and the
    transactions handed to [mempool.removeRecursive], in order. *)
Record CreateNewBlockResult := {
  pblocktemplate : option CBlockTemplate;
  removeRecursive_calls : list CTransaction;
}.

(** [UpdateTime]: the new [nTime] and [nBits] of the block. *)
Definition UpdateTime (K : Constants) (N : Node) (pindexPrev : CBlockIndex)
    (fPoS : bool) (nTime nBits : Z) : Z * Z :=
  let nOldTime := nTime in
  let nNewTime := Z.max (GetMedianTimePast pindexPrev + 1) (GetAdjustedTime N) in
  let nTime' := if nOldTime <? nNewTime then u32 nNewTime else nTime in
  let nBits' :=
    if fPowAllowMinDifficultyBlocks K
    then GetNextWorkRequired N pindexPrev nTime' fPoS else nBits in
  (nTime', nBits').

(** *** Privacy screening and the network reward reserve (the first loop over
    [pblock->vtx]) *)

(** The locals of the loop; [fReserveOverflow] records that an addition to
    [nNetworkRewardReserve], a [CAmount], left the range of [int64_t]. *)
Record Screening := {
  nNetworkRewardReserve_acc : CAmount;
  fReserveOverflow : bool;
  setSerials : gset Z;
  setPubcoins : gset Z;
  setDuplicate : gset Z;
}.

(** The two loops over the hashes of one transaction have the same shape: a
    hash already in [seen], or already in the chain, marks the transaction and
    leaves the loop; any other hash is put in [seen].  The result is the new
    set and [fRemove]. *)
Fixpoint check_hashes (inChain : uint256 → bool) (hashes : list uint256)
    (seen : gset Z) : gset Z * bool :=
  match hashes with
  | [] => (seen, false)
  | hash :: rest =>
      if decide (hash ∈ seen) then (seen, true)
      else if inChain hash then (seen, true)
      else check_hashes inChain rest ({[ hash ]} ∪ seen)
  end.

(** The loop over [setTxSerialHashes], against [setSerials] and
    [IsSerialInBlockchain(hashSerial, nHeight, txid)]. *)
Definition check_serials (N : Node) (height : Z) (hashes : list uint256)
    (serials : gset Z) : gset Z * bool :=
  check_hashes (λ hashSerial, IsSerialInBlockchain N hashSerial height) hashes serials.

(** The loop over [setTxPubcoinHashes], against [setPubcoins] and
    [IsPubcoinInBlockchain(hashPubcoin, nHeightTx, txid, chainActive.Tip())]. *)
Definition check_pubcoins (N : Node) (hashes : list uint256)
    (pubcoins : gset Z) : gset Z * bool :=
  check_hashes (λ hashPubcoin, IsPubcoinInBlockchain N hashPubcoin (chainActive_Tip N))
    hashes pubcoins.

(** The loop over [ptx->vpout]. *)
Definition reward_outputs (N : Node) (ptx : CTransaction) : CAmount :=
  foldl
    (λ acc pout,
       if negb (IsStandardOutput pout) then acc
       else if decide (GetPScriptPubKey pout = rewardScript N) then acc + GetValue pout
       else acc)
    0 (vpout (tx ptx)).

(** Whether every [nNetworkRewardReserve += pout->GetValue()] of that loop,
    entered with the reserve at [acc], stays in the range of [int64_t]. *)
Fixpoint reserve_additions_fit (N : Node) (acc : CAmount) (outs : list CTxOutBase)
    : bool :=
  match outs with
  | [] => true
  | pout :: rest =>
      if negb (IsStandardOutput pout) then reserve_additions_fit N acc rest
      else if decide (GetPScriptPubKey pout = rewardScript N)
      then in_int64 (acc + GetValue pout)
           && reserve_additions_fit N (acc + GetValue pout) rest
      else reserve_additions_fit N acc rest
  end.

Definition setTxSerialHashes (ptx : CTransaction) : gset Z :=
  if IsZerocoinSpend (tx ptx) then list_to_set (SerialHashes (tx ptx)) else ∅.

Definition setTxPubcoinHashes (ptx : CTransaction) : gset Z :=
  if IsZerocoinMint (tx ptx) then list_to_set (PubcoinHashes (tx ptx)) else ∅.

(** The loop body for one non-null [pblock->vtx[i]]. *)
Definition screen_tx (N : Node) (height : Z) (sc : Screening) (ptx : CTransaction)
    : Screening :=
  let cs := check_serials N height (in_order (setTxSerialHashes ptx)) (setSerials sc) in
  if cs.2 then
    {| nNetworkRewardReserve_acc := nNetworkRewardReserve_acc sc;
       fReserveOverflow := fReserveOverflow sc;
       setSerials := cs.1;
       setPubcoins := setPubcoins sc;
       setDuplicate := {[ GetHash ptx ]} ∪ setDuplicate sc |}
  else
    let cp := check_pubcoins N (in_order (setTxPubcoinHashes ptx)) (setPubcoins sc) in
    if cp.2 then
      {| nNetworkRewardReserve_acc := nNetworkRewardReserve_acc sc;
         fReserveOverflow := fReserveOverflow sc;
         setSerials := cs.1;
         setPubcoins := cp.1;
         setDuplicate := {[ GetHash ptx ]} ∪ setDuplicate sc |}
    else
      {| nNetworkRewardReserve_acc := nNetworkRewardReserve_acc sc + reward_outputs N ptx;
         fReserveOverflow :=
           fReserveOverflow sc
           || negb (reserve_additions_fit N (nNetworkRewardReserve_acc sc)
                      (vpout (tx ptx)));
         setSerials := cs.1;
         setPubcoins := cp.1;
         setDuplicate := setDuplicate sc |}.

Definition screen_ref (N : Node) (height : Z) (sc : Screening) (r : CTransactionRef)
    : Screening :=
  match r with
  | None => sc
  | Some ptx => screen_tx N height sc ptx
  end.

Definition screen_block (N : Node) (height : Z) (reserve0 : CAmount)
    (txs : list CTransactionRef) : Screening :=
  foldl (screen_ref N height)
        {| nNetworkRewardReserve_acc := reserve0; fReserveOverflow := false;
           setSerials := ∅; setPubcoins := ∅; setDuplicate := ∅ |}
        txs.

(** *** Removing duplicates (the second loop over [pblock->vtx]) *)

(** Whether [pblock->vtx[i]] is appended to [vtxReplace]. *)
Definition kept (N : Node) (dup : gset Z) (r : CTransactionRef) : bool :=
  match r with
  | None => true
  | Some t =>
      if decide (GetHash t ∈ dup) then false
      else if negb (IsZerocoinSpend (tx t)) && negb (vin0_IsAnonInput (tx t))
              && negb (HaveInputs N t)
      then false
      else true
  end.

Definition vtxReplace (N : Node) (dup : gset Z) (txs : list CTransactionRef)
    : list CTransactionRef :=
  filter (λ r, kept N dup r = true) txs.

(** The arguments of the calls of [mempool.removeRecursive]. *)
Definition removed_recursively (dup : gset Z) (txs : list CTransactionRef)
    : list CTransaction :=
  omap (λ r : CTransactionRef,
          match r with
          | Some t => if decide (GetHash t ∈ dup) then Some t else None
          | None => None
          end) txs.

(** *** The coinbase *)

(** [v[i] = x] on a vector of output pointers; writing past the end is
    undefined, here no result. *)
Definition vec_set (v : list (option CTxOutBase)) (i : nat) (x : CTxOutBase)
    : option (list (option CTxOutBase)) :=
  if decide (i < length v)%nat then Some (<[ i := Some x ]> v) else None.

Definition coinbase_size (fPoS : bool) (nFounderPayment nBudgetPayment : CAmount) : nat :=
  if (0 <? nBudgetPayment) && (0 <? nFounderPayment) then (if fPoS then 3 else 4)%nat
  else if 0 <? nBudgetPayment then (if fPoS then 2 else 3)%nat
  else 1%nat.

(** [coinbaseTx.vpout] as lines 310-360 and 367-370 leave it. *)
Definition coinbase_vpout (N : Node) (fPoS : bool) (scriptPubKeyIn : CScript)
    (nBlockReward nFounderPayment nLabPayment nBudgetPayment nNetworkReward : CAmount)
    : option (list CTxOutBase) :=
  let v0 := replicate (coinbase_size fPoS nFounderPayment nBudgetPayment) None in
  v1 ← vec_set v0 0 CTxOutStandard_new;
  v2 ← (if negb fPoS
        then vec_set v1 0 (CTxOutStandard_mk scriptPubKeyIn (nBlockReward + nNetworkReward))
        else Some v1);
  v3 ← (if decide (nBudgetPayment ≠ 0) then
          vb ← vec_set v2 (if fPoS then 0 else 1)%nat
                 (CTxOutStandard_mk (budgetScript N) nBudgetPayment);
          vl ← vec_set vb (if fPoS then 1 else 2)%nat
                 (CTxOutStandard_mk (labScript N) nLabPayment);
          if decide (nFounderPayment ≠ 0)
          then vec_set vl (if fPoS then 2 else 3)%nat
                 (CTxOutStandard_mk (founderScript N) nFounderPayment)
          else Some vl
        else Some v2);
  v4 ← (if fPoS && bool_decide (nBudgetPayment = 0)
        then vec_set v3 0 (CTxOutStandard_mk [] 0)
        else Some v3);
  mapM id v4.

(** *** The whole call *)

Definition no_template (removed : list CTransaction) : CreateNewBlockResult :=
  {| pblocktemplate := None; removeRecursive_calls := removed |}.

(** Lines 138-153: the coinstake, with the block time and [nBits] it fixes. *)
Definition stake_stage (K : Constants) (N : Node) (fPoS : bool)
    : option (CMutableTransaction * Z * Z) :=
  let pindexPrev := chainActive_Tip N in
  if fPoS && (HeightPoSStart K <=? bi_nHeight pindexPrev + 1) then
    let nTime0 := u32 (GetAdjustedTime N) in
    let nBits0 := GetNextWorkRequired N pindexPrev nTime0 true in
    match CreateCoinStake N pindexPrev nBits0 with
    | Some (txCoinStake, nTxNewTime) => Some (txCoinStake, u32 nTxNewTime, nBits0)
    | None => None
    end
  else Some (CMutableTransaction_new, 0, 0).

(** Lines 170-175: the block time of a proof-of-work template. *)
Definition pow_time (K : Constants) (N : Node) (fPoS : bool) (nTime : Z) : Z :=
  if fPoS then nTime
  else
    let t := u32 (GetAdjustedTime N) in
    if t <? GetBlockTime (chainActive_Tip N) - MAX_PAST_BLOCK_TIME K
    then u32 (GetBlockTime (chainActive_Tip N) - MAX_PAST_BLOCK_TIME K + 1)
    else t.

(** The assembler when [addPackageTxs] is called (line 195). *)
Definition assembler_at_selection (K : Constants) (N : Node) (a : BlockAssembler)
    (nTime : Z) : BlockAssembler :=
  let pindexPrev := chainActive_Tip N in
  {| blockMinFeeRate := blockMinFeeRate a;
     nBlockMaxWeight := nBlockMaxWeight a;
     fIncludeWitness := true;
     vtx := [None];
     vTxFees := [-1];
     vTxSigOpsCost := [-1];
     nBlockWeight := 4000; nBlockTx := 0; nBlockSigOpsCost := 400; nFees := 0;
     inBlock := ∅;
     nHeight := bi_nHeight pindexPrev + 1;
     nLockTimeCutoff :=
       if decide (Z.land (STANDARD_LOCKTIME_VERIFY_FLAGS K) (LOCKTIME_MEDIAN_TIME_PAST K) ≠ 0)
       then GetMedianTimePast pindexPrev else nTime |}.

(** [v.resize(2)] when shorter, then [v[1] = x]. *)
Definition install_coinstake (v : list CTransactionRef) (x : CTransaction)
    : list CTransactionRef :=
  <[ 1%nat := Some x ]> (v ++ replicate (2 - length v) None).

(** Lines 413-438: the signature of a proof-of-stake block. *)
Definition sign_block (N : Node) (b : CBlock) : option (list Z) :=
  match block_vtx b !! 1%nat with
  | Some (Some stake) =>
      if negb (IsZerocoinSpend (tx stake)) then None
      else
        bnSerial ← TxInToZerocoinSpend N stake;
        key ← GetZerocoinKey N bnSerial;
        CKey_Sign N key (CBlock_GetHash N b)
  | _ => None
  end.

Definition set_header (b : CBlock) (pofn veil : uint256) (sig : list Z) : CBlock :=
  {| nVersion := nVersion b; hashPrevBlock := hashPrevBlock b;
     hashMerkleRoot := hashMerkleRoot b;
     hashWitnessMerkleRoot := hashWitnessMerkleRoot b;
     nTime := nTime b; nBits := nBits b; nNonce := nNonce b;
     mapAccumulatorHashes := mapAccumulatorHashes b;
     hashVeilData := veil; hashPoFN := pofn;
     fProofOfStake := fProofOfStake b; vchBlockSig := sig;
     block_vtx := block_vtx b |}.

(** [coinbaseTx]: one input with a null prevout, the height in its
    [scriptSig] (line 363), and the outputs. *)
Definition coinbaseTx_new (height : Z) (outs : list CTxOutBase) : CMutableTransaction :=
  {| vin0_prevout_IsNull := true;
     vin0_scriptSig := [PushInt height; OP_0];
     vin0_IsAnonInput := false;
     IsZerocoinSpend := false; IsZerocoinMint := false;
     SerialHashes := []; PubcoinHashes := []; HasWitness := false;
     vpout := outs |}.

(** Lines 300-450, once the transactions are chosen: [a] is the assembler
    after [addPackageTxs], [sc] the outcome of the screening, [txs] the rebuilt
    [pblock->vtx].  No template when the reserve has overflowed (undefined in
    the source).  [-blockversion] is an [int64_t] stored in the [int32_t]
    [nVersion]. *)
Definition finish_block (K : Constants) (N : Node) (args : gArgs)
    (a : BlockAssembler) (sc : Screening) (txs : list CTransactionRef)
    (scriptPubKeyIn : CScript) (fPoS fProofOfFullNode : bool)
    (txCoinStake : CMutableTransaction) (nTime0 : Z) : option CBlockTemplate :=
  let pindexPrev := chainActive_Tip N in
  let nNetworkReward :=
    if MaxNetworkReward K <? nNetworkRewardReserve_acc sc
    then MaxNetworkReward K else nNetworkRewardReserve_acc sc in
  let '(nBlockReward, nFounderPayment, nLabPayment, nBudgetPayment) :=
    GetBlockRewards N (nHeight a) in
  if fReserveOverflow sc then None else
  outs ← coinbase_vpout N fPoS scriptPubKeyIn nBlockReward nFounderPayment
           nLabPayment nBudgetPayment nNetworkReward;
  let coinbaseTx := coinbaseTx_new (nHeight a) outs in
  let txs1 :=
    if fPoS then install_coinstake txs (MakeTransactionRef N txCoinStake) else txs in
  let txs2 := <[ 0%nat := Some (MakeTransactionRef N coinbaseTx) ]> txs1 in
  let fees := <[ 0%nat := - nFees a ]> (vTxFees a) in
  let ut := if fPoS then (nTime0, 0) else UpdateTime K N pindexPrev fPoS nTime0 0 in
  let nTime1 := ut.1 in
  let version :=
    if MineBlocksOnDemand K
    then i32 (default (ComputeBlockVersion N pindexPrev) (arg_blockversion args))
    else ComputeBlockVersion N pindexPrev in
  let sigops :=
    <[ 0%nat := WITNESS_SCALE_FACTOR K
                * from_option (GetLegacySigOpCount N) 0 (mjoin (txs2 !! 0%nat)) ]>
      (vTxSigOpsCost a) in
  let b0 :=
    {| nVersion := version;
       hashPrevBlock := GetBlockHash pindexPrev;
       hashMerkleRoot := BlockMerkleRoot N txs2;
       hashWitnessMerkleRoot := BlockWitnessMerkleRoot N txs2;
       nTime := nTime1;
       nBits := GetNextWorkRequired N pindexPrev nTime1 fPoS;
       nNonce := 0;
       mapAccumulatorHashes :=
         if Z.rem (nHeight a) 10 =? 0
         then CalculateAccumulatorCheckpoint N (nHeight a)
         else bi_mapAccumulatorHashes pindexPrev;
       hashVeilData := 0; hashPoFN := 0;
       fProofOfStake := fPoS; vchBlockSig := [];
       block_vtx := txs2 |} in
  let b1 :=
    if fProofOfFullNode && fPoS
    then set_header b0 (GetFullNodeHash N b0 pindexPrev) 0 [] else b0 in
  let b2 := set_header b1 (hashPoFN b1) (GetVeilDataHash N b1) [] in
  b3 ← (if fPoS
        then sig ← sign_block N b2; Some (set_header b2 (hashPoFN b2) (hashVeilData b2) sig)
        else Some b2);
  if TestBlockValidity N b3 pindexPrev
  then Some {| block := b3; tmpl_vTxFees := fees; tmpl_vTxSigOpsCost := sigops |}
  else None.

(** [BlockAssembler::CreateNewBlock] on the mempool [pool]. *)
Definition CreateNewBlock (K : Constants) (N : Node) (args : gArgs)
    (pool : CTxMemPool) (a0 : BlockAssembler) (scriptPubKeyIn : CScript)
    (fMineWitnessTx fPoS fProofOfFullNode : bool) : CreateNewBlockResult :=
  if fPoS && negb (GetMainWallet N) then no_template []
  else
    match stake_stage K N fPoS with
    | None => no_template []
    | Some (txCoinStake, nTimeStake, _) =>
        if negb (mempool_TRY_LOCK N) then no_template []
        else
          let nTime0 := pow_time K N fPoS nTimeStake in
          let a1 := assembler_at_selection K N (resetBlock a0) nTime0 in
          match addPackageTxs (selection_fuel pool) K N pool a1 with
          | Finished s =>
              let a2 := assembler s in
              let sc :=
                screen_block N (nHeight a2)
                  (nNetworkRewardReserve (chainActive_Tip N)) (vtx a2) in
              {| pblocktemplate :=
                   finish_block K N args a2 sc (vtxReplace N (setDuplicate sc) (vtx a2))
                     scriptPubKeyIn fPoS fProofOfFullNode txCoinStake nTime0;
                 removeRecursive_calls :=
                   removed_recursively (setDuplicate sc) (vtx a2) |}
          | _ => no_template []
          end
    end.

(** ** The miner *)

(** [IncrementExtraNonce].  [hashPrev] is the function's static
    [hashPrevBlock]; the result carries its new value, the block and the new
    [nExtraNonce].  No result when [vtx[0]] is null or the [assert] fails. *)
Definition IncrementExtraNonce (N : Node) (hashPrev : uint256) (pblock : CBlock)
    (pindexPrev : CBlockIndex) (nExtraNonce : Z) : option (uint256 * CBlock * Z) :=
  let reset := bool_decide (hashPrev ≠ hashPrevBlock pblock) in
  let nExtraNonce1 := if reset then 0 else nExtraNonce in
  let hashPrev' := if reset then hashPrevBlock pblock else hashPrev in
  let nExtraNonce2 := u32 (nExtraNonce1 + 1) in
  let height := u32 (bi_nHeight pindexPrev + 1) in
  match block_vtx pblock !! 0%nat with
  | Some (Some cb) =>
      let scriptSig := [PushInt height; PushScriptNum nExtraNonce2] ++ COINBASE_FLAGS N in
      if 100 <? CScript_size N scriptSig then None
      else
        let txCoinbase :=
          {| vin0_prevout_IsNull := vin0_prevout_IsNull (tx cb);
             vin0_scriptSig := scriptSig;
             vin0_IsAnonInput := vin0_IsAnonInput (tx cb);
             IsZerocoinSpend := IsZerocoinSpend (tx cb);
             IsZerocoinMint := IsZerocoinMint (tx cb);
             SerialHashes := SerialHashes (tx cb);
             PubcoinHashes := PubcoinHashes (tx cb);
             HasWitness := HasWitness (tx cb);
             vpout := vpout (tx cb) |} in
        let txs := <[ 0%nat := Some (MakeTransactionRef N txCoinbase) ]> (block_vtx pblock) in
        Some (hashPrev',
              {| nVersion := nVersion pblock; hashPrevBlock := hashPrevBlock pblock;
                 hashMerkleRoot := BlockMerkleRoot N txs;
                 hashWitnessMerkleRoot := BlockWitnessMerkleRoot N txs;
                 nTime := nTime pblock; nBits := nBits pblock; nNonce := nNonce pblock;
                 mapAccumulatorHashes := mapAccumulatorHashes pblock;
                 hashVeilData := hashVeilData pblock; hashPoFN := hashPoFN pblock;
                 fProofOfStake := fProofOfStake pblock;
                 vchBlockSig := vchBlockSig pblock;
                 block_vtx := txs |},
              nExtraNonce2)
  | _ => None
  end.

(** The state the miner threads share: [nNonce_base] under [cs_nonce] and the
    static [hashPrevBlock] of [IncrementExtraNonce] under [cs_main]. *)
Record MinerShared := {
  nNonce_base : Z;
  static_hashPrevBlock : uint256;
}.

(** Lines 831-836, the critical section under [cs_nonce]:
    [nNonceLocal = nNonce_base++].  [nNonce_base] is an [int32_t]; to
    increment it at its largest value is undefined, here no result.
    ([nTimeStart], set in the same section, is read by the hash-speed log
    only.) *)
Definition reserve_nonce (g : MinerShared) : option (MinerShared * Z) :=
  if nNonce_base g <? 2 ^ 31 - 1
  then Some ({| nNonce_base := nNonce_base g + 1;
                static_hashPrevBlock := static_hashPrevBlock g |},
             nNonce_base g)
  else None.

(** [pblock->nNonce = n]. *)
Definition set_nNonce (b : CBlock) (n : Z) : CBlock :=
  {| nVersion := nVersion b; hashPrevBlock := hashPrevBlock b;
     hashMerkleRoot := hashMerkleRoot b;
     hashWitnessMerkleRoot := hashWitnessMerkleRoot b;
     nTime := nTime b; nBits := nBits b; nNonce := n;
     mapAccumulatorHashes := mapAccumulatorHashes b;
     hashVeilData := hashVeilData b; hashPoFN := hashPoFN b;
     fProofOfStake := fProofOfStake b; vchBlockSig := vchBlockSig b;
     block_vtx := block_vtx b |}.

(** Lines 838-843: [pblock->nNonce = 0], then the critical section under
    [cs_main]: [nExtraNonce = nNonceLocal], an [unsigned int], and
    [IncrementExtraNonce] with the tip [pindexPrev] of that moment.  The
    result is the shared state, the block and [nExtraNonce]. *)
Definition extra_nonce_section (N : Node) (g : MinerShared) (pindexPrev : CBlockIndex)
    (pblock : CBlock) (nNonceLocal : Z) : option (MinerShared * CBlock * Z) :=
  match IncrementExtraNonce N (static_hashPrevBlock g) (set_nNonce pblock 0) pindexPrev
          (u32 nNonceLocal) with
  | Some (h, b, n) =>
      Some ({| nNonce_base := nNonce_base g; static_hashPrevBlock := h |}, b, n)
  | None => None
  end.

(** Where a proof-of-work thread of [BitcoinMiner] stands: with the template
    that [CreateNewBlock] returned, between the two critical sections, or past
    [IncrementExtraNonce]. *)
Inductive MinerThread :=
| AtTemplate (pblock : CBlock)
| AtExtraNonce (pblock : CBlock) (nNonceLocal : Z)
| AtSearch (pblock : CBlock) (nExtraNonce : Z).

(** What the threads do, one critical section at a time; the threads are
    numbered.  A thread gets a template at its first round or when it comes
    back from the nonce search. *)
Inductive MinerAction :=
| GetsTemplate (thread : nat) (pblock : CBlock)
| ReservesNonce (thread : nat)
| IncrementsExtraNonce (thread : nat) (pindexPrev : CBlockIndex).

(** A call of [IncrementExtraNonce]: the thread, the [nNonceLocal] it had
    reserved, the static [hashPrevBlock] the call found, and the block and
    [nExtraNonce] on return. *)
Record ExtraNonceWritten := {
  w_thread : nat;
  w_reserved : Z;
  w_static : uint256;
  w_block : CBlock;
  w_nExtraNonce : Z;
}.

Record Miners := {
  miner_shared : MinerShared;
  miner_threads : gmap nat MinerThread;
}.

(** At the start of the program: [nNonce_base = 0], a null static
    [hashPrevBlock], no thread. *)
Definition miners_start : Miners :=
  {| miner_shared := {| nNonce_base := 0; static_hashPrevBlock := 0 |};
     miner_threads := ∅ |}.

Definition miner_step (N : Node) (m : Miners) (act : MinerAction)
    : option (Miners * list ExtraNonceWritten) :=
  match act with
  | GetsTemplate t pblock =>
      match miner_threads m !! t with
      | None | Some (AtSearch _ _) =>
          Some ({| miner_shared := miner_shared m;
                   miner_threads := <[ t := AtTemplate pblock ]> (miner_threads m) |}, [])
      | _ => None
      end
  | ReservesNonce t =>
      match miner_threads m !! t with
      | Some (AtTemplate pblock) =>
          match reserve_nonce (miner_shared m) with
          | Some (g, nNonceLocal) =>
              Some ({| miner_shared := g;
                       miner_threads :=
                         <[ t := AtExtraNonce pblock nNonceLocal ]> (miner_threads m) |},
                    [])
          | None => None
          end
      | _ => None
      end
  | IncrementsExtraNonce t pindexPrev =>
      match miner_threads m !! t with
      | Some (AtExtraNonce pblock nNonceLocal) =>
          match extra_nonce_section N (miner_shared m) pindexPrev pblock nNonceLocal with
          | Some (g, b, n) =>
              Some ({| miner_shared := g;
                       miner_threads := <[ t := AtSearch b n ]> (miner_threads m) |},
                    [ {| w_thread := t; w_reserved := nNonceLocal;
                         w_static := static_hashPrevBlock (miner_shared m);
                         w_block := b; w_nExtraNonce := n |} ])
          | None => None
          end
      | _ => None
      end
  end.

(** The threads under a schedule: the state they reach and the calls of
    [IncrementExtraNonce], in order.  No result when the schedule asks a
    thread for a step it is not at, or a step has none. *)
Fixpoint miner_run (N : Node) (m : Miners) (schedule : list MinerAction)
    : option (Miners * list ExtraNonceWritten) :=
  match schedule with
  | [] => Some (m, [])
  | act :: rest =>
      match miner_step N m act with
      | Some (m1, w1) =>
          match miner_run N m1 rest with
          | Some (m2, w2) => Some (m2, w1 ++ w2)
          | None => None
          end
      | None => None
      end
  end.

Definition is_reservation (act : MinerAction) : bool :=
  match act with ReservesNonce _ => true | _ => false end.

(** The extra nonce a coinbase carries: the number pushed after the height. *)
Definition coinbase_extra_nonce (b : CBlock) : option Z :=
  match block_vtx b !! 0%nat with
  | Some (Some cb) =>
      match vin0_scriptSig (tx cb) with
      | _ :: PushScriptNum n :: _ => Some n
      | _ => None
      end
  | _ => None
  end.

(** A value that a thread holds between the two critical sections. *)
Definition pending (m : Miners) (l : Z) : Prop :=
  ∃ t b, miner_threads m !! t = Some (AtExtraNonce b l).

(** What holds of the threads at every moment: the values reserved and not
    yet used are below [nNonce_base], and no two threads hold the same one. *)
Record miners_inv (m : Miners) : Prop := {
  minv_base : 0 ≤ nNonce_base (miner_shared m);
  minv_range :
    ∀ t b l, miner_threads m !! t = Some (AtExtraNonce b l) →
             0 ≤ l < nNonce_base (miner_shared m);
  minv_distinct :
    ∀ t t' b b' l, miner_threads m !! t = Some (AtExtraNonce b l) →
                   miner_threads m !! t' = Some (AtExtraNonce b' l) → t = t';
}.

(** Each call of [IncrementExtraNonce] finds in the static [hashPrevBlock]
    what the call before it left there. *)
Fixpoint static_chain (h : uint256) (log : list ExtraNonceWritten) : Prop :=
  match log with
  | [] => True
  | e :: rest => w_static e = h ∧ static_chain (hashPrevBlock (w_block e)) rest
  end.

(** The extra nonce that a call leaves in the block and in [nExtraNonce]. *)
Definition extra_nonce_written (e : ExtraNonceWritten) : Prop :=
  coinbase_extra_nonce (w_block e) = Some (w_nExtraNonce e)
  ∧ nNonce (w_block e) = 0
  ∧ (w_static e ≠ hashPrevBlock (w_block e) → w_nExtraNonce e = 1)
  ∧ (w_static e = hashPrevBlock (w_block e) → w_nExtraNonce e = w_reserved e + 1).

Definition reservations (schedule : list MinerAction) : nat :=
  length (filter (λ act, is_reservation act = true) schedule).

(** What one round of the proof-of-stake branch of [BitcoinMiner] reads. *)
Record StakeRound := {
  pwallet : bool;                  (* GetMainWallet() is not null *)
  chainActive_Height : Z;
  nTimeLastBlock : Z;
  nTimeBestHeader : Z;
  hashBestBlock : uint256;
  genoverride : bool;
  IsInitialBlockDownload : bool;
  GetNodeCount : Z;
  IsStakingEnabled : bool;
  GetTime : Z;
  MintableCoins : bool;
  IsLocked : bool;
  IsUnlockedForStakingOnly : bool;
  round_GetAdjustedTime : Z;
  mapHashedBlocks : gmap Z Z;
  mapStakeHashCounter : gmap Z Z;
  GetRandInt20 : Z;
  GetRandInt10 : Z;
  MAX_FUTURE_BLOCK_TIME : Z;
}.

(** The globals [fMintableCoins], [nMintableLastCheck] (an [int], which
    takes the [int64_t] of [GetTime()]) and the static [nStakeHashesLast]. *)
Record StakeGlobals := {
  fMintableCoins : bool;
  nMintableLastCheck : Z;
  nStakeHashesLast : Z;
}.

Inductive MinerEvent :=
| MilliSleep (ms : Z).

Inductive RoundOutcome :=
| NextIteration     (* continue: back to the head of the outer loop *)
| BuildTemplate.    (* falls through to CreateNewBlock *)

(** The condition of the [while] at line 779. *)
Definition stake_wait_condition (K : Constants) (W : StakeRound) (fMintable : bool) : bool :=
  (IsLocked W && negb (IsUnlockedForStakingOnly W))
  || negb fMintable
  || (round_GetAdjustedTime W <? nTimeLastBlock W - MAX_PAST_BLOCK_TIME K).

(** Lines 778-794: the [while] whose body ends in [break].  The result is the
    globals, the sleeps made and [fNextIter]. *)
Definition stake_wait (K : Constants) (W : StakeRound) (g : StakeGlobals)
    : StakeGlobals * list MinerEvent * bool :=
  if stake_wait_condition K W (fMintableCoins g) then
    let g1 :=
      if negb (fMintableCoins g) && (1 * 60 <? GetTime W - nMintableLastCheck g)
      then {| fMintableCoins := MintableCoins W;
              nMintableLastCheck := i32 (GetTime W);
              nStakeHashesLast := nStakeHashesLast g |}
      else g in
    let fNextIter := negb (fMintableCoins g) && negb (fMintableCoins g1) in
    (g1, [MilliSleep 2500], fNextIter)
  else (g, [], false).

(** Lines 744-810: the proof-of-stake branch of one round, up to the point
    where the template is built. *)
Definition stake_round (K : Constants) (W : StakeRound) (g : StakeGlobals)
    : StakeGlobals * list MinerEvent * RoundOutcome :=
  if (negb (genoverride W) && (60 * 60 <? nTimeBestHeader W - nTimeLastBlock W))
     || IsInitialBlockDownload W
  then (g, [MilliSleep 5000], NextIteration)
  else if negb (pwallet W) || (GetNodeCount W =? 0) || negb (IsStakingEnabled W)
          || (chainActive_Height W <? HeightPoSStart K)
  then (g, [MilliSleep 5000], NextIteration)
  else
    let g1 :=
      if 5 * 60 <? GetTime W - nMintableLastCheck g
      then {| fMintableCoins := MintableCoins W;
              nMintableLastCheck := i32 (GetTime W);
              nStakeHashesLast := nStakeHashesLast g |}
      else g in
    let '(g2, sleeps, fNextIter) := stake_wait K W g1 in
    if fNextIter then (g2, sleeps, NextIteration)
    else
      match mapHashedBlocks W !! hashBestBlock W with
      | Some lastHashed =>
          let g3 :=
            match mapStakeHashCounter W !! chainActive_Height W with
            | Some n =>
                if decide (n ≠ nStakeHashesLast g2)
                then {| fMintableCoins := fMintableCoins g2;
                        nMintableLastCheck := nMintableLastCheck g2;
                        nStakeHashesLast := n |}
                else g2
            | None => g2
            end in
          if round_GetAdjustedTime W + MAX_FUTURE_BLOCK_TIME W - lastHashed
             <? 60 + GetRandInt20 W
          then (g3, sleeps ++ [MilliSleep (GetRandInt10 W * 1000)], NextIteration)
          else (g3, sleeps, BuildTemplate)
      | None => (g2, sleeps, BuildTemplate)
      end.

(** ** Concrete data for the examples *)

Definition K0 : Constants :=
  {| WITNESS_SCALE_FACTOR := 4;
     MAX_BLOCK_WEIGHT := 4000000;
     MAX_BLOCK_SIGOPS_COST := 80000;
     DEFAULT_BLOCK_MAX_WEIGHT := 3996000;
     DEFAULT_BLOCK_MIN_TX_FEE := 1000;
     MAX_PAST_BLOCK_TIME := 15;
     STANDARD_LOCKTIME_VERIFY_FLAGS := 3;
     LOCKTIME_MEDIAN_TIME_PAST := 2;
     HeightPoSStart := 1500;
     MaxNetworkReward := 1000;
     MineBlocksOnDemand := false;
     fPowAllowMinDifficultyBlocks := false |}.

Definition args0 : gArgs :=
  {| arg_blockmaxweight := None; arg_blockmintxfee := None; arg_blockversion := None |}.

Definition assembler0 : BlockAssembler := BlockAssembler_new K0 (DefaultOptions K0 args0).

(** ** The configured minimum fee rate *)

(** The assembler [a] built with another [blockMinFeeRate]. *)
Definition with_blockMinFeeRate (r : CAmount) (a : BlockAssembler) : BlockAssembler :=
  {| blockMinFeeRate := r;
     nBlockMaxWeight := nBlockMaxWeight a;
     fIncludeWitness := fIncludeWitness a;
     vtx := vtx a; vTxFees := vTxFees a; vTxSigOpsCost := vTxSigOpsCost a;
     nBlockWeight := nBlockWeight a; nBlockTx := nBlockTx a;
     nBlockSigOpsCost := nBlockSigOpsCost a; nFees := nFees a;
     inBlock := inBlock a; nHeight := nHeight a;
     nLockTimeCutoff := nLockTimeCutoff a |}.

Definition selection_with_blockMinFeeRate (r : CAmount) (s : PackageSelection)
    : PackageSelection :=
  {| assembler := with_blockMinFeeRate r (assembler s);
     mapModifiedTx := mapModifiedTx s;
     failedTx := failedTx s;
     mi := mi s;
     nConsecutiveFailed := nConsecutiveFailed s;
     nPackagesSelected := nPackagesSelected s;
     nDescendantsUpdated := nDescendantsUpdated s |}.

Definition LoopStep_map (f : PackageSelection → PackageSelection) (r : LoopStep) : LoopStep :=
  match r with
  | Continue s => Continue (f s)
  | Break s => Break (f s)
  | AssertFailed => AssertFailed
  end.

Definition Run_map (f : PackageSelection → PackageSelection) (r : Run) : Run :=
  match r with
  | Finished s => Finished (f s)
  | OutOfFuel s => OutOfFuel (f s)
  | Aborted => Aborted
  end.

(** The transactions a run has put in the block. *)
Definition Run_vtx (r : Run) : option (list CTransactionRef) :=
  match r with
  | Finished s | OutOfFuel s => Some (vtx (assembler s))
  | Aborted => None
  end.

Definition example_tx (hash : Z) (spend mint anon : bool) (serials pubcoins : list Z)
    (outs : list CTxOutBase) : CTransaction :=
  {| tx := {| vin0_prevout_IsNull := false; vin0_scriptSig := [];
              vin0_IsAnonInput := anon;
              IsZerocoinSpend := spend; IsZerocoinMint := mint;
              SerialHashes := serials; PubcoinHashes := pubcoins;
              HasWitness := false; vpout := outs |};
     GetHash := hash |}.

Definition example_entry (t : CTransaction) (size fee count sizeAnc feeAnc : Z)
    (parents : list Z) : CTxMemPoolEntry :=
  {| GetSharedTx := t;
     GetTxSize := size; GetTxWeight := 4 * size;
     GetFee := fee; GetModifiedFee := fee; GetSigOpCost := 4;
     GetCountWithAncestors := count;
     GetSizeWithAncestors := sizeAnc;
     GetModFeesWithAncestors := feeAnc;
     GetSigOpCostWithAncestors := 4 * count;
     GetMemPoolParents := parents |}.

Definition tip0 : CBlockIndex :=
  {| bi_nHeight := 99; GetBlockHash := 7777; GetBlockTime := 1000;
     GetMedianTimePast := 990; nNetworkRewardReserve := 990;
     bi_mapAccumulatorHashes := [] |}.

(** A node whose chain has confirmed what [serialInChain] and [pubcoinInChain]
    say, whose UTXO view has the inputs of the transactions [haveInputs]
    accepts, and whose wallet stakes [stake]. *)
Definition example_node (tip : CBlockIndex) (final : bool)
    (serialInChain pubcoinInChain haveInputs : Z → bool)
    (rewards : Z * Z * Z * Z) (stake : option (CMutableTransaction * Z)) : Node :=
  {| chainActive_Tip := tip;
     GetAdjustedTime := 1010;
     GetMainWallet := true;
     CreateCoinStake := λ _ _, stake;
     mempool_TRY_LOCK := true;
     ComputeBlockVersion := λ _, 4;
     GetNextWorkRequired := λ _ _ _, 486604799;
     IsFinalTx := λ _ _ _, final;
     IsSerialInBlockchain := λ h _, serialInChain h;
     IsPubcoinInBlockchain := λ h _, pubcoinInChain h;
     HaveInputs := λ t, haveInputs (GetHash t);
     rewardScript := [Opcode 99];
     GetBlockRewards := λ _, rewards;
     budgetScript := [Opcode 1];
     labScript := [Opcode 2];
     founderScript := [Opcode 3];
     ComputeHash := λ m, 1000000 + Z.of_nat (length (vpout m));
     COINBASE_FLAGS := [Opcode 47];
     CScript_size := λ s, 6 * Z.of_nat (length s);
     BlockMerkleRoot := λ _, 1;
     BlockWitnessMerkleRoot := λ _, 2;
     GetLegacySigOpCount := λ _, 0;
     CalculateAccumulatorCheckpoint := λ _, [];
     GetFullNodeHash := λ _ _, 3;
     GetVeilDataHash := λ _, 4;
     CBlock_GetHash := λ _, 5;
     TxInToZerocoinSpend := λ t, head (SerialHashes (tx t));
     GetZerocoinKey := λ serial, Some serial;
     CKey_Sign := λ _ _, Some [1; 2; 3];
     TestBlockValidity := λ _ _, true |}.

Definition no_hash : Z → bool := λ _, false.
Definition any_hash : Z → bool := λ _, true.

Definition N0 : Node :=
  example_node tip0 true no_hash no_hash any_hash (50, 0, 0, 0) None.

(** Three ordinary transactions: A (hash 11), its child B (12), and C (13). *)
Definition txA : CTransaction := example_tx 11 false false false [] [] [].
Definition txB : CTransaction := example_tx 12 false false false [] [] [].
Definition txC : CTransaction := example_tx 13 false false false [] [] [].

Definition pool_ABC : gmap Z CTxMemPoolEntry :=
  <[ 11 := example_entry txA 100 100 1 100 100 [] ]>
  (<[ 12 := example_entry txB 100 200 2 200 300 [11] ]>
  (<[ 13 := example_entry txC 100 50 1 100 50 [] ]> ∅)).

Definition assembler1 : BlockAssembler :=
  assembler_at_selection K0 N0 (resetBlock assembler0) 1010.

(** A node on which no transaction is final. *)
Definition N_nonfinal : Node :=
  example_node tip0 false no_hash no_hash any_hash (50, 0, 0, 0) None.

(** ** Views of a call of [CreateNewBlock] *)

(** The state in which [addPackageTxs] returns inside [CreateNewBlock]. *)
Definition selection_of (K : Constants) (N : Node) (pool : CTxMemPool)
    (a0 : BlockAssembler) (fPoS : bool) : option PackageSelection :=
  match stake_stage K N fPoS with
  | Some (_, nTimeStake, _) =>
      match addPackageTxs (selection_fuel pool) K N pool
              (assembler_at_selection K N (resetBlock a0) (pow_time K N fPoS nTimeStake)) with
      | Finished s => Some s
      | _ => None
      end
  | None => None
  end.

(** [pblock->vtx] when [addPackageTxs] has returned (line 196). *)
Definition selected_vtx (K : Constants) (N : Node) (pool : CTxMemPool)
    (a0 : BlockAssembler) (fPoS : bool) : list CTransactionRef :=
  from_option (λ s, vtx (assembler s)) [] (selection_of K N pool a0 fPoS).

(** The sets and the reserve when the first loop over [pblock->vtx] ends
    (line 275). *)
Definition screening_of (K : Constants) (N : Node) (pool : CTxMemPool)
    (a0 : BlockAssembler) (fPoS : bool) : Screening :=
  screen_block N (bi_nHeight (chainActive_Tip N) + 1)
    (nNetworkRewardReserve (chainActive_Tip N)) (selected_vtx K N pool a0 fPoS).

(** [nNetworkReward] (line 300). *)
Definition capped_reward (K : Constants) (reserve : CAmount) : CAmount :=
  if MaxNetworkReward K <? reserve then MaxNetworkReward K else reserve.

Definition network_reward_of (K : Constants) (N : Node) (pool : CTxMemPool)
    (a0 : BlockAssembler) (fPoS : bool) : CAmount :=
  capped_reward K (nNetworkRewardReserve_acc (screening_of K N pool a0 fPoS)).

(** The output list of the coinbase as the table of the specification gives
    it, by proof-of-stake, budget payment > 0 and founder payment > 0. *)
Definition coinbase_schema (N : Node) (fPoS : bool) (scriptPubKeyIn : CScript)
    (nBlockReward nFounderPayment nLabPayment nBudgetPayment nNetworkReward : CAmount)
    : list CTxOutBase :=
  let miner := CTxOutStandard_mk scriptPubKeyIn (nBlockReward + nNetworkReward) in
  let budget := CTxOutStandard_mk (budgetScript N) nBudgetPayment in
  let lab := CTxOutStandard_mk (labScript N) nLabPayment in
  let founder := CTxOutStandard_mk (founderScript N) nFounderPayment in
  match fPoS, 0 <? nBudgetPayment, 0 <? nFounderPayment with
  | false, false, _ => [miner]
  | false, true, false => [miner; budget; lab]
  | false, true, true => [miner; budget; lab; founder]
  | true, false, _ => [CTxOutStandard_mk [] 0]
  | true, true, false => [budget; lab]
  | true, true, true => [budget; lab; founder]
  end.

(** The first index of [block.vtx] that holds a mempool transaction. *)
Definition first_pool_slot (fPoS : bool) : nat := if fPoS then 2%nat else 1%nat.

(** A node that pays budget, lab and founder. *)
Definition N_budget : Node :=
  example_node tip0 true no_hash no_hash any_hash (50, 10, 20, 30) None.

(** A proof-of-work block on tip 7777 whose coinbase carries the height. *)
Definition block_7777 : CBlock :=
  {| nVersion := 4; hashPrevBlock := 7777; hashMerkleRoot := 1;
     hashWitnessMerkleRoot := 2; nTime := 1010; nBits := 486604799; nNonce := 0;
     mapAccumulatorHashes := []; hashVeilData := 4; hashPoFN := 0;
     fProofOfStake := false; vchBlockSig := [];
     block_vtx :=
       [Some (MakeTransactionRef N0 (coinbaseTx_new 100 [CTxOutStandard_mk [Opcode 5] 1040]))] |}.

(** A proof-of-work block on an earlier tip, 1111. *)
Definition block_1111 : CBlock :=
  {| nVersion := 4; hashPrevBlock := 1111; hashMerkleRoot := 1;
     hashWitnessMerkleRoot := 2; nTime := 900; nBits := 486604799; nNonce := 0;
     mapAccumulatorHashes := []; hashVeilData := 4; hashPoFN := 0;
     fProofOfStake := false; vchBlockSig := [];
     block_vtx :=
       [Some (MakeTransactionRef N0 (coinbaseTx_new 99 [CTxOutStandard_mk [Opcode 5] 1040]))] |}.

(** One round of thread [t] on the block [b], the two critical sections with
    no other thread in between. *)
Definition round_of (t : nat) (b : CBlock) : list MinerAction :=
  [GetsTemplate t b; ReservesNonce t; IncrementsExtraNonce t tip0].

(** One thread: five rounds on the tip 1111, then two on the tip 7777. *)
Definition schedule_tip_change : list MinerAction :=
  round_of 1 block_1111 ++ round_of 1 block_1111 ++ round_of 1 block_1111
  ++ round_of 1 block_1111 ++ round_of 1 block_1111
  ++ round_of 1 block_7777 ++ round_of 1 block_7777.

(** Two threads on the tip 7777 from the start: thread 1 reserves first,
    thread 2 is first in [IncrementExtraNonce]. *)
Definition schedule_two_threads : list MinerAction :=
  [GetsTemplate 1 block_7777; GetsTemplate 2 block_7777;
   ReservesNonce 1; ReservesNonce 2;
   IncrementsExtraNonce 2 tip0; IncrementsExtraNonce 1 tip0].

(** A staking round with connections, a synced chain and mintable coins, in
    which the wallet is locked (and not unlocked for staking only). *)
Definition round_locked : StakeRound :=
  {| pwallet := true; chainActive_Height := 2000; nTimeLastBlock := 1000;
     nTimeBestHeader := 1000; hashBestBlock := 7777; genoverride := false;
     IsInitialBlockDownload := false; GetNodeCount := 8; IsStakingEnabled := true;
     GetTime := 1010; MintableCoins := true;
     IsLocked := true; IsUnlockedForStakingOnly := false;
     round_GetAdjustedTime := 1010;
     mapHashedBlocks := ∅; mapStakeHashCounter := ∅;
     GetRandInt20 := 7; GetRandInt10 := 3; MAX_FUTURE_BLOCK_TIME := 15 |}.

Definition globals_mintable : StakeGlobals :=
  {| fMintableCoins := true; nMintableLastCheck := 1000; nStakeHashesLast := 0 |}.

(** ** Well-formed mempools *)

(** What the selector relies on of the mempool's own bookkeeping: an entry is
    filed under the hash of its transaction; its ancestor count (which counts
    the entry itself) is positive, at most the size of the pool, and larger
    than the count of each parent that is in the pool. *)
Definition entry_consistent (pool : CTxMemPool) (h : Z) (e : CTxMemPoolEntry) : bool :=
  bool_decide (GetHash (GetSharedTx e) = h)
  && (0 <? GetCountWithAncestors e)
  && (GetCountWithAncestors e <=? Z.of_nat (size pool))
  && forallb
       (λ p, match pool !! p with
             | Some ep => GetCountWithAncestors ep <? GetCountWithAncestors e
             | None => true
             end)
       (GetMemPoolParents e).

Definition mempool_consistent (pool : CTxMemPool) : Prop :=
  map_Forall (λ h e, entry_consistent pool h e = true) pool.

(** The shared pointer [AddToBlock] pushes for the iterator [h]. *)
Definition tx_of (pool : CTxMemPool) (h : txiter) : CTransactionRef :=
  Some (GetSharedTx (pool !!! h)).

(** ** The invariant of the selection loop *)

(** [order] lists the iterators put in the block so far, in the order of
    [AddToBlock]; the block started from [v0]. *)
Record selection_inv (pool : CTxMemPool) (v0 : list CTransactionRef)
    (s : PackageSelection) (order : list txiter) : Prop := {
  inv_vtx : vtx (assembler s) = v0 ++ (tx_of pool <$> order);
  inv_inBlock : ∀ h, h ∈ order ↔ h ∈ inBlock (assembler s);
  inv_NoDup : NoDup order;
  inv_pool : ∀ h, h ∈ order → is_Some (pool !! h);
  inv_before :
    ∀ i h a, order !! i = Some h → a ∈ CalculateMemPoolAncestors pool h →
             ∃ j, (j < i)%nat ∧ order !! j = Some a;
  inv_modified :
    ∀ k m, mapModifiedTx s !! k = Some m →
           iter m = k ∧ is_Some (pool !! k) ∧ k ∉ inBlock (assembler s);
  inv_mi : ∀ h, h ∈ mi s → is_Some (pool !! h);
}.

(** ** Views of the screening *)

(** Whether the loop body marks [ptx] duplicate when it runs from [sc]. *)
Definition marks_duplicate (N : Node) (height : Z) (sc : Screening)
    (ptx : CTransaction) : bool :=
  (check_serials N height (in_order (setTxSerialHashes ptx)) (setSerials sc)).2
  || (check_pubcoins N (in_order (setTxPubcoinHashes ptx)) (setPubcoins sc)).2.

Definition sum_Z (l : list Z) : Z := foldr Z.add 0 l.

(** A standard output whose script is the script of the network reward
    address. *)
Definition pays_reward (N : Node) (pout : CTxOutBase) : Prop :=
  IsStandardOutput pout = true ∧ GetPScriptPubKey pout = rewardScript N.

#[global] Instance pays_reward_dec N pout : Decision (pays_reward N pout).
Proof. unfold pays_reward. apply _. Defined.

(** What a transaction sends to the network reward address. *)
Definition paid_to_reward (N : Node) (t : CTransaction) : CAmount :=
  sum_Z (GetValue <$> filter (pays_reward N) (vpout (tx t))).

(** The reserve as C4 words it: the carried reserve plus what every
    transaction of the scanned block sends to the reward address. *)
Definition reserve_of_all (N : Node) (prev : CAmount) (txs : list CTransactionRef)
    : CAmount :=
  prev + sum_Z (paid_to_reward N <$> omap id txs).

(** The same sum over the transactions that are not marked duplicate. *)
Definition reserve_of_unmarked (N : Node) (dup : gset Z) (prev : CAmount)
    (txs : list CTransactionRef) : CAmount :=
  prev + sum_Z (paid_to_reward N <$> filter (λ t, GetHash t ∉ dup) (omap id txs)).

(** Two zerocoin spends of serial 501; the first, of higher fee rate, also
    spends serial 500. *)
Definition tx_spend_500_501 : CTransaction := example_tx 31 true false false [500; 501] [] [].
Definition tx_spend_501 : CTransaction := example_tx 32 true false false [501] [] [].

Definition pool_two_spends : gmap Z CTxMemPoolEntry :=
  <[ 31 := example_entry tx_spend_500_501 100 300 1 100 300 [] ]>
  (<[ 32 := example_entry tx_spend_501 100 100 1 100 100 [] ]> ∅).

(** A node whose chain has confirmed serial 500. *)
Definition N_serial_500 : Node :=
  example_node tip0 true (λ h, bool_decide (h = 500)) no_hash any_hash (50, 0, 0, 0) None.

(** The hashes of [hashes] in [examined] go through the loop of
    [check_hashes] unharmed and the next one, [c], collides: it is in [seen]
    already (possibly put there by this very loop) or the chain has it. *)
Definition collides_after (inChain : uint256 → bool) (seen : gset Z)
    (hashes examined : list uint256) : Prop :=
  ∃ c rest,
    hashes = examined ++ c :: rest
    ∧ (∀ x, x ∈ examined → (x ∉ seen) ∧ inChain x = false)
    ∧ (c ∈ seen ∨ inChain c = true).

(** All of [hashes] go through the loop unharmed. *)
Definition all_pass (inChain : uint256 → bool) (seen : gset Z)
    (hashes : list uint256) : Prop :=
  ∀ x, x ∈ hashes → (x ∉ seen) ∧ inChain x = false.

(** The transaction [X], screened from the state [sc], is marked duplicate
    after its serial hashes [examinedS] and its pubcoin hashes [examinedP] have
    been examined and recorded: the collision is in the serial loop, or the
    serial loop passes and the collision is in the pubcoin loop. *)
Definition marked_after (N : Node) (height : Z) (sc : Screening) (X : CTransaction)
    (examinedS examinedP : list uint256) : Prop :=
  (collides_after (λ h, IsSerialInBlockchain N h height) (setSerials sc)
     (in_order (setTxSerialHashes X)) examinedS
   ∧ examinedP = [])
  ∨ (examinedS = in_order (setTxSerialHashes X)
     ∧ all_pass (λ h, IsSerialInBlockchain N h height) (setSerials sc) examinedS
     ∧ collides_after (λ h, IsPubcoinInBlockchain N h (chainActive_Tip N))
         (setPubcoins sc) (in_order (setTxPubcoinHashes X)) examinedP).

(** A spend of serials 499 and 500, and a later spend of serial 499. *)
Definition tx_spend_499_500 : CTransaction := example_tx 41 true false false [499; 500] [] [].
Definition tx_spend_499 : CTransaction := example_tx 42 true false false [499] [] [].

(** A chain tip that carries a reserve of 100. *)
Definition tip_reserve_100 : CBlockIndex :=
  {| bi_nHeight := 99; GetBlockHash := 7777; GetBlockTime := 1000;
     GetMedianTimePast := 990; nNetworkRewardReserve := 100;
     bi_mapAccumulatorHashes := [] |}.

(** A spend of the confirmed serial 500 that sends 100 to the reward address. *)
Definition tx_spend_500_pays_reward : CTransaction :=
  example_tx 51 true false false [500] [] [CTxOutStandard_mk [Opcode 99] 100].

(** An ordinary transaction that sends 40 to the reward address. *)
Definition tx_pays_reward : CTransaction :=
  example_tx 52 false false false [] [] [CTxOutStandard_mk [Opcode 99] 40].

Definition pool_pays_reward : gmap Z CTxMemPoolEntry :=
  <[ 51 := example_entry tx_spend_500_pays_reward 100 300 1 100 300 [] ]>
  (<[ 52 := example_entry tx_pays_reward 100 100 1 100 100 [] ]> ∅).

Definition N_reserve_100 : Node :=
  example_node tip_reserve_100 true (λ h, bool_decide (h = 500)) no_hash any_hash
    (50, 0, 0, 0) None.

(** A mint of the confirmed pubcoin 600 and a zerocoin spend that is its
    child in the mempool. *)
Definition tx_mint_600 : CTransaction := example_tx 61 false true false [] [600] [].
Definition tx_child_spend : CTransaction := example_tx 62 true false false [700] [] [].

Definition pool_mint_child : gmap Z CTxMemPoolEntry :=
  <[ 61 := example_entry tx_mint_600 100 100 1 100 100 [] ]>
  (<[ 62 := example_entry tx_child_spend 100 200 2 200 300 [61] ]> ∅).

(** A node whose chain has accumulated pubcoin 600. *)
Definition N_pubcoin_600 : Node :=
  example_node tip0 true no_hash (λ h, bool_decide (h = 600)) any_hash (50, 0, 0, 0) None.

(** ** The measure of the selection loop *)

(** What an iteration of the loop of [addPackageTxs] uses up: the distance of
    the cursor from [end()], the entries of the overlay, and the pool entries
    not yet in the block; the last are weighted so that a commit pays for the
    overlay entries that [UpdatePackagesForAdded] creates. *)
Definition selection_measure (pool : CTxMemPool) (s : PackageSelection) : nat :=
  (length (mi s) + size (mapModifiedTx s)
   + (size pool + 1) * size (dom pool ∖ inBlock (assembler s)))%nat.

(** ** More views of a call of [CreateNewBlock] *)

(** [nLockTimeCutoff] as line 178 sets it: the median time past of the tip
    when the flag is set, else the block time at that point. *)
Definition selection_cutoff (K : Constants) (N : Node) (fPoS : bool) : Z :=
  if decide (Z.land (STANDARD_LOCKTIME_VERIFY_FLAGS K) (LOCKTIME_MEDIAN_TIME_PAST K) ≠ 0)
  then GetMedianTimePast (chainActive_Tip N)
  else pow_time K N fPoS (from_option (λ r, r.1.2) 0 (stake_stage K N fPoS)).

(** The two tests [TestPackageTransactions] makes on one entry. *)
Definition final_and_witness_ok (N : Node) (pool : CTxMemPool) (height cutoff : Z)
    (fWitness : bool) (it : txiter) : bool :=
  let t := GetSharedTx (pool !!! it) in
  IsFinalTx N t height cutoff && negb (negb fWitness && HasWitness (tx t)).

(** The assembler keeps the height, the cutoff and the witness flag it was
    given, and every entry of [inBlock] passes the two tests. *)
Definition tested (N : Node) (pool : CTxMemPool) (height cutoff : Z) (fWitness : bool)
    (a : BlockAssembler) : Prop :=
  nHeight a = height ∧ nLockTimeCutoff a = cutoff ∧ fIncludeWitness a = fWitness
  ∧ ∀ h, h ∈ inBlock a → final_and_witness_ok N pool height cutoff fWitness h = true.

(** A tip past the start of proof of stake, and a node whose wallet stakes a
    zerocoin spend of serial 900 at time 1020. *)
Definition tip_1600 : CBlockIndex :=
  {| bi_nHeight := 1600; GetBlockHash := 8888; GetBlockTime := 1000;
     GetMedianTimePast := 990; nNetworkRewardReserve := 0;
     bi_mapAccumulatorHashes := [] |}.

Definition coinstake_900 : CMutableTransaction :=
  {| vin0_prevout_IsNull := false; vin0_scriptSig := []; vin0_IsAnonInput := false;
     IsZerocoinSpend := true; IsZerocoinMint := false;
     SerialHashes := [900]; PubcoinHashes := []; HasWitness := false; vpout := [] |}.

Definition N_staking : Node :=
  example_node tip_1600 true no_hash no_hash any_hash (50, 0, 0, 0)
    (Some (coinstake_900, 1020)).

(** ** The nonce search of [BitcoinMiner] *)

Definition nInnerLoopCount : Z := 65536.   (* 0x010000 *)

(** The [while] of lines 846-850.  [CheckProofOfWork] stands for the test of
    the block's proof-of-work hash against its [nBits]; [remaining] is
    [nInnerLoopCount - nTries].  The result is [nTries] and the block. *)
Fixpoint nonce_search (CheckProofOfWork : CBlock → bool) (remaining : nat)
    (nTries : Z) (pblock : CBlock) : Z * CBlock :=
  match remaining with
  | O => (nTries, pblock)
  | S remaining' =>
      if CheckProofOfWork pblock then (nTries, pblock)
      else nonce_search CheckProofOfWork remaining' (nTries + 1)
             (set_nNonce pblock (u32 (nNonce pblock + 1)))
  end.

(** Lines 845-858: the block that goes on to [ProcessNewBlock], [None] when
    the round ends in [continue] because [nTries == nInnerLoopCount]. *)
Definition search_block (CheckProofOfWork : CBlock → bool) (pblock : CBlock)
    : option CBlock :=
  let r := nonce_search CheckProofOfWork (Z.to_nat nInnerLoopCount) 0 pblock in
  if r.1 =? nInnerLoopCount then None else Some r.2.

(** ** Views of [UpdatePackagesForAdded] *)

(** The entries of [added] that have [d] among their descendants, in the
    order in which the outer loop visits them. *)
Definition added_ancestors (pool : CTxMemPool) (added : gset Z) (d : txiter)
    : list txiter :=
  filter (λ it, d ∈ CalculateDescendants pool it) (in_order added).

(** The overlay entry of [d] after it was updated for each of [through]. *)
Definition updated_entry (pool : CTxMemPool) (m : gmap Z CTxMemPoolModifiedEntry)
    (d : txiter) (through : list txiter) : option CTxMemPoolModifiedEntry :=
  match through with
  | [] => m !! d
  | _ => Some (foldl (λ e it, update_for_parent_inclusion pool it e)
                 (default (CTxMemPoolModifiedEntry_new pool d) (m !! d)) through)
  end.

(** ** Sizes and sigop costs of packages *)

(** The sum of [f] over a set of entries. *)
Definition sum_over (f : Z → Z) (s : gset Z) : Z := sum_Z (f <$> elements s).

(** The package of [k], that is the entry and its in-mempool ancestors,
    less what is in the block already. *)
Definition remaining_package (pool : CTxMemPool) (inBlock : gset Z) (k : txiter)
    : gset Z :=
  ({[ k ]} ∪ CalculateMemPoolAncestors pool k) ∖ inBlock.

(** What the selector relies on of the sizes and sigop costs the mempool
    caches: sizes, weights and sigop costs are not negative, a weight is at
    most [WITNESS_SCALE_FACTOR] times the virtual size, size and sigop cost
    with ancestors are the sums over the entry and its in-mempool ancestors,
    and the two tests of [TestPackage] do not overflow 64 bits. *)
Definition entry_costs_coherent (K : Constants) (pool : CTxMemPool) (maxWeight : Z)
    (k : txiter) (e : CTxMemPoolEntry) : bool :=
  (0 <=? GetTxSize e) && (0 <=? GetTxWeight e) && (0 <=? GetSigOpCost e)
  && (GetTxWeight e <=? WITNESS_SCALE_FACTOR K * GetTxSize e)
  && (GetSizeWithAncestors e
      =? sum_over (λ x, GetTxSize (pool !!! x))
           ({[ k ]} ∪ CalculateMemPoolAncestors pool k))
  && (GetSigOpCostWithAncestors e
      =? sum_over (λ x, GetSigOpCost (pool !!! x))
           ({[ k ]} ∪ CalculateMemPoolAncestors pool k))
  && (WITNESS_SCALE_FACTOR K * GetSizeWithAncestors e + maxWeight <? 2 ^ 64)
  && (GetSigOpCostWithAncestors e + MAX_BLOCK_SIGOPS_COST K <? 2 ^ 64).

Definition mempool_costs_coherent (K : Constants) (pool : CTxMemPool) (maxWeight : Z)
    : Prop :=
  1 ≤ WITNESS_SCALE_FACTOR K ∧ 0 ≤ maxWeight ∧ 0 ≤ MAX_BLOCK_SIGOPS_COST K
  ∧ map_Forall (λ k e, entry_costs_coherent K pool maxWeight k e = true) pool.

(** The invariant of the selection loop on the two limits of the block: the
    weight and the sigop cost are the initial ones plus those of the entries
    added, they stay within their limits, and the size and the sigop cost of
    an overlay entry are at least those of what is left of its package and at
    most those the mempool caches. *)
Record limits_inv (K : Constants) (pool : CTxMemPool) (a0 : BlockAssembler)
    (s : PackageSelection) : Prop := {
  linv_max : nBlockMaxWeight (assembler s) = nBlockMaxWeight a0;
  linv_sums :
    ∃ order : list txiter,
      vtx (assembler s) = vtx a0 ++ (tx_of pool <$> order)
      ∧ nBlockWeight (assembler s)
        = nBlockWeight a0 + sum_Z ((λ h, GetTxWeight (pool !!! h)) <$> order)
      ∧ nBlockSigOpsCost (assembler s)
        = nBlockSigOpsCost a0 + sum_Z ((λ h, GetSigOpCost (pool !!! h)) <$> order);
  linv_weight : 0 ≤ nBlockWeight (assembler s) ≤ nBlockMaxWeight a0;
  linv_sigops : 0 ≤ nBlockSigOpsCost (assembler s) ≤ MAX_BLOCK_SIGOPS_COST K;
  linv_overlay_size :
    ∀ k m, mapModifiedTx s !! k = Some m →
      sum_over (λ x, GetTxSize (pool !!! x))
        (remaining_package pool (inBlock (assembler s)) k)
      ≤ nSizeWithAncestors m ≤ GetSizeWithAncestors (pool !!! k);
  linv_overlay_sigops :
    ∀ k m, mapModifiedTx s !! k = Some m →
      sum_over (λ x, GetSigOpCost (pool !!! x))
        (remaining_package pool (inBlock (assembler s)) k)
      ≤ nSigOpCostWithAncestors m ≤ GetSigOpCostWithAncestors (pool !!! k);
}.

(** ** The screening, transaction by transaction *)

(** The sets and the reserve when the first loop over [pblock->vtx] comes to
    the index [i]. *)
Definition screening_before (K : Constants) (N : Node) (pool : CTxMemPool)
    (a0 : BlockAssembler) (fPoS : bool) (i : nat) : Screening :=
  screen_block N (bi_nHeight (chainActive_Tip N) + 1)
    (nNetworkRewardReserve (chainActive_Tip N)) (take i (selected_vtx K N pool a0 fPoS)).

(** A node that stakes the zerocoin of serial 900 and whose chain has
    confirmed serial 901; two spends in the mempool, of serials 900 and 901
    and of serial 900. *)
Definition N_staking_901 : Node :=
  example_node tip_1600 true (λ h, bool_decide (h = 901)) no_hash any_hash (50, 0, 0, 0)
    (Some (coinstake_900, 1020)).

Definition tx_spend_900_901 : CTransaction := example_tx 71 true false false [900; 901] [] [].
Definition tx_spend_900 : CTransaction := example_tx 72 true false false [900] [] [].

Definition pool_spends_900 : gmap Z CTxMemPoolEntry :=
  <[ 71 := example_entry tx_spend_900_901 100 300 1 100 300 [] ]>
  (<[ 72 := example_entry tx_spend_900 100 100 1 100 100 [] ]> ∅).

(** The node [N] with another [TestBlockValidity]. *)
Definition with_TestBlockValidity (N : Node) (valid : CBlock → CBlockIndex → bool) : Node :=
  {| chainActive_Tip := chainActive_Tip N;
     GetAdjustedTime := GetAdjustedTime N;
     GetMainWallet := GetMainWallet N;
     CreateCoinStake := CreateCoinStake N;
     mempool_TRY_LOCK := mempool_TRY_LOCK N;
     ComputeBlockVersion := ComputeBlockVersion N;
     GetNextWorkRequired := GetNextWorkRequired N;
     IsFinalTx := IsFinalTx N;
     IsSerialInBlockchain := IsSerialInBlockchain N;
     IsPubcoinInBlockchain := IsPubcoinInBlockchain N;
     HaveInputs := HaveInputs N;
     rewardScript := rewardScript N;
     GetBlockRewards := GetBlockRewards N;
     budgetScript := budgetScript N;
     labScript := labScript N;
     founderScript := founderScript N;
     ComputeHash := ComputeHash N;
     COINBASE_FLAGS := COINBASE_FLAGS N;
     CScript_size := CScript_size N;
     BlockMerkleRoot := BlockMerkleRoot N;
     BlockWitnessMerkleRoot := BlockWitnessMerkleRoot N;
     GetLegacySigOpCount := GetLegacySigOpCount N;
     CalculateAccumulatorCheckpoint := CalculateAccumulatorCheckpoint N;
     GetFullNodeHash := GetFullNodeHash N;
     GetVeilDataHash := GetVeilDataHash N;
     CBlock_GetHash := CBlock_GetHash N;
     TxInToZerocoinSpend := TxInToZerocoinSpend N;
     GetZerocoinKey := GetZerocoinKey N;
     CKey_Sign := CKey_Sign N;
     TestBlockValidity := valid |}.

(** The node of the mint of pubcoin 600, on which no block is valid. *)
Definition N_pubcoin_600_invalid : Node :=
  with_TestBlockValidity N_pubcoin_600 (λ _ _, false).
(** Two spends of serial 499; the first also spends the confirmed serial
    500. *)
Definition pool_spends_499 : gmap Z CTxMemPoolEntry :=
  <[ 41 := example_entry tx_spend_499_500 100 300 1 100 300 [] ]>
  (<[ 42 := example_entry tx_spend_499 100 100 1 100 100 [] ]> ∅).

(** * Properties *)

(** ** Resource accounting *)

Lemma u64_small x : 0 ≤ x < 2 ^ 64 → u64 x = x.
Proof. intros H. unfold u64. apply Z.mod_small. exact H. Qed.

(** C5, as the code has it: the two sums are taken in [uint64_t], so
    [TestPackage] accepts exactly when the block weight plus
    [WITNESS_SCALE_FACTOR] times the package size, modulo 2^64, is strictly
    below [nBlockMaxWeight] and the sigop cost plus the package's, modulo
    2^64, is strictly below [MAX_BLOCK_SIGOPS_COST].  When neither sum wraps
    these are the two strict inequalities on the sums themselves. *)
Theorem TestPackage_iff (K : Constants) (a : BlockAssembler)
    (packageSize packageSigOpsCost : Z) :
  (TestPackage K a packageSize packageSigOpsCost = true ↔
   u64 (nBlockWeight a + WITNESS_SCALE_FACTOR K * packageSize) < nBlockMaxWeight a
   ∧ u64 (nBlockSigOpsCost a + packageSigOpsCost) < MAX_BLOCK_SIGOPS_COST K)
  ∧ (0 ≤ nBlockWeight a + WITNESS_SCALE_FACTOR K * packageSize < 2 ^ 64 →
     0 ≤ nBlockSigOpsCost a + packageSigOpsCost < 2 ^ 64 →
     (TestPackage K a packageSize packageSigOpsCost = true ↔
      nBlockWeight a + WITNESS_SCALE_FACTOR K * packageSize < nBlockMaxWeight a
      ∧ nBlockSigOpsCost a + packageSigOpsCost < MAX_BLOCK_SIGOPS_COST K)).
Proof.
  assert (Hmod : TestPackage K a packageSize packageSigOpsCost = true ↔
            u64 (nBlockWeight a + WITNESS_SCALE_FACTOR K * packageSize) < nBlockMaxWeight a
            ∧ u64 (nBlockSigOpsCost a + packageSigOpsCost) < MAX_BLOCK_SIGOPS_COST K).
  { unfold TestPackage.
    destruct (Z.leb_spec (nBlockMaxWeight a)
                (u64 (nBlockWeight a + WITNESS_SCALE_FACTOR K * packageSize))) as [H1|H1];
      [split; [discriminate | lia] |].
    destruct (Z.leb_spec (MAX_BLOCK_SIGOPS_COST K)
                (u64 (nBlockSigOpsCost a + packageSigOpsCost))) as [H2|H2];
      [split; [discriminate | lia] |].
    split; [lia | reflexivity]. }
  split; [exact Hmod |].
  intros Hw Hs. rewrite (u64_small _ Hw), (u64_small _ Hs) in Hmod. exact Hmod.
Qed.

Lemma TestPackage_iff_witness :
  (TestPackage K0 (resetBlock assembler0) 250 80 = true ↔
   u64 (nBlockWeight (resetBlock assembler0) + WITNESS_SCALE_FACTOR K0 * 250)
     < nBlockMaxWeight (resetBlock assembler0)
   ∧ u64 (nBlockSigOpsCost (resetBlock assembler0) + 80) < MAX_BLOCK_SIGOPS_COST K0)
  ∧ (TestPackage K0 (resetBlock assembler0) 250 80 = true ↔
     nBlockWeight (resetBlock assembler0) + WITNESS_SCALE_FACTOR K0 * 250
       < nBlockMaxWeight (resetBlock assembler0)
     ∧ nBlockSigOpsCost (resetBlock assembler0) + 80 < MAX_BLOCK_SIGOPS_COST K0).
Proof.
  destruct (TestPackage_iff K0 (resetBlock assembler0) 250 80) as [Hmod Hplain].
  split; [exact Hmod |].
  apply Hplain; vm_compute; split; congruence.
Defined.

(** C5 as stated fails where a sum wraps.  A package of size 2^62 makes
    [WITNESS_SCALE_FACTOR * packageSize] a multiple of 2^64: the weight test
    sees the block weight alone and [TestPackage] accepts, though the sum is
    far above [nBlockMaxWeight].  A package of sigop cost -401 takes the sum
    below zero, which as a [uint64_t] is above [MAX_BLOCK_SIGOPS_COST]:
    [TestPackage] rejects, though both inequalities hold of the sums. *)
Lemma TestPackage_wraps :
  let a := resetBlock assembler0 in
  (TestPackage K0 a (2 ^ 62) 0 = true
   ∧ ¬ (nBlockWeight a + WITNESS_SCALE_FACTOR K0 * 2 ^ 62 < nBlockMaxWeight a))
  ∧ (TestPackage K0 a 0 (-401) = false
     ∧ nBlockWeight a + WITNESS_SCALE_FACTOR K0 * 0 < nBlockMaxWeight a
     ∧ nBlockSigOpsCost a + -401 < MAX_BLOCK_SIGOPS_COST K0).
Proof.
  split; [split; [vm_compute; reflexivity | vm_compute; intros H; discriminate] |].
  split; [vm_compute; reflexivity |]. split; vm_compute; reflexivity.
Qed.

(** ** The selector does not read [blockMinFeeRate] *)

Section MinFeeRate.
Context (K : Constants) (N : Node) (pool : gmap Z CTxMemPoolEntry) (r : Z).

Lemma AddToBlock_with_blockMinFeeRate a l :
  foldl (AddToBlock pool) (with_blockMinFeeRate r a) l
  = with_blockMinFeeRate r (foldl (AddToBlock pool) a l).
Proof.
  revert a. induction l as [|it l IH]; intros a; simpl; [reflexivity |].
  rewrite <- IH. reflexivity.
Qed.

Lemma drop_failed_with_blockMinFeeRate b it s :
  drop_failed b it (selection_with_blockMinFeeRate r s)
  = selection_with_blockMinFeeRate r (drop_failed b it s).
Proof. destruct b; reflexivity. Qed.

Lemma consider_package_with_blockMinFeeRate s it b modit :
  consider_package K N pool (selection_with_blockMinFeeRate r s) it b modit
  = LoopStep_map (selection_with_blockMinFeeRate r) (consider_package K N pool s it b modit).
Proof.
  unfold consider_package.
  change (assembler (selection_with_blockMinFeeRate r s))
    with (with_blockMinFeeRate r (assembler s)).
  change (inBlock (with_blockMinFeeRate r (assembler s))) with (inBlock (assembler s)).
  destruct (decide (it ∈ inBlock (assembler s))); [reflexivity |].
  change (TestPackage K (with_blockMinFeeRate r (assembler s)))
    with (TestPackage K (assembler s)).
  cbv zeta.
  destruct (TestPackage K (assembler s) _ _); simpl negb; cbv iota.
  - change (TestPackageTransactions N pool (with_blockMinFeeRate r (assembler s)))
      with (TestPackageTransactions N pool (assembler s)).
    change (onlyUnconfirmed (with_blockMinFeeRate r (assembler s)))
      with (onlyUnconfirmed (assembler s)).
    destruct (TestPackageTransactions N pool (assembler s) _); simpl negb; cbv iota.
    + simpl. rewrite AddToBlock_with_blockMinFeeRate. reflexivity.
    + simpl. rewrite drop_failed_with_blockMinFeeRate. reflexivity.
  - rewrite drop_failed_with_blockMinFeeRate.
    match goal with |- (if ?c then _ else _) = LoopStep_map _ (if ?d then _ else _) =>
      change c with d; destruct d; reflexivity end.
Qed.

Lemma addPackageTxs_step_with_blockMinFeeRate s :
  addPackageTxs_step K N pool (selection_with_blockMinFeeRate r s)
  = LoopStep_map (selection_with_blockMinFeeRate r) (addPackageTxs_step K N pool s).
Proof.
  unfold addPackageTxs_step.
  change (mapModifiedTx (selection_with_blockMinFeeRate r s)) with (mapModifiedTx s).
  change (mi (selection_with_blockMinFeeRate r s)) with (mi s).
  change (failedTx (selection_with_blockMinFeeRate r s)) with (failedTx s).
  change (advance_mi (selection_with_blockMinFeeRate r s))
    with (selection_with_blockMinFeeRate r (advance_mi s)).
  change (SkipMapTxEntry (assembler (selection_with_blockMinFeeRate r s)))
    with (SkipMapTxEntry (assembler s)).
  destruct (mi s) as [|it rest], (modified_begin (mapModifiedTx s)) as [m|];
    try reflexivity; try apply consider_package_with_blockMinFeeRate.
  - destruct (SkipMapTxEntry _ _ _ _); [reflexivity |].
    destruct (CompareTxMemPoolEntryByAncestorFee _ _ _ _ _ _);
      apply consider_package_with_blockMinFeeRate.
  - destruct (SkipMapTxEntry _ _ _ _); [reflexivity |].
    apply consider_package_with_blockMinFeeRate.
Qed.

Lemma addPackageTxs_loop_with_blockMinFeeRate fuel s :
  addPackageTxs_loop fuel K N pool (selection_with_blockMinFeeRate r s)
  = Run_map (selection_with_blockMinFeeRate r) (addPackageTxs_loop fuel K N pool s).
Proof.
  revert s. induction fuel as [|fuel IH]; intros s; simpl; [reflexivity |].
  rewrite addPackageTxs_step_with_blockMinFeeRate.
  destruct (addPackageTxs_step K N pool s); simpl; [apply IH | reflexivity ..].
Qed.

Lemma addPackageTxs_with_blockMinFeeRate fuel a :
  addPackageTxs fuel K N pool (with_blockMinFeeRate r a)
  = Run_map (selection_with_blockMinFeeRate r) (addPackageTxs fuel K N pool a).
Proof. apply (addPackageTxs_loop_with_blockMinFeeRate fuel (addPackageTxs_init pool a)). Qed.

End MinFeeRate.

(** C7: package selection does not depend on the configured minimum fee rate:
    from the same mempool and accounting state, [addPackageTxs] run with any
    two values of [blockMinFeeRate] puts the same sequence of transactions in
    the block (and ends the same way), after any number of iterations. *)
Theorem addPackageTxs_blockMinFeeRate_independent (fuel : nat) (K : Constants)
    (N : Node) (pool : gmap Z CTxMemPoolEntry) (a : BlockAssembler) (r1 r2 : Z) :
  Run_vtx (addPackageTxs fuel K N pool (with_blockMinFeeRate r1 a))
  = Run_vtx (addPackageTxs fuel K N pool (with_blockMinFeeRate r2 a)).
Proof.
  rewrite !addPackageTxs_with_blockMinFeeRate.
  destruct (addPackageTxs fuel K N pool a); reflexivity.
Qed.

(** ** A package that fails the finality test *)

(** C6, as the code has it: when the package passes [TestPackage] and fails
    [TestPackageTransactions], the candidate is erased from [mapModifiedTx]
    and put in [failedTx] if it was taken from there, [nConsecutiveFailed]
    keeps its value, and the loop goes on to the next iteration. *)
Theorem finality_failure_continues (K : Constants) (N : Node)
    (pool : gmap Z CTxMemPoolEntry) (s : PackageSelection) (it : Z)
    (fUsingModified : bool) (modit : CTxMemPoolModifiedEntry) :
  it ∉ inBlock (assembler s) →
  TestPackage K (assembler s)
    (if fUsingModified then nSizeWithAncestors modit
     else GetSizeWithAncestors (pool !!! it))
    (if fUsingModified then nSigOpCostWithAncestors modit
     else GetSigOpCostWithAncestors (pool !!! it)) = true →
  TestPackageTransactions N pool (assembler s)
    ({[ it ]} ∪ onlyUnconfirmed (assembler s) (CalculateMemPoolAncestors pool it)) = false →
  ∃ s', consider_package K N pool s it fUsingModified modit = Continue s'
        ∧ nConsecutiveFailed s' = nConsecutiveFailed s
        ∧ assembler s' = assembler s
        ∧ mi s' = mi s
        ∧ mapModifiedTx s' =
            (if fUsingModified then delete it (mapModifiedTx s) else mapModifiedTx s)
        ∧ failedTx s' =
            (if fUsingModified then {[ it ]} ∪ failedTx s else failedTx s).
Proof.
  intros Hin Hfit Hfinal. exists (drop_failed fUsingModified it s).
  split.
  - unfold consider_package. rewrite decide_False by exact Hin.
    cbv zeta. rewrite Hfit. simpl negb. cbv iota. rewrite Hfinal. reflexivity.
  - destruct fUsingModified; repeat split; reflexivity.
Qed.

Lemma finality_failure_continues_witness :
  ∃ s', consider_package K0 N_nonfinal pool_ABC (addPackageTxs_init pool_ABC assembler1)
          12 false (CTxMemPoolModifiedEntry_new pool_ABC 12) = Continue s'
        ∧ nConsecutiveFailed s' = 0
        ∧ assembler s' = assembler1
        ∧ mi s' = mi (addPackageTxs_init pool_ABC assembler1)
        ∧ mapModifiedTx s' = mapModifiedTx (addPackageTxs_init pool_ABC assembler1)
        ∧ failedTx s' = failedTx (addPackageTxs_init pool_ABC assembler1).
Proof.
  apply (finality_failure_continues K0 N_nonfinal pool_ABC
           (addPackageTxs_init pool_ABC assembler1) 12 false
           (CTxMemPoolModifiedEntry_new pool_ABC 12)).
  - apply (bool_decide_unpack _). vm_compute. reflexivity.
  - vm_compute. reflexivity.
  - vm_compute. reflexivity.
Defined.

(** C6 as stated fails: on the pool A, B, C with no transaction final, the
    first candidate (B, taken from the mempool index) passes the fit test and
    fails the finality test, and the loop continues with [nConsecutiveFailed]
    still 0, not incremented to 1. *)
Lemma finality_failure_not_counted :
  ∃ s', addPackageTxs_step K0 N_nonfinal pool_ABC (addPackageTxs_init pool_ABC assembler1)
        = Continue s'
        ∧ TestPackageTransactions N_nonfinal pool_ABC assembler1
            ({[ 12 ]} ∪ onlyUnconfirmed assembler1 (CalculateMemPoolAncestors pool_ABC 12))
          = false
        ∧ nConsecutiveFailed (addPackageTxs_init pool_ABC assembler1) = 0
        ∧ nConsecutiveFailed s' = 0
        ∧ nConsecutiveFailed s' ≠ nConsecutiveFailed (addPackageTxs_init pool_ABC assembler1) + 1.
Proof.
  eexists. split; [vm_compute; reflexivity |].
  split; [vm_compute; reflexivity |].
  split; [reflexivity |]. split; [reflexivity |]. vm_compute. discriminate.
Qed.

(** ** What the selector leaves untouched *)

Section AssemblerPreserved.
Context (K : Constants) (N : Node) (pool : gmap Z CTxMemPoolEntry).
Context (P : BlockAssembler → Prop).
Hypothesis P_AddToBlock : ∀ a it, P a → P (AddToBlock pool a it).

Lemma AddToBlock_preserves a l : P a → P (foldl (AddToBlock pool) a l).
Proof. revert a. induction l as [|x l IH]; intros a Ha; simpl; auto. Qed.

Lemma drop_failed_assembler b it s : assembler (drop_failed b it s) = assembler s.
Proof. destruct b; reflexivity. Qed.

Lemma consider_package_preserves s it b modit s' :
  P (assembler s) →
  consider_package K N pool s it b modit = Continue s'
  ∨ consider_package K N pool s it b modit = Break s' →
  P (assembler s').
Proof.
  intros Ha. unfold consider_package.
  destruct (decide (it ∈ inBlock (assembler s))); [intros [?|?]; discriminate |].
  cbv zeta.
  destruct (TestPackage K (assembler s) _ _); simpl negb; cbv iota.
  - destruct (TestPackageTransactions N pool (assembler s) _); simpl negb; cbv iota.
    + intros [H|H]; inversion H; subst; simpl. apply AddToBlock_preserves, Ha.
    + intros [H|H]; inversion H; subst. rewrite drop_failed_assembler. exact Ha.
  - match goal with |- context [if ?c then Break _ else _] => destruct c end;
      intros [H|H]; inversion H; subst; simpl; rewrite drop_failed_assembler; exact Ha.
Qed.

Lemma addPackageTxs_step_preserves s s' :
  P (assembler s) →
  addPackageTxs_step K N pool s = Continue s'
  ∨ addPackageTxs_step K N pool s = Break s' →
  P (assembler s').
Proof.
  intros Ha. unfold addPackageTxs_step.
  destruct (mi s) as [|it rest] eqn:Hmi,
    (modified_begin (mapModifiedTx s)) as [m|] eqn:Hm.
  - apply consider_package_preserves, Ha.
  - intros [H|H]; inversion H; subst; exact Ha.
  - destruct (SkipMapTxEntry _ _ _ _); [intros [H|H]; inversion H; subst; exact Ha |].
    destruct (CompareTxMemPoolEntryByAncestorFee _ _ _ _ _ _).
    + apply consider_package_preserves, Ha.
    + apply (consider_package_preserves (advance_mi s)), Ha.
  - destruct (SkipMapTxEntry _ _ _ _); [intros [H|H]; inversion H; subst; exact Ha |].
    apply (consider_package_preserves (advance_mi s)), Ha.
Qed.

Lemma addPackageTxs_loop_preserves fuel s s' :
  P (assembler s) →
  addPackageTxs_loop fuel K N pool s = Finished s' →
  P (assembler s').
Proof.
  revert s. induction fuel as [|fuel IH]; intros s Ha; simpl; [discriminate |].
  destruct (addPackageTxs_step K N pool s) as [s1|s1|] eqn:Hstep; [| |discriminate].
  - apply IH. apply (addPackageTxs_step_preserves s); auto.
  - intros H. inversion H; subst. apply (addPackageTxs_step_preserves s); auto.
Qed.

End AssemblerPreserved.

Lemma addPackageTxs_loop_nHeight fuel K N pool s s' :
  addPackageTxs_loop fuel K N pool s = Finished s' →
  nHeight (assembler s') = nHeight (assembler s).
Proof.
  apply (addPackageTxs_loop_preserves K N pool
           (λ a, nHeight a = nHeight (assembler s))); auto.
Qed.

Lemma addPackageTxs_loop_vtx_prefix fuel K N pool s s' :
  addPackageTxs_loop fuel K N pool s = Finished s' →
  ∃ l, vtx (assembler s') = vtx (assembler s) ++ l.
Proof.
  apply (addPackageTxs_loop_preserves K N pool
           (λ a, ∃ l, vtx a = vtx (assembler s) ++ l)).
  - intros a it [l Hl]. exists (l ++ [Some (GetSharedTx (pool !!! it))]).
    simpl. rewrite Hl, <- app_assoc. reflexivity.
  - exists []. rewrite app_nil_r. reflexivity.
Qed.

Lemma addPackageTxs_loop_vectors fuel K N pool s s' :
  addPackageTxs_loop fuel K N pool s = Finished s' →
  length (vTxFees (assembler s)) = length (vtx (assembler s)) →
  length (vTxFees (assembler s')) = length (vtx (assembler s')).
Proof.
  intros Hrun Hlen. revert Hrun.
  apply (addPackageTxs_loop_preserves K N pool
           (λ a, length (vTxFees a) = length (vtx a))); auto.
  intros a it Ha. simpl. rewrite !length_app, Ha. reflexivity.
Qed.

(** ** Inversion of [CreateNewBlock] *)

Lemma selection_of_nHeight K N pool a0 fPoS s :
  selection_of K N pool a0 fPoS = Some s →
  nHeight (assembler s) = bi_nHeight (chainActive_Tip N) + 1.
Proof.
  unfold selection_of. destruct (stake_stage K N fPoS) as [[[? nTimeStake] ?]|]; [|discriminate].
  destruct (addPackageTxs _ _ _ _ _) as [s1| |] eqn:Hrun; try discriminate.
  intros H; inversion H; subst. apply addPackageTxs_loop_nHeight in Hrun. exact Hrun.
Qed.

Lemma CreateNewBlock_Some K N args pool a0 spk w fPoS fPoFN t :
  pblocktemplate (CreateNewBlock K N args pool a0 spk w fPoS fPoFN) = Some t →
  ∃ s txCoinStake nTimeStake nBits0,
    stake_stage K N fPoS = Some (txCoinStake, nTimeStake, nBits0)
    ∧ selection_of K N pool a0 fPoS = Some s
    ∧ finish_block K N args (assembler s) (screening_of K N pool a0 fPoS)
        (vtxReplace N (setDuplicate (screening_of K N pool a0 fPoS))
           (selected_vtx K N pool a0 fPoS))
        spk fPoS fPoFN txCoinStake (pow_time K N fPoS nTimeStake) = Some t
    ∧ removeRecursive_calls (CreateNewBlock K N args pool a0 spk w fPoS fPoFN)
      = removed_recursively (setDuplicate (screening_of K N pool a0 fPoS))
          (selected_vtx K N pool a0 fPoS).
Proof.
  unfold CreateNewBlock, screening_of, selected_vtx, selection_of.
  destruct (fPoS && negb (GetMainWallet N)); [discriminate |].
  destruct (stake_stage K N fPoS) as [[[txCoinStake nTimeStake] nBits0]|]; [|discriminate].
  destruct (negb (mempool_TRY_LOCK N)); [discriminate |].
  destruct (addPackageTxs _ _ _ _ _) as [s| |] eqn:Hrun; try discriminate.
  cbn [pblocktemplate removeRecursive_calls from_option].
  rewrite (addPackageTxs_loop_nHeight _ _ _ _ _ _ Hrun).
  intros Ht. exists s, txCoinStake, nTimeStake, nBits0. auto.
Qed.

Lemma finish_block_Some K N args a sc txs spk fPoS fPoFN txCoinStake nTime0 t :
  finish_block K N args a sc txs spk fPoS fPoFN txCoinStake nTime0 = Some t →
  ∃ outs,
    coinbase_vpout N fPoS spk (GetBlockRewards N (nHeight a)).1.1.1
      (GetBlockRewards N (nHeight a)).1.1.2 (GetBlockRewards N (nHeight a)).1.2
      (GetBlockRewards N (nHeight a)).2
      (capped_reward K (nNetworkRewardReserve_acc sc)) = Some outs
    ∧ block_vtx (block t)
      = <[ 0%nat := Some (MakeTransactionRef N (coinbaseTx_new (nHeight a) outs)) ]>
          (if fPoS then install_coinstake txs (MakeTransactionRef N txCoinStake) else txs)
    ∧ hashPrevBlock (block t) = GetBlockHash (chainActive_Tip N).
Proof.
  unfold finish_block, capped_reward.
  destruct (GetBlockRewards N (nHeight a)) as [[[r f] l] b]. cbn [fst snd].
  destruct (fReserveOverflow sc); [discriminate |].
  destruct (coinbase_vpout N fPoS spk r f l b _) as [outs|]; [|discriminate].
  cbn [mbind option_bind]. cbv zeta.
  destruct fPoS.
  - cbn [andb].
    match goal with |- context [sign_block N ?b] => set (signed := b) end.
    destruct (sign_block N signed) as [sig|]; simpl; [|discriminate].
    match goal with |- context [TestBlockValidity N ?b ?p] =>
      destruct (TestBlockValidity N b p); [|discriminate] end.
    intros H; inversion H; subst; clear H. exists outs.
    split; [reflexivity |]. destruct fPoFN; split; reflexivity.
  - rewrite andb_false_r. simpl.
    match goal with |- context [TestBlockValidity N ?b ?p] =>
      destruct (TestBlockValidity N b p); [|discriminate] end.
    intros H; inversion H; subst; clear H. exists outs.
    split; [reflexivity |]. split; reflexivity.
Qed.

Lemma selected_vtx_head K N pool a0 fPoS s :
  selection_of K N pool a0 fPoS = Some s →
  ∃ l, selected_vtx K N pool a0 fPoS = None :: l ∧ vtx (assembler s) = None :: l.
Proof.
  intros Hs. unfold selected_vtx. rewrite Hs. simpl.
  unfold selection_of in Hs.
  destruct (stake_stage K N fPoS) as [[[? nTimeStake] ?]|]; [|discriminate].
  destruct (addPackageTxs _ _ _ _ _) as [s1| |] eqn:Hrun; try discriminate.
  inversion Hs; subst. apply addPackageTxs_loop_vtx_prefix in Hrun as [l Hl].
  exists l. rewrite Hl. auto.
Qed.

Lemma vtxReplace_head N dup l : vtxReplace N dup (None :: l) = None :: vtxReplace N dup l.
Proof. reflexivity. Qed.

(** ** The coinbase outputs *)

Lemma coinbase_vpout_schema N fPoS spk r f l b nr outs :
  coinbase_vpout N fPoS spk r f l b nr = Some outs →
  outs = coinbase_schema N fPoS spk r f l b nr.
Proof.
  unfold coinbase_vpout, coinbase_schema, coinbase_size.
  destruct (Z.ltb_spec 0 b) as [Hb|Hb], (Z.ltb_spec 0 f) as [Hf|Hf];
    cbn [andb];
    destruct (decide (b ≠ 0)) as [Hb0|Hb0]; try lia;
    destruct (decide (f ≠ 0)) as [Hf0|Hf0]; try lia;
    try (rewrite (bool_decide_eq_false_2 (b = 0)) by lia);
    try (rewrite (bool_decide_eq_true_2 (b = 0)) by lia);
    destruct fPoS; simpl; intros H; inversion H; reflexivity.
Qed.

(** C2: in every template the output list of the coinbase is the one the
    table gives for (proof-of-stake, budget payment > 0, founder payment > 0):
    [miner], [miner, budget, lab], [miner, budget, lab, founder] for
    proof-of-work, one empty output of value 0, [budget, lab],
    [budget, lab, founder] for proof-of-stake; the miner output pays the block
    reward plus the network reward. *)
Theorem CreateNewBlock_coinbase_outputs (K : Constants) (N : Node) (args : gArgs)
    (pool : gmap Z CTxMemPoolEntry) (a0 : BlockAssembler) (scriptPubKeyIn : list ScriptItem)
    (fMineWitnessTx fPoS fProofOfFullNode : bool) (t : CBlockTemplate) :
  pblocktemplate
    (CreateNewBlock K N args pool a0 scriptPubKeyIn fMineWitnessTx fPoS fProofOfFullNode)
  = Some t →
  ∃ coinbase,
    block_vtx (block t) !! 0%nat = Some (Some coinbase)
    ∧ vpout (tx coinbase)
      = coinbase_schema N fPoS scriptPubKeyIn
          (GetBlockRewards N (bi_nHeight (chainActive_Tip N) + 1)).1.1.1
          (GetBlockRewards N (bi_nHeight (chainActive_Tip N) + 1)).1.1.2
          (GetBlockRewards N (bi_nHeight (chainActive_Tip N) + 1)).1.2
          (GetBlockRewards N (bi_nHeight (chainActive_Tip N) + 1)).2
          (network_reward_of K N pool a0 fPoS).
Proof.
  intros Ht.
  apply CreateNewBlock_Some in Ht as (s & txCoinStake & nTimeStake & nBits0 & _ & Hs & Hfin & _).
  apply finish_block_Some in Hfin as (outs & Houts & Hvtx & _).
  rewrite (selection_of_nHeight _ _ _ _ _ _ Hs) in Houts, Hvtx.
  apply coinbase_vpout_schema in Houts.
  destruct (selected_vtx_head _ _ _ _ _ _ Hs) as (l & Hl & _).
  eexists. split.
  - rewrite Hvtx, Hl, vtxReplace_head. destruct fPoS; reflexivity.
  - simpl. exact Houts.
Qed.

Lemma CreateNewBlock_coinbase_outputs_witness :
  ∃ coinbase,
    block_vtx (block
      {| block :=
           {| nVersion := 4; hashPrevBlock := 7777; hashMerkleRoot := 1;
              hashWitnessMerkleRoot := 2; nTime := 1010; nBits := 486604799;
              nNonce := 0; mapAccumulatorHashes := []; hashVeilData := 4;
              hashPoFN := 0; fProofOfStake := false; vchBlockSig := [];
              block_vtx :=
                [Some (MakeTransactionRef N_budget
                         (coinbaseTx_new 100
                            [CTxOutStandard_mk [Opcode 5] 1040;
                             CTxOutStandard_mk [Opcode 1] 30;
                             CTxOutStandard_mk [Opcode 2] 20;
                             CTxOutStandard_mk [Opcode 3] 10]));
                 Some txA; Some txB; Some txC] |};
         tmpl_vTxFees := [-350; 100; 200; 50];
         tmpl_vTxSigOpsCost := [0; 4; 4; 4] |}) !! 0%nat = Some (Some coinbase)
    ∧ vpout (tx coinbase)
      = coinbase_schema N_budget false [Opcode 5]
          (GetBlockRewards N_budget (bi_nHeight (chainActive_Tip N_budget) + 1)).1.1.1
          (GetBlockRewards N_budget (bi_nHeight (chainActive_Tip N_budget) + 1)).1.1.2
          (GetBlockRewards N_budget (bi_nHeight (chainActive_Tip N_budget) + 1)).1.2
          (GetBlockRewards N_budget (bi_nHeight (chainActive_Tip N_budget) + 1)).2
          (network_reward_of K0 N_budget pool_ABC assembler0 false).
Proof.
  apply (CreateNewBlock_coinbase_outputs K0 N_budget args0 pool_ABC assembler0
           [Opcode 5] false false false).
  vm_compute. reflexivity.
Defined.

(** ** The extra nonce *)

Lemma u32_small x : 0 ≤ x < 2 ^ 32 → u32 x = x.
Proof. intros H. unfold u32. apply Z.mod_small. exact H. Qed.

Lemma reserve_nonce_Some g g' l :
  reserve_nonce g = Some (g', l) →
  l = nNonce_base g
  ∧ nNonce_base g' = nNonce_base g + 1
  ∧ static_hashPrevBlock g' = static_hashPrevBlock g
  ∧ nNonce_base g < 2 ^ 31 - 1.
Proof.
  unfold reserve_nonce. destruct (Z.ltb_spec (nNonce_base g) (2 ^ 31 - 1)); [|discriminate].
  intros H'. inversion H'; subst; clear H'. simpl. auto.
Qed.

Lemma extra_nonce_section_Some N g tip b l g' b' n :
  extra_nonce_section N g tip b l = Some (g', b', n) →
  nNonce_base g' = nNonce_base g
  ∧ static_hashPrevBlock g' = hashPrevBlock b
  ∧ hashPrevBlock b' = hashPrevBlock b
  ∧ nNonce b' = 0
  ∧ coinbase_extra_nonce b' = Some n
  ∧ n = u32 ((if bool_decide (static_hashPrevBlock g ≠ hashPrevBlock b)
              then 0 else u32 l) + 1).
Proof.
  unfold extra_nonce_section, IncrementExtraNonce.
  cbn [set_nNonce block_vtx hashPrevBlock].
  destruct (block_vtx b !! 0%nat) as [[cb|]|] eqn:Hcb; try discriminate.
  destruct (100 <? CScript_size N _); [discriminate |].
  intros H. inversion H; subst; clear H. simpl.
  repeat split.
  - case_bool_decide as Hd; [reflexivity | ].
    destruct (decide (static_hashPrevBlock g = hashPrevBlock b)); [assumption | contradiction].
  - unfold coinbase_extra_nonce. simpl.
    rewrite list_lookup_insert_eq by (apply lookup_lt_Some in Hcb; exact Hcb).
    reflexivity.
Qed.

Lemma extra_nonce_section_written N g tip b l g' b' n t :
  0 ≤ l < 2 ^ 31 - 1 →
  extra_nonce_section N g tip b l = Some (g', b', n) →
  extra_nonce_written
    {| w_thread := t; w_reserved := l; w_static := static_hashPrevBlock g;
       w_block := b'; w_nExtraNonce := n |}.
Proof.
  intros Hl H. apply extra_nonce_section_Some in H as (_ & _ & Hb & Hn0 & Hcb & Hn).
  unfold extra_nonce_written. simpl. rewrite Hb.
  split; [exact Hcb |]. split; [exact Hn0 |]. subst n. split; intros Hs.
  - rewrite bool_decide_eq_true_2 by exact Hs. reflexivity.
  - rewrite bool_decide_eq_false_2 by (intros Hne; apply Hne, Hs).
    rewrite (u32_small l) by lia. apply u32_small. lia.
Qed.

Lemma miners_inv_start : miners_inv miners_start.
Proof.
  split; simpl; [lia | |]; intros *; rewrite lookup_empty; discriminate.
Qed.

Section MinerRun.
Context (N : Node).

Lemma miner_run_spec schedule m m' log :
  miners_inv m →
  nNonce_base (miner_shared m) ≤ 2 ^ 31 - 1 →
  miner_run N m schedule = Some (m', log) →
  miners_inv m'
  ∧ nNonce_base (miner_shared m') ≤ 2 ^ 31 - 1
  ∧ nNonce_base (miner_shared m')
    = nNonce_base (miner_shared m) + Z.of_nat (reservations schedule)
  ∧ Forall (λ e, (pending m (w_reserved e)
                  ∨ nNonce_base (miner_shared m) ≤ w_reserved e)
                 ∧ 0 ≤ w_reserved e < nNonce_base (miner_shared m')
                 ∧ extra_nonce_written e) log
  ∧ NoDup (w_reserved <$> log)
  ∧ static_chain (static_hashPrevBlock (miner_shared m)) log.
Proof.
  revert m m' log. induction schedule as [|act rest IH]; intros m m' log Hinv Hmax Hrun.
  { simpl in Hrun. inversion Hrun; subst; clear Hrun.
    unfold reservations. simpl. rewrite Z.add_0_r.
    split; [exact Hinv |]. split; [exact Hmax |]. split; [reflexivity |].
    split; [constructor |]. split; [constructor | exact I]. }
  simpl in Hrun.
  destruct (miner_step N m act) as [[m1 w1]|] eqn:Hstep; [|discriminate].
  destruct (miner_run N m1 rest) as [[m2 w2]|] eqn:Hrest; [|discriminate].
  inversion Hrun; subst m' log; clear Hrun.
  destruct Hinv as [Hbase Hrange Hdistinct].
  destruct act as [t pblock|t|t tip]; simpl in Hstep.
  - (* a new template *)
    assert (Hm1 : miner_shared m1 = miner_shared m
                  ∧ miner_threads m1 = <[ t := AtTemplate pblock ]> (miner_threads m)
                  ∧ w1 = []).
    { destruct (miner_threads m !! t) as [[| |]|]; inversion Hstep; subst; auto. }
    destruct Hm1 as (Hsh & Hth & ->). clear Hstep.
    assert (Hlook : ∀ t' b l, miner_threads m1 !! t' = Some (AtExtraNonce b l) →
                              miner_threads m !! t' = Some (AtExtraNonce b l)).
    { intros t' b l. rewrite Hth. destruct (decide (t' = t)) as [->|Hne].
      - rewrite lookup_insert_eq. discriminate.
      - rewrite lookup_insert_ne by congruence. auto. }
    destruct (IH m1 m2 w2) as (Hinv2 & Hmax2 & Hcount & Hall & Hnd & Hchain);
      [split; rewrite ?Hsh; eauto | rewrite Hsh; exact Hmax | exact Hrest |].
    rewrite Hsh in Hcount, Hall, Hchain.
    split; [exact Hinv2 |]. split; [exact Hmax2 |].
    split; [rewrite Hcount; unfold reservations; simpl; reflexivity |].
    split; [|split; [exact Hnd | exact Hchain]].
    eapply Forall_impl; [exact Hall |]. simpl.
    intros e ([(t' & b & Hp)|Hp] & He). 
    + split; [left; exists t', b; apply Hlook, Hp | exact He].
    + split; [right; exact Hp | exact He].
  - (* a reservation *)
    destruct (miner_threads m !! t) as [[pblock| |]|] eqn:Ht; try discriminate.
    destruct (reserve_nonce (miner_shared m)) as [[g l]|] eqn:Hres; [|discriminate].
    inversion Hstep; subst m1 w1; clear Hstep.
    apply reserve_nonce_Some in Hres as (-> & Hg & Hst & Hlt).
    assert (Hlook : ∀ t' b l, <[ t := AtExtraNonce pblock (nNonce_base (miner_shared m)) ]>
                                (miner_threads m) !! t' = Some (AtExtraNonce b l) →
                              (t' = t ∧ l = nNonce_base (miner_shared m))
                              ∨ (t' ≠ t ∧ miner_threads m !! t' = Some (AtExtraNonce b l))).
    { intros t' b l. destruct (decide (t' = t)) as [->|Hne].
      - rewrite lookup_insert_eq. intros H; inversion H; auto.
      - rewrite lookup_insert_ne by congruence. auto. }
    edestruct IH as (Hinv2 & Hmax2 & Hcount & Hall & Hnd & Hchain);
      [| | exact Hrest |].
    { split; simpl.
      - lia.
      - intros t' b l Hl. apply Hlook in Hl as [[_ ->]|[_ Hl]]; [lia |].
        apply Hrange in Hl. lia.
      - intros t1 t2 b1 b2 l H1 H2.
        apply Hlook in H1 as [[-> ->]|[Hn1 H1]]; apply Hlook in H2 as [[-> H2]|[Hn2 H2]];
          auto.
        + apply Hrange in H2. lia.
        + apply Hrange in H1. lia.
        + eapply Hdistinct; eauto. }
    { simpl. lia. }
    simpl in Hcount, Hall, Hchain. rewrite Hg in Hcount, Hall. rewrite Hst in Hchain.
    split; [exact Hinv2 |]. split; [exact Hmax2 |].
    split; [rewrite Hcount; unfold reservations; simpl; lia |].
    split; [|split; [exact Hnd | exact Hchain]].
    eapply Forall_impl; [exact Hall |]. simpl.
    intros e ([(t' & b & Hp)|Hp] & He).
    + simpl in Hp. apply Hlook in Hp as [[_ Hp]|[_ Hp]].
      * split; [right; lia | exact He].
      * split; [left; exists t', b; exact Hp | exact He].
    + split; [right; lia | exact He].
  - (* a call of IncrementExtraNonce *)
    destruct (miner_threads m !! t) as [[|pblock l|]|] eqn:Ht; try discriminate.
    destruct (extra_nonce_section N (miner_shared m) tip pblock l) as [[[g b] n]|] eqn:Hsec;
      [|discriminate].
    inversion Hstep; subst m1 w1; clear Hstep.
    assert (Hl := Hrange _ _ _ Ht).
    assert (Hw := extra_nonce_section_written N _ tip pblock l g b n t ltac:(lia) Hsec).
    apply extra_nonce_section_Some in Hsec as (Hg & Hst & Hb & _).
    assert (Hlook : ∀ t' b' l', <[ t := AtSearch b n ]> (miner_threads m) !! t'
                                = Some (AtExtraNonce b' l') →
                                t' ≠ t ∧ miner_threads m !! t' = Some (AtExtraNonce b' l')).
    { intros t' b' l'. destruct (decide (t' = t)) as [->|Hne].
      - rewrite lookup_insert_eq. discriminate.
      - rewrite lookup_insert_ne by congruence. auto. }
    edestruct IH as (Hinv2 & Hmax2 & Hcount & Hall & Hnd & Hchain);
      [| | exact Hrest |].
    { split; simpl; rewrite ?Hg.
      - exact Hbase.
      - intros t' b' l' Hl'. apply Hlook in Hl' as [_ Hl']. eauto.
      - intros t1 t2 b1 b2 l' H1 H2.
        apply Hlook in H1 as [_ H1]. apply Hlook in H2 as [_ H2]. eauto. }
    { simpl. rewrite Hg. exact Hmax. }
    simpl in Hcount, Hall, Hchain. rewrite Hg in Hcount, Hall. rewrite Hst in Hchain.
    assert (Hmono : nNonce_base (miner_shared m) ≤ nNonce_base (miner_shared m2)) by lia.
    split; [exact Hinv2 |]. split; [exact Hmax2 |].
    split; [rewrite Hcount; unfold reservations; simpl; reflexivity |].
    split; [|split].
    + simpl. constructor.
      * simpl. split; [left; exists t, pblock; exact Ht |]. split; [lia | exact Hw].
      * eapply Forall_impl; [exact Hall |]. simpl.
        intros e ([(t' & b' & Hp)|Hp] & He).
        -- simpl in Hp. apply Hlook in Hp as [_ Hp].
           split; [left; exists t', b'; exact Hp | exact He].
        -- split; [right; exact Hp | exact He].
    + simpl. apply NoDup_cons. split; [|exact Hnd].
      intros Hin. apply list_elem_of_fmap in Hin as (e & He & Hin).
      rewrite Forall_forall in Hall. destruct (Hall e Hin) as ([(t' & b' & Hp)|Hp] & _).
      * simpl in Hp. apply Hlook in Hp as [Hne Hp]. rewrite <- He in Hp.
        apply Hne. eapply Hdistinct; eauto.
      * lia.
    + simpl. rewrite Hb. split; [reflexivity | exact Hchain].
Qed.

End MinerRun.

Lemma static_chain_lookup h log k e e' :
  static_chain h log → log !! k = Some e → log !! S k = Some e' →
  w_static e' = hashPrevBlock (w_block e).
Proof.
  revert h k. induction log as [|x log IH]; intros h k Hc Hk Hk'; [discriminate |].
  destruct Hc as [_ Hc]. destruct k as [|k].
  - simpl in Hk. inversion Hk; subst x. destruct log as [|y log]; [discriminate |].
    simpl in Hk'. inversion Hk'; subst y. apply Hc.
  - simpl in Hk, Hk'. apply (IH _ k Hc Hk Hk').
Qed.

(** C8, as the code has it, for any number of proof-of-work threads under
    any schedule from the start of the program.  [nNonce_base] counts the
    reservations and is never reset.  The calls of [IncrementExtraNonce] come
    with pairwise distinct reserved values; each finds in the static
    [hashPrevBlock] the [hashPrevBlock] of the block of the call before it (null
    at the first), and leaves in the coinbase 1 when that differs from its
    block's, the reserved value plus one when it is the same.  So two calls
    that both find their own [hashPrevBlock] write distinct extra nonces, in
    the order of the values reserved. *)
Theorem extra_nonce_of_reservations (N : Node) (schedule : list MinerAction)
    (m : Miners) (log : list ExtraNonceWritten) :
  miner_run N miners_start schedule = Some (m, log) →
  nNonce_base (miner_shared m) = Z.of_nat (reservations schedule)
  ∧ NoDup (w_reserved <$> log)
  ∧ (∀ e, e ∈ log →
       0 ≤ w_reserved e < nNonce_base (miner_shared m)
       ∧ coinbase_extra_nonce (w_block e) = Some (w_nExtraNonce e)
       ∧ (w_static e ≠ hashPrevBlock (w_block e) → w_nExtraNonce e = 1)
       ∧ (w_static e = hashPrevBlock (w_block e) → w_nExtraNonce e = w_reserved e + 1))
  ∧ (∀ e, head log = Some e → w_static e = 0)
  ∧ (∀ k e e', log !! k = Some e → log !! S k = Some e' →
       w_static e' = hashPrevBlock (w_block e))
  ∧ (∀ i j e1 e2, log !! i = Some e1 → log !! j = Some e2 → i ≠ j →
       w_static e1 = hashPrevBlock (w_block e1) →
       w_static e2 = hashPrevBlock (w_block e2) →
       w_nExtraNonce e1 ≠ w_nExtraNonce e2
       ∧ (w_reserved e1 < w_reserved e2 ↔ w_nExtraNonce e1 < w_nExtraNonce e2)).
Proof.
  intros Hrun.
  destruct (miner_run_spec N schedule miners_start m log miners_inv_start
              ltac:(simpl; lia) Hrun) as (_ & _ & Hcount & Hall & Hnd & Hchain).
  simpl in Hcount, Hchain. rewrite Forall_forall in Hall.
  split; [exact Hcount |]. split; [exact Hnd |].
  split; [|split; [|split]].
  - intros e He. destruct (Hall e He) as (_ & Hr & Hcb & _ & H1 & H2). auto.
  - intros e He. destruct log as [|x log]; [discriminate |].
    simpl in He. inversion He; subst x. apply Hchain.
  - intros k e e'. apply static_chain_lookup with (h := 0). exact Hchain.
  - intros i j e1 e2 Hi Hj Hne Hs1 Hs2.
    destruct (Hall e1) as (_ & _ & _ & _ & _ & H1); [apply list_elem_of_lookup; eauto |].
    destruct (Hall e2) as (_ & _ & _ & _ & _ & H2); [apply list_elem_of_lookup; eauto |].
    rewrite (H1 Hs1), (H2 Hs2).
    assert (Hd : w_reserved e1 ≠ w_reserved e2).
    { intros Heq. apply Hne.
      apply (NoDup_lookup (w_reserved <$> log) i j (w_reserved e1) Hnd).
      - rewrite list_lookup_fmap, Hi. reflexivity.
      - rewrite list_lookup_fmap, Hj, Heq. reflexivity. }
    split; lia.
Qed.

Lemma extra_nonce_of_reservations_witness :
  ∃ m log,
    miner_run N0 miners_start schedule_tip_change = Some (m, log)
    ∧ w_nExtraNonce <$> log = [1; 2; 3; 4; 5; 1; 7]
    ∧ nNonce_base (miner_shared m) = Z.of_nat (reservations schedule_tip_change)
    ∧ NoDup (w_reserved <$> log)
    ∧ (∀ e, e ∈ log →
         0 ≤ w_reserved e < nNonce_base (miner_shared m)
         ∧ coinbase_extra_nonce (w_block e) = Some (w_nExtraNonce e)
         ∧ (w_static e ≠ hashPrevBlock (w_block e) → w_nExtraNonce e = 1)
         ∧ (w_static e = hashPrevBlock (w_block e) → w_nExtraNonce e = w_reserved e + 1))
    ∧ (∀ e, head log = Some e → w_static e = 0)
    ∧ (∀ k e e', log !! k = Some e → log !! S k = Some e' →
         w_static e' = hashPrevBlock (w_block e))
    ∧ (∀ i j e1 e2, log !! i = Some e1 → log !! j = Some e2 → i ≠ j →
         w_static e1 = hashPrevBlock (w_block e1) →
         w_static e2 = hashPrevBlock (w_block e2) →
         w_nExtraNonce e1 ≠ w_nExtraNonce e2
         ∧ (w_reserved e1 < w_reserved e2 ↔ w_nExtraNonce e1 < w_nExtraNonce e2)).
Proof.
  eexists _, _. split; [vm_compute; reflexivity |].
  split; [vm_compute; reflexivity |].
  apply (extra_nonce_of_reservations N0 schedule_tip_change).
  vm_compute. reflexivity.
Defined.

(** C8 as stated fails twice.  The shared counter is not reset when the tip
    changes: one thread makes five rounds on the tip 1111 and two on the tip
    7777; the first block on the new tip carries extra nonce 1, the counter
    goes on from 5 to 7, and the second block carries 7, not 2.  And on one
    tip two reservations can end in the same extra nonce: thread 1 reserves 0,
    thread 2 reserves 1 and is first in [IncrementExtraNonce], where it takes
    the reset; both blocks carry extra nonce 1. *)
Lemma shared_counter_not_reset :
  (∃ m log,
     miner_run N0 miners_start schedule_tip_change = Some (m, log)
     ∧ hashPrevBlock ∘ w_block <$> log = [1111; 1111; 1111; 1111; 1111; 7777; 7777]
     ∧ w_reserved <$> log = [0; 1; 2; 3; 4; 5; 6]
     ∧ w_nExtraNonce <$> log = [1; 2; 3; 4; 5; 1; 7]
     ∧ nNonce_base (miner_shared m) = 7)
  ∧ (∃ m log,
       miner_run N0 miners_start schedule_two_threads = Some (m, log)
       ∧ hashPrevBlock ∘ w_block <$> log = [7777; 7777]
       ∧ w_thread <$> log = [2%nat; 1%nat]
       ∧ w_reserved <$> log = [1; 0]
       ∧ w_nExtraNonce <$> log = [1; 1]
       ∧ (coinbase_extra_nonce ∘ w_block <$> log) = [Some 1; Some 1]).
Proof.
  split; eexists _, _; (split; [vm_compute; reflexivity |]);
    repeat split; vm_compute; reflexivity.
Qed.

(** ** The staking round *)

(** C9 at a locked wallet with mintable coins: the condition of the wait loop
    holds, the round sleeps 2.5 s once and goes on to build a template; the
    condition is not evaluated again. *)
Theorem stake_round_locked_wallet_builds :
  stake_wait_condition K0 round_locked (fMintableCoins globals_mintable) = true
  ∧ stake_round K0 round_locked globals_mintable
    = (globals_mintable, [MilliSleep 2500], BuildTemplate).
Proof. split; vm_compute; reflexivity. Qed.

(** ** Ancestors in a well-formed mempool *)

Lemma elem_of_in_order (s : gset Z) x : x ∈ in_order s ↔ x ∈ s.
Proof. unfold in_order. rewrite merge_sort_Permutation. apply elem_of_elements. Qed.

Lemma NoDup_in_order (s : gset Z) : NoDup (in_order s).
Proof. unfold in_order. rewrite merge_sort_Permutation. apply NoDup_elements. Qed.

Section Ancestors.
Context (pool : gmap Z CTxMemPoolEntry).

Lemma elem_of_ancestors_upto_S n h a :
  a ∈ ancestors_upto (S n) pool h ↔
  ∃ e p, pool !! h = Some e ∧ p ∈ GetMemPoolParents e ∧ is_Some (pool !! p)
         ∧ (a = p ∨ a ∈ ancestors_upto n pool p).
Proof.
  simpl. destruct (pool !! h) as [e|] eqn:He.
  - rewrite elem_of_union, elem_of_list_to_set, elem_of_union_list. split.
    + intros [Ha|(X & HX & Ha)].
      * apply list_elem_of_filter in Ha as [Hp Ha]. exists e, a. auto.
      * apply list_elem_of_fmap in HX as (p & -> & Hp).
        apply list_elem_of_filter in Hp as [Hp Hin]. exists e, p. auto.
    + intros (e' & p & Heq & Hin & Hp & Ha). inversion Heq; subst e'.
      destruct Ha as [->|Ha].
      * left. apply list_elem_of_filter. auto.
      * right. exists (ancestors_upto n pool p). split; [|exact Ha].
        apply list_elem_of_fmap. exists p. split; [reflexivity |].
        apply list_elem_of_filter. auto.
  - split; [intros Ha; set_solver |].
    intros (e & p & Heq & _). discriminate.
Qed.

Lemma ancestors_upto_mono n m h :
  (n ≤ m)%nat → ancestors_upto n pool h ⊆ ancestors_upto m pool h.
Proof.
  revert m h. induction n as [|n IH]; intros m h Hle a Ha; [simpl in Ha; set_solver |].
  destruct m as [|m]; [lia |].
  apply elem_of_ancestors_upto_S in Ha as (e & p & He & Hin & Hp & Ha).
  apply elem_of_ancestors_upto_S. exists e, p. repeat split; try assumption.
  destruct Ha as [->|Ha]; [left; reflexivity | right].
  apply (IH m p); [lia | exact Ha].
Qed.

Lemma ancestors_upto_in_pool n h a :
  a ∈ ancestors_upto n pool h → is_Some (pool !! a).
Proof.
  revert h. induction n as [|n IH]; intros h Ha; [simpl in Ha; set_solver |].
  apply elem_of_ancestors_upto_S in Ha as (e & p & He & Hin & Hp & [->|Ha]); eauto.
Qed.

Lemma ancestors_upto_of_pool n h a :
  a ∈ ancestors_upto n pool h → is_Some (pool !! h).
Proof.
  destruct n as [|n]; intros Ha; [simpl in Ha; set_solver |].
  apply elem_of_ancestors_upto_S in Ha as (e & p & He & _). eauto.
Qed.

Lemma ancestors_upto_trans n m h a b :
  a ∈ ancestors_upto n pool h → b ∈ ancestors_upto m pool a →
  b ∈ ancestors_upto (n + m) pool h.
Proof.
  revert h. induction n as [|n IH]; intros h Ha Hb; [simpl in Ha; set_solver |].
  apply elem_of_ancestors_upto_S in Ha as (e & p & He & Hin & Hp & Ha).
  change (S n + m)%nat with (S (n + m)).
  apply elem_of_ancestors_upto_S. exists e, p. repeat split; try assumption.
  right. destruct Ha as [->|Ha].
  - apply (ancestors_upto_mono m); [lia | exact Hb].
  - apply IH; assumption.
Qed.

Hypothesis pool_consistent : mempool_consistent pool.

Lemma consistent_hash h e : pool !! h = Some e → GetHash (GetSharedTx e) = h.
Proof.
  intros He. specialize (pool_consistent h e He). unfold entry_consistent in pool_consistent.
  rewrite !andb_true_iff in pool_consistent.
  destruct pool_consistent as [[[Hh _] _] _].
  apply bool_decide_eq_true in Hh. exact Hh.
Qed.

Lemma consistent_count h e :
  pool !! h = Some e → 0 < GetCountWithAncestors e ≤ Z.of_nat (size pool).
Proof.
  intros He. specialize (pool_consistent h e He). unfold entry_consistent in pool_consistent.
  rewrite !andb_true_iff in pool_consistent.
  destruct pool_consistent as [[[_ H0] H1] _]. lia.
Qed.

Lemma consistent_parent h e p ep :
  pool !! h = Some e → p ∈ GetMemPoolParents e → pool !! p = Some ep →
  GetCountWithAncestors ep < GetCountWithAncestors e.
Proof.
  intros He Hin Hp. specialize (pool_consistent h e He).
  unfold entry_consistent in pool_consistent.
  rewrite !andb_true_iff in pool_consistent.
  destruct pool_consistent as [_ Hall].
  rewrite forallb_forall in Hall. apply list_elem_of_In in Hin.
  specialize (Hall p Hin). rewrite Hp in Hall. lia.
Qed.

Lemma ancestors_upto_count n h a :
  a ∈ ancestors_upto n pool h →
  GetCountWithAncestors (pool !!! a) < GetCountWithAncestors (pool !!! h).
Proof.
  revert h. induction n as [|n IH]; intros h Ha; [simpl in Ha; set_solver |].
  apply elem_of_ancestors_upto_S in Ha as (e & p & He & Hin & [ep Hp] & Ha).
  assert (Hlt := consistent_parent h e p ep He Hin Hp).
  rewrite (lookup_total_correct _ _ _ He).
  destruct Ha as [->|Ha].
  - rewrite (lookup_total_correct _ _ _ Hp). exact Hlt.
  - specialize (IH p Ha). rewrite (lookup_total_correct _ _ _ Hp) in IH. lia.
Qed.

Lemma ancestors_upto_saturate n h e m :
  pool !! h = Some e → GetCountWithAncestors e ≤ Z.of_nat n + 1 → (n ≤ m)%nat →
  ancestors_upto m pool h ⊆ ancestors_upto n pool h.
Proof.
  revert h e m. induction n as [|n IH]; intros h e m He Hc Hle a Ha.
  - destruct m as [|m]; [exact Ha |].
    apply elem_of_ancestors_upto_S in Ha as (e' & p & He' & Hin & [ep Hp] & _).
    assert (Hlt := consistent_parent h e' p ep He' Hin Hp).
    assert (Hpos := consistent_count p ep Hp).
    rewrite He in He'. inversion He'; subst e'. lia.
  - destruct m as [|m]; [lia |].
    apply elem_of_ancestors_upto_S in Ha as (e' & p & He' & Hin & [ep Hp] & Ha).
    assert (Hlt := consistent_parent h e' p ep He' Hin Hp).
    apply elem_of_ancestors_upto_S. exists e', p. repeat split; eauto.
    destruct Ha as [->|Ha]; [left; reflexivity | right].
    rewrite He in He'. inversion He'; subst e'.
    apply (IH p ep m); [exact Hp | lia | lia | exact Ha].
Qed.

Lemma ancestors_trans h a b :
  a ∈ CalculateMemPoolAncestors pool h → b ∈ CalculateMemPoolAncestors pool a →
  b ∈ CalculateMemPoolAncestors pool h.
Proof.
  unfold CalculateMemPoolAncestors. intros Ha Hb.
  destruct (ancestors_upto_of_pool _ _ _ Ha) as [e He].
  apply (ancestors_upto_saturate (size pool) h e (size pool + size pool));
    [exact He | | lia |].
  - destruct (consistent_count h e He). lia.
  - apply (ancestors_upto_trans _ _ _ a); assumption.
Qed.

Lemma ancestors_count h a :
  a ∈ CalculateMemPoolAncestors pool h →
  GetCountWithAncestors (pool !!! a) < GetCountWithAncestors (pool !!! h).
Proof. apply ancestors_upto_count. Qed.

Lemma ancestors_in_pool h a :
  a ∈ CalculateMemPoolAncestors pool h → is_Some (pool !! a).
Proof. apply ancestors_upto_in_pool. Qed.

End Ancestors.

(** ** The selection loop keeps ancestors before descendants *)

Lemma foldl_preserves {A B} (f : A → B → A) (P : A → Prop) (Q : B → Prop) l a :
  P a → Forall Q l → (∀ a b, P a → Q b → P (f a b)) → P (foldl f a l).
Proof.
  intros Ha Hl Hf. revert a Ha. induction Hl as [|x l Hx Hl IH]; intros a Ha; simpl; auto.
Qed.

Lemma StronglySorted_lookup {A} (R : relation A) l i j x y :
  StronglySorted R l → l !! i = Some x → l !! j = Some y → (i < j)%nat → R x y.
Proof.
  intros Hs. revert i j. induction Hs as [|z l Hs IH Hall]; intros i j Hi Hj Hlt.
  - rewrite lookup_nil in Hi. discriminate.
  - destruct j as [|j]; [lia |]. simpl in Hj. destruct i as [|i]; simpl in Hi.
    + inversion Hi; subst. rewrite Forall_forall in Hall. apply Hall.
      apply list_elem_of_lookup. eauto.
    + apply (IH i j); [assumption | assumption | lia].
Qed.

Lemma lookup_foldl_delete {V} (m : gmap Z V) l k v :
  foldl (λ m e, delete e m) m l !! k = Some v → m !! k = Some v ∧ k ∉ l.
Proof.
  revert m. induction l as [|x l IH]; intros m; simpl.
  - intros H. split; [exact H | apply not_elem_of_nil].
  - intros H. apply IH in H as [H Hk]. apply lookup_delete_Some in H as [Hne H].
    split; [exact H |]. rewrite not_elem_of_cons. auto.
Qed.

Lemma modified_begin_Some m me :
  modified_begin m = Some me → ∃ k, m !! k = Some me.
Proof.
  unfold modified_begin. intros H. apply head_Some_elem_of in H.
  rewrite merge_sort_Permutation in H.
  apply list_elem_of_fmap in H as ([k me'] & -> & H).
  apply elem_of_map_to_list in H. exists k. exact H.
Qed.

Section SelectionInvariant.
Context (K : Constants) (N : Node) (pool : gmap Z CTxMemPoolEntry).
Context (v0 : list (option CTransaction)).
Hypothesis pool_consistent : mempool_consistent pool.

#[local] Instance CompareTxIterByAncestorCount_total :
  Total (CompareTxIterByAncestorCount pool).
Proof.
  intros a b. unfold CompareTxIterByAncestorCount.
  generalize (GetCountWithAncestors (pool !!! a)), (GetCountWithAncestors (pool !!! b)).
  intros ca cb. lia.
Qed.

#[local] Instance CompareTxIterByAncestorCount_trans :
  Transitive (CompareTxIterByAncestorCount pool).
Proof.
  intros a b c. unfold CompareTxIterByAncestorCount.
  generalize (GetCountWithAncestors (pool !!! a)), (GetCountWithAncestors (pool !!! b)),
    (GetCountWithAncestors (pool !!! c)).
  intros ca cb cc. lia.
Qed.

Lemma elem_of_SortForBlock package x : x ∈ SortForBlock pool package ↔ x ∈ package.
Proof. unfold SortForBlock. rewrite merge_sort_Permutation. apply elem_of_in_order. Qed.

Lemma NoDup_SortForBlock package : NoDup (SortForBlock pool package).
Proof. unfold SortForBlock. rewrite merge_sort_Permutation. apply NoDup_in_order. Qed.

Lemma SortForBlock_sorted package :
  StronglySorted (CompareTxIterByAncestorCount pool) (SortForBlock pool package).
Proof. apply StronglySorted_merge_sort; apply _. Qed.

Lemma foldl_AddToBlock_vtx a l :
  vtx (foldl (AddToBlock pool) a l) = vtx a ++ (tx_of pool <$> l).
Proof.
  revert a. induction l as [|x l IH]; intros a; simpl; [rewrite app_nil_r; reflexivity |].
  rewrite IH. simpl. rewrite <- app_assoc. reflexivity.
Qed.

Lemma foldl_AddToBlock_inBlock a l :
  inBlock (foldl (AddToBlock pool) a l) = list_to_set l ∪ inBlock a.
Proof.
  revert a. induction l as [|x l IH]; intros a; simpl; [set_solver |].
  rewrite IH. simpl. set_solver.
Qed.

Lemma UpdatePackagesForAdded_lookup added m k m' :
  (∀ k0 m0, m !! k0 = Some m0 → iter m0 = k0) →
  (UpdatePackagesForAdded pool added m).2 !! k = Some m' →
  iter m' = k
  ∧ (is_Some (m !! k)
     ∨ ((k ∉ added) ∧ ∃ it, it ∈ added ∧ k ∈ CalculateDescendants pool it)).
Proof.
  intros Hm. unfold UpdatePackagesForAdded. revert k m'.
  set (P := λ acc : Z * gmap Z CTxMemPoolModifiedEntry,
         ∀ k m', acc.2 !! k = Some m' →
           iter m' = k
           ∧ (is_Some (m !! k)
              ∨ ((k ∉ added) ∧ ∃ it, it ∈ added ∧ k ∈ CalculateDescendants pool it))).
  apply (foldl_preserves _ P (λ it, it ∈ added)).
  - intros k m' H. simpl in H. split; [apply (Hm _ _ H) | left; eauto].
  - apply Forall_forall. intros it Hit. apply elem_of_in_order in Hit. exact Hit.
  - intros acc it Hacc Hit.
    apply (foldl_preserves _ P (λ desc, desc ∈ CalculateDescendants pool it)).
    + exact Hacc.
    + apply Forall_forall. intros d Hd. apply elem_of_in_order in Hd. exact Hd.
    + clear acc Hacc. intros acc desc Hacc Hdesc k m'. unfold UpdatePackagesForAdded_desc.
      destruct (decide (desc ∈ added)) as [Hin|Hnin]; [apply Hacc |].
      destruct (acc.2 !! desc) as [mit|] eqn:Hmit; simpl.
      * destruct (decide (k = desc)) as [->|Hne].
        -- rewrite lookup_insert_eq. intros H; inversion H; subst; clear H. simpl.
           apply (Hacc _ _ Hmit).
        -- rewrite lookup_insert_ne by congruence. apply Hacc.
      * destruct (decide (k = desc)) as [->|Hne].
        -- rewrite lookup_insert_eq. intros H; inversion H; subst; clear H. simpl.
           split; [reflexivity |]. right. split; [exact Hnin |]. exists it. auto.
        -- rewrite lookup_insert_ne by congruence. apply Hacc.
Qed.

Lemma selection_inv_advance_mi s order :
  selection_inv pool v0 s order → selection_inv pool v0 (advance_mi s) order.
Proof.
  intros [H1 H2 H3 H4 H5 H6 H7]. split; try assumption.
  intros h Hh. apply H7. simpl in Hh. destruct (mi s); [exact Hh |].
  simpl in Hh. apply elem_of_cons. auto.
Qed.

Lemma selection_inv_drop_failed b it s order :
  selection_inv pool v0 s order → selection_inv pool v0 (drop_failed b it s) order.
Proof.
  intros [H1 H2 H3 H4 H5 H6 H7]. destruct b; [|split; assumption].
  split; try assumption.
  intros k m Hk. simpl in Hk. apply lookup_delete_Some in Hk as [_ Hk]. apply (H6 _ _ Hk).
Qed.

Lemma selection_inv_commit s order it :
  selection_inv pool v0 s order →
  is_Some (pool !! it) →
  it ∉ inBlock (assembler s) →
  let ancestors :=
    {[ it ]} ∪ onlyUnconfirmed (assembler s) (CalculateMemPoolAncestors pool it) in
  let sortedEntries := SortForBlock pool ancestors in
  ∀ fails packages updated,
  selection_inv pool v0
    {| assembler := foldl (AddToBlock pool) (assembler s) sortedEntries;
       mapModifiedTx :=
         (UpdatePackagesForAdded pool ancestors
            (foldl (λ m e, delete e m) (mapModifiedTx s) sortedEntries)).2;
       failedTx := failedTx s;
       mi := mi s;
       nConsecutiveFailed := fails;
       nPackagesSelected := packages;
       nDescendantsUpdated := updated |}
    (order ++ sortedEntries).
Proof.
  intros [H1 H2 H3 H4 H5 H6 H7] Hit Hnin ancestors sortedEntries fails packages updated.
  assert (Hpkg : ∀ x, x ∈ ancestors ↔
            x = it ∨ (x ∈ CalculateMemPoolAncestors pool it ∧ x ∉ inBlock (assembler s))).
  { intros x. unfold ancestors, onlyUnconfirmed. set_solver. }
  assert (Hfresh : ∀ x, x ∈ ancestors → x ∉ inBlock (assembler s)).
  { intros x Hx. apply Hpkg in Hx as [->|[_ Hx]]; assumption. }
  assert (Hanc : ∀ h a, h ∈ ancestors → a ∈ CalculateMemPoolAncestors pool h →
            a ∈ CalculateMemPoolAncestors pool it).
  { intros h a Hh Ha. apply Hpkg in Hh as [->|[Hh _]]; [exact Ha |].
    apply (ancestors_trans pool pool_consistent it h a); assumption. }
  split; simpl.
  - rewrite foldl_AddToBlock_vtx, H1, fmap_app, app_assoc. reflexivity.
  - intros h. rewrite foldl_AddToBlock_inBlock, elem_of_app, elem_of_union,
      elem_of_list_to_set, H2. tauto.
  - apply NoDup_app. split; [exact H3 |]. split; [|apply NoDup_SortForBlock].
    intros x Hx Hx'. apply elem_of_SortForBlock in Hx'. apply (Hfresh x Hx').
    apply H2. exact Hx.
  - intros h Hh. apply elem_of_app in Hh as [Hh|Hh]; [apply H4; exact Hh |].
    apply elem_of_SortForBlock, Hpkg in Hh as [->|[Hh _]]; [exact Hit |].
    apply (ancestors_in_pool pool it h Hh).
  - intros i h a Hi Ha. apply lookup_app_Some in Hi as [Hi|[Hlen Hi]].
    + destruct (H5 i h a Hi Ha) as (j & Hj & Hja). exists j. split; [exact Hj |].
      rewrite lookup_app_l; [exact Hja |]. apply lookup_lt_Some in Hja. exact Hja.
    + assert (Hh : h ∈ ancestors).
      { apply elem_of_SortForBlock, list_elem_of_lookup. eauto. }
      assert (Ha' := Hanc h a Hh Ha).
      destruct (decide (a ∈ inBlock (assembler s))) as [Hin|Hout].
      * apply H2, list_elem_of_lookup in Hin as [j Hj]. exists j.
        split; [apply lookup_lt_Some in Hj; lia |].
        rewrite lookup_app_l; [exact Hj |]. apply lookup_lt_Some in Hj. exact Hj.
      * assert (Hain : a ∈ sortedEntries).
        { apply elem_of_SortForBlock, Hpkg. right. auto. }
        apply list_elem_of_lookup in Hain as [j Hj].
        assert (Hcount := ancestors_count pool pool_consistent h a Ha).
        assert (Hji : (j < i - length order)%nat).
        { destruct (Nat.lt_trichotomy j (i - length order)) as [Hlt|[Heq|Hgt]];
            [exact Hlt | |].
          - subst j. rewrite Hi in Hj. inversion Hj; subst. lia.
          - assert (Hr := StronglySorted_lookup _ _ _ _ _ _
                            (SortForBlock_sorted ancestors) Hi Hj Hgt).
            unfold CompareTxIterByAncestorCount in Hr. lia. }
        exists (length order + j)%nat. split; [lia |].
        rewrite lookup_app_r by lia.
        replace (length order + j - length order)%nat with j by lia. exact Hj.
  - intros k m Hk.
    apply UpdatePackagesForAdded_lookup in Hk as [Hiter Hk].
    2:{ intros k0 m0 Hk0. apply lookup_foldl_delete in Hk0 as [Hk0 _].
        apply (H6 _ _ Hk0). }
    split; [exact Hiter |]. rewrite foldl_AddToBlock_inBlock.
    destruct Hk as [[m0 Hk]|(Hnew & it' & Hit' & Hdesc)].
    + apply lookup_foldl_delete in Hk as [Hk Hks].
      destruct (H6 _ _ Hk) as (_ & Hp & Hb). split; [exact Hp |].
      rewrite elem_of_union, elem_of_list_to_set. tauto.
    + assert (Hne : k ≠ it') by (intros ->; contradiction).
      unfold CalculateDescendants in Hdesc.
      apply elem_of_union in Hdesc as [Hdesc|Hdesc]; [set_solver |].
      apply elem_of_filter in Hdesc as [Hanc' Hdom].
      split; [apply elem_of_dom; exact Hdom |].
      unfold sortedEntries.
      rewrite elem_of_union, elem_of_list_to_set, elem_of_SortForBlock.
      intros [Hin|Hin]; [contradiction |].
      apply H2, list_elem_of_lookup in Hin as [i Hi].
      destruct (H5 i k it' Hi Hanc') as (j & _ & Hj).
      apply (Hfresh it' Hit'), H2, list_elem_of_lookup. eauto.
  - exact H7.
Qed.

Lemma consider_package_inv s order it b modit s' :
  selection_inv pool v0 s order →
  is_Some (pool !! it) →
  consider_package K N pool s it b modit = Continue s'
  ∨ consider_package K N pool s it b modit = Break s' →
  ∃ order', selection_inv pool v0 s' order'.
Proof.
  intros Hinv Hit. unfold consider_package.
  destruct (decide (it ∈ inBlock (assembler s))) as [|Hnin]; [intros [?|?]; discriminate |].
  cbv zeta.
  destruct (TestPackage K (assembler s) _ _); simpl negb; cbv iota.
  - destruct (TestPackageTransactions N pool (assembler s) _); simpl negb; cbv iota.
    + intros [H|H]; inversion H; subst; clear H.
      exists (order ++ SortForBlock pool
                ({[ it ]} ∪ onlyUnconfirmed (assembler s) (CalculateMemPoolAncestors pool it))).
      apply selection_inv_commit; assumption.
    + intros [H|H]; inversion H; subst; clear H.
      exists order. apply selection_inv_drop_failed, Hinv.
  - assert (Hd := selection_inv_drop_failed b it s order Hinv).
    match goal with |- context [if ?c then Break _ else _] => destruct c end;
      intros [H|H]; inversion H; subst; clear H; exists order;
      destruct Hd as [H1 H2 H3 H4 H5 H6 H7]; split; assumption.
Qed.

Lemma addPackageTxs_step_inv s order s' :
  selection_inv pool v0 s order →
  addPackageTxs_step K N pool s = Continue s'
  ∨ addPackageTxs_step K N pool s = Break s' →
  ∃ order', selection_inv pool v0 s' order'.
Proof.
  intros Hinv. unfold addPackageTxs_step.
  assert (Hmod : ∀ m, modified_begin (mapModifiedTx s) = Some m → is_Some (pool !! iter m)).
  { intros m Hm. apply modified_begin_Some in Hm as [k Hk].
    destruct (inv_modified _ _ _ _ Hinv k m Hk) as (-> & Hp & _). exact Hp. }
  destruct (mi s) as [|it rest] eqn:Hmi,
    (modified_begin (mapModifiedTx s)) as [m|] eqn:Hm.
  - apply (consider_package_inv s order); auto.
  - intros [H|H]; inversion H; subst; eauto.
  - assert (Hit : is_Some (pool !! it)).
    { apply (inv_mi _ _ _ _ Hinv). rewrite Hmi. apply elem_of_cons. auto. }
    destruct (SkipMapTxEntry _ _ _ _).
    { intros [H|H]; inversion H; subst. exists order. apply selection_inv_advance_mi, Hinv. }
    destruct (CompareTxMemPoolEntryByAncestorFee _ _ _ _ _ _).
    + apply (consider_package_inv s order); auto.
    + apply (consider_package_inv (advance_mi s) order); auto.
      apply selection_inv_advance_mi, Hinv.
  - assert (Hit : is_Some (pool !! it)).
    { apply (inv_mi _ _ _ _ Hinv). rewrite Hmi. apply elem_of_cons. auto. }
    destruct (SkipMapTxEntry _ _ _ _).
    { intros [H|H]; inversion H; subst. exists order. apply selection_inv_advance_mi, Hinv. }
    apply (consider_package_inv (advance_mi s) order); auto.
    apply selection_inv_advance_mi, Hinv.
Qed.

Lemma addPackageTxs_loop_inv fuel s order :
  selection_inv pool v0 s order →
  match addPackageTxs_loop fuel K N pool s with
  | Finished s' | OutOfFuel s' => ∃ order', selection_inv pool v0 s' order'
  | Aborted => True
  end.
Proof.
  revert s order. induction fuel as [|fuel IH]; intros s order Hinv; simpl; [eauto |].
  destruct (addPackageTxs_step K N pool s) as [s1|s1|] eqn:Hstep; [| |exact I].
  - destruct (addPackageTxs_step_inv s order s1 Hinv) as [order1 H1]; [auto |].
    apply (IH s1 order1 H1).
  - apply (addPackageTxs_step_inv s order s1 Hinv). auto.
Qed.

Lemma in_order_empty : in_order ∅ = [].
Proof. reflexivity. Qed.

Lemma selection_inv_init a :
  inBlock a = ∅ → vtx a = v0 → selection_inv pool v0 (addPackageTxs_init pool a) [].
Proof.
  intros Hin Hv. unfold addPackageTxs_init. rewrite Hin.
  split; simpl.
  - rewrite app_nil_r. exact Hv.
  - intros h. rewrite Hin. set_solver.
  - constructor.
  - intros h Hh. inversion Hh.
  - intros i h a' Hi. rewrite lookup_nil in Hi. discriminate.
  - intros k m. unfold UpdatePackagesForAdded. rewrite in_order_empty. simpl.
    rewrite lookup_empty. discriminate.
  - intros h Hh. unfold by_ancestor_score in Hh.
    rewrite merge_sort_Permutation in Hh. apply elem_of_elements, elem_of_dom in Hh. exact Hh.
Qed.

(** *** The loop ends *)

Lemma overlay_size s order :
  selection_inv pool v0 s order → (size (mapModifiedTx s) ≤ size pool)%nat.
Proof.
  intros Hinv.
  rewrite <- (size_dom (D := gset Z) (mapModifiedTx s)), <- (size_dom (D := gset Z) pool).
  apply subseteq_size. intros k Hk. apply elem_of_dom in Hk as [m Hk]. apply elem_of_dom.
  apply (inv_modified _ _ _ _ Hinv k m Hk).
Qed.

Lemma drop_failed_measure b it s :
  (b = true → is_Some (mapModifiedTx s !! it)) →
  (selection_measure pool (drop_failed b it s) + (if b then 1 else 0)
   = selection_measure pool s)%nat.
Proof.
  intros Hb. destruct b; simpl; [|lia].
  destruct (Hb eq_refl) as [m Hm]. unfold selection_measure. simpl.
  assert (Hsize : size (mapModifiedTx s) = S (size (delete it (mapModifiedTx s)))).
  { rewrite <- (insert_delete_id (mapModifiedTx s) it m Hm) at 1.
    apply map_size_insert_None, lookup_delete_eq. }
  lia.
Qed.

Lemma commit_measure s order it :
  selection_inv pool v0 s order →
  is_Some (pool !! it) →
  it ∉ inBlock (assembler s) →
  let ancestors :=
    {[ it ]} ∪ onlyUnconfirmed (assembler s) (CalculateMemPoolAncestors pool it) in
  let sortedEntries := SortForBlock pool ancestors in
  ∀ fails packages updated,
  (selection_measure pool
     {| assembler := foldl (AddToBlock pool) (assembler s) sortedEntries;
        mapModifiedTx :=
          (UpdatePackagesForAdded pool ancestors
             (foldl (λ m e, delete e m) (mapModifiedTx s) sortedEntries)).2;
        failedTx := failedTx s;
        mi := mi s;
        nConsecutiveFailed := fails;
        nPackagesSelected := packages;
        nDescendantsUpdated := updated |}
   < selection_measure pool s)%nat.
Proof.
  intros Hinv Hit Hnin ancestors sortedEntries fails packages updated.
  assert (Hsize := overlay_size _ _
            (selection_inv_commit s order it Hinv Hit Hnin fails packages updated)).
  fold ancestors sortedEntries in Hsize. simpl in Hsize.
  unfold selection_measure. simpl.
  assert (Hless : (size (dom pool ∖ inBlock (foldl (AddToBlock pool) (assembler s) sortedEntries))
                   < size (dom pool ∖ inBlock (assembler s)))%nat).
  { apply subset_size. rewrite foldl_AddToBlock_inBlock. split; [set_solver |].
    intros Hsub. assert (Hin : it ∈ dom pool ∖ inBlock (assembler s)).
    { apply elem_of_difference. split; [apply elem_of_dom; exact Hit | exact Hnin]. }
    apply Hsub, elem_of_difference in Hin as [_ Hin]. apply Hin.
    apply elem_of_union. left. apply elem_of_list_to_set, elem_of_SortForBlock.
    unfold ancestors. set_solver. }
  nia.
Qed.

Lemma consider_package_measure s order it b modit s' :
  selection_inv pool v0 s order →
  is_Some (pool !! it) →
  (b = true → is_Some (mapModifiedTx s !! it)) →
  consider_package K N pool s it b modit = Continue s' →
  (selection_measure pool s' + (if b then 1 else 0) ≤ selection_measure pool s)%nat.
Proof.
  intros Hinv Hit Hb. unfold consider_package.
  destruct (decide (it ∈ inBlock (assembler s))) as [|Hnin]; [discriminate |].
  cbv zeta.
  destruct (TestPackage K (assembler s) _ _); simpl negb; cbv iota.
  - destruct (TestPackageTransactions N pool (assembler s) _); simpl negb; cbv iota.
    + intros H; inversion H; subst; clear H.
      assert (Hc := commit_measure s order it Hinv Hit Hnin 0 (nPackagesSelected s + 1)).
      cbv zeta in Hc. specialize (Hc (nDescendantsUpdated s
        + (UpdatePackagesForAdded pool
             ({[ it ]} ∪ onlyUnconfirmed (assembler s) (CalculateMemPoolAncestors pool it))
             (foldl (λ m e, delete e m) (mapModifiedTx s)
                (SortForBlock pool
                   ({[ it ]} ∪ onlyUnconfirmed (assembler s)
                                 (CalculateMemPoolAncestors pool it))))).1)).
      destruct b; lia.
    + intros H; inversion H; subst; clear H.
      rewrite (drop_failed_measure b it s Hb). lia.
  - assert (Hd := drop_failed_measure b it s Hb).
    match goal with |- context [if ?c then Break _ else _] => destruct c end;
      intros H; inversion H; subst; clear H.
    unfold selection_measure in *. simpl. lia.
Qed.

Lemma consider_package_asserts s it b modit :
  it ∉ inBlock (assembler s) → consider_package K N pool s it b modit ≠ AssertFailed.
Proof.
  intros Hnin. unfold consider_package.
  destruct (decide (it ∈ inBlock (assembler s))); [contradiction |].
  cbv zeta.
  destruct (TestPackage K (assembler s) _ _); simpl negb; cbv iota.
  - destruct (TestPackageTransactions N pool (assembler s) _); simpl negb; cbv iota;
      discriminate.
  - match goal with |- context [if ?c then Break _ else _] => destruct c end; discriminate.
Qed.

Lemma advance_mi_measure s it rest :
  mi s = it :: rest →
  (selection_measure pool (advance_mi s) + 1 = selection_measure pool s)%nat.
Proof. intros Hmi. unfold selection_measure. simpl. rewrite Hmi. simpl. lia. Qed.

Lemma SkipMapTxEntry_false a it m failed :
  SkipMapTxEntry a it m failed = false → it ∉ inBlock a.
Proof.
  unfold SkipMapTxEntry. intros H.
  apply orb_false_iff in H as [H _]. apply orb_false_iff in H as [_ H].
  apply bool_decide_eq_false in H. exact H.
Qed.

Lemma modified_begin_lookup s order m :
  selection_inv pool v0 s order →
  modified_begin (mapModifiedTx s) = Some m →
  mapModifiedTx s !! iter m = Some m
  ∧ is_Some (pool !! iter m) ∧ iter m ∉ inBlock (assembler s).
Proof.
  intros Hinv Hm. apply modified_begin_Some in Hm as [k Hk].
  destruct (inv_modified _ _ _ _ Hinv k m Hk) as (Hiter & Hp & Hb).
  rewrite Hiter. auto.
Qed.

Lemma addPackageTxs_step_measure s order s' :
  selection_inv pool v0 s order →
  addPackageTxs_step K N pool s = Continue s' →
  (selection_measure pool s' < selection_measure pool s)%nat.
Proof.
  intros Hinv. unfold addPackageTxs_step.
  destruct (mi s) as [|it rest] eqn:Hmi,
    (modified_begin (mapModifiedTx s)) as [m|] eqn:Hm.
  - destruct (modified_begin_lookup s order m Hinv Hm) as (Hl & Hp & _). intros H.
    apply (consider_package_measure s order) in H; eauto. lia.
  - discriminate.
  - assert (Hit : is_Some (pool !! it)).
    { apply (inv_mi _ _ _ _ Hinv). rewrite Hmi. apply elem_of_cons. auto. }
    assert (Hadv := advance_mi_measure s it rest Hmi).
    destruct (SkipMapTxEntry _ _ _ _).
    { intros H; inversion H; subst. lia. }
    destruct (modified_begin_lookup s order m Hinv Hm) as (Hl & Hp & _).
    destruct (CompareTxMemPoolEntryByAncestorFee _ _ _ _ _ _); intros H.
    + apply (consider_package_measure s order) in H; eauto. lia.
    + apply (consider_package_measure (advance_mi s) order) in H;
        [lia | apply selection_inv_advance_mi, Hinv | exact Hit | discriminate].
  - assert (Hit : is_Some (pool !! it)).
    { apply (inv_mi _ _ _ _ Hinv). rewrite Hmi. apply elem_of_cons. auto. }
    assert (Hadv := advance_mi_measure s it rest Hmi).
    destruct (SkipMapTxEntry _ _ _ _).
    { intros H; inversion H; subst. lia. }
    intros H. apply (consider_package_measure (advance_mi s) order) in H;
      [lia | apply selection_inv_advance_mi, Hinv | exact Hit | discriminate].
Qed.

Lemma addPackageTxs_step_asserts s order :
  selection_inv pool v0 s order → addPackageTxs_step K N pool s ≠ AssertFailed.
Proof.
  intros Hinv. unfold addPackageTxs_step.
  destruct (mi s) as [|it rest] eqn:Hmi,
    (modified_begin (mapModifiedTx s)) as [m|] eqn:Hm.
  - apply consider_package_asserts. apply (modified_begin_lookup s order m Hinv Hm).
  - discriminate.
  - destruct (SkipMapTxEntry _ _ _ _) eqn:Hskip; [discriminate |].
    apply SkipMapTxEntry_false in Hskip.
    destruct (CompareTxMemPoolEntryByAncestorFee _ _ _ _ _ _).
    + apply consider_package_asserts. apply (modified_begin_lookup s order m Hinv Hm).
    + apply consider_package_asserts. exact Hskip.
  - destruct (SkipMapTxEntry _ _ _ _) eqn:Hskip; [discriminate |].
    apply SkipMapTxEntry_false in Hskip.
    apply consider_package_asserts. exact Hskip.
Qed.

(** With more fuel than the measure, the loop is left through its condition or
    its [break]: it neither runs out of fuel nor fails the [assert]. *)
Lemma addPackageTxs_loop_finishes fuel s order :
  selection_inv pool v0 s order →
  (selection_measure pool s < fuel)%nat →
  ∃ s', addPackageTxs_loop fuel K N pool s = Finished s'.
Proof.
  revert s order. induction fuel as [|fuel IH]; intros s order Hinv Hfuel; [lia |].
  simpl. destruct (addPackageTxs_step K N pool s) as [s1|s1|] eqn:Hstep.
  - destruct (addPackageTxs_step_inv s order s1 Hinv) as [order1 H1]; [auto |].
    assert (Hm := addPackageTxs_step_measure s order s1 Hinv Hstep).
    apply (IH s1 order1 H1). lia.
  - eauto.
  - exfalso. apply (addPackageTxs_step_asserts s order Hinv Hstep).
Qed.

Lemma selection_measure_init a :
  inBlock a = ∅ →
  (selection_measure pool (addPackageTxs_init pool a) < selection_fuel pool)%nat.
Proof.
  intros Hin. unfold selection_measure, addPackageTxs_init, selection_fuel. simpl.
  rewrite Hin. unfold UpdatePackagesForAdded. rewrite in_order_empty. simpl.
  rewrite map_size_empty.
  assert (Hlen : length (by_ancestor_score pool) = size pool).
  { unfold by_ancestor_score. rewrite merge_sort_Permutation.
    rewrite <- (size_dom (D := gset Z) pool). reflexivity. }
  assert (Hsize : (size (dom pool ∖ (∅ : gset Z)) ≤ size pool)%nat).
  { rewrite <- (size_dom (D := gset Z) pool). apply subseteq_size. set_solver. }
  rewrite Hlen. nia.
Qed.

(** [addPackageTxs] returns for every consistent mempool when it is entered
    with an empty [inBlock]. *)
Lemma addPackageTxs_returns a :
  inBlock a = ∅ → vtx a = v0 →
  ∃ s, addPackageTxs (selection_fuel pool) K N pool a = Finished s.
Proof.
  intros Hin Hv. unfold addPackageTxs.
  apply (addPackageTxs_loop_finishes _ _ []).
  - apply selection_inv_init; assumption.
  - apply selection_measure_init, Hin.
Qed.

End SelectionInvariant.

(** ** The privacy screening *)

Section CheckHashes.
Context (inChain : Z → bool).

Lemma check_hashes_mono hashes seen : seen ⊆ (check_hashes inChain hashes seen).1.
Proof.
  revert seen. induction hashes as [|h rest IH]; intros seen; simpl; [reflexivity |].
  destruct (decide (h ∈ seen)); [reflexivity |].
  destruct (inChain h); [reflexivity |].
  etransitivity; [|apply IH]. apply union_subseteq_r.
Qed.

Lemma check_hashes_pass hashes seen :
  (check_hashes inChain hashes seen).2 = false →
  (check_hashes inChain hashes seen).1 = list_to_set hashes ∪ seen
  ∧ ∀ x, x ∈ hashes → inChain x = false.
Proof.
  revert seen. induction hashes as [|h rest IH]; intros seen; simpl.
  - intros _. split; [set_solver | intros x Hx; inversion Hx].
  - destruct (decide (h ∈ seen)); [discriminate |].
    destruct (inChain h) eqn:Hh; [discriminate |].
    intros H. apply IH in H as [H1 H2]. split.
    + rewrite H1. set_solver.
    + intros x Hx. apply elem_of_cons in Hx as [->|Hx]; auto.
Qed.

Lemma check_hashes_hit hashes seen x :
  x ∈ hashes → x ∈ seen → (check_hashes inChain hashes seen).2 = true.
Proof.
  revert seen. induction hashes as [|h rest IH]; intros seen Hx Hs; [inversion Hx |].
  simpl. destruct (decide (h ∈ seen)); [reflexivity |].
  destruct (inChain h); [reflexivity |].
  apply elem_of_cons in Hx as [->|Hx]; [contradiction |].
  apply IH; [exact Hx | set_solver].
Qed.

Lemma check_hashes_collision p c rest seen :
  NoDup (p ++ c :: rest) →
  (∀ x, x ∈ p → (x ∉ seen) ∧ inChain x = false) →
  c ∈ seen ∨ inChain c = true →
  check_hashes inChain (p ++ c :: rest) seen = (list_to_set p ∪ seen, true).
Proof.
  revert seen. induction p as [|h p IH]; intros seen Hnd Hp Hc; simpl.
  - destruct (decide (c ∈ seen)) as [Hin|Hnin].
    + f_equal. set_solver.
    + destruct Hc as [Hc|Hc]; [contradiction |]. rewrite Hc. f_equal. set_solver.
  - destruct (Hp h) as [Hh1 Hh2]; [apply elem_of_cons; auto |].
    rewrite decide_False by exact Hh1. rewrite Hh2.
    simpl in Hnd. apply NoDup_cons in Hnd as [Hh Hnd].
    rewrite IH; [f_equal; set_solver | exact Hnd | | ].
    + intros x Hx. destruct (Hp x) as [Hx1 Hx2]; [apply elem_of_cons; auto |].
      split; [|exact Hx2]. intros Hin. apply elem_of_union in Hin as [Hin|Hin]; [|contradiction].
      apply elem_of_singleton in Hin. subst x. apply Hh, elem_of_app. auto.
    + destruct Hc as [Hc|Hc]; [left; set_solver | right; exact Hc].
Qed.

End CheckHashes.

Section Screening.
Context (N : Node) (height : Z).

Lemma screen_tx_marked sc X :
  marks_duplicate N height sc X = true →
  setDuplicate (screen_tx N height sc X) = {[ GetHash X ]} ∪ setDuplicate sc
  ∧ nNetworkRewardReserve_acc (screen_tx N height sc X) = nNetworkRewardReserve_acc sc.
Proof.
  unfold marks_duplicate, screen_tx. intros H.
  destruct (check_serials N height _ _).2; [split; reflexivity |].
  simpl in H. rewrite H. split; reflexivity.
Qed.

Lemma screen_tx_unmarked sc X :
  marks_duplicate N height sc X = false →
  setDuplicate (screen_tx N height sc X) = setDuplicate sc
  ∧ nNetworkRewardReserve_acc (screen_tx N height sc X)
    = nNetworkRewardReserve_acc sc + reward_outputs N X
  ∧ setSerials (screen_tx N height sc X) = setTxSerialHashes X ∪ setSerials sc
  ∧ setPubcoins (screen_tx N height sc X) = setTxPubcoinHashes X ∪ setPubcoins sc
  ∧ (∀ h, h ∈ setTxSerialHashes X → IsSerialInBlockchain N h height = false)
  ∧ (∀ h, h ∈ setTxPubcoinHashes X →
          IsPubcoinInBlockchain N h (chainActive_Tip N) = false).
Proof.
  unfold marks_duplicate, screen_tx. intros H.
  apply orb_false_iff in H as [Hs Hp]. rewrite Hs, Hp. simpl.
  apply check_hashes_pass in Hs as [Hs1 Hs2]. apply check_hashes_pass in Hp as [Hp1 Hp2].
  unfold check_serials, check_pubcoins. rewrite Hs1, Hp1.
  repeat split.
  - apply set_eq. intros x. rewrite !elem_of_union, elem_of_list_to_set, elem_of_in_order.
    reflexivity.
  - apply set_eq. intros x. rewrite !elem_of_union, elem_of_list_to_set, elem_of_in_order.
    reflexivity.
  - intros h Hh. apply Hs2, elem_of_in_order, Hh.
  - intros h Hh. apply Hp2, elem_of_in_order, Hh.
Qed.

Lemma screen_tx_shared sc X h :
  (h ∈ setTxSerialHashes X ∧ h ∈ setSerials sc)
  ∨ (h ∈ setTxPubcoinHashes X ∧ h ∈ setPubcoins sc) →
  marks_duplicate N height sc X = true.
Proof.
  unfold marks_duplicate. intros [[H1 H2]|[H1 H2]]; apply orb_true_iff.
  - left. apply (check_hashes_hit _ _ _ h); [apply elem_of_in_order, H1 | exact H2].
  - right. apply (check_hashes_hit _ _ _ h); [apply elem_of_in_order, H1 | exact H2].
Qed.

Lemma screen_tx_mono sc X :
  setSerials sc ⊆ setSerials (screen_tx N height sc X)
  ∧ setPubcoins sc ⊆ setPubcoins (screen_tx N height sc X)
  ∧ setDuplicate sc ⊆ setDuplicate (screen_tx N height sc X).
Proof.
  unfold screen_tx.
  assert (Hs := check_hashes_mono (λ h, IsSerialInBlockchain N h height)
                  (in_order (setTxSerialHashes X)) (setSerials sc)).
  assert (Hp := check_hashes_mono (λ h, IsPubcoinInBlockchain N h (chainActive_Tip N))
                  (in_order (setTxPubcoinHashes X)) (setPubcoins sc)).
  fold (check_serials N height (in_order (setTxSerialHashes X)) (setSerials sc)) in Hs.
  fold (check_pubcoins N (in_order (setTxPubcoinHashes X)) (setPubcoins sc)) in Hp.
  destruct (check_serials N height _ _).2; simpl;
    [split; [exact Hs | split; [reflexivity | apply union_subseteq_r]] |].
  destruct (check_pubcoins N _ _).2; simpl;
    (split; [exact Hs | split; [exact Hp |]]); [apply union_subseteq_r | reflexivity].
Qed.

Lemma screen_mono sc l :
  setSerials sc ⊆ setSerials (foldl (screen_ref N height) sc l)
  ∧ setPubcoins sc ⊆ setPubcoins (foldl (screen_ref N height) sc l)
  ∧ setDuplicate sc ⊆ setDuplicate (foldl (screen_ref N height) sc l).
Proof.
  revert sc. induction l as [|r l IH]; intros sc; simpl; [auto |].
  destruct (IH (screen_ref N height sc r)) as (H1 & H2 & H3).
  destruct r as [X|]; simpl in *; [|auto].
  destruct (screen_tx_mono sc X) as (G1 & G2 & G3).
  repeat split; etransitivity; eassumption.
Qed.

Lemma screen_duplicate_hashes sc l h :
  h ∈ setDuplicate (foldl (screen_ref N height) sc l) →
  h ∈ setDuplicate sc ∨ ∃ X, Some X ∈ l ∧ GetHash X = h.
Proof.
  revert sc. induction l as [|r l IH]; intros sc; simpl; [auto |].
  intros H. apply IH in H as [H|(X & HX & Hh)].
  - destruct r as [X|]; simpl in H; [|auto].
    destruct (marks_duplicate N height sc X) eqn:Hm.
    + apply screen_tx_marked in Hm as [Hm _]. rewrite Hm in H.
      apply elem_of_union in H as [H|H]; [|auto].
      apply elem_of_singleton in H. right. exists X. split; [apply elem_of_cons; auto | auto].
    + apply screen_tx_unmarked in Hm as [Hm _]. rewrite Hm in H. auto.
  - right. exists X. split; [apply elem_of_cons; auto | exact Hh].
Qed.

(** A transaction marked in its turn is in the final set. *)
Lemma screen_marked_stays sc l1 X l2 :
  marks_duplicate N height (foldl (screen_ref N height) sc l1) X = true →
  GetHash X ∈ setDuplicate (foldl (screen_ref N height) sc (l1 ++ Some X :: l2)).
Proof.
  intros Hm. rewrite foldl_app. simpl.
  apply (screen_mono (screen_tx N height (foldl (screen_ref N height) sc l1) X) l2).
  apply screen_tx_marked in Hm as [Hm _]. rewrite Hm. set_solver.
Qed.

(** A later transaction that shares a recorded hash is marked. *)
Lemma screen_shared_later sc l1 Y l2 h :
  (h ∈ setTxSerialHashes Y ∧ h ∈ setSerials (foldl (screen_ref N height) sc l1))
  ∨ (h ∈ setTxPubcoinHashes Y ∧ h ∈ setPubcoins (foldl (screen_ref N height) sc l1)) →
  GetHash Y ∈ setDuplicate (foldl (screen_ref N height) sc (l1 ++ Some Y :: l2)).
Proof. intros H. apply screen_marked_stays, (screen_tx_shared _ _ h), H. Qed.

(** Two transactions that both stay unmarked share no hash. *)
Lemma screen_unmarked_disjoint sc l1 X l2 Y l3 :
  let final := setDuplicate
                 (foldl (screen_ref N height) sc (l1 ++ Some X :: l2 ++ Some Y :: l3)) in
  GetHash X ∉ final → GetHash Y ∉ final →
  setTxSerialHashes X ## setTxSerialHashes Y
  ∧ setTxPubcoinHashes X ## setTxPubcoinHashes Y.
Proof.
  intros final HX HY.
  destruct (marks_duplicate N height (foldl (screen_ref N height) sc l1) X) eqn:Hm.
  { exfalso. apply HX. apply screen_marked_stays, Hm. }
  apply screen_tx_unmarked in Hm as (_ & _ & Hs & Hp & _).
  assert (Hmono := screen_mono
            (screen_tx N height (foldl (screen_ref N height) sc l1) X) l2).
  destruct Hmono as (Ms & Mp & _).
  assert (Hfold : foldl (screen_ref N height) sc (l1 ++ Some X :: l2)
                  = foldl (screen_ref N height)
                      (screen_tx N height (foldl (screen_ref N height) sc l1) X) l2).
  { rewrite foldl_app. reflexivity. }
  split; apply elem_of_disjoint; intros h Hh1 Hh2; apply HY; unfold final;
    replace (l1 ++ Some X :: l2 ++ Some Y :: l3)
      with ((l1 ++ Some X :: l2) ++ Some Y :: l3) by (rewrite <- app_assoc; reflexivity);
    apply (screen_shared_later _ _ _ _ h); rewrite Hfold.
  - left. split; [exact Hh2 |]. apply Ms. rewrite Hs. set_solver.
  - right. split; [exact Hh2 |]. apply Mp. rewrite Hp. set_solver.
Qed.

(** An unmarked transaction carries no hash that the chain has confirmed. *)
Lemma screen_unmarked_fresh sc l1 X l2 :
  GetHash X ∉ setDuplicate (foldl (screen_ref N height) sc (l1 ++ Some X :: l2)) →
  (∀ h, h ∈ setTxSerialHashes X → IsSerialInBlockchain N h height = false)
  ∧ (∀ h, h ∈ setTxPubcoinHashes X →
          IsPubcoinInBlockchain N h (chainActive_Tip N) = false).
Proof.
  intros HX.
  destruct (marks_duplicate N height (foldl (screen_ref N height) sc l1) X) eqn:Hm.
  { exfalso. apply HX. apply screen_marked_stays, Hm. }
  apply screen_tx_unmarked in Hm as (_ & _ & _ & _ & Hs & Hp). auto.
Qed.

End Screening.

(** ** The rebuilt transaction list *)

Lemma lookup_two_split {A} (l : list A) i j x y :
  l !! i = Some x → l !! j = Some y → (i < j)%nat →
  ∃ l1 l2 l3, l = l1 ++ x :: l2 ++ y :: l3.
Proof.
  intros Hi Hj Hlt.
  assert (Hj' : drop (S i) l !! (j - S i)%nat = Some y).
  { rewrite lookup_drop. replace (S i + (j - S i))%nat with j by lia. exact Hj. }
  exists (take i l), (take (j - S i) (drop (S i) l)), (drop (S (j - S i)) (drop (S i) l)).
  rewrite (take_drop_middle _ _ _ Hj'). symmetry. apply take_drop_middle, Hi.
Qed.

Lemma sublist_two_split {A} (l k : list A) i j x y :
  l `sublist_of` k → l !! i = Some x → l !! j = Some y → (i < j)%nat →
  ∃ k1 k2 k3, k = k1 ++ x :: k2 ++ y :: k3.
Proof.
  intros Hsub Hi Hj Hlt.
  destruct (lookup_two_split l i j x y Hi Hj Hlt) as (l1 & l2 & l3 & ->).
  apply sublist_app_l in Hsub as (k1 & k2 & -> & _ & Hsub).
  apply sublist_cons_l in Hsub as (k21 & k22 & -> & Hsub).
  apply sublist_app_l in Hsub as (m1 & m2 & -> & _ & Hsub).
  apply sublist_cons_l in Hsub as (m21 & m22 & -> & _).
  exists (k1 ++ k21), (m1 ++ m21), m22.
  rewrite <- !app_assoc. reflexivity.
Qed.

Lemma kept_true N dup X :
  kept N dup (Some X) = true ↔
  (GetHash X ∉ dup)
  ∧ (IsZerocoinSpend (tx X) = true ∨ vin0_IsAnonInput (tx X) = true ∨ HaveInputs N X = true).
Proof.
  unfold kept. destruct (decide (GetHash X ∈ dup)) as [Hin|Hnin].
  - split; [discriminate | intros [H _]; contradiction].
  - destruct (IsZerocoinSpend (tx X)), (vin0_IsAnonInput (tx X)), (HaveInputs N X); simpl;
      split; try discriminate; auto; intros [_ [H|[H|H]]]; discriminate.
Qed.

Lemma elem_of_vtxReplace N dup l r :
  r ∈ vtxReplace N dup l ↔ kept N dup r = true ∧ r ∈ l.
Proof. unfold vtxReplace. rewrite list_elem_of_filter. reflexivity. Qed.

Lemma template_body K N args a sc txs spk fPoS fPoFN txCoinStake nTime0 t :
  finish_block K N args a sc txs spk fPoS fPoFN txCoinStake nTime0 = Some t →
  drop (first_pool_slot fPoS) (block_vtx (block t)) = drop (first_pool_slot fPoS) txs.
Proof.
  intros H. apply finish_block_Some in H as (outs & _ & -> & _).
  destruct fPoS; simpl first_pool_slot.
  - unfold install_coinstake. rewrite !drop_insert_lt by lia.
    rewrite drop_app, drop_replicate, Nat.sub_diag. simpl. apply app_nil_r.
  - rewrite drop_insert_lt by lia. reflexivity.
Qed.

Lemma template_body_sublist K N args a sc dup sel spk fPoS fPoFN txCoinStake nTime0 t :
  finish_block K N args a sc (vtxReplace N dup sel) spk fPoS fPoFN txCoinStake nTime0
  = Some t →
  drop (first_pool_slot fPoS) (block_vtx (block t)) `sublist_of` vtxReplace N dup sel
  ∧ vtxReplace N dup sel `sublist_of` sel.
Proof.
  intros H. rewrite (template_body _ _ _ _ _ _ _ _ _ _ _ _ H).
  split; [apply sublist_drop | apply sublist_filter].
Qed.

(** ** Hashes recorded by a transaction that is then marked duplicate *)

Lemma check_hashes_all_pass inChain hashes seen :
  NoDup hashes → all_pass inChain seen hashes →
  check_hashes inChain hashes seen = (list_to_set hashes ∪ seen, false).
Proof.
  revert seen. induction hashes as [|h rest IH]; intros seen Hnd Hp; simpl.
  - f_equal. set_solver.
  - destruct (Hp h) as [H1 H2]; [apply elem_of_cons; auto |].
    rewrite decide_False by exact H1. rewrite H2.
    apply NoDup_cons in Hnd as [Hh Hnd].
    rewrite IH; [f_equal; set_solver | exact Hnd |].
    intros x Hx. destruct (Hp x) as [Hx1 Hx2]; [apply elem_of_cons; auto |].
    split; [|exact Hx2]. intros Hin. apply elem_of_union in Hin as [Hin|Hin]; [|contradiction].
    apply elem_of_singleton in Hin. subst x. contradiction.
Qed.

Lemma check_hashes_collides inChain hashes seen examined :
  NoDup hashes → collides_after inChain seen hashes examined →
  check_hashes inChain hashes seen = (list_to_set examined ∪ seen, true).
Proof.
  intros Hnd (c & rest & -> & Hp & Hc). apply check_hashes_collision; assumption.
Qed.

Lemma marked_after_screen_tx N height sc X examinedS examinedP :
  marked_after N height sc X examinedS examinedP →
  marks_duplicate N height sc X = true
  ∧ setSerials (screen_tx N height sc X) = list_to_set examinedS ∪ setSerials sc
  ∧ setPubcoins (screen_tx N height sc X) = list_to_set examinedP ∪ setPubcoins sc
  ∧ (∀ h, h ∈ examinedS → h ∈ setTxSerialHashes X ∧ h ∉ setSerials sc)
  ∧ (∀ h, h ∈ examinedP → h ∈ setTxPubcoinHashes X ∧ h ∉ setPubcoins sc).
Proof.
  unfold marks_duplicate, screen_tx, check_serials, check_pubcoins.
  intros [[Hs ->]|(-> & Hs & Hp)].
  - assert (Hin : ∀ h, h ∈ examinedS → h ∈ setTxSerialHashes X ∧ h ∉ setSerials sc).
    { destruct Hs as (c & rest & Heq & Hpass & _). intros h Hh. split; [|apply Hpass, Hh].
      apply elem_of_in_order. rewrite Heq. apply elem_of_app. auto. }
    rewrite (check_hashes_collides _ _ _ _ (NoDup_in_order _) Hs). simpl.
    repeat split; try apply Hin; auto; try set_solver.
  - assert (Hin : ∀ h, h ∈ examinedP → h ∈ setTxPubcoinHashes X ∧ h ∉ setPubcoins sc).
    { destruct Hp as (c & rest & Heq & Hpass & _). intros h Hh. split; [|apply Hpass, Hh].
      apply elem_of_in_order. rewrite Heq. apply elem_of_app. auto. }
    rewrite (check_hashes_all_pass _ _ _ (NoDup_in_order _) Hs).
    rewrite (check_hashes_collides _ _ _ _ (NoDup_in_order _) Hp). simpl.
    repeat split; try apply Hin; auto.
    + apply elem_of_in_order; assumption.
    + apply Hs; assumption.
Qed.

(** Let [X] be marked duplicate in its turn after its serial hashes
    [examinedS] and pubcoin hashes [examinedP] were examined.  Then [X] is
    dropped by the rebuild, the examined hashes are in [setSerials] and
    [setPubcoins] when the loop ends, every later transaction of the list that
    shares one of them is marked duplicate and dropped, and no transaction of
    the rebuilt list carries one of them. *)
Lemma screen_examined_hashes (N : Node) (height reserve0 : Z)
    (l1 l2 : list (option CTransaction)) (X : CTransaction)
    (examinedS examinedP : list Z) :
  marked_after N height (screen_block N height reserve0 l1) X examinedS examinedP →
  let final := screen_block N height reserve0 (l1 ++ Some X :: l2) in
  let rebuilt := vtxReplace N (setDuplicate final) (l1 ++ Some X :: l2) in
  GetHash X ∈ setDuplicate final
  ∧ (Some X ∉ rebuilt)
  ∧ (∀ h, h ∈ examinedS → h ∈ setSerials final)
  ∧ (∀ h, h ∈ examinedP → h ∈ setPubcoins final)
  ∧ (∀ Y h, Some Y ∈ l2 →
       (h ∈ examinedS ∧ h ∈ setTxSerialHashes Y)
       ∨ (h ∈ examinedP ∧ h ∈ setTxPubcoinHashes Y) →
       GetHash Y ∈ setDuplicate final
       ∧ (Some Y ∉ rebuilt)
       ∧ Y ∈ removed_recursively (setDuplicate final) (l1 ++ Some X :: l2))
  ∧ (∀ Z h, Some Z ∈ rebuilt →
       (h ∈ examinedS → h ∉ setTxSerialHashes Z)
       ∧ (h ∈ examinedP → h ∉ setTxPubcoinHashes Z)).
Proof.
  intros Hmark final rebuilt.
  apply marked_after_screen_tx in Hmark as (Hm & HS & HP & HinS & HinP).
  set (init := {| nNetworkRewardReserve_acc := reserve0; fReserveOverflow := false;
                  setSerials := ∅; setPubcoins := ∅; setDuplicate := ∅ |}) in *.
  set (before := screen_block N height reserve0 l1) in *.
  assert (Hfinal : final = foldl (screen_ref N height) (screen_tx N height before X) l2).
  { unfold final, screen_block. rewrite foldl_app. reflexivity. }
  destruct (screen_mono N height (screen_tx N height before X) l2) as (Ms & Mp & Md).
  rewrite <- Hfinal in Ms, Mp, Md.
  assert (HX : GetHash X ∈ setDuplicate final).
  { apply (screen_marked_stays N height init l1 X l2 Hm). }
  assert (Hrec : ∀ h, (h ∈ examinedS → h ∈ setSerials (screen_tx N height before X))
                      ∧ (h ∈ examinedP → h ∈ setPubcoins (screen_tx N height before X))).
  { intros h. rewrite HS, HP. split; intros Hh; apply elem_of_union; left;
      apply elem_of_list_to_set, Hh. }
  assert (Hnot : ∀ Z, GetHash Z ∈ setDuplicate final → Some Z ∉ rebuilt).
  { intros Z HZ Hin. apply elem_of_vtxReplace in Hin as [Hk _].
    apply kept_true in Hk as [Hk _]. contradiction. }
  assert (Hlater : ∀ Y h, Some Y ∈ l2 →
            (h ∈ examinedS ∧ h ∈ setTxSerialHashes Y)
            ∨ (h ∈ examinedP ∧ h ∈ setTxPubcoinHashes Y) →
            GetHash Y ∈ setDuplicate final).
  { intros Y h HY Hh. apply list_elem_of_split in HY as (m1 & m2 & ->).
    unfold final, screen_block.
    replace (l1 ++ Some X :: m1 ++ Some Y :: m2)
      with ((l1 ++ Some X :: m1) ++ Some Y :: m2) by (rewrite <- app_assoc; reflexivity).
    apply (screen_shared_later N height init _ Y m2 h).
    rewrite foldl_app. simpl. fold init. fold (screen_block N height reserve0 l1).
    fold before.
    destruct (screen_mono N height (screen_tx N height before X) m1) as (Ms' & Mp' & _).
    destruct Hh as [[Hh1 Hh2]|[Hh1 Hh2]]; [left | right]; (split; [exact Hh2 |]).
    - apply Ms', Hrec, Hh1.
    - apply Mp', Hrec, Hh1. }
  split; [exact HX |]. split; [apply Hnot, HX |].
  split; [intros h Hh; apply Ms, Hrec, Hh |].
  split; [intros h Hh; apply Mp, Hrec, Hh |].
  split.
  - intros Y h HY Hh. assert (HYd := Hlater Y h HY Hh).
    split; [exact HYd |]. split; [apply Hnot, HYd |].
    unfold removed_recursively. apply list_elem_of_omap. exists (Some Y).
    split; [|rewrite decide_True by exact HYd; reflexivity].
    apply elem_of_app. right. apply elem_of_cons. auto.
  - intros Z h HZ. apply elem_of_vtxReplace in HZ as [Hk HZ].
    apply kept_true in Hk as [Hk _].
    apply elem_of_app in HZ as [HZ|HZ].
    + apply list_elem_of_split in HZ as (m1 & m2 & Hl1).
      assert (Hturn : marks_duplicate N height (foldl (screen_ref N height) init m1) Z = false).
      { destruct (marks_duplicate N height _ Z) eqn:Hmz; [exfalso | reflexivity].
        apply Hk. unfold final, screen_block. rewrite Hl1.
        replace ((m1 ++ Some Z :: m2) ++ Some X :: l2)
          with (m1 ++ Some Z :: (m2 ++ Some X :: l2)) by (rewrite <- app_assoc; reflexivity).
        apply screen_marked_stays, Hmz. }
      apply screen_tx_unmarked in Hturn as (_ & _ & Hs & Hp & _).
      destruct (screen_mono N height
                  (screen_tx N height (foldl (screen_ref N height) init m1) Z) m2)
        as (Ms' & Mp' & _).
      assert (Hb : before = foldl (screen_ref N height)
                     (screen_tx N height (foldl (screen_ref N height) init m1) Z) m2).
      { unfold before, screen_block. rewrite Hl1, foldl_app. reflexivity. }
      rewrite <- Hb in Ms', Mp'.
      split; intros Hh Hin.
      * apply (HinS h Hh). apply Ms'. rewrite Hs. apply elem_of_union. auto.
      * apply (HinP h Hh). apply Mp'. rewrite Hp. apply elem_of_union. auto.
    + apply elem_of_cons in HZ as [HZ|HZ].
      * inversion HZ; subst. contradiction.
      * split; intros Hh Hin; apply Hk; apply (Hlater Z h HZ); auto.
Qed.

(** ** The network reward reserve *)

Lemma reward_outputs_sum N t : reward_outputs N t = paid_to_reward N t.
Proof.
  unfold reward_outputs, paid_to_reward.
  assert (H : ∀ l acc,
            foldl (λ acc pout,
                     if negb (IsStandardOutput pout) then acc
                     else if decide (GetPScriptPubKey pout = rewardScript N)
                          then acc + GetValue pout else acc) acc l
            = acc + sum_Z (GetValue <$> filter (pays_reward N) l)).
  { induction l as [|o l IH]; intros acc; simpl; [lia |].
    rewrite IH, filter_cons.
    destruct (decide (pays_reward N o)) as [[Hs He]|Hn].
    - rewrite Hs. simpl. rewrite decide_True by exact He.
      rewrite <- Z.add_assoc. reflexivity.
    - destruct (IsStandardOutput o) eqn:Hs; simpl; [|reflexivity].
      destruct (decide (GetPScriptPubKey o = rewardScript N)) as [He|He]; [|reflexivity].
      exfalso. apply Hn. split; assumption. }
  rewrite H. lia.
Qed.

Lemma capped_reward_min K r : capped_reward K r = Z.min r (MaxNetworkReward K).
Proof. unfold capped_reward. destruct (Z.ltb_spec (MaxNetworkReward K) r); lia. Qed.

Lemma screen_reserve N height sc l :
  NoDup (GetHash <$> omap id l) →
  (∀ X, Some X ∈ l → GetHash X ∉ setDuplicate sc) →
  nNetworkRewardReserve_acc (foldl (screen_ref N height) sc l)
  = reserve_of_unmarked N (setDuplicate (foldl (screen_ref N height) sc l))
      (nNetworkRewardReserve_acc sc) l.
Proof.
  revert sc. induction l as [|r l IH]; intros sc Hnd Hfresh.
  - unfold reserve_of_unmarked. simpl. lia.
  - destruct r as [X|]; simpl foldl.
    2:{ rewrite IH; [reflexivity | exact Hnd |].
        intros Y HY. apply Hfresh, elem_of_cons. auto. }
    simpl in Hnd. apply NoDup_cons in Hnd as [HXl Hnd].
    assert (Hother : ∀ Y, Some Y ∈ l → GetHash Y ≠ GetHash X).
    { intros Y HY Heq. apply HXl. rewrite <- Heq. apply list_elem_of_fmap.
      exists Y. split; [reflexivity |]. apply list_elem_of_omap. exists (Some Y). auto. }
    assert (HX0 : GetHash X ∉ setDuplicate sc) by (apply Hfresh, elem_of_cons; auto).
    unfold reserve_of_unmarked. simpl omap. rewrite filter_cons.
    destruct (marks_duplicate N height sc X) eqn:Hm.
    + destruct (screen_tx_marked N height sc X Hm) as [Hd Hr].
      rewrite decide_False.
      2:{ intros Hn. apply Hn. apply (screen_mono N height (screen_tx N height sc X) l).
          rewrite Hd. set_solver. }
      rewrite IH; [| exact Hnd |].
      * unfold reserve_of_unmarked. rewrite Hr. reflexivity.
      * intros Y HY. rewrite Hd. intros Hin. apply elem_of_union in Hin as [Hin|Hin].
        -- apply elem_of_singleton in Hin. apply (Hother Y HY Hin).
        -- apply (Hfresh Y); [apply elem_of_cons; auto | exact Hin].
    + destruct (screen_tx_unmarked N height sc X Hm) as (Hd & Hr & _).
      rewrite decide_True.
      2:{ intros Hin. apply screen_duplicate_hashes in Hin as [Hin|(Y & HY & Heq)].
          - rewrite Hd in Hin. contradiction.
          - apply (Hother Y HY Heq). }
      rewrite IH; [| exact Hnd |].
      * unfold reserve_of_unmarked. rewrite Hr, reward_outputs_sum. simpl.
        rewrite <- Z.add_assoc. reflexivity.
      * intros Y HY. rewrite Hd. apply Hfresh, elem_of_cons. auto.
Qed.

Lemma selection_of_inv K N pool a0 fPoS s :
  mempool_consistent pool →
  selection_of K N pool a0 fPoS = Some s →
  ∃ order, selection_inv pool [None] s order.
Proof.
  intros Hc Hs. unfold selection_of in Hs.
  destruct (stake_stage K N fPoS) as [[[? nTimeStake] ?]|]; [|discriminate].
  destruct (addPackageTxs _ _ _ _ _) as [s1| |] eqn:Hrun; try discriminate.
  inversion Hs; subst s1; clear Hs. unfold addPackageTxs in Hrun.
  assert (Hinv := addPackageTxs_loop_inv K N pool [None] Hc (selection_fuel pool)
                    _ []
                    (selection_inv_init pool [None] Hc
                       (assembler_at_selection K N (resetBlock a0)
                          (pow_time K N fPoS nTimeStake)) eq_refl eq_refl)).
  rewrite Hrun in Hinv. exact Hinv.
Qed.

(** Inside [CreateNewBlock] the selection returns whenever the stake stage
    has passed: the fuel of the model is never what makes a call fail. *)
Lemma selection_of_returns K N pool a0 fPoS :
  mempool_consistent pool →
  is_Some (stake_stage K N fPoS) →
  is_Some (selection_of K N pool a0 fPoS).
Proof.
  intros Hc [[[stake nTimeStake] nTxNewTime] Hs]. unfold selection_of. rewrite Hs.
  destruct (addPackageTxs_returns K N pool [None] Hc
              (assembler_at_selection K N (resetBlock a0) (pow_time K N fPoS nTimeStake))
              eq_refl eq_refl) as [s Hrun].
  rewrite Hrun. eauto.
Qed.

Lemma omap_tx_of pool (order : list Z) :
  omap id (tx_of pool <$> order) = (λ h, GetSharedTx (pool !!! h)) <$> order.
Proof. induction order as [|h l IH]; [reflexivity |]. simpl. f_equal. exact IH. Qed.

Lemma hashes_of_order pool (order : list Z) :
  mempool_consistent pool → (∀ h, h ∈ order → is_Some (pool !! h)) →
  GetHash <$> ((λ h, GetSharedTx (pool !!! h)) <$> order) = order.
Proof.
  intros Hc. induction order as [|h l IH]; intros Hp; [reflexivity |].
  destruct (Hp h) as [e He]; [apply elem_of_cons; auto |].
  rewrite !fmap_cons, (lookup_total_correct _ _ _ He), (consistent_hash pool Hc h e He).
  rewrite IH; [reflexivity |]. intros h' Hh'. apply Hp, elem_of_cons. auto.
Qed.

Lemma selected_hashes_NoDup K N pool a0 fPoS :
  mempool_consistent pool →
  NoDup (GetHash <$> omap id (selected_vtx K N pool a0 fPoS)).
Proof.
  intros Hc. unfold selected_vtx.
  destruct (selection_of K N pool a0 fPoS) as [s|] eqn:Hs; simpl; [|constructor].
  destruct (selection_of_inv _ _ _ _ _ _ Hc Hs) as [order Hinv].
  rewrite (inv_vtx _ _ _ _ Hinv). simpl.
  rewrite omap_tx_of, (hashes_of_order pool order Hc (inv_pool _ _ _ _ Hinv)).
  apply (inv_NoDup _ _ _ _ Hinv).
Qed.

(** C4, as the code has it: the network reward is the smaller of
    [MaxNetworkReward] and the reserve, where the reserve is the one the
    previous block carries plus the values of the standard outputs paying the
    reward script in those selected transactions that the screening does not
    mark duplicate; in a proof-of-work template the first coinbase output pays
    the block reward plus this amount to the miner's script. *)
Theorem CreateNewBlock_network_reward (K : Constants) (N : Node) (args : gArgs)
    (pool : gmap Z CTxMemPoolEntry) (a0 : BlockAssembler) (scriptPubKeyIn : list ScriptItem)
    (fMineWitnessTx fPoS fProofOfFullNode : bool) (t : CBlockTemplate) :
  mempool_consistent pool →
  pblocktemplate
    (CreateNewBlock K N args pool a0 scriptPubKeyIn fMineWitnessTx fPoS fProofOfFullNode)
  = Some t →
  let R :=
    reserve_of_unmarked N (setDuplicate (screening_of K N pool a0 fPoS))
      (nNetworkRewardReserve (chainActive_Tip N)) (selected_vtx K N pool a0 fPoS) in
  network_reward_of K N pool a0 fPoS = Z.min R (MaxNetworkReward K)
  ∧ (fPoS = false →
     ∃ coinbase miner rest,
       block_vtx (block t) !! 0%nat = Some (Some coinbase)
       ∧ vpout (tx coinbase) = miner :: rest
       ∧ GetPScriptPubKey miner = scriptPubKeyIn
       ∧ GetValue miner
         = (GetBlockRewards N (bi_nHeight (chainActive_Tip N) + 1)).1.1.1
           + Z.min R (MaxNetworkReward K)).
Proof.
  intros Hc Ht R.
  assert (HR : network_reward_of K N pool a0 fPoS = Z.min R (MaxNetworkReward K)).
  { unfold network_reward_of. rewrite capped_reward_min. f_equal.
    unfold screening_of, screen_block.
    rewrite (screen_reserve N _ _ _ (selected_hashes_NoDup K N pool a0 fPoS Hc));
      [reflexivity |].
    intros X _. simpl. apply not_elem_of_empty. }
  split; [exact HR |]. intros HPoW.
  destruct (CreateNewBlock_coinbase_outputs _ _ _ _ _ _ _ _ _ _ Ht) as (cb & Hcb & Hout).
  rewrite HR, HPoW in Hout. unfold coinbase_schema in Hout.
  exists cb. destruct (0 <? _); [destruct (0 <? _) |]; eexists _, _;
    (split; [exact Hcb |]); (split; [exact Hout |]); split; reflexivity.
Qed.

Lemma CreateNewBlock_network_reward_witness :
  ∃ t,
    pblocktemplate (CreateNewBlock K0 N_reserve_100 args0 pool_pays_reward assembler0
                      [Opcode 5] false false false) = Some t
    ∧ let R :=
        reserve_of_unmarked N_reserve_100
          (setDuplicate (screening_of K0 N_reserve_100 pool_pays_reward assembler0 false))
          (nNetworkRewardReserve (chainActive_Tip N_reserve_100))
          (selected_vtx K0 N_reserve_100 pool_pays_reward assembler0 false) in
      network_reward_of K0 N_reserve_100 pool_pays_reward assembler0 false
      = Z.min R (MaxNetworkReward K0)
      ∧ (false = false →
         ∃ coinbase miner rest,
           block_vtx (block t) !! 0%nat = Some (Some coinbase)
           ∧ vpout (tx coinbase) = miner :: rest
           ∧ GetPScriptPubKey miner = [Opcode 5]
           ∧ GetValue miner
             = (GetBlockRewards N_reserve_100
                  (bi_nHeight (chainActive_Tip N_reserve_100) + 1)).1.1.1
               + Z.min R (MaxNetworkReward K0)).
Proof.
  eexists. split; [vm_compute; reflexivity |].
  apply (CreateNewBlock_network_reward K0 N_reserve_100 args0 pool_pays_reward assembler0
           [Opcode 5] false false false).
  - apply (bool_decide_unpack _). vm_compute. reflexivity.
  - vm_compute. reflexivity.
Defined.

(** C4 as stated fails: the tip carries a reserve of 100; the block holds a
    spend of an already confirmed serial that sends 100 to the reward address
    and an ordinary transaction that sends 40.  The loop visits both, marks
    the first duplicate and skips its outputs: the reserve is 140, not 240,
    and the miner is paid 50 + 140. *)
Lemma duplicate_outputs_not_counted :
  ∃ t coinbase miner,
    pblocktemplate (CreateNewBlock K0 N_reserve_100 args0 pool_pays_reward assembler0
                      [Opcode 5] false false false) = Some t
    ∧ selected_vtx K0 N_reserve_100 pool_pays_reward assembler0 false
      = [None; Some tx_spend_500_pays_reward; Some tx_pays_reward]
    ∧ reserve_of_all N_reserve_100 (nNetworkRewardReserve (chainActive_Tip N_reserve_100))
        (selected_vtx K0 N_reserve_100 pool_pays_reward assembler0 false) = 240
    ∧ network_reward_of K0 N_reserve_100 pool_pays_reward assembler0 false = 140
    ∧ block_vtx (block t) !! 0%nat = Some (Some coinbase)
    ∧ vpout (tx coinbase) = [miner]
    ∧ GetValue miner = 50 + 140
    ∧ GetValue miner ≠ 50 + Z.min 240 (MaxNetworkReward K0).
Proof.
  eexists _, _, _.
  split; [vm_compute; reflexivity |].
  split; [vm_compute; reflexivity |].
  split; [vm_compute; reflexivity |].
  split; [vm_compute; reflexivity |].
  split; [vm_compute; reflexivity |].
  split; [vm_compute; reflexivity |].
  split; [vm_compute; reflexivity | vm_compute; discriminate].
Qed.

(** ** Ancestors before descendants in the template *)

Lemma filter_lookup_order {A} (P : A → Prop) `{∀ x, Decision (P x)} (l : list A)
    i i' j' x y :
  NoDup l → l !! j' = Some y → l !! i' = Some x → (j' < i')%nat → P y →
  filter P l !! i = Some x →
  ∃ j, (j < i)%nat ∧ filter P l !! j = Some y.
Proof.
  intros Hnd Hj Hi Hlt Hy Hx.
  assert (HPx : P x).
  { apply (list_elem_of_lookup_2 (filter P l)) in Hx.
    apply list_elem_of_filter in Hx as [Hx _]. exact Hx. }
  destruct (lookup_two_split l j' i' y x Hj Hi Hlt) as (l1 & l2 & l3 & Hl).
  assert (Hf : filter P l = filter P l1 ++ y :: filter P l2 ++ x :: filter P l3).
  { rewrite Hl, filter_app, filter_cons, decide_True by exact Hy.
    rewrite filter_app, filter_cons, decide_True by exact HPx. reflexivity. }
  assert (Hx0 : filter P l !! (length (filter P l1) + S (length (filter P l2)))%nat = Some x).
  { rewrite Hf, lookup_app_r by lia.
    replace (length (filter P l1) + S (length (filter P l2)) - length (filter P l1))%nat
      with (S (length (filter P l2))) by lia.
    simpl. rewrite lookup_app_r by lia. rewrite Nat.sub_diag. reflexivity. }
  assert (Hi0 := NoDup_lookup _ _ _ _ (NoDup_filter P l Hnd) Hx Hx0).
  exists (length (filter P l1)). split; [lia |].
  rewrite Hf, lookup_app_r by lia. rewrite Nat.sub_diag. reflexivity.
Qed.

Lemma selected_vtx_order K N pool a0 fPoS s :
  mempool_consistent pool →
  selection_of K N pool a0 fPoS = Some s →
  ∃ order, selection_inv pool [None] s order
           ∧ selected_vtx K N pool a0 fPoS = None :: (tx_of pool <$> order).
Proof.
  intros Hc Hs. destruct (selection_of_inv _ _ _ _ _ _ Hc Hs) as [order Hinv].
  exists order. split; [exact Hinv |].
  unfold selected_vtx. rewrite Hs. simpl. apply (inv_vtx _ _ _ _ Hinv).
Qed.

Lemma NoDup_selected pool (order : list Z) :
  mempool_consistent pool → NoDup order → (∀ h, h ∈ order → is_Some (pool !! h)) →
  NoDup (None :: (tx_of pool <$> order)).
Proof.
  intros Hc Hnd Hp. apply NoDup_cons. split.
  - intros Hin. apply list_elem_of_fmap in Hin as (h & Hh & _). discriminate.
  - apply NoDup_fmap_2_strong; [|exact Hnd].
    intros x y Hx Hy Heq. unfold tx_of in Heq. inversion Heq as [Htx].
    destruct (Hp x Hx) as [ex Hex]. destruct (Hp y Hy) as [ey Hey].
    rewrite (lookup_total_correct _ _ _ Hex), (lookup_total_correct _ _ _ Hey) in Htx.
    rewrite <- (consistent_hash pool Hc x ex Hex), <- (consistent_hash pool Hc y ey Hey), Htx.
    reflexivity.
Qed.

Lemma selected_ancestors_before pool (order : list Z) s i T a :
  mempool_consistent pool →
  selection_inv pool [None] s order →
  (None :: (tx_of pool <$> order)) !! i = Some (Some T) →
  a ∈ CalculateMemPoolAncestors pool (GetHash T) →
  ∃ j, (j < i)%nat ∧ (None :: (tx_of pool <$> order)) !! j = Some (tx_of pool a).
Proof.
  intros Hc Hinv Hi Ha. destruct i as [|i]; [discriminate |]. simpl in Hi.
  apply list_lookup_fmap_Some in Hi as (h & HT & Hh).
  assert (Hin : h ∈ order) by (apply list_elem_of_lookup; eauto).
  destruct (inv_pool _ _ _ _ Hinv h Hin) as [e He].
  assert (HhT : GetHash T = h).
  { assert (HT' : T = GetSharedTx (pool !!! h)) by (unfold tx_of in HT; congruence).
    rewrite HT', (lookup_total_correct _ _ _ He).
    apply (consistent_hash pool Hc h e He). }
  rewrite HhT in Ha.
  destruct (inv_before _ _ _ _ Hinv i h a Hh Ha) as (j & Hj & Hja).
  exists (S j). split; [lia |]. simpl. rewrite list_lookup_fmap, Hja. reflexivity.
Qed.

(** C1, as the code has it.  In the sequence that [addPackageTxs] builds,
    every in-pool ancestor of a transaction stands at a strictly smaller index.
    The rebuild that follows keeps the order but may drop an ancestor and keep
    its descendant: in a proof-of-work template, an in-pool ancestor of an
    included transaction stands at a strictly smaller index unless the rebuild
    dropped it (marked duplicate, or without inputs in the UTXO view while
    being neither a zerocoin spend nor anonymous). *)
Theorem CreateNewBlock_ancestors_first (K : Constants) (N : Node) (args : gArgs)
    (pool : gmap Z CTxMemPoolEntry) (a0 : BlockAssembler) (scriptPubKeyIn : list ScriptItem)
    (fMineWitnessTx fPoS fProofOfFullNode : bool) (t : CBlockTemplate) :
  mempool_consistent pool →
  pblocktemplate
    (CreateNewBlock K N args pool a0 scriptPubKeyIn fMineWitnessTx fPoS fProofOfFullNode)
  = Some t →
  let selected := selected_vtx K N pool a0 fPoS in
  let dup := setDuplicate (screening_of K N pool a0 fPoS) in
  (∀ i T a, selected !! i = Some (Some T) →
     a ∈ CalculateMemPoolAncestors pool (GetHash T) →
     ∃ j, (j < i)%nat ∧ selected !! j = Some (tx_of pool a))
  ∧ (fPoS = false →
     ∀ i T a, (1 ≤ i)%nat → block_vtx (block t) !! i = Some (Some T) →
       a ∈ CalculateMemPoolAncestors pool (GetHash T) →
       (∃ j, (1 ≤ j < i)%nat ∧ block_vtx (block t) !! j = Some (tx_of pool a))
       ∨ kept N dup (tx_of pool a) = false).
Proof.
  intros Hc Ht selected dup.
  apply CreateNewBlock_Some in Ht as (s & txCoinStake & nTimeStake & nBits0 & _ & Hs & Hfin & _).
  fold selected dup in Hfin.
  destruct (selected_vtx_order _ _ _ _ _ _ Hc Hs) as (order & Hinv & Hsel).
  fold selected in Hsel.
  assert (Hfirst : ∀ i T a, selected !! i = Some (Some T) →
            a ∈ CalculateMemPoolAncestors pool (GetHash T) →
            ∃ j, (j < i)%nat ∧ selected !! j = Some (tx_of pool a)).
  { intros i T a. rewrite Hsel. apply (selected_ancestors_before pool order s); assumption. }
  split; [exact Hfirst |].
  intros HPoW i T a Hi HT Ha.
  apply finish_block_Some in Hfin as (outs & _ & Hvtx & _).
  rewrite HPoW in Hvtx.
  assert (Hrest : ∀ k, (1 ≤ k)%nat →
            block_vtx (block t) !! k = vtxReplace N dup selected !! k).
  { intros k Hk. rewrite Hvtx. apply list_lookup_insert_ne. lia. }
  rewrite (Hrest i Hi) in HT.
  assert (HTsel : Some T ∈ selected).
  { apply list_elem_of_lookup_2 in HT. apply elem_of_vtxReplace in HT as [_ HT]. exact HT. }
  apply list_elem_of_lookup in HTsel as [i' Hi'].
  destruct (Hfirst i' T a Hi' Ha) as (j' & Hj' & Hja).
  destruct (kept N dup (tx_of pool a)) eqn:Hk; [left | right; reflexivity].
  assert (Hnd : NoDup selected).
  { rewrite Hsel. apply NoDup_selected;
      [exact Hc | apply (inv_NoDup _ _ _ _ Hinv) | apply (inv_pool _ _ _ _ Hinv)]. }
  destruct (filter_lookup_order (λ r, kept N dup r = true) selected i i' j'
              (Some T) (tx_of pool a) Hnd Hja Hi' Hj' Hk HT) as (j & Hj & Hjk).
  exists j. assert (1 ≤ j)%nat.
  { destruct j as [|j]; [|lia]. exfalso.
    unfold vtxReplace in HT. rewrite Hsel in Hjk. simpl in Hjk. discriminate. }
  split; [lia |]. rewrite (Hrest j) by lia. exact Hjk.
Qed.

Lemma CreateNewBlock_ancestors_first_witness :
  ∃ t,
    pblocktemplate (CreateNewBlock K0 N0 args0 pool_ABC assembler0 [Opcode 5]
                      false false false) = Some t
    ∧ let selected := selected_vtx K0 N0 pool_ABC assembler0 false in
      let dup := setDuplicate (screening_of K0 N0 pool_ABC assembler0 false) in
      (∀ i T a, selected !! i = Some (Some T) →
         a ∈ CalculateMemPoolAncestors pool_ABC (GetHash T) →
         ∃ j, (j < i)%nat ∧ selected !! j = Some (tx_of pool_ABC a))
      ∧ (false = false →
         ∀ i T a, (1 ≤ i)%nat → block_vtx (block t) !! i = Some (Some T) →
           a ∈ CalculateMemPoolAncestors pool_ABC (GetHash T) →
           (∃ j, (1 ≤ j < i)%nat ∧ block_vtx (block t) !! j = Some (tx_of pool_ABC a))
           ∨ kept N0 dup (tx_of pool_ABC a) = false).
Proof.
  eexists. split; [vm_compute; reflexivity |].
  apply (CreateNewBlock_ancestors_first K0 N0 args0 pool_ABC assembler0 [Opcode 5]
           false false false).
  - apply (bool_decide_unpack _). vm_compute. reflexivity.
  - vm_compute. reflexivity.
Defined.

(** C1 as stated fails: the mempool holds a mint of a pubcoin that the chain
    has accumulated and a zerocoin spend that is its child.  Both are chosen,
    parent first; the screening marks the mint duplicate and the rebuild
    removes it, while the spend, exempt from the input check, stays in the
    template without its ancestor. *)
Lemma ancestor_removed_descendant_stays :
  ∃ t coinbase,
    mempool_consistent pool_mint_child
    ∧ pblocktemplate (CreateNewBlock K0 N_pubcoin_600 args0 pool_mint_child assembler0
                        [Opcode 5] false false false) = Some t
    ∧ selected_vtx K0 N_pubcoin_600 pool_mint_child assembler0 false
      = [None; Some tx_mint_600; Some tx_child_spend]
    ∧ block_vtx (block t) = [Some coinbase; Some tx_child_spend]
    ∧ GetHash tx_mint_600 ∈ CalculateMemPoolAncestors pool_mint_child (GetHash tx_child_spend)
    ∧ Some tx_mint_600 ∉ block_vtx (block t).
Proof.
  eexists _, _.
  split; [apply (bool_decide_unpack _); vm_compute; reflexivity |].
  split; [vm_compute; reflexivity |].
  split; [vm_compute; reflexivity |].
  split; [vm_compute; reflexivity |].
  split; [apply (bool_decide_unpack _); vm_compute; reflexivity |].
  simpl. intros Hin.
  apply elem_of_cons in Hin as [Hin|Hin]; [vm_compute in Hin; discriminate |].
  apply elem_of_cons in Hin as [Hin|Hin]; [vm_compute in Hin; discriminate |].
  inversion Hin.
Qed.

(** * Further properties of the package selection *)

Lemma addPackageTxs_loop_never_aborts K N pool v0 fuel s order :
  mempool_consistent pool →
  selection_inv pool v0 s order →
  addPackageTxs_loop fuel K N pool s ≠ Aborted.
Proof.
  intros Hc. revert s order. induction fuel as [|fuel IH]; intros s order Hinv; simpl;
    [discriminate |].
  destruct (addPackageTxs_step K N pool s) as [s1|s1|] eqn:Hstep; [|discriminate |].
  - destruct (addPackageTxs_step_inv K N pool v0 Hc s order s1 Hinv) as [order1 H1];
      [auto |].
    apply (IH s1 order1 H1).
  - exfalso. apply (addPackageTxs_step_asserts K N pool v0 s order Hinv Hstep).
Qed.

(** X1: on a consistent mempool, entered with an empty [inBlock], the loop of
    [addPackageTxs] is left through its condition or its [break] within
    [selection_fuel pool] iterations, and however long it is run the
    [assert(!inBlock.count(iter))] of line 631 never fails. *)
Theorem addPackageTxs_ends_without_assert (K : Constants) (N : Node)
    (pool : gmap Z CTxMemPoolEntry) (a : BlockAssembler) :
  mempool_consistent pool →
  inBlock a = ∅ →
  (∃ s, addPackageTxs (selection_fuel pool) K N pool a = Finished s)
  ∧ (∀ fuel, addPackageTxs fuel K N pool a ≠ Aborted).
Proof.
  intros Hc Hin. split.
  - apply (addPackageTxs_returns K N pool (vtx a) Hc a Hin eq_refl).
  - intros fuel. unfold addPackageTxs.
    apply (addPackageTxs_loop_never_aborts K N pool (vtx a) fuel _ [] Hc).
    apply selection_inv_init; auto.
Qed.

Lemma addPackageTxs_ends_without_assert_witness :
  (∃ s, addPackageTxs (selection_fuel pool_ABC) K0 N0 pool_ABC assembler1 = Finished s)
  ∧ (∀ fuel, addPackageTxs fuel K0 N0 pool_ABC assembler1 ≠ Aborted).
Proof.
  apply (addPackageTxs_ends_without_assert K0 N0 pool_ABC assembler1).
  - apply (bool_decide_unpack _). vm_compute. reflexivity.
  - reflexivity.
Defined.

(** X2: whatever [addPackageTxs] returns on a consistent mempool, the block
    holds the transactions it started with followed by mempool entries each
    added once; [inBlock] is exactly the set of the entries added, and
    [mapModifiedTx] holds no entry that is in the block. *)
Theorem addPackageTxs_adds_once (K : Constants) (N : Node)
    (pool : gmap Z CTxMemPoolEntry) (a : BlockAssembler) (fuel : nat)
    (s : PackageSelection) :
  mempool_consistent pool →
  inBlock a = ∅ →
  addPackageTxs fuel K N pool a = Finished s →
  ∃ order : list Z,
    vtx (assembler s) = vtx a ++ (tx_of pool <$> order)
    ∧ NoDup order
    ∧ (∀ h, h ∈ order ↔ h ∈ inBlock (assembler s))
    ∧ (∀ h, h ∈ order → is_Some (pool !! h))
    ∧ (∀ h, h ∈ order → mapModifiedTx s !! h = None).
Proof.
  intros Hc Hin Hrun. unfold addPackageTxs in Hrun.
  assert (Hinv := addPackageTxs_loop_inv K N pool (vtx a) Hc fuel _ []
                    (selection_inv_init pool (vtx a) Hc a Hin eq_refl)).
  rewrite Hrun in Hinv. destruct Hinv as [order Hinv]. exists order.
  split; [apply (inv_vtx _ _ _ _ Hinv) |].
  split; [apply (inv_NoDup _ _ _ _ Hinv) |].
  split; [apply (inv_inBlock _ _ _ _ Hinv) |].
  split; [apply (inv_pool _ _ _ _ Hinv) |].
  intros h Hh. destruct (mapModifiedTx s !! h) as [m|] eqn:Hm; [|reflexivity].
  exfalso. destruct (inv_modified _ _ _ _ Hinv h m Hm) as (_ & _ & Hout).
  apply Hout, (inv_inBlock _ _ _ _ Hinv), Hh.
Qed.

Lemma addPackageTxs_adds_once_witness :
  ∃ s,
    addPackageTxs 10 K0 N0 pool_ABC assembler1 = Finished s
    ∧ ∃ order : list Z,
        vtx (assembler s) = vtx assembler1 ++ (tx_of pool_ABC <$> order)
        ∧ NoDup order
        ∧ (∀ h, h ∈ order ↔ h ∈ inBlock (assembler s))
        ∧ (∀ h, h ∈ order → is_Some (pool_ABC !! h))
        ∧ (∀ h, h ∈ order → mapModifiedTx s !! h = None).
Proof.
  eexists. split; [vm_compute; reflexivity |].
  apply (addPackageTxs_adds_once K0 N0 pool_ABC assembler1 10).
  - apply (bool_decide_unpack _). vm_compute. reflexivity.
  - reflexivity.
  - vm_compute. reflexivity.
Defined.

(** ** The accounts of the block under construction *)

Lemma sum_Z_app l k : sum_Z (l ++ k) = sum_Z l + sum_Z k.
Proof. unfold sum_Z. induction l as [|x l IH]; simpl; [reflexivity |]. rewrite IH. lia. Qed.

Lemma u64_idemp x : u64 (u64 x) = u64 x.
Proof. unfold u64. apply Z.mod_mod. lia. Qed.

Lemma u64_add_l x y : u64 (u64 x + y) = u64 (x + y).
Proof. unfold u64. apply Zplus_mod_idemp_l. Qed.

Lemma u64_step w w0 sigma d : u64 w = u64 (w0 + sigma) → u64 (u64 (w + d)) = u64 (w0 + (sigma + d)).
Proof.
  intros H. rewrite u64_idemp, <- (u64_add_l w), H, u64_add_l. f_equal. lia.
Qed.

Lemma addPackageTxs_accounted (K : Constants) (N : Node)
    (pool : gmap Z CTxMemPoolEntry) (a : BlockAssembler) (fuel : nat)
    (s : PackageSelection) :
  addPackageTxs fuel K N pool a = Finished s →
  ∃ order : list Z,
    vtx (assembler s) = vtx a ++ (tx_of pool <$> order)
    ∧ vTxFees (assembler s) = vTxFees a ++ ((λ h, GetFee (pool !!! h)) <$> order)
    ∧ vTxSigOpsCost (assembler s)
      = vTxSigOpsCost a ++ ((λ h, GetSigOpCost (pool !!! h)) <$> order)
    ∧ nFees (assembler s) = nFees a + sum_Z ((λ h, GetFee (pool !!! h)) <$> order)
    ∧ u64 (nBlockTx (assembler s)) = u64 (nBlockTx a + Z.of_nat (length order))
    ∧ u64 (nBlockWeight (assembler s))
      = u64 (nBlockWeight a + sum_Z ((λ h, GetTxWeight (pool !!! h)) <$> order))
    ∧ u64 (nBlockSigOpsCost (assembler s))
      = u64 (nBlockSigOpsCost a + sum_Z ((λ h, GetSigOpCost (pool !!! h)) <$> order))
    ∧ inBlock (assembler s) = list_to_set order ∪ inBlock a.
Proof.
  unfold addPackageTxs.
  apply (addPackageTxs_loop_preserves K N pool
           (λ a', ∃ order : list Z,
              vtx a' = vtx a ++ (tx_of pool <$> order)
              ∧ vTxFees a' = vTxFees a ++ ((λ h, GetFee (pool !!! h)) <$> order)
              ∧ vTxSigOpsCost a'
                = vTxSigOpsCost a ++ ((λ h, GetSigOpCost (pool !!! h)) <$> order)
              ∧ nFees a' = nFees a + sum_Z ((λ h, GetFee (pool !!! h)) <$> order)
              ∧ u64 (nBlockTx a') = u64 (nBlockTx a + Z.of_nat (length order))
              ∧ u64 (nBlockWeight a')
                = u64 (nBlockWeight a + sum_Z ((λ h, GetTxWeight (pool !!! h)) <$> order))
              ∧ u64 (nBlockSigOpsCost a')
                = u64 (nBlockSigOpsCost a
                       + sum_Z ((λ h, GetSigOpCost (pool !!! h)) <$> order))
              ∧ inBlock a' = list_to_set order ∪ inBlock a)).
  - intros a' it (order & H1 & H2 & H3 & H4 & H5 & H6 & H7 & H8). exists (order ++ [it]).
    rewrite !fmap_app, !sum_Z_app, !app_assoc, length_app, list_to_set_app_L.
    unfold sum_Z at 2 4 6. simpl. rewrite !Z.add_0_r, H1, H2, H3, H4, H8.
    repeat split; try reflexivity.
    + lia.
    + replace (nBlockTx a + Z.of_nat (length order + 1))
        with (nBlockTx a + (Z.of_nat (length order) + 1)) by lia.
      apply u64_step, H5.
    + apply u64_step, H6.
    + apply u64_step, H7.
    + set_solver.
  - exists []. simpl. rewrite !app_nil_r, !Z.add_0_r.
    repeat split; try reflexivity. set_solver.
Qed.

(** X3: when [addPackageTxs] returns, [vTxFees] and [vTxSigOpsCost] have grown
    by the fee and the sigop cost of each transaction appended to [vtx], in the
    same order; [nFees] has grown by the sum of those fees, and [nBlockTx],
    [nBlockWeight] and [nBlockSigOpsCost] by the number, the weights and the
    sigop costs of the entries added, modulo 2^64; [inBlock] has gained
    exactly those entries. *)
Theorem addPackageTxs_accounts (K : Constants) (N : Node)
    (pool : gmap Z CTxMemPoolEntry) (a : BlockAssembler) (fuel : nat)
    (s : PackageSelection) :
  addPackageTxs fuel K N pool a = Finished s →
  ∃ order : list Z,
    vtx (assembler s) = vtx a ++ (tx_of pool <$> order)
    ∧ vTxFees (assembler s) = vTxFees a ++ ((λ h, GetFee (pool !!! h)) <$> order)
    ∧ vTxSigOpsCost (assembler s)
      = vTxSigOpsCost a ++ ((λ h, GetSigOpCost (pool !!! h)) <$> order)
    ∧ nFees (assembler s) = nFees a + sum_Z ((λ h, GetFee (pool !!! h)) <$> order)
    ∧ u64 (nBlockTx (assembler s)) = u64 (nBlockTx a + Z.of_nat (length order))
    ∧ u64 (nBlockWeight (assembler s))
      = u64 (nBlockWeight a + sum_Z ((λ h, GetTxWeight (pool !!! h)) <$> order))
    ∧ u64 (nBlockSigOpsCost (assembler s))
      = u64 (nBlockSigOpsCost a + sum_Z ((λ h, GetSigOpCost (pool !!! h)) <$> order))
    ∧ inBlock (assembler s) = list_to_set order ∪ inBlock a.
Proof. apply addPackageTxs_accounted. Qed.

Lemma addPackageTxs_accounts_witness :
  ∃ s,
    addPackageTxs 10 K0 N0 pool_ABC assembler1 = Finished s
    ∧ ∃ order : list Z,
        vtx (assembler s) = vtx assembler1 ++ (tx_of pool_ABC <$> order)
        ∧ vTxFees (assembler s)
          = vTxFees assembler1 ++ ((λ h, GetFee (pool_ABC !!! h)) <$> order)
        ∧ vTxSigOpsCost (assembler s)
          = vTxSigOpsCost assembler1 ++ ((λ h, GetSigOpCost (pool_ABC !!! h)) <$> order)
        ∧ nFees (assembler s)
          = nFees assembler1 + sum_Z ((λ h, GetFee (pool_ABC !!! h)) <$> order)
        ∧ u64 (nBlockTx (assembler s)) = u64 (nBlockTx assembler1 + Z.of_nat (length order))
        ∧ u64 (nBlockWeight (assembler s))
          = u64 (nBlockWeight assembler1
                 + sum_Z ((λ h, GetTxWeight (pool_ABC !!! h)) <$> order))
        ∧ u64 (nBlockSigOpsCost (assembler s))
          = u64 (nBlockSigOpsCost assembler1
                 + sum_Z ((λ h, GetSigOpCost (pool_ABC !!! h)) <$> order))
        ∧ inBlock (assembler s) = list_to_set order ∪ inBlock assembler1.
Proof.
  eexists. split; [vm_compute; reflexivity |].
  apply (addPackageTxs_accounts K0 N0 pool_ABC assembler1 10).
  vm_compute. reflexivity.
Defined.

(** ** What every added entry has passed *)

Section SelectedFinal.
Context (K : Constants) (N : Node) (pool : gmap Z CTxMemPoolEntry).
Context (height cutoff : Z) (fWitness : bool).


Lemma foldl_AddToBlock_tested a l :
  tested N pool height cutoff fWitness a →
  (∀ h, h ∈ l → final_and_witness_ok N pool height cutoff fWitness h = true) →
  tested N pool height cutoff fWitness (foldl (AddToBlock pool) a l).
Proof.
  revert a. induction l as [|x l IH]; intros a Ha Hl; simpl; [exact Ha |].
  apply IH.
  - destruct Ha as (H1 & H2 & H3 & H4). repeat split; simpl; try assumption.
    intros h Hh. apply elem_of_union in Hh as [Hh|Hh]; [|apply H4, Hh].
    apply elem_of_singleton in Hh. subst h. apply Hl, elem_of_cons. auto.
  - intros h Hh. apply Hl, elem_of_cons. auto.
Qed.

Lemma TestPackageTransactions_elem a package h :
  TestPackageTransactions N pool a package = true →
  h ∈ package →
  final_and_witness_ok N pool (nHeight a) (nLockTimeCutoff a) (fIncludeWitness a) h = true.
Proof.
  unfold TestPackageTransactions. intros Hall Hh.
  rewrite forallb_forall in Hall. apply (Hall h).
  apply list_elem_of_In, elem_of_in_order, Hh.
Qed.

Lemma consider_package_tested s it b modit s' :
  tested N pool height cutoff fWitness (assembler s) →
  consider_package K N pool s it b modit = Continue s'
  ∨ consider_package K N pool s it b modit = Break s' →
  tested N pool height cutoff fWitness (assembler s').
Proof.
  intros Ha. unfold consider_package.
  destruct (decide (it ∈ inBlock (assembler s))); [intros [?|?]; discriminate |].
  cbv zeta.
  destruct (TestPackage K (assembler s) _ _); simpl negb; cbv iota.
  - destruct (TestPackageTransactions N pool (assembler s) _) eqn:Htest; simpl negb; cbv iota.
    + intros [H|H]; inversion H; subst; simpl.
      apply foldl_AddToBlock_tested; [exact Ha |].
      intros h Hh. apply elem_of_SortForBlock in Hh.
      assert (Hok := TestPackageTransactions_elem _ _ h Htest Hh).
      destruct Ha as (H1 & H2 & H3 & _). rewrite H1, H2, H3 in Hok. exact Hok.
    + intros [H|H]; inversion H; subst. rewrite drop_failed_assembler. exact Ha.
  - match goal with |- context [if ?c then Break _ else _] => destruct c end;
      intros [H|H]; inversion H; subst; simpl; rewrite drop_failed_assembler; exact Ha.
Qed.

Lemma addPackageTxs_step_tested s s' :
  tested N pool height cutoff fWitness (assembler s) →
  addPackageTxs_step K N pool s = Continue s'
  ∨ addPackageTxs_step K N pool s = Break s' →
  tested N pool height cutoff fWitness (assembler s').
Proof.
  intros Ha. unfold addPackageTxs_step.
  destruct (mi s) as [|it rest] eqn:Hmi,
    (modified_begin (mapModifiedTx s)) as [m|] eqn:Hm.
  - apply consider_package_tested, Ha.
  - intros [H|H]; inversion H; subst; exact Ha.
  - destruct (SkipMapTxEntry _ _ _ _); [intros [H|H]; inversion H; subst; exact Ha |].
    destruct (CompareTxMemPoolEntryByAncestorFee _ _ _ _ _ _).
    + apply consider_package_tested, Ha.
    + apply (consider_package_tested (advance_mi s)), Ha.
  - destruct (SkipMapTxEntry _ _ _ _); [intros [H|H]; inversion H; subst; exact Ha |].
    apply (consider_package_tested (advance_mi s)), Ha.
Qed.

Lemma addPackageTxs_loop_tested fuel s s' :
  nHeight (assembler s) = height →
  nLockTimeCutoff (assembler s) = cutoff →
  fIncludeWitness (assembler s) = fWitness →
  (∀ h, h ∈ inBlock (assembler s) →
        final_and_witness_ok N pool height cutoff fWitness h = true) →
  addPackageTxs_loop fuel K N pool s = Finished s' →
  ∀ h, h ∈ inBlock (assembler s') →
       final_and_witness_ok N pool height cutoff fWitness h = true.
Proof.
  intros H1 H2 H3 H4.
  assert (Ha : tested N pool height cutoff fWitness (assembler s))
    by (repeat split; assumption).
  clear H1 H2 H3 H4. revert s Ha.
  induction fuel as [|fuel IH]; intros s Ha; simpl; [discriminate |].
  destruct (addPackageTxs_step K N pool s) as [s1|s1|] eqn:Hstep; [| |discriminate].
  - apply IH. apply (addPackageTxs_step_tested s); auto.
  - intros H. inversion H; subst.
    apply (addPackageTxs_step_tested s s'); auto.
Qed.

End SelectedFinal.

(** X4: every transaction [addPackageTxs] appends to the block has passed
    [IsFinalTx] at the assembler's height and lock-time cutoff, and has no
    witness data unless [fIncludeWitness] is set. *)
Theorem addPackageTxs_adds_only_final (K : Constants) (N : Node)
    (pool : gmap Z CTxMemPoolEntry) (a : BlockAssembler) (fuel : nat)
    (s : PackageSelection) :
  inBlock a = ∅ →
  addPackageTxs fuel K N pool a = Finished s →
  ∃ added : list CTransaction,
    vtx (assembler s) = vtx a ++ (Some <$> added)
    ∧ ∀ T, T ∈ added →
        IsFinalTx N T (nHeight a) (nLockTimeCutoff a) = true
        ∧ (fIncludeWitness a = true ∨ HasWitness (tx T) = false).
Proof.
  intros Hin Hrun.
  destruct (addPackageTxs_accounted K N pool a fuel s Hrun)
    as (order & Hvtx & _ & _ & _ & _ & _ & _ & Hblock).
  exists ((λ h, GetSharedTx (pool !!! h)) <$> order).
  split; [rewrite Hvtx, <- list_fmap_compose; reflexivity |].
  intros T HT. apply list_elem_of_fmap in HT as (h & -> & Hh).
  assert (Hok : final_and_witness_ok N pool (nHeight a) (nLockTimeCutoff a)
                  (fIncludeWitness a) h = true).
  { apply (addPackageTxs_loop_tested K N pool _ _ _ fuel (addPackageTxs_init pool a) s);
      try reflexivity; [| exact Hrun |].
    - simpl. rewrite Hin. intros h' Hh'. apply elem_of_empty in Hh'. contradiction.
    - rewrite Hblock, Hin. set_solver. }
  unfold final_and_witness_ok in Hok. cbv zeta in Hok.
  apply andb_true_iff in Hok as [Hfinal Hw]. split; [exact Hfinal |].
  destruct (fIncludeWitness a); [left; reflexivity | right].
  simpl in Hw. apply negb_true_iff in Hw. exact Hw.
Qed.

Lemma addPackageTxs_adds_only_final_witness :
  ∃ s,
    addPackageTxs 10 K0 N0 pool_ABC assembler1 = Finished s
    ∧ ∃ added : list CTransaction,
        vtx (assembler s) = vtx assembler1 ++ (Some <$> added)
        ∧ ∀ T, T ∈ added →
            IsFinalTx N0 T (nHeight assembler1) (nLockTimeCutoff assembler1) = true
            ∧ (fIncludeWitness assembler1 = true ∨ HasWitness (tx T) = false).
Proof.
  eexists. split; [vm_compute; reflexivity |].
  apply (addPackageTxs_adds_only_final K0 N0 pool_ABC assembler1 10).
  - reflexivity.
  - vm_compute. reflexivity.
Defined.

(** ** The first package and the empty mempool *)

Lemma UpdatePackagesForAdded_nothing_added pool m :
  UpdatePackagesForAdded pool ∅ m = (0, m).
Proof. unfold UpdatePackagesForAdded. rewrite in_order_empty. reflexivity. Qed.

Lemma modified_begin_empty : modified_begin ∅ = None.
Proof. unfold modified_begin. rewrite map_to_list_empty. reflexivity. Qed.

(** X5: entered with an empty [inBlock], [addPackageTxs] first tries the
    entry at the head of the ancestor-score index; when its package (the entry
    and its in-mempool ancestors) passes [TestPackage] and
    [TestPackageTransactions], the block starts with exactly that package,
    sorted by ancestor count. *)
Theorem addPackageTxs_best_package_first (K : Constants) (N : Node)
    (pool : gmap Z CTxMemPoolEntry) (a : BlockAssembler) (fuel : nat)
    (s : PackageSelection) (it : Z) (rest : list Z) :
  inBlock a = ∅ →
  by_ancestor_score pool = it :: rest →
  TestPackage K a (GetSizeWithAncestors (pool !!! it))
    (GetSigOpCostWithAncestors (pool !!! it)) = true →
  TestPackageTransactions N pool a ({[ it ]} ∪ CalculateMemPoolAncestors pool it) = true →
  addPackageTxs fuel K N pool a = Finished s →
  ∃ later,
    vtx (assembler s)
    = vtx a
      ++ (tx_of pool <$> SortForBlock pool ({[ it ]} ∪ CalculateMemPoolAncestors pool it))
      ++ later.
Proof.
  intros Hin Hbest Hfit Hfinal. unfold addPackageTxs.
  destruct fuel as [|fuel]; [discriminate |]. simpl.
  unfold addPackageTxs_step. simpl.
  rewrite Hin, UpdatePackagesForAdded_nothing_added. simpl.
  rewrite modified_begin_empty, Hbest.
  unfold SkipMapTxEntry. rewrite Hin.
  rewrite (bool_decide_eq_false_2 (is_Some ((∅ : gmap Z CTxMemPoolModifiedEntry) !! it)))
    by (rewrite lookup_empty; intros [? ?]; discriminate).
  rewrite !(bool_decide_eq_false_2 (it ∈ (∅ : gset Z))) by set_solver.
  simpl. unfold consider_package. simpl.
  rewrite Hin. destruct (decide (it ∈ (∅ : gset Z))) as [Hbad|_]; [set_solver |].
  rewrite Hfit. simpl negb. cbv iota.
  assert (Hpkg : {[ it ]} ∪ onlyUnconfirmed a (CalculateMemPoolAncestors pool it)
                 = {[ it ]} ∪ CalculateMemPoolAncestors pool it).
  { unfold onlyUnconfirmed. rewrite Hin. set_solver. }
  rewrite Hpkg, Hfinal. simpl negb. cbv iota.
  intros Hrun. apply addPackageTxs_loop_vtx_prefix in Hrun as [later Hl].
  exists later. rewrite Hl. simpl. rewrite foldl_AddToBlock_vtx, <- app_assoc. reflexivity.
Qed.

Lemma addPackageTxs_best_package_first_witness :
  ∃ s,
    addPackageTxs 10 K0 N0 pool_ABC assembler1 = Finished s
    ∧ ∃ later,
        vtx (assembler s)
        = vtx assembler1
          ++ (tx_of pool_ABC
                <$> SortForBlock pool_ABC ({[ 12 ]} ∪ CalculateMemPoolAncestors pool_ABC 12))
          ++ later.
Proof.
  eexists. split; [vm_compute; reflexivity |].
  apply (addPackageTxs_best_package_first K0 N0 pool_ABC assembler1 10 _ 12 [11; 13]).
  - reflexivity.
  - vm_compute. reflexivity.
  - vm_compute. reflexivity.
  - vm_compute. reflexivity.
  - vm_compute. reflexivity.
Defined.

Lemma by_ancestor_score_empty : by_ancestor_score ∅ = [].
Proof. unfold by_ancestor_score. rewrite dom_empty_L, elements_empty. reflexivity. Qed.

Lemma addPackageTxs_empty K N a fuel :
  inBlock a = ∅ →
  addPackageTxs (S fuel) K N ∅ a = Finished (addPackageTxs_init ∅ a).
Proof.
  intros Hin. unfold addPackageTxs. simpl. unfold addPackageTxs_step. simpl.
  rewrite Hin, UpdatePackagesForAdded_nothing_added. simpl.
  rewrite modified_begin_empty, by_ancestor_score_empty. reflexivity.
Qed.

(** X6: on an empty mempool a proof-of-work template holds the coinbase and
    nothing else, its fee entry is 0, and no transaction is handed to
    [mempool.removeRecursive]. *)
Theorem CreateNewBlock_empty_mempool (K : Constants) (N : Node) (args : gArgs)
    (a0 : BlockAssembler) (scriptPubKeyIn : list ScriptItem)
    (fMineWitnessTx fProofOfFullNode : bool) (t : CBlockTemplate) :
  pblocktemplate
    (CreateNewBlock K N args ∅ a0 scriptPubKeyIn fMineWitnessTx false fProofOfFullNode)
  = Some t →
  (∃ coinbase, block_vtx (block t) = [Some coinbase])
  ∧ tmpl_vTxFees t = [0]
  ∧ removeRecursive_calls
      (CreateNewBlock K N args ∅ a0 scriptPubKeyIn fMineWitnessTx false fProofOfFullNode)
    = [].
Proof.
  unfold CreateNewBlock. simpl.
  destruct (negb (mempool_TRY_LOCK N)); [discriminate |].
  unfold selection_fuel. rewrite addPackageTxs_empty by reflexivity. simpl.
  intros Ht. split; [|split; [|reflexivity]].
  - apply finish_block_Some in Ht as (outs & _ & Hvtx & _). simpl in Hvtx. eauto.
  - revert Ht. unfold finish_block.
    destruct (GetBlockRewards N _) as [[[r f] l] b].
    destruct (coinbase_vpout N false scriptPubKeyIn r f l b _) as [outs|]; [|discriminate].
    cbn [mbind option_bind]. cbv zeta. rewrite andb_false_r. simpl.
    match goal with |- context [TestBlockValidity N ?b ?p] =>
      destruct (TestBlockValidity N b p); [|discriminate] end.
    intros H; inversion H; subst; clear H. reflexivity.
Qed.

Lemma CreateNewBlock_empty_mempool_witness :
  ∃ t,
    pblocktemplate (CreateNewBlock K0 N0 args0 ∅ assembler0 [Opcode 5] false false false)
    = Some t
    ∧ (∃ coinbase, block_vtx (block t) = [Some coinbase])
    ∧ tmpl_vTxFees t = [0]
    ∧ removeRecursive_calls
        (CreateNewBlock K0 N0 args0 ∅ assembler0 [Opcode 5] false false false)
      = [].
Proof.
  eexists. split; [vm_compute; reflexivity |].
  apply (CreateNewBlock_empty_mempool K0 N0 args0 assembler0 [Opcode 5] false false).
  vm_compute. reflexivity.
Defined.

(** * Further properties of [CreateNewBlock] *)

(** What [finish_block] puts in the template it returns. *)
Lemma finish_block_inv K N args a sc txs spk fPoS fPoFN txCoinStake nTime0 t :
  finish_block K N args a sc txs spk fPoS fPoFN txCoinStake nTime0 = Some t →
  tmpl_vTxFees t = <[ 0%nat := - nFees a ]> (vTxFees a)
  ∧ tmpl_vTxSigOpsCost t
    = <[ 0%nat := WITNESS_SCALE_FACTOR K
                  * from_option (GetLegacySigOpCount N) 0
                      (mjoin (block_vtx (block t) !! 0%nat)) ]> (vTxSigOpsCost a)
  ∧ nTime (block t)
    = (if fPoS then nTime0 else (UpdateTime K N (chainActive_Tip N) fPoS nTime0 0).1)
  ∧ nBits (block t) = GetNextWorkRequired N (chainActive_Tip N) (nTime (block t)) fPoS
  ∧ nNonce (block t) = 0
  ∧ hashMerkleRoot (block t) = BlockMerkleRoot N (block_vtx (block t))
  ∧ hashWitnessMerkleRoot (block t) = BlockWitnessMerkleRoot N (block_vtx (block t))
  ∧ fProofOfStake (block t) = fPoS
  ∧ mapAccumulatorHashes (block t)
    = (if Z.rem (nHeight a) 10 =? 0
       then CalculateAccumulatorCheckpoint N (nHeight a)
       else bi_mapAccumulatorHashes (chainActive_Tip N))
  ∧ TestBlockValidity N (block t) (chainActive_Tip N) = true
  ∧ (if fPoS
     then sign_block N (set_header (block t) (hashPoFN (block t))
                          (hashVeilData (block t)) [])
          = Some (vchBlockSig (block t))
     else vchBlockSig (block t) = [] ∧ hashPoFN (block t) = 0).
Proof.
  unfold finish_block.
  destruct (GetBlockRewards N (nHeight a)) as [[[r f] l] b].
  destruct (fReserveOverflow sc); [discriminate |].
  destruct (coinbase_vpout N fPoS spk r f l b _) as [outs|]; [|discriminate].
  cbn [mbind option_bind]. cbv zeta.
  destruct fPoS.
  - cbn [andb].
    match goal with |- context [sign_block N ?b] => set (signed := b) end.
    destruct (sign_block N signed) as [sig|] eqn:Hsig; simpl; [|discriminate].
    match goal with |- context [TestBlockValidity N ?b ?p] =>
      destruct (TestBlockValidity N b p) eqn:Hvalid; [|discriminate] end.
    intros H; inversion H; subst; clear H. cbn [block tmpl_vTxFees tmpl_vTxSigOpsCost].
    destruct fPoFN; cbn in *; repeat split; try reflexivity; try exact Hvalid; exact Hsig.
  - rewrite andb_false_r. simpl.
    match goal with |- context [TestBlockValidity N ?b ?p] =>
      destruct (TestBlockValidity N b p) eqn:Hvalid; [|discriminate] end.
    intros H; inversion H; subst; clear H. cbn [block tmpl_vTxFees tmpl_vTxSigOpsCost].
    cbn in *. repeat split; try reflexivity; exact Hvalid.
Qed.

Lemma selection_of_accounted K N pool a0 fPoS s :
  selection_of K N pool a0 fPoS = Some s →
  ∃ order : list Z,
    selected_vtx K N pool a0 fPoS = None :: (tx_of pool <$> order)
    ∧ vTxFees (assembler s) = -1 :: ((λ h, GetFee (pool !!! h)) <$> order)
    ∧ vTxSigOpsCost (assembler s) = -1 :: ((λ h, GetSigOpCost (pool !!! h)) <$> order)
    ∧ nFees (assembler s) = sum_Z ((λ h, GetFee (pool !!! h)) <$> order).
Proof.
  intros Hs. unfold selected_vtx. rewrite Hs. simpl.
  unfold selection_of in Hs.
  destruct (stake_stage K N fPoS) as [[[? nTimeStake] ?]|]; [|discriminate].
  destruct (addPackageTxs _ _ _ _ _) as [s1| |] eqn:Hrun; try discriminate.
  inversion Hs; subst s1; clear Hs.
  destruct (addPackageTxs_accounted _ _ _ _ _ _ Hrun)
    as (order & H1 & H2 & H3 & H4 & _).
  exists order. simpl in *. rewrite H1, H2, H3, H4. repeat split; reflexivity.
Qed.

Lemma template_vtx_head K N args a sc txs spk fPoS fPoFN txCoinStake nTime0 t rest :
  finish_block K N args a sc (None :: txs) spk fPoS fPoFN txCoinStake nTime0 = Some t →
  block_vtx (block t) = rest →
  ∃ coinbase,
    rest !! 0%nat = Some (Some coinbase)
    ∧ vin0_prevout_IsNull (tx coinbase) = true
    ∧ vin0_scriptSig (tx coinbase) = [PushInt (nHeight a); OP_0]
    ∧ (fPoS = false → rest = Some coinbase :: txs).
Proof.
  intros Ht <-. apply finish_block_Some in Ht as (outs & _ & Hvtx & _).
  exists (MakeTransactionRef N (coinbaseTx_new (nHeight a) outs)).
  rewrite Hvtx. split; [|split; [reflexivity | split; [reflexivity |]]].
  - destruct fPoS; [|reflexivity].
    unfold install_coinstake. destruct txs; reflexivity.
  - intros ->. reflexivity.
Qed.

(** X7: the fee and sigop vectors of a template have one entry for each
    transaction [addPackageTxs] selected, also for those that the rebuild of
    [block.vtx] drops afterwards, and the coinbase's fee entry is minus the sum
    of all of them.  In a proof-of-work template [block.vtx] is then no longer
    than [vTxFees], and shorter as soon as one selected transaction is
    dropped. *)
Theorem CreateNewBlock_fee_entries (K : Constants) (N : Node) (args : gArgs)
    (pool : gmap Z CTxMemPoolEntry) (a0 : BlockAssembler) (scriptPubKeyIn : list ScriptItem)
    (fMineWitnessTx fPoS fProofOfFullNode : bool) (t : CBlockTemplate) :
  pblocktemplate
    (CreateNewBlock K N args pool a0 scriptPubKeyIn fMineWitnessTx fPoS fProofOfFullNode)
  = Some t →
  let selected := selected_vtx K N pool a0 fPoS in
  let dup := setDuplicate (screening_of K N pool a0 fPoS) in
  ∃ (order : list Z) (coinbase : CTransaction),
    selected = None :: (tx_of pool <$> order)
    ∧ block_vtx (block t) !! 0%nat = Some (Some coinbase)
    ∧ tmpl_vTxFees t
      = - sum_Z ((λ h, GetFee (pool !!! h)) <$> order)
        :: ((λ h, GetFee (pool !!! h)) <$> order)
    ∧ tmpl_vTxSigOpsCost t
      = WITNESS_SCALE_FACTOR K * GetLegacySigOpCount N coinbase
        :: ((λ h, GetSigOpCost (pool !!! h)) <$> order)
    ∧ (fPoS = false →
       (length (block_vtx (block t)) ≤ length (tmpl_vTxFees t))%nat
       ∧ ((∃ r, r ∈ selected ∧ kept N dup r = false) →
          (length (block_vtx (block t)) < length (tmpl_vTxFees t))%nat)).
Proof.
  intros Ht selected dup.
  apply CreateNewBlock_Some in Ht as (s & stake & nTimeStake & nBits0 & _ & Hs & Ht & _).
  destruct (selection_of_accounted _ _ _ _ _ _ Hs) as (order & Hsel & Hfees & Hsig & Hn).
  fold selected dup in Ht. unfold selected in *. rewrite Hsel in *.
  rewrite vtxReplace_head in Ht.
  destruct (template_vtx_head _ _ _ _ _ _ _ _ _ _ _ _ _ Ht eq_refl)
    as (coinbase & H0 & _ & _ & Hpow).
  destruct (finish_block_inv _ _ _ _ _ _ _ _ _ _ _ _ Ht) as (Hf & Hso & _).
  exists order, coinbase. split; [reflexivity |]. split; [exact H0 |].
  rewrite Hf, Hso, Hfees, Hsig, Hn, H0. simpl.
  split; [reflexivity |]. split; [reflexivity |].
  intros HPoW. rewrite (Hpow HPoW). simpl. rewrite !length_fmap.
  assert (Hle := length_filter (λ r, kept N dup r = true) (tx_of pool <$> order)).
  rewrite length_fmap in Hle. unfold vtxReplace. split; [lia |].
  intros (r & Hr & Hk).
  apply elem_of_cons in Hr as [->|Hr]; [discriminate |].
  assert (Hlt := length_filter_lt (λ r, kept N dup r = true) _ r Hr).
  rewrite length_fmap in Hlt. rewrite Hk in Hlt.
  assert (Hne : ¬ false = true) by discriminate. specialize (Hlt Hne). lia.
Qed.

Lemma CreateNewBlock_fee_entries_witness :
  ∃ t,
    pblocktemplate (CreateNewBlock K0 N_pubcoin_600 args0 pool_mint_child assembler0
                      [Opcode 5] false false false) = Some t
    ∧ let selected := selected_vtx K0 N_pubcoin_600 pool_mint_child assembler0 false in
      let dup := setDuplicate (screening_of K0 N_pubcoin_600 pool_mint_child assembler0 false) in
      ∃ (order : list Z) (coinbase : CTransaction),
        selected = None :: (tx_of pool_mint_child <$> order)
        ∧ block_vtx (block t) !! 0%nat = Some (Some coinbase)
        ∧ tmpl_vTxFees t
          = - sum_Z ((λ h, GetFee (pool_mint_child !!! h)) <$> order)
            :: ((λ h, GetFee (pool_mint_child !!! h)) <$> order)
        ∧ tmpl_vTxSigOpsCost t
          = WITNESS_SCALE_FACTOR K0 * GetLegacySigOpCount N_pubcoin_600 coinbase
            :: ((λ h, GetSigOpCost (pool_mint_child !!! h)) <$> order)
        ∧ (false = false →
           (length (block_vtx (block t)) ≤ length (tmpl_vTxFees t))%nat
           ∧ ((∃ r, r ∈ selected ∧ kept N_pubcoin_600 dup r = false) →
              (length (block_vtx (block t)) < length (tmpl_vTxFees t))%nat)).
Proof.
  eexists. split; [vm_compute; reflexivity |].
  apply (CreateNewBlock_fee_entries K0 N_pubcoin_600 args0 pool_mint_child assembler0
           [Opcode 5] false false false).
  vm_compute. reflexivity.
Defined.

(** ** What the block holds after the coinbase *)

Lemma elem_of_drop_tail {A} (l : list A) n x : x ∈ drop n l → x ∈ l.
Proof. intros H. apply (elem_of_sublist _ _ _ H), sublist_drop. Qed.

(** X8: after the coinbase (and the coinstake of a proof-of-stake block) a
    template holds transactions of the mempool only: a subsequence of what
    [addPackageTxs] selected, in the same order, none twice, each one kept by
    the rebuild. *)
Theorem CreateNewBlock_body_from_mempool (K : Constants) (N : Node) (args : gArgs)
    (pool : gmap Z CTxMemPoolEntry) (a0 : BlockAssembler) (scriptPubKeyIn : list ScriptItem)
    (fMineWitnessTx fPoS fProofOfFullNode : bool) (t : CBlockTemplate) :
  mempool_consistent pool →
  pblocktemplate
    (CreateNewBlock K N args pool a0 scriptPubKeyIn fMineWitnessTx fPoS fProofOfFullNode)
  = Some t →
  let body := drop (first_pool_slot fPoS) (block_vtx (block t)) in
  let dup := setDuplicate (screening_of K N pool a0 fPoS) in
  body `sublist_of` selected_vtx K N pool a0 fPoS
  ∧ NoDup body
  ∧ ∀ r, r ∈ body →
      ∃ h e, pool !! h = Some e ∧ r = Some (GetSharedTx e) ∧ kept N dup r = true.
Proof.
  intros Hc Ht body dup.
  apply CreateNewBlock_Some in Ht as (s & stake & nTimeStake & nBits0 & _ & Hs & Ht & _).
  destruct (selected_vtx_order _ _ _ _ _ _ Hc Hs) as (order & Hinv & Hsel).
  fold dup in Ht.
  assert (Hbody := template_body _ _ _ _ _ _ _ _ _ _ _ _ Ht). fold body in Hbody.
  destruct (template_body_sublist _ _ _ _ _ _ _ _ _ _ _ _ _ Ht) as [Hsub1 Hsub2].
  fold body in Hsub1.
  assert (Hsub : body `sublist_of` selected_vtx K N pool a0 fPoS)
    by (etransitivity; eassumption).
  assert (Hnd : NoDup (selected_vtx K N pool a0 fPoS)).
  { rewrite Hsel. apply NoDup_selected; [exact Hc | apply (inv_NoDup _ _ _ _ Hinv) |].
    apply (inv_pool _ _ _ _ Hinv). }
  split; [exact Hsub |]. split; [apply (sublist_NoDup _ _ Hnd Hsub) |].
  intros r Hr. rewrite Hbody, Hsel, vtxReplace_head in Hr.
  assert (Hin : r ∈ vtxReplace N dup (tx_of pool <$> order)).
  { destruct fPoS; simpl in Hr; [apply (elem_of_drop_tail _ 1), Hr |].
    rewrite drop_0 in Hr. exact Hr. }
  apply elem_of_vtxReplace in Hin as [Hk Hin].
  apply list_elem_of_fmap in Hin as (h & -> & Hh).
  destruct (inv_pool _ _ _ _ Hinv h Hh) as [e He].
  exists h, e. split; [exact He |]. split; [|exact Hk].
  unfold tx_of. rewrite (lookup_total_correct _ _ _ He). reflexivity.
Qed.

Lemma CreateNewBlock_body_from_mempool_witness :
  ∃ t,
    pblocktemplate (CreateNewBlock K0 N0 args0 pool_ABC assembler0 [Opcode 5]
                      false false false) = Some t
    ∧ let body := drop (first_pool_slot false) (block_vtx (block t)) in
      let dup := setDuplicate (screening_of K0 N0 pool_ABC assembler0 false) in
      body `sublist_of` selected_vtx K0 N0 pool_ABC assembler0 false
      ∧ NoDup body
      ∧ ∀ r, r ∈ body →
          ∃ h e, pool_ABC !! h = Some e ∧ r = Some (GetSharedTx e) ∧ kept N0 dup r = true.
Proof.
  eexists. split; [vm_compute; reflexivity |].
  apply (CreateNewBlock_body_from_mempool K0 N0 args0 pool_ABC assembler0 [Opcode 5]
           false false false).
  - apply (bool_decide_unpack _). vm_compute. reflexivity.
  - vm_compute. reflexivity.
Defined.

(** ** Proof-of-stake templates *)

Lemma install_coinstake_lookup v x : install_coinstake v x !! 1%nat = Some (Some x).
Proof.
  unfold install_coinstake. apply list_lookup_insert_eq.
  rewrite length_app, length_replicate. lia.
Qed.

(** X9: a proof-of-stake template is returned only with a main wallet, at a
    height from [HeightPoSStart] on, and with a coinstake from
    [CreateCoinStake] that is a zerocoin spend; the coinstake is [vtx[1]], the
    block time is the time [CreateCoinStake] gave, and [vchBlockSig] is the
    signature, by the wallet's key for the serial of the coinstake's first
    input, of the hash of the block as it is before signing. *)
Theorem CreateNewBlock_proof_of_stake (K : Constants) (N : Node) (args : gArgs)
    (pool : gmap Z CTxMemPoolEntry) (a0 : BlockAssembler) (scriptPubKeyIn : list ScriptItem)
    (fMineWitnessTx fProofOfFullNode : bool) (t : CBlockTemplate) :
  pblocktemplate
    (CreateNewBlock K N args pool a0 scriptPubKeyIn fMineWitnessTx true fProofOfFullNode)
  = Some t →
  ∃ txCoinStake nTxNewTime bnSerial key,
    GetMainWallet N = true
    ∧ HeightPoSStart K ≤ bi_nHeight (chainActive_Tip N) + 1
    ∧ CreateCoinStake N (chainActive_Tip N)
        (GetNextWorkRequired N (chainActive_Tip N) (u32 (GetAdjustedTime N)) true)
      = Some (txCoinStake, nTxNewTime)
    ∧ block_vtx (block t) !! 1%nat = Some (Some (MakeTransactionRef N txCoinStake))
    ∧ IsZerocoinSpend txCoinStake = true
    ∧ nTime (block t) = u32 nTxNewTime
    ∧ fProofOfStake (block t) = true
    ∧ TxInToZerocoinSpend N (MakeTransactionRef N txCoinStake) = Some bnSerial
    ∧ GetZerocoinKey N bnSerial = Some key
    ∧ CKey_Sign N key
        (CBlock_GetHash N
           (set_header (block t) (hashPoFN (block t)) (hashVeilData (block t)) []))
      = Some (vchBlockSig (block t)).
Proof.
  intros Ht.
  assert (Hw : GetMainWallet N = true).
  { destruct (GetMainWallet N) eqn:E; [reflexivity |].
    unfold CreateNewBlock in Ht. rewrite E in Ht. simpl in Ht. discriminate. }
  apply CreateNewBlock_Some in Ht
    as (s & stake & nTimeStake & nBits0 & Hstake & Hs & Ht & _).
  destruct (finish_block_inv _ _ _ _ _ _ _ _ _ _ _ _ Ht)
    as (_ & _ & Htime & _ & _ & _ & _ & Hpos & _ & _ & Hsign).
  apply finish_block_Some in Ht as (outs & _ & Hvtx & _).
  assert (H1 : block_vtx (block t) !! 1%nat = Some (Some (MakeTransactionRef N stake))).
  { rewrite Hvtx, list_lookup_insert_ne by lia. apply install_coinstake_lookup. }
  unfold sign_block in Hsign. cbn [set_header block_vtx] in Hsign. rewrite H1 in Hsign.
  destruct (IsZerocoinSpend (tx (MakeTransactionRef N stake))) eqn:Hspend;
    simpl in Hsign; [|discriminate].
  destruct (TxInToZerocoinSpend N (MakeTransactionRef N stake)) as [serial|] eqn:Hser;
    simpl in Hsign; [|discriminate].
  destruct (GetZerocoinKey N serial) as [key|] eqn:Hkey; simpl in Hsign; [|discriminate].
  unfold stake_stage in Hstake. simpl in Hstake.
  destruct (HeightPoSStart K <=? bi_nHeight (chainActive_Tip N) + 1) eqn:Hh.
  - destruct (CreateCoinStake N _ _) as [[tx0 t0]|] eqn:Hcs; [|discriminate].
    inversion Hstake; subst stake nTimeStake nBits0; clear Hstake.
    exists tx0, t0, serial, key. apply Z.leb_le in Hh.
    repeat split; try assumption. 
  - inversion Hstake; subst stake. simpl in Hspend. discriminate.
Qed.

Lemma CreateNewBlock_proof_of_stake_witness :
  ∃ t,
    pblocktemplate (CreateNewBlock K0 N_staking args0 pool_ABC assembler0 [Opcode 5]
                      false true false) = Some t
    ∧ ∃ txCoinStake nTxNewTime bnSerial key,
        GetMainWallet N_staking = true
        ∧ HeightPoSStart K0 ≤ bi_nHeight (chainActive_Tip N_staking) + 1
        ∧ CreateCoinStake N_staking (chainActive_Tip N_staking)
            (GetNextWorkRequired N_staking (chainActive_Tip N_staking)
               (u32 (GetAdjustedTime N_staking)) true)
          = Some (txCoinStake, nTxNewTime)
        ∧ block_vtx (block t) !! 1%nat
          = Some (Some (MakeTransactionRef N_staking txCoinStake))
        ∧ IsZerocoinSpend txCoinStake = true
        ∧ nTime (block t) = u32 nTxNewTime
        ∧ fProofOfStake (block t) = true
        ∧ TxInToZerocoinSpend N_staking (MakeTransactionRef N_staking txCoinStake)
          = Some bnSerial
        ∧ GetZerocoinKey N_staking bnSerial = Some key
        ∧ CKey_Sign N_staking key
            (CBlock_GetHash N_staking
               (set_header (block t) (hashPoFN (block t)) (hashVeilData (block t)) []))
          = Some (vchBlockSig (block t)).
Proof.
  eexists. split; [vm_compute; reflexivity |].
  apply (CreateNewBlock_proof_of_stake K0 N_staking args0 pool_ABC assembler0 [Opcode 5]
           false false).
  vm_compute. reflexivity.
Defined.

(** X10: in a proof-of-stake template the coinstake is written over
    [vtx[1]]: the mempool transaction that the rebuild had left there is at no
    later index of the block. *)
Theorem CreateNewBlock_coinstake_overwrites (K : Constants) (N : Node) (args : gArgs)
    (pool : gmap Z CTxMemPoolEntry) (a0 : BlockAssembler) (scriptPubKeyIn : list ScriptItem)
    (fMineWitnessTx fProofOfFullNode : bool) (t : CBlockTemplate) (T : CTransaction) :
  mempool_consistent pool →
  pblocktemplate
    (CreateNewBlock K N args pool a0 scriptPubKeyIn fMineWitnessTx true fProofOfFullNode)
  = Some t →
  vtxReplace N (setDuplicate (screening_of K N pool a0 true))
    (selected_vtx K N pool a0 true) !! 1%nat = Some (Some T) →
  ∀ i, (2 ≤ i)%nat → block_vtx (block t) !! i ≠ Some (Some T).
Proof.
  intros Hc Ht H1 i Hi Hti.
  apply CreateNewBlock_Some in Ht as (s & stake & nTimeStake & nBits0 & _ & Hs & Ht & _).
  destruct (selected_vtx_order _ _ _ _ _ _ Hc Hs) as (order & Hinv & Hsel).
  assert (Hbody := template_body _ _ _ _ _ _ _ _ _ _ _ _ Ht). simpl in Hbody.
  destruct (template_body_sublist _ _ _ _ _ _ _ _ _ _ _ _ _ Ht) as [_ Hsub].
  assert (Hnd : NoDup (vtxReplace N (setDuplicate (screening_of K N pool a0 true))
                         (selected_vtx K N pool a0 true))).
  { apply (sublist_NoDup _ (selected_vtx K N pool a0 true)); [|exact Hsub].
    rewrite Hsel. apply NoDup_selected; [exact Hc | apply (inv_NoDup _ _ _ _ Hinv) |].
    apply (inv_pool _ _ _ _ Hinv). }
  assert (Hi' : vtxReplace N (setDuplicate (screening_of K N pool a0 true))
                  (selected_vtx K N pool a0 true) !! i = Some (Some T)).
  { replace i with (2 + (i - 2))%nat by lia. rewrite <- lookup_drop, <- Hbody, lookup_drop.
    replace (2 + (i - 2))%nat with i by lia. exact Hti. }
  assert (Heq := NoDup_lookup _ _ _ _ Hnd Hi' H1). lia.
Qed.

Lemma CreateNewBlock_coinstake_overwrites_witness :
  ∃ t,
    pblocktemplate (CreateNewBlock K0 N_staking args0 pool_ABC assembler0 [Opcode 5]
                      false true false) = Some t
    ∧ vtxReplace N_staking (setDuplicate (screening_of K0 N_staking pool_ABC assembler0 true))
        (selected_vtx K0 N_staking pool_ABC assembler0 true) !! 1%nat = Some (Some txA)
    ∧ ∀ i, (2 ≤ i)%nat → block_vtx (block t) !! i ≠ Some (Some txA).
Proof.
  eexists. split; [vm_compute; reflexivity |].
  split; [vm_compute; reflexivity |].
  apply (CreateNewBlock_coinstake_overwrites K0 N_staking args0 pool_ABC assembler0
           [Opcode 5] false false).
  - apply (bool_decide_unpack _). vm_compute. reflexivity.
  - vm_compute. reflexivity.
  - vm_compute. reflexivity.
Defined.

(** ** The header of a template *)

(** X11: the time of a proof-of-work template is the adjusted time, raised to
    one past the tip's time minus [MAX_PAST_BLOCK_TIME] when it is below that
    bound, and raised to one past the tip's median time past by [UpdateTime];
    [nBits] is the work required at that time.  Times are taken to fit the
    32-bit [nTime]. *)
Theorem CreateNewBlock_pow_time (K : Constants) (N : Node) (args : gArgs)
    (pool : gmap Z CTxMemPoolEntry) (a0 : BlockAssembler) (scriptPubKeyIn : list ScriptItem)
    (fMineWitnessTx fProofOfFullNode : bool) (t : CBlockTemplate) :
  let tip := chainActive_Tip N in
  0 ≤ GetAdjustedTime N < 2 ^ 32 →
  0 ≤ GetMedianTimePast tip + 1 < 2 ^ 32 →
  GetBlockTime tip - MAX_PAST_BLOCK_TIME K + 1 < 2 ^ 32 →
  pblocktemplate
    (CreateNewBlock K N args pool a0 scriptPubKeyIn fMineWitnessTx false fProofOfFullNode)
  = Some t →
  nTime (block t)
  = Z.max (GetMedianTimePast tip + 1)
      (if GetAdjustedTime N <? GetBlockTime tip - MAX_PAST_BLOCK_TIME K
       then GetBlockTime tip - MAX_PAST_BLOCK_TIME K + 1
       else GetAdjustedTime N)
  ∧ GetMedianTimePast tip < nTime (block t)
  ∧ GetAdjustedTime N ≤ nTime (block t)
  ∧ GetBlockTime tip - MAX_PAST_BLOCK_TIME K ≤ nTime (block t)
  ∧ nBits (block t) = GetNextWorkRequired N tip (nTime (block t)) false.
Proof.
  intros tip Hadj Hmtp Hpast Ht.
  apply CreateNewBlock_Some in Ht as (s & stake & nTimeStake & nBits0 & _ & _ & Ht & _).
  destruct (finish_block_inv _ _ _ _ _ _ _ _ _ _ _ _ Ht) as (_ & _ & Htime & Hbits & _).
  fold tip in Htime, Hbits.
  assert (Heq : nTime (block t)
                = Z.max (GetMedianTimePast tip + 1)
                    (if GetAdjustedTime N <? GetBlockTime tip - MAX_PAST_BLOCK_TIME K
                     then GetBlockTime tip - MAX_PAST_BLOCK_TIME K + 1
                     else GetAdjustedTime N)).
  { rewrite Htime. unfold UpdateTime, pow_time. fold tip. cbn [fst].
    rewrite (u32_small (GetAdjustedTime N)) by exact Hadj.
    destruct (Z.ltb_spec (GetAdjustedTime N) (GetBlockTime tip - MAX_PAST_BLOCK_TIME K))
      as [Hlow|Hhigh].
    - rewrite (u32_small (GetBlockTime tip - MAX_PAST_BLOCK_TIME K + 1)) by lia.
      destruct (Z.ltb_spec (GetBlockTime tip - MAX_PAST_BLOCK_TIME K + 1)
                  (Z.max (GetMedianTimePast tip + 1) (GetAdjustedTime N))) as [H|H].
      + rewrite u32_small by lia. lia.
      + lia.
    - destruct (Z.ltb_spec (GetAdjustedTime N)
                  (Z.max (GetMedianTimePast tip + 1) (GetAdjustedTime N))) as [H|H].
      + rewrite u32_small by lia. lia.
      + lia. }
  split; [exact Heq |]. rewrite Heq at 1 2 3. clear Heq.
  destruct (Z.ltb_spec (GetAdjustedTime N) (GetBlockTime tip - MAX_PAST_BLOCK_TIME K));
    (split; [lia |]); (split; [lia |]); (split; [lia |]); exact Hbits.
Qed.

Lemma CreateNewBlock_pow_time_witness :
  ∃ t,
    pblocktemplate (CreateNewBlock K0 N0 args0 pool_ABC assembler0 [Opcode 5]
                      false false false) = Some t
    ∧ nTime (block t)
      = Z.max (GetMedianTimePast (chainActive_Tip N0) + 1)
          (if GetAdjustedTime N0
              <? GetBlockTime (chainActive_Tip N0) - MAX_PAST_BLOCK_TIME K0
           then GetBlockTime (chainActive_Tip N0) - MAX_PAST_BLOCK_TIME K0 + 1
           else GetAdjustedTime N0)
    ∧ GetMedianTimePast (chainActive_Tip N0) < nTime (block t)
    ∧ GetAdjustedTime N0 ≤ nTime (block t)
    ∧ GetBlockTime (chainActive_Tip N0) - MAX_PAST_BLOCK_TIME K0 ≤ nTime (block t)
    ∧ nBits (block t)
      = GetNextWorkRequired N0 (chainActive_Tip N0) (nTime (block t)) false.
Proof.
  eexists. split; [vm_compute; reflexivity |].
  apply (CreateNewBlock_pow_time K0 N0 args0 pool_ABC assembler0 [Opcode 5] false false).
  - vm_compute. split; [discriminate | reflexivity].
  - vm_compute. split; [discriminate | reflexivity].
  - vm_compute. reflexivity.
  - vm_compute. reflexivity.
Defined.

(** X12: every template returned has passed [TestBlockValidity]; it builds
    on the tip, its nonce is 0, its two merkle roots are those of its final
    transaction list, its accumulator checkpoints are recomputed at heights
    divisible by 10 and copied from the tip otherwise, and its first
    transaction is a coinbase with a null prevout whose [scriptSig] is the
    height followed by [OP_0]. *)
Theorem CreateNewBlock_header (K : Constants) (N : Node) (args : gArgs)
    (pool : gmap Z CTxMemPoolEntry) (a0 : BlockAssembler) (scriptPubKeyIn : list ScriptItem)
    (fMineWitnessTx fPoS fProofOfFullNode : bool) (t : CBlockTemplate) :
  pblocktemplate
    (CreateNewBlock K N args pool a0 scriptPubKeyIn fMineWitnessTx fPoS fProofOfFullNode)
  = Some t →
  let tip := chainActive_Tip N in
  TestBlockValidity N (block t) tip = true
  ∧ hashPrevBlock (block t) = GetBlockHash tip
  ∧ nNonce (block t) = 0
  ∧ fProofOfStake (block t) = fPoS
  ∧ hashMerkleRoot (block t) = BlockMerkleRoot N (block_vtx (block t))
  ∧ hashWitnessMerkleRoot (block t) = BlockWitnessMerkleRoot N (block_vtx (block t))
  ∧ mapAccumulatorHashes (block t)
    = (if Z.rem (bi_nHeight tip + 1) 10 =? 0
       then CalculateAccumulatorCheckpoint N (bi_nHeight tip + 1)
       else bi_mapAccumulatorHashes tip)
  ∧ ∃ coinbase,
      block_vtx (block t) !! 0%nat = Some (Some coinbase)
      ∧ vin0_prevout_IsNull (tx coinbase) = true
      ∧ vin0_scriptSig (tx coinbase) = [PushInt (bi_nHeight tip + 1); OP_0].
Proof.
  intros Ht tip.
  apply CreateNewBlock_Some in Ht as (s & stake & nTimeStake & nBits0 & _ & Hs & Ht & _).
  assert (Hh := selection_of_nHeight _ _ _ _ _ _ Hs). fold tip in Hh.
  destruct (selected_vtx_head _ _ _ _ _ _ Hs) as (l & Hsel & _).
  rewrite Hsel, vtxReplace_head in Ht.
  destruct (finish_block_inv _ _ _ _ _ _ _ _ _ _ _ _ Ht)
    as (_ & _ & _ & _ & Hnonce & Hm & Hwm & Hpos & Hacc & Hvalid & _).
  destruct (template_vtx_head _ _ _ _ _ _ _ _ _ _ _ _ _ Ht eq_refl)
    as (coinbase & H0 & Hnull & Hsig & _).
  apply finish_block_Some in Ht as (_ & _ & _ & Hprev).
  rewrite Hh in Hacc, Hsig. fold tip in Hvalid, Hprev, Hacc.
  repeat split; try assumption. exists coinbase. auto.
Qed.

Lemma CreateNewBlock_header_witness :
  ∃ t,
    pblocktemplate (CreateNewBlock K0 N0 args0 pool_ABC assembler0 [Opcode 5]
                      false false false) = Some t
    ∧ let tip := chainActive_Tip N0 in
      TestBlockValidity N0 (block t) tip = true
      ∧ hashPrevBlock (block t) = GetBlockHash tip
      ∧ nNonce (block t) = 0
      ∧ fProofOfStake (block t) = false
      ∧ hashMerkleRoot (block t) = BlockMerkleRoot N0 (block_vtx (block t))
      ∧ hashWitnessMerkleRoot (block t) = BlockWitnessMerkleRoot N0 (block_vtx (block t))
      ∧ mapAccumulatorHashes (block t)
        = (if Z.rem (bi_nHeight tip + 1) 10 =? 0
           then CalculateAccumulatorCheckpoint N0 (bi_nHeight tip + 1)
           else bi_mapAccumulatorHashes tip)
      ∧ ∃ coinbase,
          block_vtx (block t) !! 0%nat = Some (Some coinbase)
          ∧ vin0_prevout_IsNull (tx coinbase) = true
          ∧ vin0_scriptSig (tx coinbase) = [PushInt (bi_nHeight tip + 1); OP_0].
Proof.
  eexists. split; [vm_compute; reflexivity |].
  apply (CreateNewBlock_header K0 N0 args0 pool_ABC assembler0 [Opcode 5]
           false false false).
  vm_compute. reflexivity.
Defined.

(** ** What is handed to [mempool.removeRecursive] *)

Lemma check_hashes_nil_false inChain seen : (check_hashes inChain [] seen).2 = false.
Proof. reflexivity. Qed.

(** Only a zerocoin spend that carries a serial, or a mint that carries a
    pubcoin, can be marked in its turn. *)
Lemma marks_duplicate_privacy N height sc X :
  marks_duplicate N height sc X = true →
  (IsZerocoinSpend (tx X) = true ∧ SerialHashes (tx X) ≠ [])
  ∨ (IsZerocoinMint (tx X) = true ∧ PubcoinHashes (tx X) ≠ []).
Proof.
  unfold marks_duplicate, setTxSerialHashes, setTxPubcoinHashes. intros H.
  apply orb_true_iff in H as [H|H]; [left | right].
  - destruct (IsZerocoinSpend (tx X)); [|rewrite in_order_empty in H; discriminate].
    split; [reflexivity |]. intros Hnil. rewrite Hnil in H. simpl in H.
    rewrite in_order_empty in H. discriminate.
  - destruct (IsZerocoinMint (tx X)); [|rewrite in_order_empty in H; discriminate].
    split; [reflexivity |]. intros Hnil. rewrite Hnil in H. simpl in H.
    rewrite in_order_empty in H. discriminate.
Qed.

(** A hash in [setDuplicate] was put there in the turn of a transaction. *)
Lemma screen_duplicate_turn N height sc l h :
  h ∈ setDuplicate (foldl (screen_ref N height) sc l) →
  h ∈ setDuplicate sc
  ∨ ∃ l1 X l2, l = l1 ++ Some X :: l2 ∧ GetHash X = h
               ∧ marks_duplicate N height (foldl (screen_ref N height) sc l1) X = true.
Proof.
  induction l as [|r l IH] using rev_ind; simpl; [auto |].
  rewrite foldl_app. simpl. intros H.
  destruct r as [X|]; simpl in H.
  - destruct (marks_duplicate N height (foldl (screen_ref N height) sc l) X) eqn:Hm.
    + destruct (screen_tx_marked N height _ X Hm) as [Hd _]. rewrite Hd in H.
      apply elem_of_union in H as [H|H].
      * apply elem_of_singleton in H. right. exists l, X, []. auto.
      * apply IH in H as [H|(l1 & Y & l2 & -> & Hh & HY)]; [auto |].
        right. exists l1, Y, (l2 ++ [Some X]). rewrite <- app_assoc. auto.
    + destruct (screen_tx_unmarked N height _ X Hm) as [Hd _]. rewrite Hd in H.
      apply IH in H as [H|(l1 & Y & l2 & -> & Hh & HY)]; [auto |].
      right. exists l1, Y, (l2 ++ [Some X]). rewrite <- app_assoc. auto.
  - apply IH in H as [H|(l1 & Y & l2 & -> & Hh & HY)]; [auto |].
    right. exists l1, Y, (l2 ++ [None]). rewrite <- app_assoc. auto.
Qed.

Lemma elem_of_removed_recursively dup l T :
  T ∈ removed_recursively dup l ↔ Some T ∈ l ∧ GetHash T ∈ dup.
Proof.
  unfold removed_recursively. rewrite list_elem_of_omap. split.
  - intros ([X|] & Hin & H); [|discriminate].
    destruct (decide (GetHash X ∈ dup)); [|discriminate]. inversion H; subst. auto.
  - intros [Hin Hd]. exists (Some T). split; [exact Hin |].
    destruct (decide (GetHash T ∈ dup)); [reflexivity | contradiction].
Qed.

Lemma NoDup_fmap_eq {A B} (f : A → B) (l : list A) x y :
  NoDup (f <$> l) → x ∈ l → y ∈ l → f x = f y → x = y.
Proof.
  intros Hnd Hx Hy Hf.
  apply list_elem_of_lookup in Hx as [i Hi]. apply list_elem_of_lookup in Hy as [j Hj].
  assert (Hfi : (f <$> l) !! i = Some (f x)) by (rewrite list_lookup_fmap, Hi; reflexivity).
  assert (Hfj : (f <$> l) !! j = Some (f x)) by (rewrite list_lookup_fmap, Hj, Hf; reflexivity).
  assert (Hij := NoDup_lookup _ _ _ _ Hnd Hfi Hfj). subst j. congruence.
Qed.

(** X13: on a consistent mempool, every transaction that [CreateNewBlock]
    hands to [mempool.removeRecursive] was selected for the block and is a
    zerocoin spend carrying a serial or a zerocoin mint carrying a pubcoin: an
    ordinary transaction is never an argument of [removeRecursive].  (What
    [removeRecursive] takes out of the mempool besides its argument, the
    descendants, is txmempool.cpp's and not stated here.) *)
Theorem CreateNewBlock_evicts_only_privacy (K : Constants) (N : Node) (args : gArgs)
    (pool : gmap Z CTxMemPoolEntry) (a0 : BlockAssembler) (scriptPubKeyIn : list ScriptItem)
    (fMineWitnessTx fPoS fProofOfFullNode : bool) (T : CTransaction) :
  mempool_consistent pool →
  T ∈ removeRecursive_calls
        (CreateNewBlock K N args pool a0 scriptPubKeyIn fMineWitnessTx fPoS
           fProofOfFullNode) →
  Some T ∈ selected_vtx K N pool a0 fPoS
  ∧ ((IsZerocoinSpend (tx T) = true ∧ SerialHashes (tx T) ≠ [])
     ∨ (IsZerocoinMint (tx T) = true ∧ PubcoinHashes (tx T) ≠ [])).
Proof.
  intros Hc HT.
  assert (Hcalls :
    T ∈ removed_recursively (setDuplicate (screening_of K N pool a0 fPoS))
          (selected_vtx K N pool a0 fPoS)).
  { revert HT. unfold CreateNewBlock, screening_of, selected_vtx, selection_of.
    destruct (fPoS && negb (GetMainWallet N)); [intros H; inversion H |].
    destruct (stake_stage K N fPoS) as [[[txCoinStake nTimeStake] nBits0]|];
      [|intros H; inversion H].
    destruct (negb (mempool_TRY_LOCK N)); [intros H; inversion H |].
    destruct (addPackageTxs _ _ _ _ _) as [s| |] eqn:Hrun;
      try (intros H; inversion H; fail).
    cbn [removeRecursive_calls from_option].
    rewrite (addPackageTxs_loop_nHeight _ _ _ _ _ _ Hrun). auto. }
  apply elem_of_removed_recursively in Hcalls as [Hin Hdup].
  split; [exact Hin |].
  unfold screening_of, screen_block in Hdup.
  apply screen_duplicate_turn in Hdup as [Hdup|(l1 & X & l2 & Hl & Hh & Hm)];
    [simpl in Hdup; set_solver |].
  assert (HX : X = T).
  { apply (NoDup_fmap_eq GetHash (omap id (selected_vtx K N pool a0 fPoS)));
      [apply selected_hashes_NoDup, Hc | | | exact Hh].
    - apply list_elem_of_omap. exists (Some X). split; [|reflexivity].
      rewrite Hl. apply elem_of_app. right. apply elem_of_cons. auto.
    - apply list_elem_of_omap. exists (Some T). split; [exact Hin | reflexivity]. }
  subst X. apply (marks_duplicate_privacy _ _ _ _ Hm).
Qed.

Lemma CreateNewBlock_evicts_only_privacy_witness :
  tx_mint_600
    ∈ removeRecursive_calls
        (CreateNewBlock K0 N_pubcoin_600 args0 pool_mint_child assembler0 [Opcode 5]
           false false false)
  ∧ Some tx_mint_600 ∈ selected_vtx K0 N_pubcoin_600 pool_mint_child assembler0 false
  ∧ ((IsZerocoinSpend (tx tx_mint_600) = true ∧ SerialHashes (tx tx_mint_600) ≠ [])
     ∨ (IsZerocoinMint (tx tx_mint_600) = true ∧ PubcoinHashes (tx tx_mint_600) ≠ [])).
Proof.
  assert (Hcall : tx_mint_600
            ∈ removeRecursive_calls
                (CreateNewBlock K0 N_pubcoin_600 args0 pool_mint_child assembler0
                   [Opcode 5] false false false)).
  { replace (removeRecursive_calls
               (CreateNewBlock K0 N_pubcoin_600 args0 pool_mint_child assembler0
                  [Opcode 5] false false false))
      with [tx_mint_600] by (vm_compute; reflexivity).
    apply elem_of_cons. left. reflexivity. }
  split; [exact Hcall |].
  apply (CreateNewBlock_evicts_only_privacy K0 N_pubcoin_600 args0 pool_mint_child
           assembler0 [Opcode 5] false false false).
  - apply (bool_decide_unpack _). vm_compute. reflexivity.
  - exact Hcall.
Defined.

(** * Further properties of the miner *)

(** ** IncrementExtraNonce *)

(** X14: a call of [IncrementExtraNonce] that returns replaces the coinbase
    by a copy whose [scriptSig] is the height, the new extra nonce and
    [COINBASE_FLAGS], at most 100 bytes long, and recomputes the two merkle
    roots over the new transaction list; the outputs of the coinbase, the
    other transactions and every other header field, [hashVeilData] among
    them, are left as they were. *)
Theorem IncrementExtraNonce_frame (N : Node) (hashPrev : Z) (pblock : CBlock)
    (pindexPrev : CBlockIndex) (nExtraNonce : Z) (h' : Z) (b' : CBlock) (n' : Z) :
  IncrementExtraNonce N hashPrev pblock pindexPrev nExtraNonce = Some (h', b', n') →
  ∃ cb cb',
    block_vtx pblock !! 0%nat = Some (Some cb)
    ∧ block_vtx b' = <[ 0%nat := Some cb' ]> (block_vtx pblock)
    ∧ vin0_scriptSig (tx cb')
      = [PushInt (u32 (bi_nHeight pindexPrev + 1)); PushScriptNum n'] ++ COINBASE_FLAGS N
    ∧ CScript_size N (vin0_scriptSig (tx cb')) ≤ 100
    ∧ vpout (tx cb') = vpout (tx cb)
    ∧ vin0_prevout_IsNull (tx cb') = vin0_prevout_IsNull (tx cb)
    ∧ GetHash cb' = ComputeHash N (tx cb')
    ∧ hashMerkleRoot b' = BlockMerkleRoot N (block_vtx b')
    ∧ hashWitnessMerkleRoot b' = BlockWitnessMerkleRoot N (block_vtx b')
    ∧ h' = hashPrevBlock pblock
    ∧ n' = u32 ((if bool_decide (hashPrev = hashPrevBlock pblock)
                 then nExtraNonce else 0) + 1)
    ∧ (nVersion b', hashPrevBlock b', nTime b', nBits b', nNonce b')
      = (nVersion pblock, hashPrevBlock pblock, nTime pblock, nBits pblock, nNonce pblock)
    ∧ (mapAccumulatorHashes b', hashVeilData b', hashPoFN b', fProofOfStake b',
       vchBlockSig b')
      = (mapAccumulatorHashes pblock, hashVeilData pblock, hashPoFN pblock,
         fProofOfStake pblock, vchBlockSig pblock).
Proof.
  unfold IncrementExtraNonce. cbv zeta.
  destruct (block_vtx pblock !! 0%nat) as [[cb|]|] eqn:H0; try discriminate.
  match goal with |- context [100 <? ?x] => destruct (Z.ltb_spec 100 x) as [Hbig|Hsize] end;
    [discriminate |].
  intros H; inversion H; subst; clear H.
  eexists cb, _. split; [reflexivity |]. split; [reflexivity |]. simpl.
  repeat split; try reflexivity; try exact Hsize.
  - destruct (decide (hashPrev = hashPrevBlock pblock)) as [->|Hne].
    + rewrite bool_decide_eq_false_2 by auto. reflexivity.
    + rewrite bool_decide_eq_true_2 by auto. reflexivity.
  - destruct (decide (hashPrev = hashPrevBlock pblock)) as [Heq|Hne].
    + rewrite bool_decide_eq_false_2, bool_decide_eq_true_2 by auto. reflexivity.
    + rewrite bool_decide_eq_true_2, bool_decide_eq_false_2 by auto. reflexivity.
Qed.

Lemma IncrementExtraNonce_frame_witness :
  ∃ h' b' n',
    IncrementExtraNonce N0 1111 block_7777 tip0 5 = Some (h', b', n')
    ∧ ∃ cb cb',
        block_vtx block_7777 !! 0%nat = Some (Some cb)
        ∧ block_vtx b' = <[ 0%nat := Some cb' ]> (block_vtx block_7777)
        ∧ vin0_scriptSig (tx cb')
          = [PushInt (u32 (bi_nHeight tip0 + 1)); PushScriptNum n'] ++ COINBASE_FLAGS N0
        ∧ CScript_size N0 (vin0_scriptSig (tx cb')) ≤ 100
        ∧ vpout (tx cb') = vpout (tx cb)
        ∧ vin0_prevout_IsNull (tx cb') = vin0_prevout_IsNull (tx cb)
        ∧ GetHash cb' = ComputeHash N0 (tx cb')
        ∧ hashMerkleRoot b' = BlockMerkleRoot N0 (block_vtx b')
        ∧ hashWitnessMerkleRoot b' = BlockWitnessMerkleRoot N0 (block_vtx b')
        ∧ h' = hashPrevBlock block_7777
        ∧ n' = u32 ((if bool_decide (1111 = hashPrevBlock block_7777) then 5 else 0) + 1)
        ∧ (nVersion b', hashPrevBlock b', nTime b', nBits b', nNonce b')
          = (nVersion block_7777, hashPrevBlock block_7777, nTime block_7777,
             nBits block_7777, nNonce block_7777)
        ∧ (mapAccumulatorHashes b', hashVeilData b', hashPoFN b', fProofOfStake b',
           vchBlockSig b')
          = (mapAccumulatorHashes block_7777, hashVeilData block_7777,
             hashPoFN block_7777, fProofOfStake block_7777, vchBlockSig block_7777).
Proof.
  eexists _, _, _. split; [vm_compute; reflexivity |].
  apply (IncrementExtraNonce_frame N0 1111 block_7777 tip0 5).
  vm_compute. reflexivity.
Defined.

(** X15: [IncrementExtraNonce] overwrites the coinbase's [scriptSig], it
    does not extend it: called again on the block it returned, it gives what a
    single call with that extra nonce gives on the original block. *)
Theorem IncrementExtraNonce_again (N : Node) (hashPrev : Z) (pblock : CBlock)
    (pindexPrev : CBlockIndex) (nExtraNonce : Z) (h1 : Z) (b1 : CBlock) (n1 : Z) :
  IncrementExtraNonce N hashPrev pblock pindexPrev nExtraNonce = Some (h1, b1, n1) →
  IncrementExtraNonce N h1 b1 pindexPrev n1
  = IncrementExtraNonce N (hashPrevBlock pblock) pblock pindexPrev n1.
Proof.
  unfold IncrementExtraNonce at 1. cbv zeta.
  destruct (block_vtx pblock !! 0%nat) as [[cb|]|] eqn:H0; try discriminate.
  match goal with |- context [100 <? ?x] => destruct (100 <? x); [discriminate |] end.
  intros H; inversion H; subst h1 b1; clear H.
  assert (Hlen : (0 < length (block_vtx pblock))%nat) by (apply lookup_lt_Some in H0; lia).
  assert (Hh : (if bool_decide (hashPrev ≠ hashPrevBlock pblock)
                then hashPrevBlock pblock else hashPrev) = hashPrevBlock pblock).
  { destruct (decide (hashPrev = hashPrevBlock pblock)) as [->|Hne].
    - destruct (bool_decide _); reflexivity.
    - rewrite bool_decide_eq_true_2 by auto. reflexivity. }
  unfold IncrementExtraNonce. cbn [block_vtx hashPrevBlock]. rewrite Hh.
  rewrite (bool_decide_eq_false_2 (hashPrevBlock pblock ≠ hashPrevBlock pblock)) by auto.
  rewrite list_lookup_insert_eq by exact Hlen. rewrite H0. cbn.
  rewrite list_insert_insert_eq. reflexivity.
Qed.

Lemma IncrementExtraNonce_again_witness :
  ∃ h1 b1 n1,
    IncrementExtraNonce N0 1111 block_7777 tip0 5 = Some (h1, b1, n1)
    ∧ IncrementExtraNonce N0 h1 b1 tip0 n1
      = IncrementExtraNonce N0 (hashPrevBlock block_7777) block_7777 tip0 n1.
Proof.
  eexists _, _, _. split; [vm_compute; reflexivity |].
  apply (IncrementExtraNonce_again N0 1111 block_7777 tip0 5).
  vm_compute. reflexivity.
Defined.

(** ** The nonce search *)

Lemma set_nNonce_set_nNonce b n m : set_nNonce (set_nNonce b n) m = set_nNonce b m.
Proof. reflexivity. Qed.

Lemma set_nNonce_same b : set_nNonce b (nNonce b) = b.
Proof. destruct b. reflexivity. Qed.

Lemma nonce_search_spec check B remaining k :
  0 ≤ k → k + Z.of_nat remaining < 2 ^ 32 →
  let r := nonce_search check remaining k (set_nNonce B k) in
  k ≤ r.1 ≤ k + Z.of_nat remaining
  ∧ r.2 = set_nNonce B r.1
  ∧ (∀ m, k ≤ m < r.1 → check (set_nNonce B m) = false)
  ∧ (r.1 < k + Z.of_nat remaining → check r.2 = true).
Proof.
  revert k. induction remaining as [|remaining IH]; intros k Hk Hbound; simpl.
  - split; [lia |]. split; [reflexivity |]. split; intros; lia.
  - destruct (check (set_nNonce B k)) eqn:Hcheck; simpl.
    + split; [lia |]. split; [reflexivity |]. split; [intros; lia | auto].
    + rewrite (u32_small (k + 1)) by lia.
      change (set_nNonce (set_nNonce B k) (k + 1)) with (set_nNonce B (k + 1)).
      destruct (IH (k + 1)) as (H1 & H2 & H3 & H4); [lia | lia |].
      split; [lia |]. split; [exact H2 |]. split.
      * intros m Hm. destruct (decide (m = k)) as [->|Hne]; [exact Hcheck |].
        apply H3. lia.
      * intros Hlt. apply H4. lia.
Qed.

(** X16: the nonce search starts at nonce 0 and tries the nonces in
    ascending order.  The block that goes on to [ProcessNewBlock] carries the
    least nonce below 0x10000 that passes the proof-of-work check; when no
    nonce below 0x10000 passes, the round is abandoned. *)
Theorem search_block_least_nonce (CheckProofOfWork : CBlock → bool) (pblock : CBlock) :
  nNonce pblock = 0 →
  match search_block CheckProofOfWork pblock with
  | Some b =>
      ∃ n, 0 ≤ n < nInnerLoopCount
           ∧ b = set_nNonce pblock n
           ∧ CheckProofOfWork b = true
           ∧ ∀ m, 0 ≤ m < n → CheckProofOfWork (set_nNonce pblock m) = false
  | None =>
      ∀ m, 0 ≤ m < nInnerLoopCount → CheckProofOfWork (set_nNonce pblock m) = false
  end.
Proof.
  intros Hnonce. unfold search_block.
  assert (Hspec := nonce_search_spec CheckProofOfWork pblock (Z.to_nat nInnerLoopCount) 0).
  rewrite <- Hnonce, set_nNonce_same, Hnonce in Hspec.
  rewrite Z2Nat.id in Hspec by (unfold nInnerLoopCount; lia).
  destruct Hspec as (H1 & H2 & H3 & H4); [lia | unfold nInnerLoopCount; lia |].
  destruct (Z.eqb_spec (nonce_search CheckProofOfWork (Z.to_nat nInnerLoopCount) 0 pblock).1
              nInnerLoopCount) as [Heq|Hne].
  - intros m Hm. apply H3. lia.
  - eexists. split; [|split; [exact H2 | split; [apply H4; lia | exact H3]]]. lia.
Qed.

Lemma search_block_least_nonce_witness :
  match search_block (λ b, nNonce b =? 3) block_7777 with
  | Some b =>
      ∃ n, 0 ≤ n < nInnerLoopCount
           ∧ b = set_nNonce block_7777 n
           ∧ (nNonce b =? 3) = true
           ∧ ∀ m, 0 ≤ m < n → (nNonce (set_nNonce block_7777 m) =? 3) = false
  | None =>
      ∀ m, 0 ≤ m < nInnerLoopCount → (nNonce (set_nNonce block_7777 m) =? 3) = false
  end.
Proof.
  apply (search_block_least_nonce (λ b, nNonce b =? 3) block_7777). reflexivity.
Defined.

(** ** A round of the staking loop *)

Lemma stake_wait_mintable K W g g' sleeps :
  stake_wait K W g = (g', sleeps, false) → fMintableCoins g' = true.
Proof.
  unfold stake_wait, stake_wait_condition.
  destruct (fMintableCoins g) eqn:Hm; simpl.
  - destruct (_ || _); intros H; inversion H; subst; exact Hm.
  - rewrite orb_true_r. simpl.
    destruct (1 * 60 <? GetTime W - nMintableLastCheck g); simpl.
    + destruct (MintableCoins W) eqn:Hw; intros H; inversion H; subst. reflexivity.
    + rewrite Hm. intros H; inversion H.
Qed.

(** X17: a round of the staking loop goes on to [CreateNewBlock] only when
    the node is out of initial block download, the best header is at most an
    hour ahead of the tip unless [-genoverride] is set, a wallet is loaded,
    there is a connection, staking is enabled, the chain has reached
    [HeightPoSStart], [fMintableCoins] is set, and the best block, if it was
    hashed before, was hashed at least [60 + GetRandInt(20)] seconds before
    the adjusted time plus [MAX_FUTURE_BLOCK_TIME]. *)
Theorem stake_round_builds_only_when (K : Constants) (W : StakeRound)
    (g g' : StakeGlobals) (events : list MinerEvent) :
  stake_round K W g = (g', events, BuildTemplate) →
  IsInitialBlockDownload W = false
  ∧ (genoverride W = true ∨ nTimeBestHeader W - nTimeLastBlock W ≤ 60 * 60)
  ∧ pwallet W = true
  ∧ GetNodeCount W ≠ 0
  ∧ IsStakingEnabled W = true
  ∧ HeightPoSStart K ≤ chainActive_Height W
  ∧ fMintableCoins g' = true
  ∧ (∀ lastHashed, mapHashedBlocks W !! hashBestBlock W = Some lastHashed →
       60 + GetRandInt20 W
       ≤ round_GetAdjustedTime W + MAX_FUTURE_BLOCK_TIME W - lastHashed).
Proof.
  unfold stake_round.
  destruct (IsInitialBlockDownload W); [rewrite orb_true_r; discriminate |].
  rewrite orb_false_r.
  destruct (genoverride W) eqn:Hgen; simpl negb; cbn [andb].
  - destruct (pwallet W); simpl; [|discriminate].
    destruct (Z.eqb_spec (GetNodeCount W) 0) as [|Hcount]; simpl; [discriminate |].
    destruct (IsStakingEnabled W); simpl; [|discriminate].
    destruct (Z.ltb_spec (chainActive_Height W) (HeightPoSStart K)) as [|Hheight];
      [discriminate |].
    destruct (stake_wait K W _) as [[g2 sleeps] fNextIter] eqn:Hwait.
    destruct fNextIter; [discriminate |].
    apply stake_wait_mintable in Hwait.
    destruct (mapHashedBlocks W !! hashBestBlock W) as [lastHashed|] eqn:Hhashed.
    + destruct (Z.ltb_spec (round_GetAdjustedTime W + MAX_FUTURE_BLOCK_TIME W - lastHashed)
                  (60 + GetRandInt20 W)) as [|Hlate]; [discriminate |].
      intros H; inversion H; subst; clear H.
      repeat split; auto.
      * destruct (mapStakeHashCounter W !! chainActive_Height W) as [n|]; [|exact Hwait].
        destruct (decide (n ≠ nStakeHashesLast g2)); exact Hwait.
      * intros l Hl. inversion Hl; subst. exact Hlate.
    + intros H; inversion H; subst; clear H. repeat split; auto. intros l Hl. discriminate.
  - destruct (Z.ltb_spec (60 * 60) (nTimeBestHeader W - nTimeLastBlock W)) as [|Hhead];
      [discriminate |].
    destruct (pwallet W); simpl; [|discriminate].
    destruct (Z.eqb_spec (GetNodeCount W) 0) as [|Hcount]; simpl; [discriminate |].
    destruct (IsStakingEnabled W); simpl; [|discriminate].
    destruct (Z.ltb_spec (chainActive_Height W) (HeightPoSStart K)) as [|Hheight];
      [discriminate |].
    destruct (stake_wait K W _) as [[g2 sleeps] fNextIter] eqn:Hwait.
    destruct fNextIter; [discriminate |].
    apply stake_wait_mintable in Hwait.
    destruct (mapHashedBlocks W !! hashBestBlock W) as [lastHashed|] eqn:Hhashed.
    + destruct (Z.ltb_spec (round_GetAdjustedTime W + MAX_FUTURE_BLOCK_TIME W - lastHashed)
                  (60 + GetRandInt20 W)) as [|Hlate]; [discriminate |].
      intros H; inversion H; subst; clear H.
      repeat split; auto.
      * destruct (mapStakeHashCounter W !! chainActive_Height W) as [n|]; [|exact Hwait].
        destruct (decide (n ≠ nStakeHashesLast g2)); exact Hwait.
      * intros l Hl. inversion Hl; subst. exact Hlate.
    + intros H; inversion H; subst; clear H. repeat split; auto. intros l Hl. discriminate.
Qed.

Lemma stake_round_builds_only_when_witness :
  ∃ g' events,
    stake_round K0 round_locked globals_mintable = (g', events, BuildTemplate)
    ∧ IsInitialBlockDownload round_locked = false
    ∧ (genoverride round_locked = true
       ∨ nTimeBestHeader round_locked - nTimeLastBlock round_locked ≤ 60 * 60)
    ∧ pwallet round_locked = true
    ∧ GetNodeCount round_locked ≠ 0
    ∧ IsStakingEnabled round_locked = true
    ∧ HeightPoSStart K0 ≤ chainActive_Height round_locked
    ∧ fMintableCoins g' = true
    ∧ (∀ lastHashed,
         mapHashedBlocks round_locked !! hashBestBlock round_locked = Some lastHashed →
         60 + GetRandInt20 round_locked
         ≤ round_GetAdjustedTime round_locked + MAX_FUTURE_BLOCK_TIME round_locked
           - lastHashed).
Proof.
  eexists _, _. split; [vm_compute; reflexivity |].
  eapply (stake_round_builds_only_when K0 round_locked globals_mintable).
  vm_compute. reflexivity.
Defined.



(** ** UpdateTime *)

(** X19: for times that fit the 32-bit [nTime], [UpdateTime] sets the block
    time to the largest of the old time, one past the median time past of the
    previous block and the adjusted time, so it never moves the time back;
    applied again to its own result it changes nothing; and it leaves [nBits]
    alone unless the chain allows minimum-difficulty blocks. *)
Theorem UpdateTime_max_idempotent (K : Constants) (N : Node) (pindexPrev : CBlockIndex)
    (fPoS : bool) (nTime nBits : Z) :
  0 ≤ nTime < 2 ^ 32 →
  0 ≤ Z.max (GetMedianTimePast pindexPrev + 1) (GetAdjustedTime N) < 2 ^ 32 →
  let r := UpdateTime K N pindexPrev fPoS nTime nBits in
  r.1 = Z.max nTime (Z.max (GetMedianTimePast pindexPrev + 1) (GetAdjustedTime N))
  ∧ UpdateTime K N pindexPrev fPoS r.1 r.2 = r
  ∧ (fPowAllowMinDifficultyBlocks K = false → r.2 = nBits).
Proof.
  intros Ht Hnew. unfold UpdateTime. cbv zeta. cbn [fst snd].
  set (nNewTime := Z.max (GetMedianTimePast pindexPrev + 1) (GetAdjustedTime N)) in *.
  destruct (Z.ltb_spec nTime nNewTime) as [Hlt|Hge].
  - rewrite (u32_small nNewTime) by exact Hnew.
    rewrite Z.ltb_irrefl. split; [lia |].
    split; [destruct (fPowAllowMinDifficultyBlocks K); reflexivity |].
    intros ->. reflexivity.
  - destruct (Z.ltb_spec nTime nNewTime) as [Hlt|_]; [lia |]. split; [lia |].
    split; [destruct (fPowAllowMinDifficultyBlocks K); reflexivity |].
    intros ->. reflexivity.
Qed.

Lemma UpdateTime_max_idempotent_witness :
  let r := UpdateTime K0 N0 tip0 false 1000 486604799 in
  r.1 = Z.max 1000 (Z.max (GetMedianTimePast tip0 + 1) (GetAdjustedTime N0))
  ∧ UpdateTime K0 N0 tip0 false r.1 r.2 = r
  ∧ (fPowAllowMinDifficultyBlocks K0 = false → r.2 = 486604799).
Proof.
  apply (UpdateTime_max_idempotent K0 N0 tip0 false 1000 486604799).
  - vm_compute. split; [discriminate | reflexivity].
  - vm_compute. split; [discriminate | reflexivity].
Defined.

(** * The overlay of modified entries *)

Section Overlay.
Context (pool : gmap Z CTxMemPoolEntry) (added : gset Z).

Lemma UpdatePackagesForAdded_desc_lookup it acc desc k :
  (UpdatePackagesForAdded_desc pool added it acc desc).2 !! k
  = if decide (k = desc ∧ desc ∉ added)
    then Some (update_for_parent_inclusion pool it
                 (default (CTxMemPoolModifiedEntry_new pool k) (acc.2 !! k)))
    else acc.2 !! k.
Proof.
  unfold UpdatePackagesForAdded_desc.
  destruct (decide (desc ∈ added)) as [Hin|Hout].
  - destruct (decide (k = desc ∧ desc ∉ added)) as [[_ H]|_]; [contradiction | reflexivity].
  - destruct (decide (k = desc ∧ desc ∉ added)) as [[-> _]|Hne].
    + destruct (acc.2 !! desc) as [mit|] eqn:Hmit; simpl; rewrite lookup_insert_eq;
        reflexivity.
    + assert (k ≠ desc) by (intros ->; apply Hne; auto).
      destruct (acc.2 !! desc) as [mit|] eqn:Hmit; simpl;
        rewrite lookup_insert_ne by congruence; reflexivity.
Qed.

Lemma UpdatePackagesForAdded_desc_count it acc desc :
  (UpdatePackagesForAdded_desc pool added it acc desc).1
  = acc.1 + (if decide (desc ∉ added) then 1 else 0).
Proof.
  unfold UpdatePackagesForAdded_desc.
  destruct (decide (desc ∈ added)) as [Hin|Hout].
  - destruct (decide (desc ∉ added)); [contradiction | lia].
  - destruct (decide (desc ∉ added)); [|contradiction].
    destruct (acc.2 !! desc); reflexivity.
Qed.

(** The inner loop, over the descendants [l] of [it]. *)
Lemma inner_loop_lookup it l acc k :
  NoDup l →
  (foldl (UpdatePackagesForAdded_desc pool added it) acc l).2 !! k
  = if decide (k ∈ l ∧ k ∉ added)
    then Some (update_for_parent_inclusion pool it
                 (default (CTxMemPoolModifiedEntry_new pool k) (acc.2 !! k)))
    else acc.2 !! k.
Proof.
  revert acc. induction l as [|x l IH]; intros acc Hnd; simpl.
  - destruct (decide (k ∈ [] ∧ k ∉ added)) as [[H _]|_]; [inversion H | reflexivity].
  - apply NoDup_cons in Hnd as [Hx Hnd]. rewrite (IH _ Hnd).
    rewrite UpdatePackagesForAdded_desc_lookup.
    destruct (decide (k = x ∧ x ∉ added)) as [[-> Hout]|Hne].
    + destruct (decide (x ∈ l ∧ x ∉ added)) as [[H _]|_]; [contradiction |].
      destruct (decide (x ∈ x :: l ∧ x ∉ added)) as [_|H]; [reflexivity |].
      exfalso. apply H. split; [apply elem_of_cons; auto | exact Hout].
    + destruct (decide (k ∈ l ∧ k ∉ added)) as [[Hin Hout]|H1].
      * destruct (decide (k ∈ x :: l ∧ k ∉ added)) as [_|H]; [reflexivity |].
        exfalso. apply H. split; [apply elem_of_cons; auto | exact Hout].
      * destruct (decide (k ∈ x :: l ∧ k ∉ added)) as [[Hin Hout]|_]; [|reflexivity].
        exfalso. apply elem_of_cons in Hin as [->|Hin].
        -- apply Hne. auto.
        -- apply H1. auto.
Qed.

Lemma inner_loop_count it l acc :
  (foldl (UpdatePackagesForAdded_desc pool added it) acc l).1
  = acc.1 + Z.of_nat (length (filter (λ k, k ∉ added) l)).
Proof.
  revert acc. induction l as [|x l IH]; intros acc; simpl; [lia |].
  rewrite IH, UpdatePackagesForAdded_desc_count, filter_cons.
  destruct (decide (x ∉ added)); simpl; lia.
Qed.

Lemma updated_entry_cons m k it through :
  updated_entry pool m k (it :: through)
  = updated_entry pool
      (<[ k := update_for_parent_inclusion pool it
                 (default (CTxMemPoolModifiedEntry_new pool k) (m !! k)) ]> m)
      k through.
Proof.
  unfold updated_entry. rewrite lookup_insert_eq. destruct through; reflexivity.
Qed.

(** The outer loop, over the entries [L]. *)
Lemma outer_loop L acc k :
  let r :=
    foldl (λ acc it,
             foldl (UpdatePackagesForAdded_desc pool added it) acc
               (in_order (CalculateDescendants pool it))) acc L in
  r.2 !! k
  = (if decide (k ∈ added) then acc.2 !! k
     else updated_entry pool acc.2 k
            (filter (λ it, k ∈ CalculateDescendants pool it) L))
  ∧ r.1
    = acc.1
      + sum_Z ((λ it, Z.of_nat (length (filter (λ d, d ∉ added)
                                          (in_order (CalculateDescendants pool it)))))
                 <$> L).
Proof.
  revert acc. induction L as [|it L IH]; intros acc.
  - simpl. split; [|lia]. destruct (decide (k ∈ added)); reflexivity.
  - cbn [foldl]. rewrite fmap_cons.
    destruct (IH (foldl (UpdatePackagesForAdded_desc pool added it) acc
                    (in_order (CalculateDescendants pool it)))) as [IH2 IH1].
    cbv zeta in IH2, IH1. cbv zeta. rewrite IH2, IH1, inner_loop_count.
    split; [|change (sum_Z (?x :: ?l)) with (x + sum_Z l); lia].
    destruct (decide (k ∈ added)) as [Hin|Hout].
    + rewrite inner_loop_lookup by apply NoDup_in_order.
      destruct (decide (_ ∧ k ∉ added)) as [[_ H]|_]; [contradiction | reflexivity].
    + rewrite filter_cons.
      destruct (decide (k ∈ CalculateDescendants pool it)) as [Hd|Hd].
      * rewrite updated_entry_cons. unfold updated_entry.
        rewrite !inner_loop_lookup by apply NoDup_in_order.
        rewrite lookup_insert_eq.
        destruct (decide (k ∈ in_order (CalculateDescendants pool it) ∧ k ∉ added))
          as [_|H]; [reflexivity |].
        exfalso. apply H. split; [apply elem_of_in_order, Hd | exact Hout].
      * unfold updated_entry. rewrite !inner_loop_lookup by apply NoDup_in_order.
        destruct (decide (k ∈ in_order (CalculateDescendants pool it) ∧ k ∉ added))
          as [[H _]|_]; [|reflexivity].
        exfalso. apply Hd, elem_of_in_order, H.
Qed.

Lemma sum_Z_cons x l : sum_Z (x :: l) = x + sum_Z l.
Proof. reflexivity. Qed.

Lemma foldl_update_for_parent_inclusion base through :
  let e := foldl (λ e it, update_for_parent_inclusion pool it e) base through in
  iter e = iter base
  ∧ nModFeesWithAncestors e
    = nModFeesWithAncestors base
      - sum_Z ((λ it, GetModifiedFee (pool !!! it)) <$> through)
  ∧ nSigOpCostWithAncestors e
    = nSigOpCostWithAncestors base
      - sum_Z ((λ it, GetSigOpCost (pool !!! it)) <$> through)
  ∧ u64 (nSizeWithAncestors e)
    = u64 (nSizeWithAncestors base - sum_Z ((λ it, GetTxSize (pool !!! it)) <$> through)).
Proof.
  revert base. induction through as [|it through IH]; intros base.
  - simpl. rewrite !Z.sub_0_r. auto.
  - cbn [foldl]. rewrite !fmap_cons, !sum_Z_cons.
    destruct (IH (update_for_parent_inclusion pool it base)) as (H1 & H2 & H3 & H4).
    cbv zeta in *. rewrite H1, H2, H3, H4. cbn [update_for_parent_inclusion iter
      nModFeesWithAncestors nSigOpCostWithAncestors nSizeWithAncestors].
    split; [reflexivity |]. split; [lia |]. split; [lia |].
    unfold u64. rewrite Zminus_mod_idemp_l. f_equal. lia.
Qed.

End Overlay.

(** X20: [UpdatePackagesForAdded] leaves alone the overlay entries of the
    added transactions and of the transactions that descend from none of them.
    Every other transaction gets or keeps an entry whose fees and sigop cost
    are those it had before (in the overlay, else in the mempool's ancestor
    state) less the modified fee and the sigop cost of each added transaction
    it descends from, and whose size is so modulo 2^64.  The number returned
    counts each pair of an added transaction and a descendant outside the
    added set. *)
Theorem UpdatePackagesForAdded_entries (pool : gmap Z CTxMemPoolEntry) (added : gset Z)
    (m : gmap Z CTxMemPoolModifiedEntry) (d : Z) :
  let r := UpdatePackagesForAdded pool added m in
  let through := added_ancestors pool added d in
  let base := default (CTxMemPoolModifiedEntry_new pool d) (m !! d) in
  r.1 = sum_Z ((λ it, Z.of_nat (length (filter (λ k, k ∉ added)
                                          (in_order (CalculateDescendants pool it)))))
                 <$> in_order added)
  ∧ (d ∈ added ∨ through = [] → r.2 !! d = m !! d)
  ∧ ((d ∉ added) ∧ through ≠ [] →
     ∃ e, r.2 !! d = Some e
          ∧ iter e = iter base
          ∧ nModFeesWithAncestors e
            = nModFeesWithAncestors base
              - sum_Z ((λ it, GetModifiedFee (pool !!! it)) <$> through)
          ∧ nSigOpCostWithAncestors e
            = nSigOpCostWithAncestors base
              - sum_Z ((λ it, GetSigOpCost (pool !!! it)) <$> through)
          ∧ u64 (nSizeWithAncestors e)
            = u64 (nSizeWithAncestors base
                   - sum_Z ((λ it, GetTxSize (pool !!! it)) <$> through))).
Proof.
  intros r through base. unfold r, UpdatePackagesForAdded.
  destruct (outer_loop pool added (in_order added) (0, m) d) as [Hl Hc].
  simpl in Hl, Hc. rewrite Hl, Hc. fold (added_ancestors pool added d). fold through.
  split; [lia |]. split.
  - intros [Hin|Hnil].
    + destruct (decide (d ∈ added)); [reflexivity | contradiction].
    + rewrite Hnil. destruct (decide (d ∈ added)); reflexivity.
  - intros [Hout Hne]. destruct (decide (d ∈ added)); [contradiction |].
    unfold updated_entry. destruct through as [|it through'] eqn:Hthrough;
      [contradiction |].
    eexists. split; [reflexivity |].
    apply (foldl_update_for_parent_inclusion pool base (it :: through')).
Qed.

(** * The weight and the sigop cost of the block *)

Lemma sum_Z_Permutation l k : l ≡ₚ k → sum_Z l = sum_Z k.
Proof. unfold sum_Z. induction 1; simpl; lia. Qed.

Lemma sum_Z_fmap_submseteq (f : Z → Z) l k :
  (∀ x, 0 ≤ f x) → l ⊆+ k → sum_Z (f <$> l) ≤ sum_Z (f <$> k).
Proof.
  intros Hf H.
  induction H as [|x l1 l2 _ IH|x y l|x l1 l2 _ IH|l1 l2 l3 _ IH1 _ IH2];
    rewrite ?fmap_cons, ?sum_Z_cons; try lia.
  specialize (Hf x). lia.
Qed.

Lemma sum_Z_fmap_le (f g : Z → Z) (l : list Z) :
  (∀ x, f x ≤ g x) → sum_Z (f <$> l) ≤ sum_Z (g <$> l).
Proof.
  intros H. induction l as [|x l IH]; [reflexivity |].
  rewrite !fmap_cons, !sum_Z_cons. specialize (H x). lia.
Qed.

Lemma sum_Z_fmap_scale (c : Z) (f : Z → Z) (l : list Z) :
  sum_Z ((λ x, c * f x) <$> l) = c * sum_Z (f <$> l).
Proof.
  induction l as [|x l IH]; [simpl; unfold sum_Z; simpl; lia |].
  rewrite !fmap_cons, !sum_Z_cons. lia.
Qed.

Lemma sum_Z_fmap_nonneg (f : Z → Z) (l : list Z) :
  (∀ x, 0 ≤ f x) → 0 ≤ sum_Z (f <$> l).
Proof.
  intros H. induction l as [|x l IH]; [unfold sum_Z; simpl; lia |].
  rewrite fmap_cons, sum_Z_cons. specialize (H x). lia.
Qed.

Lemma sum_over_subseteq f (S T : gset Z) :
  (∀ x, 0 ≤ f x) → S ⊆ T → sum_over f S ≤ sum_over f T.
Proof. intros Hf H. apply sum_Z_fmap_submseteq, elements_submseteq; assumption. Qed.

Lemma sum_over_disj_union f (S T : gset Z) :
  S ## T → sum_over f (S ∪ T) = sum_over f S + sum_over f T.
Proof.
  intros H. unfold sum_over.
  rewrite (sum_Z_Permutation _ (f <$> (elements S ++ elements T))).
  - rewrite fmap_app. apply sum_Z_app.
  - apply fmap_Permutation, elements_disj_union, H.
Qed.

Lemma sum_over_list f (S : gset Z) (l : list Z) :
  NoDup l → (∀ x, x ∈ l ↔ x ∈ S) → sum_Z (f <$> l) = sum_over f S.
Proof.
  intros Hnd Hl. apply sum_Z_Permutation, fmap_Permutation.
  apply NoDup_Permutation; [exact Hnd | apply NoDup_elements |].
  intros x. rewrite Hl, elem_of_elements. reflexivity.
Qed.

Lemma elem_of_CalculateDescendants pool x k :
  k ∈ CalculateDescendants pool x
  ↔ k = x ∨ (x ∈ CalculateMemPoolAncestors pool k ∧ is_Some (pool !! k)).
Proof.
  unfold CalculateDescendants.
  rewrite elem_of_union, elem_of_singleton, elem_of_filter, elem_of_dom. reflexivity.
Qed.

Lemma elem_of_added_ancestors pool (pkg : gset Z) k x :
  x ∈ added_ancestors pool pkg k ↔ x ∈ pkg ∧ k ∈ CalculateDescendants pool x.
Proof.
  unfold added_ancestors. rewrite list_elem_of_filter, elem_of_in_order. tauto.
Qed.

(** ** One cost of a package, in the overlay *)

(** [c] is a cost of an entry (its size, its sigop cost), [C] the cost with
    ancestors that the mempool caches, [g] the field of an overlay entry that
    tracks it. *)
Section PackageCost.
Context (pool : gmap Z CTxMemPoolEntry).
Context (c C : Z → Z) (g : CTxMemPoolModifiedEntry → Z).
Hypothesis c_nonneg : ∀ x, 0 ≤ c x.
Hypothesis C_sum :
  ∀ k, is_Some (pool !! k) →
       C k = sum_over c ({[ k ]} ∪ CalculateMemPoolAncestors pool k) ∧ C k < 2 ^ 64.
Hypothesis g_new : ∀ k, g (CTxMemPoolModifiedEntry_new pool k) = C k.
Hypothesis g_update :
  ∀ base through, through ≠ [] →
    0 ≤ g base - sum_Z (c <$> through) < 2 ^ 64 →
    g (foldl (λ e it, update_for_parent_inclusion pool it e) base through)
    = g base - sum_Z (c <$> through).

Lemma sum_over_nonneg (S : gset Z) : 0 ≤ sum_over c S.
Proof using c_nonneg. apply sum_Z_fmap_nonneg, c_nonneg. Qed.

Lemma remaining_le_cached inB k :
  is_Some (pool !! k) → sum_over c (remaining_package pool inB k) ≤ C k.
Proof using c_nonneg C_sum.
  clear g g_new g_update.
  intros Hk. destruct (C_sum k Hk) as [-> _].
  apply sum_over_subseteq; [apply c_nonneg |]. unfold remaining_package. set_solver.
Qed.

(** What is left of the package of [k] before a commit is what the commit
    takes of it together with what is left afterwards. *)
Lemma remaining_split inB it k :
  is_Some (pool !! k) →
  k ∉ remaining_package pool inB it →
  sum_over c (remaining_package pool inB k)
  = sum_Z (c <$> added_ancestors pool (remaining_package pool inB it) k)
    + sum_over c (remaining_package pool (remaining_package pool inB it ∪ inB) k).
Proof using Type.
  clear c_nonneg C_sum g_new g_update g C.
  intros Hk Hout. set (pkg := remaining_package pool inB it) in *.
  rewrite (sum_over_list c (list_to_set (added_ancestors pool pkg k))
             (added_ancestors pool pkg k)).
  2:{ unfold added_ancestors. apply NoDup_filter, NoDup_in_order. }
  2:{ intros x. rewrite elem_of_list_to_set. reflexivity. }
  rewrite <- sum_over_disj_union.
  - f_equal. apply set_eq. intros x.
    rewrite elem_of_union, elem_of_list_to_set, elem_of_added_ancestors,
      elem_of_CalculateDescendants.
    unfold remaining_package.
    rewrite !elem_of_difference, !elem_of_union, !elem_of_singleton.
    assert (Hpkg : x ∈ pkg → x ∉ inB).
    { unfold pkg, remaining_package. rewrite elem_of_difference. tauto. }
    destruct (decide (x ∈ pkg)) as [Hx|Hx].
    + assert (x ≠ k) by (intros ->; contradiction). specialize (Hpkg Hx).
      split; [intros [[?|?] _]; [contradiction | left; auto] |].
      intros [[_ [?|[? _]]]|[_ H']]; [congruence | auto |]. exfalso. apply H'. auto.
    + split; [intros [? ?]; right; split; [assumption | tauto] |].
      intros [[? _]|[? H']]; [contradiction |]. split; [assumption | tauto].
  - apply elem_of_disjoint. intros x Hx1 Hx2.
    apply elem_of_list_to_set, elem_of_added_ancestors in Hx1 as [Hx1 _].
    unfold remaining_package in Hx2. apply elem_of_difference in Hx2 as [_ Hx2].
    apply Hx2, elem_of_union. auto.
Qed.

(** The bounds on the overlay survive a commit of the package of [it]. *)
Lemma overlay_commit (modified : gmap Z CTxMemPoolModifiedEntry) inB it sorted k m' :
  (∀ k m, modified !! k = Some m →
          sum_over c (remaining_package pool inB k) ≤ g m ≤ C k) →
  (∀ x, x ∈ sorted ↔ x ∈ remaining_package pool inB it) →
  (UpdatePackagesForAdded pool (remaining_package pool inB it)
     (foldl (λ m e, delete e m) modified sorted)).2 !! k = Some m' →
  sum_over c (remaining_package pool (remaining_package pool inB it ∪ inB) k)
  ≤ g m' ≤ C k.
Proof using c_nonneg C_sum g_new g_update.
  intros Hoverlay Hsorted Hk. set (pkg := remaining_package pool inB it) in *.
  unfold UpdatePackagesForAdded in Hk.
  destruct (outer_loop pool pkg (in_order pkg)
              (0, foldl (λ m e, delete e m) modified sorted) k) as [Hl _].
  simpl in Hl. rewrite Hl in Hk. clear Hl.
  destruct (decide (k ∈ pkg)) as [Hin|Hout].
  { apply lookup_foldl_delete in Hk as [_ Hk]. exfalso. apply Hk, Hsorted, Hin. }
  fold (added_ancestors pool pkg k) in Hk.
  assert (Hshrink : sum_over c (remaining_package pool (pkg ∪ inB) k)
                    ≤ sum_over c (remaining_package pool inB k)).
  { apply sum_over_subseteq; [apply c_nonneg |]. unfold remaining_package. set_solver. }
  destruct (added_ancestors pool pkg k) as [|x through] eqn:Hthrough.
  - simpl in Hk. apply lookup_foldl_delete in Hk as [Hk _].
    specialize (Hoverlay _ _ Hk). lia.
  - assert (Hx : x ∈ added_ancestors pool pkg k)
      by (rewrite Hthrough; apply elem_of_cons; auto).
    apply elem_of_added_ancestors in Hx as [Hxa Hxd].
    apply elem_of_CalculateDescendants in Hxd as [->|[_ Hpk]]; [contradiction |].
    unfold updated_entry in Hk. inversion Hk as [Hm']. clear Hk.
    set (base := default (CTxMemPoolModifiedEntry_new pool k)
                   (foldl (λ m e, delete e m) modified sorted !! k)) in *.
    assert (Hbase : sum_over c (remaining_package pool inB k) ≤ g base ∧ g base ≤ C k).
    { unfold base.
      destruct (foldl (λ m e, delete e m) modified sorted !! k) as [m0|] eqn:Hm0; simpl.
      - apply lookup_foldl_delete in Hm0 as [Hm0 _]. apply (Hoverlay _ _ Hm0).
      - rewrite g_new. split; [apply remaining_le_cached, Hpk | lia]. }
    assert (Hsplit := remaining_split inB it k Hpk Hout).
    fold pkg in Hsplit. rewrite Hthrough in Hsplit.
    destruct (C_sum k Hpk) as [_ Hsmall].
    assert (Hnn := sum_over_nonneg (remaining_package pool (pkg ∪ inB) k)).
    assert (Hthrough_nn : 0 ≤ sum_Z (c <$> x :: through))
      by (apply sum_Z_fmap_nonneg, c_nonneg).
    assert (Hg := g_update base (x :: through) ltac:(discriminate) ltac:(lia)).
    cbn [foldl] in Hg. rewrite Hg. lia.
Qed.

End PackageCost.

(** ** The two limits *)

Section Limits.
Context (K : Constants) (N : Node) (pool : gmap Z CTxMemPoolEntry).
Context (a0 : BlockAssembler).
Hypothesis pool_consistent : mempool_consistent pool.
Hypothesis costs_coherent : mempool_costs_coherent K pool (nBlockMaxWeight a0).

Local Abbreviation size := (λ x : Z, GetTxSize (pool !!! x)).
Local Abbreviation weight := (λ x : Z, GetTxWeight (pool !!! x)).
Local Abbreviation sigops := (λ x : Z, GetSigOpCost (pool !!! x)).

Lemma coherent_entry k e :
  pool !! k = Some e →
  0 ≤ GetTxSize e ∧ 0 ≤ GetTxWeight e ∧ 0 ≤ GetSigOpCost e
  ∧ GetTxWeight e ≤ WITNESS_SCALE_FACTOR K * GetTxSize e
  ∧ GetSizeWithAncestors e = sum_over size ({[ k ]} ∪ CalculateMemPoolAncestors pool k)
  ∧ GetSigOpCostWithAncestors e
    = sum_over sigops ({[ k ]} ∪ CalculateMemPoolAncestors pool k)
  ∧ WITNESS_SCALE_FACTOR K * GetSizeWithAncestors e + nBlockMaxWeight a0 < 2 ^ 64
  ∧ GetSigOpCostWithAncestors e + MAX_BLOCK_SIGOPS_COST K < 2 ^ 64.
Proof.
  intros He. destruct costs_coherent as (_ & _ & _ & Hall).
  specialize (Hall k e He). unfold entry_costs_coherent in Hall.
  repeat (apply andb_true_iff in Hall as [Hall ?]).
  repeat split; lia.
Qed.

Lemma entry_bounds x :
  0 ≤ size x ∧ 0 ≤ weight x ∧ 0 ≤ sigops x
  ∧ weight x ≤ WITNESS_SCALE_FACTOR K * size x.
Proof.
  simpl. rewrite lookup_total_alt. destruct (pool !! x) as [e|] eqn:He; simpl; [|lia].
  destruct (coherent_entry x e He) as (? & ? & ? & ? & _). auto.
Qed.

Lemma size_nonneg x : 0 ≤ size x.
Proof. apply entry_bounds. Qed.

Lemma sigops_nonneg x : 0 ≤ sigops x.
Proof. apply entry_bounds. Qed.

Lemma size_cached k :
  is_Some (pool !! k) →
  GetSizeWithAncestors (pool !!! k)
  = sum_over size ({[ k ]} ∪ CalculateMemPoolAncestors pool k)
  ∧ GetSizeWithAncestors (pool !!! k) < 2 ^ 64.
Proof.
  intros [e He]. rewrite (lookup_total_correct _ _ _ He).
  destruct costs_coherent as (HK & Hmax & _).
  destruct (coherent_entry k e He) as (_ & _ & _ & _ & Hs & _ & Hb & _).
  split; [exact Hs |].
  assert (0 ≤ GetSizeWithAncestors e)
    by (rewrite Hs; apply sum_Z_fmap_nonneg, size_nonneg).
  nia.
Qed.

Lemma sigops_cached k :
  is_Some (pool !! k) →
  GetSigOpCostWithAncestors (pool !!! k)
  = sum_over sigops ({[ k ]} ∪ CalculateMemPoolAncestors pool k)
  ∧ GetSigOpCostWithAncestors (pool !!! k) < 2 ^ 64.
Proof.
  intros [e He]. rewrite (lookup_total_correct _ _ _ He).
  destruct costs_coherent as (_ & _ & Hmax & _).
  destruct (coherent_entry k e He) as (_ & _ & _ & _ & _ & Hs & _ & Hb).
  split; [exact Hs | lia].
Qed.

Lemma foldl_update_range base through :
  through ≠ [] →
  0 ≤ nSizeWithAncestors
        (foldl (λ e it, update_for_parent_inclusion pool it e) base through) < 2 ^ 64.
Proof.
  intros Hne. destruct through as [|x through _] using rev_ind; [contradiction |].
  rewrite foldl_app. simpl. unfold u64. apply Z.mod_pos_bound. lia.
Qed.

Lemma size_update base through :
  through ≠ [] →
  0 ≤ nSizeWithAncestors base - sum_Z (size <$> through) < 2 ^ 64 →
  nSizeWithAncestors (foldl (λ e it, update_for_parent_inclusion pool it e) base through)
  = nSizeWithAncestors base - sum_Z (size <$> through).
Proof.
  intros Hne Hrange.
  destruct (foldl_update_for_parent_inclusion pool base through) as (_ & _ & _ & Hsize).
  rewrite (u64_small _ (foldl_update_range base through Hne)) in Hsize.
  rewrite u64_small in Hsize by exact Hrange. exact Hsize.
Qed.

Lemma sigops_update base through :
  through ≠ [] →
  0 ≤ nSigOpCostWithAncestors base - sum_Z (sigops <$> through) < 2 ^ 64 →
  nSigOpCostWithAncestors
    (foldl (λ e it, update_for_parent_inclusion pool it e) base through)
  = nSigOpCostWithAncestors base - sum_Z (sigops <$> through).
Proof.
  intros _ _. apply (foldl_update_for_parent_inclusion pool base through).
Qed.

Lemma foldl_AddToBlock_nBlockMaxWeight a l :
  nBlockMaxWeight (foldl (AddToBlock pool) a l) = nBlockMaxWeight a.
Proof.
  revert a. induction l as [|x l IH]; intros a; simpl; [reflexivity |].
  rewrite IH. reflexivity.
Qed.

Lemma foldl_AddToBlock_inBlock_eq a l :
  inBlock (foldl (AddToBlock pool) a l) = list_to_set l ∪ inBlock a.
Proof.
  revert a. induction l as [|x l IH]; intros a; simpl; [set_solver |].
  rewrite IH. simpl. set_solver.
Qed.

Lemma foldl_AddToBlock_counters a l :
  0 ≤ nBlockWeight a → 0 ≤ nBlockSigOpsCost a →
  nBlockWeight a + sum_Z (weight <$> l) < 2 ^ 64 →
  nBlockSigOpsCost a + sum_Z (sigops <$> l) < 2 ^ 64 →
  nBlockWeight (foldl (AddToBlock pool) a l) = nBlockWeight a + sum_Z (weight <$> l)
  ∧ nBlockSigOpsCost (foldl (AddToBlock pool) a l)
    = nBlockSigOpsCost a + sum_Z (sigops <$> l).
Proof.
  revert a. induction l as [|x l IH]; intros a Hw Hs Hwsum Hssum.
  - simpl. unfold sum_Z. simpl. lia.
  - cbn [foldl]. rewrite !fmap_cons, !sum_Z_cons in *.
    destruct (entry_bounds x) as (_ & Hx1 & Hx2 & _). simpl in Hx1, Hx2.
    assert (Hl1 : 0 ≤ sum_Z (weight <$> l))
      by (apply sum_Z_fmap_nonneg; intros y; apply entry_bounds).
    assert (Hl2 : 0 ≤ sum_Z (sigops <$> l))
      by (apply sum_Z_fmap_nonneg; intros y; apply entry_bounds).
    assert (Hstep1 : nBlockWeight (AddToBlock pool a x) = nBlockWeight a + weight x)
      by (simpl; apply u64_small; lia).
    assert (Hstep2 : nBlockSigOpsCost (AddToBlock pool a x)
                     = nBlockSigOpsCost a + sigops x)
      by (simpl; apply u64_small; lia).
    destruct (IH (AddToBlock pool a x)) as [H1 H2];
      [rewrite Hstep1; simpl; lia | rewrite Hstep2; simpl; lia
      | rewrite Hstep1; simpl; lia | rewrite Hstep2; simpl; lia |].
    rewrite H1, H2, Hstep1, Hstep2. simpl. lia.
Qed.

(** The package that a commit adds. *)
Lemma package_remaining a it :
  it ∉ inBlock a →
  {[ it ]} ∪ onlyUnconfirmed a (CalculateMemPoolAncestors pool it)
  = remaining_package pool (inBlock a) it.
Proof. intros H. unfold onlyUnconfirmed, remaining_package. set_solver. Qed.

Lemma limits_inv_drop_failed b it s :
  limits_inv K pool a0 s → limits_inv K pool a0 (drop_failed b it s).
Proof.
  intros [H1 H2 H3 H4 H5 H6]. destruct b; [|split; assumption].
  split; try assumption; simpl; intros k m Hk;
    apply lookup_delete_Some in Hk as [_ Hk]; [apply (H5 _ _ Hk) | apply (H6 _ _ Hk)].
Qed.

Lemma limits_inv_advance_mi s :
  limits_inv K pool a0 s → limits_inv K pool a0 (advance_mi s).
Proof. intros [H1 H2 H3 H4 H5 H6]. split; assumption. Qed.

Lemma limits_inv_counters s c1 c2 c3 :
  limits_inv K pool a0 s →
  limits_inv K pool a0
    {| assembler := assembler s; mapModifiedTx := mapModifiedTx s;
       failedTx := failedTx s; mi := mi s;
       nConsecutiveFailed := c1; nPackagesSelected := c2; nDescendantsUpdated := c3 |}.
Proof. intros [H1 H2 H3 H4 H5 H6]. split; assumption. Qed.

Lemma TestPackage_fits a p q :
  0 ≤ nBlockWeight a ≤ nBlockMaxWeight a →
  0 ≤ nBlockSigOpsCost a ≤ MAX_BLOCK_SIGOPS_COST K →
  0 ≤ p → 0 ≤ q →
  WITNESS_SCALE_FACTOR K * p + nBlockMaxWeight a < 2 ^ 64 →
  q + MAX_BLOCK_SIGOPS_COST K < 2 ^ 64 →
  TestPackage K a p q = true →
  nBlockWeight a + WITNESS_SCALE_FACTOR K * p < nBlockMaxWeight a
  ∧ nBlockSigOpsCost a + q < MAX_BLOCK_SIGOPS_COST K.
Proof.
  intros Hw Hs Hp Hq Hbig1 Hbig2. unfold TestPackage.
  destruct costs_coherent as (HK & _ & _).
  rewrite !u64_small by nia.
  destruct (Z.leb_spec (nBlockMaxWeight a) (nBlockWeight a + WITNESS_SCALE_FACTOR K * p));
    [discriminate |].
  destruct (Z.leb_spec (MAX_BLOCK_SIGOPS_COST K) (nBlockSigOpsCost a + q));
    [discriminate | lia].
Qed.

Lemma limits_inv_commit s it p q fails packages updated :
  limits_inv K pool a0 s →
  is_Some (pool !! it) →
  it ∉ inBlock (assembler s) →
  sum_over size (remaining_package pool (inBlock (assembler s)) it) ≤ p
  ∧ p ≤ GetSizeWithAncestors (pool !!! it) →
  sum_over sigops (remaining_package pool (inBlock (assembler s)) it) ≤ q
  ∧ q ≤ GetSigOpCostWithAncestors (pool !!! it) →
  TestPackage K (assembler s) p q = true →
  let ancestors :=
    {[ it ]} ∪ onlyUnconfirmed (assembler s) (CalculateMemPoolAncestors pool it) in
  let sortedEntries := SortForBlock pool ancestors in
  limits_inv K pool a0
    {| assembler := foldl (AddToBlock pool) (assembler s) sortedEntries;
       mapModifiedTx :=
         (UpdatePackagesForAdded pool ancestors
            (foldl (λ m e, delete e m) (mapModifiedTx s) sortedEntries)).2;
       failedTx := failedTx s;
       mi := mi s;
       nConsecutiveFailed := fails;
       nPackagesSelected := packages;
       nDescendantsUpdated := updated |}.
Proof.
  intros [Hmax (order & Hvtx & Hweight & Hsigops) Hbw Hbs Hosize Hosig] Hit Hnin
    [Hp1 Hp2] [Hq1 Hq2] Hfit ancestors sortedEntries.
  destruct costs_coherent as (HK & Hmax0 & Hsig0 & _).
  assert (Hanc : ancestors = remaining_package pool (inBlock (assembler s)) it)
    by apply package_remaining, Hnin.
  destruct (size_cached it Hit) as [_ Hsz]. destruct (sigops_cached it Hit) as [_ Hsg].
  destruct Hit as [e He]. rewrite (lookup_total_correct _ _ _ He) in *.
  destruct (coherent_entry it e He) as (_ & _ & _ & _ & _ & _ & Hbig1 & Hbig2).
  assert (Hp0 : 0 ≤ p).
  { pose proof (sum_over_nonneg size size_nonneg
                  (remaining_package pool (inBlock (assembler s)) it)). lia. }
  assert (Hq0 : 0 ≤ q).
  { pose proof (sum_over_nonneg sigops sigops_nonneg
                  (remaining_package pool (inBlock (assembler s)) it)). lia. }
  destruct (TestPackage_fits (assembler s) p q) as [Hroom1 Hroom2];
    [rewrite Hmax; exact Hbw | exact Hbs | exact Hp0 | exact Hq0 | rewrite Hmax; nia
    | lia | exact Hfit |].
  rewrite Hmax in Hroom1.
  assert (Hsorted : ∀ x, x ∈ sortedEntries ↔ x ∈ ancestors)
    by (intros x; apply elem_of_SortForBlock).
  assert (Hsizes : sum_Z (size <$> sortedEntries) = sum_over size ancestors)
    by (apply sum_over_list; [apply NoDup_SortForBlock | exact Hsorted]).
  assert (Hsigs : sum_Z (sigops <$> sortedEntries) = sum_over sigops ancestors)
    by (apply sum_over_list; [apply NoDup_SortForBlock | exact Hsorted]).
  assert (Hweights : sum_Z (weight <$> sortedEntries)
                     ≤ WITNESS_SCALE_FACTOR K * sum_Z (size <$> sortedEntries)).
  { rewrite <- sum_Z_fmap_scale. apply sum_Z_fmap_le. intros x. apply entry_bounds. }
  assert (Hw0 : 0 ≤ sum_Z (weight <$> sortedEntries))
    by (apply sum_Z_fmap_nonneg; intros x; apply entry_bounds).
  assert (Hs0 : 0 ≤ sum_Z (sigops <$> sortedEntries))
    by (apply sum_Z_fmap_nonneg; intros x; apply entry_bounds).
  rewrite Hsizes, Hanc in Hweights. rewrite Hanc in Hsigs.
  destruct (foldl_AddToBlock_counters (assembler s) sortedEntries) as [Hnew1 Hnew2];
    [lia | lia | nia | lia |].
  assert (Hset : (list_to_set sortedEntries : gset Z) = ancestors).
  { apply set_eq. intros x. rewrite elem_of_list_to_set. apply Hsorted. }
  split; simpl.
  - rewrite foldl_AddToBlock_nBlockMaxWeight. exact Hmax.
  - exists (order ++ sortedEntries).
    rewrite foldl_AddToBlock_vtx, Hvtx, Hnew1, Hnew2, Hweight, Hsigops, !fmap_app,
      !sum_Z_app, app_assoc.
    split; [reflexivity |]. split; lia.
  - rewrite Hnew1. nia.
  - rewrite Hnew2. lia.
  - intros k m' Hk. rewrite foldl_AddToBlock_inBlock_eq, Hset, Hanc.
    rewrite Hanc in Hk, Hsorted.
    apply (overlay_commit pool size (λ k, GetSizeWithAncestors (pool !!! k))
             nSizeWithAncestors size_nonneg size_cached (λ _, eq_refl) size_update
             (mapModifiedTx s) (inBlock (assembler s)) it sortedEntries k m'
             Hosize Hsorted Hk).
  - intros k m' Hk. rewrite foldl_AddToBlock_inBlock_eq, Hset, Hanc.
    rewrite Hanc in Hk, Hsorted.
    apply (overlay_commit pool sigops (λ k, GetSigOpCostWithAncestors (pool !!! k))
             nSigOpCostWithAncestors sigops_nonneg sigops_cached (λ _, eq_refl)
             sigops_update
             (mapModifiedTx s) (inBlock (assembler s)) it sortedEntries k m'
             Hosig Hsorted Hk).
Qed.

Lemma consider_package_limits s it b modit s' :
  limits_inv K pool a0 s →
  is_Some (pool !! it) →
  (b = true → mapModifiedTx s !! it = Some modit) →
  consider_package K N pool s it b modit = Continue s'
  ∨ consider_package K N pool s it b modit = Break s' →
  limits_inv K pool a0 s'.
Proof.
  intros Hw Hit Hb. unfold consider_package.
  destruct (decide (it ∈ inBlock (assembler s))) as [|Hnin]; [intros [?|?]; discriminate |].
  cbv zeta.
  destruct (TestPackage K (assembler s) _ _) eqn:Hfit; simpl negb; cbv iota.
  - destruct (TestPackageTransactions N pool (assembler s) _); simpl negb; cbv iota.
    + intros [H|H]; inversion H; subst; clear H.
      eapply limits_inv_commit; [exact Hw | exact Hit | exact Hnin | | | exact Hfit].
      * destruct b.
        -- destruct (linv_overlay_size _ _ _ _ Hw it modit (Hb eq_refl)) as [H1 H2]. auto.
        -- split; [|lia].
           apply (remaining_le_cached pool size (λ k, GetSizeWithAncestors (pool !!! k))
                    size_nonneg size_cached _ it Hit).
      * destruct b.
        -- destruct (linv_overlay_sigops _ _ _ _ Hw it modit (Hb eq_refl)) as [H1 H2].
           auto.
        -- split; [|lia].
           apply (remaining_le_cached pool sigops
                    (λ k, GetSigOpCostWithAncestors (pool !!! k))
                    sigops_nonneg sigops_cached _ it Hit).
    + intros [H|H]; inversion H; subst; clear H. apply limits_inv_drop_failed, Hw.
  - assert (Hd := limits_inv_drop_failed b it s Hw).
    match goal with |- context [if ?c then Break _ else _] => destruct c end;
      intros [H|H]; inversion H; subst; clear H; apply limits_inv_counters, Hd.
Qed.

Lemma addPackageTxs_step_limits v0 s order s' :
  selection_inv pool v0 s order →
  limits_inv K pool a0 s →
  addPackageTxs_step K N pool s = Continue s'
  ∨ addPackageTxs_step K N pool s = Break s' →
  limits_inv K pool a0 s'.
Proof.
  intros Hinv Hw. unfold addPackageTxs_step.
  destruct (mi s) as [|it rest] eqn:Hmi,
    (modified_begin (mapModifiedTx s)) as [m|] eqn:Hm.
  - destruct (modified_begin_lookup pool v0 s order m Hinv Hm) as (Hl & Hp & _).
    apply consider_package_limits; auto.
  - intros [H|H]; inversion H; subst; exact Hw.
  - assert (Hit : is_Some (pool !! it)).
    { apply (inv_mi _ _ _ _ Hinv). rewrite Hmi. apply elem_of_cons. auto. }
    destruct (SkipMapTxEntry _ _ _ _).
    { intros [H|H]; inversion H; subst. apply limits_inv_advance_mi, Hw. }
    destruct (modified_begin_lookup pool v0 s order m Hinv Hm) as (Hl & Hp & _).
    destruct (CompareTxMemPoolEntryByAncestorFee _ _ _ _ _ _).
    + apply consider_package_limits; auto.
    + apply consider_package_limits;
        [apply limits_inv_advance_mi, Hw | exact Hit | discriminate].
  - assert (Hit : is_Some (pool !! it)).
    { apply (inv_mi _ _ _ _ Hinv). rewrite Hmi. apply elem_of_cons. auto. }
    destruct (SkipMapTxEntry _ _ _ _).
    { intros [H|H]; inversion H; subst. apply limits_inv_advance_mi, Hw. }
    apply consider_package_limits;
      [apply limits_inv_advance_mi, Hw | exact Hit | discriminate].
Qed.

Lemma addPackageTxs_loop_limits v0 fuel s order s' :
  selection_inv pool v0 s order →
  limits_inv K pool a0 s →
  addPackageTxs_loop fuel K N pool s = Finished s' →
  limits_inv K pool a0 s'.
Proof.
  revert s order. induction fuel as [|fuel IH]; intros s order Hinv Hw; simpl;
    [discriminate |].
  destruct (addPackageTxs_step K N pool s) as [s1|s1|] eqn:Hstep; [| |discriminate].
  - destruct (addPackageTxs_step_inv K N pool v0 pool_consistent s order s1 Hinv)
      as [order1 H1]; [auto |].
    apply (IH s1 order1 H1). apply (addPackageTxs_step_limits v0 s order); auto.
  - intros H. inversion H; subst. apply (addPackageTxs_step_limits v0 s order); auto.
Qed.

Lemma limits_inv_init :
  inBlock a0 = ∅ →
  0 ≤ nBlockWeight a0 ≤ nBlockMaxWeight a0 →
  0 ≤ nBlockSigOpsCost a0 ≤ MAX_BLOCK_SIGOPS_COST K →
  limits_inv K pool a0 (addPackageTxs_init pool a0).
Proof.
  intros Hin Hbw Hbs. split; simpl.
  - reflexivity.
  - exists []. simpl. rewrite app_nil_r. unfold sum_Z. simpl.
    split; [reflexivity |]. split; lia.
  - exact Hbw.
  - exact Hbs.
  - intros k m. rewrite Hin, UpdatePackagesForAdded_nothing_added. simpl.
    rewrite lookup_empty. discriminate.
  - intros k m. rewrite Hin, UpdatePackagesForAdded_nothing_added. simpl.
    rewrite lookup_empty. discriminate.
Qed.

End Limits.

Lemma addPackageTxs_within_limits (K : Constants) (N : Node)
    (pool : gmap Z CTxMemPoolEntry) (a : BlockAssembler) (fuel : nat)
    (s : PackageSelection) :
  mempool_consistent pool →
  mempool_costs_coherent K pool (nBlockMaxWeight a) →
  inBlock a = ∅ →
  0 ≤ nBlockWeight a ≤ nBlockMaxWeight a →
  0 ≤ nBlockSigOpsCost a ≤ MAX_BLOCK_SIGOPS_COST K →
  addPackageTxs fuel K N pool a = Finished s →
  ∃ order : list Z,
    vtx (assembler s) = vtx a ++ (tx_of pool <$> order)
    ∧ nBlockWeight (assembler s)
      = nBlockWeight a + sum_Z ((λ h, GetTxWeight (pool !!! h)) <$> order)
    ∧ nBlockSigOpsCost (assembler s)
      = nBlockSigOpsCost a + sum_Z ((λ h, GetSigOpCost (pool !!! h)) <$> order)
    ∧ nBlockWeight (assembler s) ≤ nBlockMaxWeight a
    ∧ nBlockSigOpsCost (assembler s) ≤ MAX_BLOCK_SIGOPS_COST K.
Proof.
  intros Hc Hs Hin Hbw Hbs Hrun. unfold addPackageTxs in Hrun.
  assert (Hw := addPackageTxs_loop_limits K N pool a Hc Hs (vtx a) fuel _ [] s
                  (selection_inv_init pool (vtx a) Hc a Hin eq_refl)
                  (limits_inv_init K pool a Hin Hbw Hbs) Hrun).
  destruct (linv_sums _ _ _ _ Hw) as (order & Hvtx & Hweight & Hsigops).
  exists order. split; [exact Hvtx |]. split; [exact Hweight |]. split; [exact Hsigops |].
  split; [apply (linv_weight _ _ _ _ Hw) | apply (linv_sigops _ _ _ _ Hw)].
Qed.

(** X21: on a mempool whose cached sizes and sigop costs are coherent,
    [addPackageTxs] never takes the block over its limits: entered with an
    empty [inBlock] and with weight and sigop cost within [nBlockMaxWeight]
    and [MAX_BLOCK_SIGOPS_COST], it returns with [nBlockWeight] and
    [nBlockSigOpsCost] equal to the initial values plus the weights and the
    sigop costs of the transactions it appended, nothing lost to wrap-around,
    and both still within their limits. *)
Theorem addPackageTxs_weight_limit (K : Constants) (N : Node)
    (pool : gmap Z CTxMemPoolEntry) (a : BlockAssembler) (fuel : nat)
    (s : PackageSelection) :
  mempool_consistent pool →
  mempool_costs_coherent K pool (nBlockMaxWeight a) →
  inBlock a = ∅ →
  0 ≤ nBlockWeight a ≤ nBlockMaxWeight a →
  0 ≤ nBlockSigOpsCost a ≤ MAX_BLOCK_SIGOPS_COST K →
  addPackageTxs fuel K N pool a = Finished s →
  ∃ order : list Z,
    vtx (assembler s) = vtx a ++ (tx_of pool <$> order)
    ∧ nBlockWeight (assembler s)
      = nBlockWeight a + sum_Z ((λ h, GetTxWeight (pool !!! h)) <$> order)
    ∧ nBlockSigOpsCost (assembler s)
      = nBlockSigOpsCost a + sum_Z ((λ h, GetSigOpCost (pool !!! h)) <$> order)
    ∧ nBlockWeight (assembler s) ≤ nBlockMaxWeight a
    ∧ nBlockSigOpsCost (assembler s) ≤ MAX_BLOCK_SIGOPS_COST K.
Proof. apply addPackageTxs_within_limits. Qed.

Lemma addPackageTxs_weight_limit_witness :
  ∃ s,
    addPackageTxs 10 K0 N0 pool_ABC assembler1 = Finished s
    ∧ ∃ order : list Z,
        vtx (assembler s) = vtx assembler1 ++ (tx_of pool_ABC <$> order)
        ∧ nBlockWeight (assembler s)
          = nBlockWeight assembler1
            + sum_Z ((λ h, GetTxWeight (pool_ABC !!! h)) <$> order)
        ∧ nBlockSigOpsCost (assembler s)
          = nBlockSigOpsCost assembler1
            + sum_Z ((λ h, GetSigOpCost (pool_ABC !!! h)) <$> order)
        ∧ nBlockWeight (assembler s) ≤ nBlockMaxWeight assembler1
        ∧ nBlockSigOpsCost (assembler s) ≤ MAX_BLOCK_SIGOPS_COST K0.
Proof.
  eexists. split; [vm_compute; reflexivity |].
  apply (addPackageTxs_weight_limit K0 N0 pool_ABC assembler1 10).
  - apply (bool_decide_unpack _). vm_compute. reflexivity.
  - split; [vm_compute; discriminate |]. split; [vm_compute; discriminate |].
    split; [vm_compute; discriminate |].
    apply (bool_decide_unpack _). vm_compute. reflexivity.
  - reflexivity.
  - vm_compute. split; discriminate.
  - vm_compute. split; discriminate.
  - vm_compute. reflexivity.
Defined.

(** * The limits of a template *)

Lemma addPackageTxs_loop_nBlockMaxWeight fuel K N pool s s' :
  addPackageTxs_loop fuel K N pool s = Finished s' →
  nBlockMaxWeight (assembler s') = nBlockMaxWeight (assembler s).
Proof.
  apply (addPackageTxs_loop_preserves K N pool
           (λ a, nBlockMaxWeight a = nBlockMaxWeight (assembler s))); auto.
Qed.

(** X22: for an assembler made by the constructor and a mempool whose
    cached sizes and sigop costs are coherent, the 4000 weight units and the
    400 sigop units reserved for the coinbase plus the weights and sigop costs
    of all the transactions [CreateNewBlock] selects stay within
    [nBlockMaxWeight], which the constructor keeps between 4000 and
    [MAX_BLOCK_WEIGHT / 4] (or at 4000 when that is smaller), and within
    [MAX_BLOCK_SIGOPS_COST]. *)
Theorem CreateNewBlock_weight_limit (K : Constants) (N : Node) (args : gArgs)
    (pool : gmap Z CTxMemPoolEntry) (options : Options) (scriptPubKeyIn : list ScriptItem)
    (fMineWitnessTx fPoS fProofOfFullNode : bool) (t : CBlockTemplate) :
  let a0 := BlockAssembler_new K options in
  mempool_consistent pool →
  mempool_costs_coherent K pool (nBlockMaxWeight a0) →
  400 ≤ MAX_BLOCK_SIGOPS_COST K →
  pblocktemplate
    (CreateNewBlock K N args pool a0 scriptPubKeyIn fMineWitnessTx fPoS fProofOfFullNode)
  = Some t →
  ∃ order : list Z,
    selected_vtx K N pool a0 fPoS = None :: (tx_of pool <$> order)
    ∧ 4000 + sum_Z ((λ h, GetTxWeight (pool !!! h)) <$> order) ≤ nBlockMaxWeight a0
    ∧ 400 + sum_Z ((λ h, GetSigOpCost (pool !!! h)) <$> order) ≤ MAX_BLOCK_SIGOPS_COST K
    ∧ 4000 ≤ nBlockMaxWeight a0 ≤ Z.max 4000 (MAX_BLOCK_WEIGHT K / 4).
Proof.
  intros a0 Hc Hs Hsig Ht.
  apply CreateNewBlock_Some in Ht as (s & stake & nTimeStake & nBits0 & _ & Hsel & _ & _).
  assert (Hclamp : 4000 ≤ nBlockMaxWeight a0 ≤ Z.max 4000 (MAX_BLOCK_WEIGHT K / 4))
    by (unfold a0; simpl; lia).
  unfold selected_vtx. rewrite Hsel. simpl.
  unfold selection_of in Hsel.
  destruct (stake_stage K N fPoS) as [[[? nTime1] ?]|]; [|discriminate].
  destruct (addPackageTxs _ _ _ _ _) as [s1| |] eqn:Hrun; try discriminate.
  inversion Hsel; subst s1; clear Hsel.
  destruct (addPackageTxs_within_limits K N pool
              (assembler_at_selection K N (resetBlock a0) (pow_time K N fPoS nTime1))
              _ s Hc Hs eq_refl ltac:(simpl; lia) ltac:(simpl; lia) Hrun)
    as (order & Hvtx & Hweight & Hsigops & Hbw & Hbs).
  exists order. simpl in Hvtx, Hweight, Hsigops, Hbw, Hbs.
  split; [exact Hvtx |]. split; [lia |]. split; [lia | exact Hclamp].
Qed.

Lemma CreateNewBlock_weight_limit_witness :
  ∃ t,
    pblocktemplate (CreateNewBlock K0 N0 args0 pool_ABC
                      (BlockAssembler_new K0 (DefaultOptions K0 args0)) [Opcode 5]
                      false false false) = Some t
    ∧ ∃ order : list Z,
        selected_vtx K0 N0 pool_ABC (BlockAssembler_new K0 (DefaultOptions K0 args0)) false
        = None :: (tx_of pool_ABC <$> order)
        ∧ 4000 + sum_Z ((λ h, GetTxWeight (pool_ABC !!! h)) <$> order)
          ≤ nBlockMaxWeight (BlockAssembler_new K0 (DefaultOptions K0 args0))
        ∧ 400 + sum_Z ((λ h, GetSigOpCost (pool_ABC !!! h)) <$> order)
          ≤ MAX_BLOCK_SIGOPS_COST K0
        ∧ 4000 ≤ nBlockMaxWeight (BlockAssembler_new K0 (DefaultOptions K0 args0))
          ≤ Z.max 4000 (MAX_BLOCK_WEIGHT K0 / 4).
Proof.
  eexists. split; [vm_compute; reflexivity |].
  eapply (CreateNewBlock_weight_limit K0 N0 args0 pool_ABC (DefaultOptions K0 args0)
           [Opcode 5] false false false).
  - apply (bool_decide_unpack _). vm_compute. reflexivity.
  - split; [vm_compute; discriminate |]. split; [vm_compute; discriminate |].
    split; [vm_compute; discriminate |].
    apply (bool_decide_unpack _). vm_compute. reflexivity.
  - vm_compute. discriminate.
  - vm_compute. reflexivity.
Defined.

(** ** What the rebuild keeps *)

(** X23: in a proof-of-work template on a consistent mempool, a selected
    transaction is in the block exactly when the rebuild keeps it: it is not
    marked duplicate, and it is a zerocoin spend, or its first input is
    anonymous, or the UTXO view has its inputs.  A transaction that is neither
    a zerocoin spend nor a mint is never marked, so it is in the block exactly
    when its first input is anonymous or its inputs are available. *)
Theorem CreateNewBlock_keeps_exactly (K : Constants) (N : Node) (args : gArgs)
    (pool : gmap Z CTxMemPoolEntry) (a0 : BlockAssembler) (scriptPubKeyIn : list ScriptItem)
    (fMineWitnessTx fProofOfFullNode : bool) (t : CBlockTemplate) (T : CTransaction) :
  mempool_consistent pool →
  pblocktemplate
    (CreateNewBlock K N args pool a0 scriptPubKeyIn fMineWitnessTx false fProofOfFullNode)
  = Some t →
  Some T ∈ selected_vtx K N pool a0 false →
  let dup := setDuplicate (screening_of K N pool a0 false) in
  let included := ∃ i, (1 ≤ i)%nat ∧ block_vtx (block t) !! i = Some (Some T) in
  (included ↔
     (GetHash T ∉ dup)
     ∧ (IsZerocoinSpend (tx T) = true ∨ vin0_IsAnonInput (tx T) = true
        ∨ HaveInputs N T = true))
  ∧ (IsZerocoinSpend (tx T) = false → IsZerocoinMint (tx T) = false →
     (included ↔ vin0_IsAnonInput (tx T) = true ∨ HaveInputs N T = true)).
Proof.
  intros Hc Ht Hsel dup included.
  apply CreateNewBlock_Some in Ht as (s & stake & nTimeStake & nBits0 & _ & Hs & Ht & _).
  destruct (selected_vtx_head _ _ _ _ _ _ Hs) as (l & Hl & _).
  fold dup in Ht. rewrite Hl, vtxReplace_head in Ht.
  destruct (template_vtx_head _ _ _ _ _ _ _ _ _ _ _ _ _ Ht eq_refl)
    as (coinbase & _ & _ & _ & Hpow).
  specialize (Hpow eq_refl).
  assert (Hincl : included ↔ kept N dup (Some T) = true).
  { unfold included. rewrite Hpow. split.
    - intros (i & Hi & HT). destruct i as [|i]; [lia |]. simpl in HT.
      apply list_elem_of_lookup_2, elem_of_vtxReplace in HT as [Hk _]. exact Hk.
    - intros Hk.
      assert (Hin : Some T ∈ vtxReplace N dup l).
      { apply elem_of_vtxReplace. split; [exact Hk |].
        rewrite Hl in Hsel. apply elem_of_cons in Hsel as [Hsel|Hsel];
          [discriminate | exact Hsel]. }
      apply list_elem_of_lookup in Hin as [i Hi]. exists (S i). split; [lia | exact Hi]. }
  split; [rewrite Hincl; apply kept_true |].
  intros Hspend Hmint. rewrite Hincl, kept_true.
  assert (Hnot : GetHash T ∉ dup).
  { intros Hdup. unfold dup, screening_of, screen_block in Hdup.
    apply screen_duplicate_turn in Hdup as [Hdup|(l1 & X & l2 & HlX & Hh & Hm)];
      [simpl in Hdup; set_solver |].
    assert (HX : X = T).
    { apply (NoDup_fmap_eq GetHash (omap id (selected_vtx K N pool a0 false)));
        [apply selected_hashes_NoDup, Hc | | | exact Hh].
      - apply list_elem_of_omap. exists (Some X). split; [|reflexivity].
        rewrite HlX. apply elem_of_app. right. apply elem_of_cons. auto.
      - apply list_elem_of_omap. exists (Some T). split; [exact Hsel | reflexivity]. }
    subst X. apply marks_duplicate_privacy in Hm as [[Hm _]|[Hm _]]; congruence. }
  rewrite Hspend. split.
  - intros [_ [H|H]]; [discriminate | exact H].
  - intros H. split; [exact Hnot | right; exact H].
Qed.

Lemma CreateNewBlock_keeps_exactly_witness :
  ∃ t,
    pblocktemplate (CreateNewBlock K0 N_pubcoin_600 args0 pool_mint_child assembler0
                      [Opcode 5] false false false) = Some t
    ∧ let dup := setDuplicate (screening_of K0 N_pubcoin_600 pool_mint_child assembler0 false) in
      let included :=
        ∃ i, (1 ≤ i)%nat ∧ block_vtx (block t) !! i = Some (Some tx_mint_600) in
      (included ↔
         (GetHash tx_mint_600 ∉ dup)
         ∧ (IsZerocoinSpend (tx tx_mint_600) = true
            ∨ vin0_IsAnonInput (tx tx_mint_600) = true
            ∨ HaveInputs N_pubcoin_600 tx_mint_600 = true))
      ∧ (IsZerocoinSpend (tx tx_mint_600) = false →
         IsZerocoinMint (tx tx_mint_600) = false →
         (included ↔ vin0_IsAnonInput (tx tx_mint_600) = true
                     ∨ HaveInputs N_pubcoin_600 tx_mint_600 = true)).
Proof.
  eexists. split; [vm_compute; reflexivity |].
  apply (CreateNewBlock_keeps_exactly K0 N_pubcoin_600 args0 pool_mint_child assembler0
           [Opcode 5] false false).
  - apply (bool_decide_unpack _). vm_compute. reflexivity.
  - vm_compute. reflexivity.
  - replace (selected_vtx K0 N_pubcoin_600 pool_mint_child assembler0 false)
      with [None; Some tx_mint_600; Some tx_child_spend] by (vm_compute; reflexivity).
    apply elem_of_cons. right. apply elem_of_cons. left. reflexivity.
Defined.

(** ** How the selection loop ends *)

Lemma modified_begin_None m : modified_begin m = None → m = ∅.
Proof.
  unfold modified_begin. intros H.
  destruct (merge_sort modified_score_le (snd <$> map_to_list m)) as [|x l] eqn:Hs;
    [|discriminate].
  assert (Hp := merge_sort_Permutation modified_score_le (snd <$> map_to_list m)).
  rewrite Hs in Hp. symmetry in Hp. apply Permutation_nil_r in Hp.
  apply fmap_nil_inv in Hp. apply map_to_list_empty_iff in Hp. exact Hp.
Qed.

Lemma consider_package_break K N pool s it b modit s' :
  consider_package K N pool s it b modit = Break s' →
  MAX_CONSECUTIVE_FAILURES < nConsecutiveFailed s'
  ∧ u32 (nBlockMaxWeight (assembler s') - 4000) < nBlockWeight (assembler s').
Proof.
  unfold consider_package.
  destruct (decide (it ∈ inBlock (assembler s))); [discriminate |].
  cbv zeta.
  destruct (TestPackage K (assembler s) _ _); simpl negb; cbv iota.
  - destruct (TestPackageTransactions N pool (assembler s) _); discriminate.
  - match goal with |- context [if ?c then Break _ else _] => destruct c eqn:Hc end;
      [|discriminate].
    intros H; inversion H; subst; clear H. simpl.
    apply andb_true_iff in Hc as [H1 H2]. simpl in H1.
    rewrite drop_failed_assembler in *.
    apply Z.ltb_lt in H1. apply Z.ltb_lt in H2. auto.
Qed.

(** X24: [addPackageTxs] stops in one of two ways only: the walk of the
    ancestor-score index is over and [mapModifiedTx] is empty, or more than
    [MAX_CONSECUTIVE_FAILURES] packages in a row have failed [TestPackage]
    and the block weight is above [nBlockMaxWeight - 4000]. *)
Theorem addPackageTxs_stops_only_when (K : Constants) (N : Node)
    (pool : gmap Z CTxMemPoolEntry) (a : BlockAssembler) (fuel : nat)
    (s : PackageSelection) :
  addPackageTxs fuel K N pool a = Finished s →
  (mi s = [] ∧ mapModifiedTx s = ∅)
  ∨ (MAX_CONSECUTIVE_FAILURES < nConsecutiveFailed s
     ∧ u32 (nBlockMaxWeight (assembler s) - 4000) < nBlockWeight (assembler s)).
Proof.
  unfold addPackageTxs. generalize (addPackageTxs_init pool a). intros s0.
  revert s0. induction fuel as [|fuel IH]; intros s0; simpl; [discriminate |].
  destruct (addPackageTxs_step K N pool s0) as [s1|s1|] eqn:Hstep; [| |discriminate].
  - apply IH.
  - intros H. inversion H; subst s1; clear H. revert Hstep. unfold addPackageTxs_step.
    destruct (mi s0) as [|it rest] eqn:Hmi,
      (modified_begin (mapModifiedTx s0)) as [m|] eqn:Hm.
    + intros H. right. apply (consider_package_break _ _ _ _ _ _ _ _ H).
    + intros H. inversion H; subst. left. split; [exact Hmi |].
      apply modified_begin_None, Hm.
    + destruct (SkipMapTxEntry _ _ _ _); [discriminate |].
      destruct (CompareTxMemPoolEntryByAncestorFee _ _ _ _ _ _);
        intros H; right; apply (consider_package_break _ _ _ _ _ _ _ _ H).
    + destruct (SkipMapTxEntry _ _ _ _); [discriminate |].
      intros H. right. apply (consider_package_break _ _ _ _ _ _ _ _ H).
Qed.

Lemma addPackageTxs_stops_only_when_witness :
  ∃ s,
    addPackageTxs 10 K0 N0 pool_ABC assembler1 = Finished s
    ∧ ((mi s = [] ∧ mapModifiedTx s = ∅)
       ∨ (MAX_CONSECUTIVE_FAILURES < nConsecutiveFailed s
          ∧ u32 (nBlockMaxWeight (assembler s) - 4000) < nBlockWeight (assembler s))).
Proof.
  eexists. split; [vm_compute; reflexivity |].
  apply (addPackageTxs_stops_only_when K0 N0 pool_ABC assembler1 10).
  vm_compute. reflexivity.
Defined.

(** * The screening of a template, transaction by transaction *)

Lemma check_hashes_subset inChain hashes seen :
  (check_hashes inChain hashes seen).1 ⊆ list_to_set hashes ∪ seen.
Proof.
  revert seen. induction hashes as [|h rest IH]; intros seen; simpl; [set_solver |].
  destruct (decide (h ∈ seen)); [set_solver |].
  destruct (inChain h); [set_solver |].
  etransitivity; [apply IH |]. set_solver.
Qed.

Lemma screen_tx_sets_subset N height sc X :
  setSerials (screen_tx N height sc X) ⊆ setTxSerialHashes X ∪ setSerials sc
  ∧ setPubcoins (screen_tx N height sc X) ⊆ setTxPubcoinHashes X ∪ setPubcoins sc.
Proof.
  assert (Hs := check_hashes_subset (λ h, IsSerialInBlockchain N h height)
                  (in_order (setTxSerialHashes X)) (setSerials sc)).
  assert (Hp := check_hashes_subset (λ h, IsPubcoinInBlockchain N h (chainActive_Tip N))
                  (in_order (setTxPubcoinHashes X)) (setPubcoins sc)).
  assert (Hs' : (check_serials N height (in_order (setTxSerialHashes X)) (setSerials sc)).1
                ⊆ setTxSerialHashes X ∪ setSerials sc).
  { intros h Hh. apply Hs in Hh. revert Hh.
    rewrite !elem_of_union, elem_of_list_to_set, elem_of_in_order. auto. }
  assert (Hp' : (check_pubcoins N (in_order (setTxPubcoinHashes X)) (setPubcoins sc)).1
                ⊆ setTxPubcoinHashes X ∪ setPubcoins sc).
  { intros h Hh. apply Hp in Hh. revert Hh.
    rewrite !elem_of_union, elem_of_list_to_set, elem_of_in_order. auto. }
  unfold screen_tx.
  destruct (check_serials N height _ _).2; simpl; [split; [exact Hs' | set_solver] |].
  destruct (check_pubcoins N _ _).2; simpl; split; assumption.
Qed.

(** A hash in the sets was put there in the turn of a transaction that
    carries it. *)
Lemma screen_sets_subset N height sc l h :
  (h ∈ setSerials (foldl (screen_ref N height) sc l) →
   h ∈ setSerials sc ∨ ∃ Z, Some Z ∈ l ∧ h ∈ setTxSerialHashes Z)
  ∧ (h ∈ setPubcoins (foldl (screen_ref N height) sc l) →
     h ∈ setPubcoins sc ∨ ∃ Z, Some Z ∈ l ∧ h ∈ setTxPubcoinHashes Z).
Proof.
  revert sc. induction l as [|r l IH]; intros sc; simpl; [auto |].
  destruct (IH (screen_ref N height sc r)) as [IHs IHp].
  assert (Hlater : ∀ P : CTransaction → Prop,
            (∃ Z, Some Z ∈ l ∧ P Z) → ∃ Z, Some Z ∈ r :: l ∧ P Z).
  { intros P (Z & HZ & HP). exists Z. split; [apply elem_of_cons; auto | exact HP]. }
  destruct r as [X|]; simpl in *.
  - destruct (screen_tx_sets_subset N height sc X) as [Hs Hp].
    split; intros Hh; [apply IHs in Hh | apply IHp in Hh];
      (destruct Hh as [Hh|Hh]; [|right; apply Hlater, Hh]);
      [apply Hs in Hh | apply Hp in Hh];
      (apply elem_of_union in Hh as [Hh|Hh]; [|left; exact Hh]);
      right; exists X; (split; [apply elem_of_cons; auto | exact Hh]).
  - split; intros Hh; [apply IHs in Hh | apply IHp in Hh];
      (destruct Hh as [Hh|Hh]; [left; exact Hh | right; apply Hlater, Hh]).
Qed.

(** Where transaction hashes are distinct, a transaction is in the final
    [setDuplicate] exactly when its own turn marks it. *)
Lemma screen_marked_iff N height sc l1 Y l2 :
  NoDup (GetHash <$> omap id (l1 ++ Some Y :: l2)) →
  GetHash Y ∉ setDuplicate sc →
  GetHash Y ∈ setDuplicate (foldl (screen_ref N height) sc (l1 ++ Some Y :: l2))
  ↔ marks_duplicate N height (foldl (screen_ref N height) sc l1) Y = true.
Proof.
  intros Hnd Hsc. split; [|apply screen_marked_stays].
  rewrite omap_app, fmap_app in Hnd. simpl in Hnd.
  apply NoDup_app in Hnd as (_ & Hfront & Hnd). apply NoDup_cons in Hnd as [Hback _].
  assert (Hbefore : GetHash Y ∉ setDuplicate (foldl (screen_ref N height) sc l1)).
  { intros Hin. apply screen_duplicate_hashes in Hin as [Hin|(X & HX & Hh)]; [auto |].
    apply (Hfront (GetHash Y)); [|apply elem_of_cons; auto].
    apply list_elem_of_fmap. exists X. split; [auto |].
    apply list_elem_of_omap. exists (Some X). auto. }
  rewrite foldl_app. simpl. intros Hin.
  destruct (marks_duplicate N height (foldl (screen_ref N height) sc l1) Y) eqn:Hm;
    [reflexivity | exfalso].
  apply screen_duplicate_hashes in Hin as [Hin|(X & HX & Hh)].
  - apply screen_tx_unmarked in Hm as [Hm _]. rewrite Hm in Hin. auto.
  - apply Hback. apply list_elem_of_fmap. exists X. split; [auto |].
    apply list_elem_of_omap. exists (Some X). auto.
Qed.

Lemma lookup_two_split_take {A} (l : list A) i j x y :
  l !! i = Some x → l !! j = Some y → (i < j)%nat →
  ∃ l2, take j l = take i l ++ x :: l2
        ∧ l = take i l ++ x :: l2 ++ y :: drop (S j) l
        ∧ ∀ z, z ∈ l2 → ∃ k, (i < k < j)%nat ∧ l !! k = Some z.
Proof.
  intros Hi Hj Hlt. exists (take (j - S i) (drop (S i) l)).
  assert (Htake : take j l = take i l ++ x :: take (j - S i) (drop (S i) l)).
  { rewrite <- (take_drop_middle l i x Hi) at 1.
    rewrite take_app, length_take_le by (apply lookup_lt_Some in Hi; lia).
    rewrite take_ge by (rewrite length_take; lia).
    replace (j - i)%nat with (S (j - S i)) by lia. reflexivity. }
  split; [exact Htake |]. split.
  - rewrite <- (take_drop_middle l j y Hj) at 1. rewrite Htake, <- app_assoc. reflexivity.
  - intros z Hz. apply list_elem_of_lookup in Hz as [k Hk].
    apply lookup_take_Some in Hk as [Hk Hlen]. rewrite lookup_drop in Hk.
    exists (S i + k)%nat. split; [lia | exact Hk].
Qed.

Lemma elem_of_take_lookup {A} (l : list A) i z :
  z ∈ take i l → ∃ k, (k < i)%nat ∧ l !! k = Some z.
Proof.
  intros Hz. apply list_elem_of_lookup in Hz as [k Hk].
  apply lookup_take_Some in Hk as [Hk Hlen]. eauto.
Qed.

Lemma screening_of_split K N pool a0 fPoS i X :
  selected_vtx K N pool a0 fPoS !! i = Some (Some X) →
  selected_vtx K N pool a0 fPoS
  = take i (selected_vtx K N pool a0 fPoS) ++ Some X
      :: drop (S i) (selected_vtx K N pool a0 fPoS).
Proof. intros Hi. symmetry. apply take_drop_middle, Hi. Qed.

(** Where transaction hashes are distinct, a selected transaction is marked
    duplicate exactly when its own turn in the loop marks it. *)
Lemma selected_marked_iff K N pool a0 fPoS i Y :
  mempool_consistent pool →
  selected_vtx K N pool a0 fPoS !! i = Some (Some Y) →
  GetHash Y ∈ setDuplicate (screening_of K N pool a0 fPoS)
  ↔ marks_duplicate N (bi_nHeight (chainActive_Tip N) + 1)
      (screening_before K N pool a0 fPoS i) Y = true.
Proof.
  intros Hc Hi. unfold screening_of, screening_before, screen_block.
  assert (Hnd := selected_hashes_NoDup K N pool a0 fPoS Hc).
  rewrite (screening_of_split K N pool a0 fPoS i Y Hi) in Hnd at 1.
  rewrite (screening_of_split K N pool a0 fPoS i Y Hi) at 1.
  apply screen_marked_iff; [exact Hnd | simpl; set_solver].
Qed.

(** The second of two transactions is not marked on account of the first
    when the first is marked before any hash they share is recorded, unless
    the chain or another earlier transaction gives a reason. *)
Lemma second_not_marked N height reserve0 l1 X l2 Y examinedS examinedP :
  marked_after N height (screen_block N height reserve0 l1) X examinedS examinedP →
  (∀ h, h ∈ examinedS → h ∉ setTxSerialHashes Y) →
  (∀ h, h ∈ examinedP → h ∉ setTxPubcoinHashes Y) →
  (∀ h, h ∈ setTxSerialHashes Y → IsSerialInBlockchain N h height = false) →
  (∀ h, h ∈ setTxPubcoinHashes Y →
        IsPubcoinInBlockchain N h (chainActive_Tip N) = false) →
  (∀ Z, Some Z ∈ l1 ∨ Some Z ∈ l2 →
        setTxSerialHashes Z ## setTxSerialHashes Y
        ∧ setTxPubcoinHashes Z ## setTxPubcoinHashes Y) →
  marks_duplicate N height (screen_block N height reserve0 (l1 ++ Some X :: l2)) Y = false.
Proof.
  intros Hmark HeS HeP HchainS HchainP Hothers.
  apply marked_after_screen_tx in Hmark as (_ & HS & HP & _ & _).
  set (before := screen_block N height reserve0 l1) in *.
  set (sc := screen_block N height reserve0 (l1 ++ Some X :: l2)).
  assert (Hsc : sc = foldl (screen_ref N height) (screen_tx N height before X) l2).
  { unfold sc, before, screen_block. rewrite foldl_app. reflexivity. }
  assert (HfreshS : ∀ h, h ∈ setTxSerialHashes Y → h ∉ setSerials sc).
  { intros h Hh Hin. rewrite Hsc in Hin.
    apply (screen_sets_subset N height) in Hin as [Hin|(Z & HZ & HhZ)].
    - rewrite HS in Hin. apply elem_of_union in Hin as [Hin|Hin].
      + apply elem_of_list_to_set in Hin. apply (HeS h Hin Hh).
      + apply (screen_sets_subset N height) in Hin as [Hin|(Z & HZ & HhZ)];
          [simpl in Hin; set_solver |].
        destruct (Hothers Z (or_introl HZ)) as [Hd _].
        apply (elem_of_disjoint (setTxSerialHashes Z)) in Hd. apply (Hd h HhZ Hh).
    - destruct (Hothers Z (or_intror HZ)) as [Hd _].
      apply (elem_of_disjoint (setTxSerialHashes Z)) in Hd. apply (Hd h HhZ Hh). }
  assert (HfreshP : ∀ h, h ∈ setTxPubcoinHashes Y → h ∉ setPubcoins sc).
  { intros h Hh Hin. rewrite Hsc in Hin.
    apply (screen_sets_subset N height) in Hin as [Hin|(Z & HZ & HhZ)].
    - rewrite HP in Hin. apply elem_of_union in Hin as [Hin|Hin].
      + apply elem_of_list_to_set in Hin. apply (HeP h Hin Hh).
      + apply (screen_sets_subset N height) in Hin as [Hin|(Z & HZ & HhZ)];
          [simpl in Hin; set_solver |].
        destruct (Hothers Z (or_introl HZ)) as [_ Hd].
        apply (elem_of_disjoint (setTxPubcoinHashes Z)) in Hd. apply (Hd h HhZ Hh).
    - destruct (Hothers Z (or_intror HZ)) as [_ Hd].
      apply (elem_of_disjoint (setTxPubcoinHashes Z)) in Hd. apply (Hd h HhZ Hh). }
  unfold marks_duplicate, check_serials, check_pubcoins.
  rewrite (check_hashes_all_pass _ _ _ (NoDup_in_order _)).
  2:{ intros h Hh. apply elem_of_in_order in Hh. split; [apply HfreshS, Hh | apply HchainS, Hh]. }
  rewrite (check_hashes_all_pass _ _ _ (NoDup_in_order _)).
  2:{ intros h Hh. apply elem_of_in_order in Hh. split; [apply HfreshP, Hh | apply HchainP, Hh]. }
  reflexivity.
Qed.

(** C3, as the code has it.  Among the mempool transactions of a template
    (the entries of [block.vtx] after the coinbase slot and, for proof of
    stake, the coinstake slot): no two share a serial hash or a pubcoin hash,
    and none carries a serial or pubcoin that the chain lookup reports.  Every
    selected transaction that the screening marks duplicate is absent from
    them and is handed to [mempool.removeRecursive].  Of two selected
    transactions that share a serial hash, when the first is not marked
    duplicate it is kept by the rebuild (and is in a proof-of-work template)
    and the second is marked duplicate and removed.  When the first is marked
    duplicate at a collision that comes before any hash it shares with the
    second is recorded, the second is not marked on its account: unless one of
    its hashes is confirmed in the chain or carried by another transaction
    selected before it, it is not marked, not handed to
    [mempool.removeRecursive], kept by the rebuild and in a proof-of-work
    template (this last part on a consistent mempool, whose transaction
    hashes are distinct). *)
Theorem CreateNewBlock_privacy_screening (K : Constants) (N : Node) (args : gArgs)
    (pool : gmap Z CTxMemPoolEntry) (a0 : BlockAssembler) (scriptPubKeyIn : list ScriptItem)
    (fMineWitnessTx fPoS fProofOfFullNode : bool) (t : CBlockTemplate) :
  pblocktemplate
    (CreateNewBlock K N args pool a0 scriptPubKeyIn fMineWitnessTx fPoS fProofOfFullNode)
  = Some t →
  let call :=
    CreateNewBlock K N args pool a0 scriptPubKeyIn fMineWitnessTx fPoS fProofOfFullNode in
  let body := drop (first_pool_slot fPoS) (block_vtx (block t)) in
  let selected := selected_vtx K N pool a0 fPoS in
  let dup := setDuplicate (screening_of K N pool a0 fPoS) in
  let height := bi_nHeight (chainActive_Tip N) + 1 in
  (∀ i j X Y, (i < j)%nat → body !! i = Some (Some X) → body !! j = Some (Some Y) →
     setTxSerialHashes X ## setTxSerialHashes Y
     ∧ setTxPubcoinHashes X ## setTxPubcoinHashes Y)
  ∧ (∀ X, Some X ∈ body →
       (∀ h, h ∈ setTxSerialHashes X → IsSerialInBlockchain N h height = false)
       ∧ (∀ h, h ∈ setTxPubcoinHashes X →
               IsPubcoinInBlockchain N h (chainActive_Tip N) = false))
  ∧ (∀ X, Some X ∈ selected → GetHash X ∈ dup →
       (Some X ∉ body) ∧ X ∈ removeRecursive_calls call)
  ∧ (∀ i j X Y h, (i < j)%nat →
       selected !! i = Some (Some X) → selected !! j = Some (Some Y) →
       h ∈ setTxSerialHashes X → h ∈ setTxSerialHashes Y →
       GetHash X ∉ dup →
       Some X ∈ vtxReplace N dup selected
       ∧ (fPoS = false → Some X ∈ body)
       ∧ GetHash Y ∈ dup
       ∧ Some Y ∉ body)
  ∧ (mempool_consistent pool →
     ∀ i j X Y h examinedS examinedP, (i < j)%nat →
       selected !! i = Some (Some X) → selected !! j = Some (Some Y) →
       h ∈ setTxSerialHashes X → h ∈ setTxSerialHashes Y →
       marked_after N height (screening_before K N pool a0 fPoS i) X examinedS examinedP →
       (∀ h', h' ∈ examinedS → h' ∉ setTxSerialHashes Y) →
       (∀ h', h' ∈ examinedP → h' ∉ setTxPubcoinHashes Y) →
       (∀ h', h' ∈ setTxSerialHashes Y → IsSerialInBlockchain N h' height = false) →
       (∀ h', h' ∈ setTxPubcoinHashes Y →
              IsPubcoinInBlockchain N h' (chainActive_Tip N) = false) →
       (∀ k Z, (k < j)%nat → k ≠ i → selected !! k = Some (Some Z) →
          setTxSerialHashes Z ## setTxSerialHashes Y
          ∧ setTxPubcoinHashes Z ## setTxPubcoinHashes Y) →
       GetHash X ∈ dup
       ∧ (Some X ∉ body)
       ∧ (GetHash Y ∉ dup)
       ∧ (Y ∉ removeRecursive_calls call)
       ∧ Some Y ∈ vtxReplace N dup selected
       ∧ (fPoS = false → Some Y ∈ body)).
Proof.
  intros Ht call body selected dup height.
  apply CreateNewBlock_Some in Ht as (s & txCoinStake & nTimeStake & nBits0 & _ & Hs & Hfin & Hrem).
  fold selected dup call in Hfin, Hrem.
  assert (Hbody := template_body _ _ _ _ _ _ _ _ _ _ _ _ Hfin). fold body in Hbody.
  destruct (template_body_sublist _ _ _ _ _ _ _ _ _ _ _ _ _ Hfin) as [Hsub1 Hsub2].
  fold body in Hsub1.
  assert (Hsub : body `sublist_of` selected) by (etransitivity; eassumption).
  assert (Hkept : ∀ X, Some X ∈ body → GetHash X ∉ dup).
  { intros X HX. apply (elem_of_sublist _ _ _ HX) in Hsub1.
    apply elem_of_vtxReplace in Hsub1 as [Hk _]. apply kept_true in Hk as [Hk _]. exact Hk. }
  assert (Hdrop : ∀ X, GetHash X ∈ dup → Some X ∉ body).
  { intros X HX Hin. apply (Hkept X Hin HX). }
  assert (Hshare : ∀ i j X Y h, (i < j)%nat →
            selected !! i = Some (Some X) → selected !! j = Some (Some Y) →
            h ∈ setTxSerialHashes X → h ∈ setTxSerialHashes Y →
            GetHash X ∉ dup → GetHash Y ∈ dup).
  { intros i j X Y h Hlt Hi Hj HhX HhY HX.
    destruct (lookup_two_split _ _ _ _ _ Hi Hj Hlt) as (l1 & l2 & l3 & Hsel).
    destruct (decide (GetHash Y ∈ dup)) as [HY|HY]; [exact HY | exfalso].
    unfold dup, screening_of, screen_block in HX, HY. fold selected in HX, HY.
    rewrite Hsel in HX, HY.
    destruct (screen_unmarked_disjoint _ _ _ _ _ _ _ _ HX HY) as [Hd _].
    apply (elem_of_disjoint (setTxSerialHashes X) (setTxSerialHashes Y)) in Hd.
    apply (Hd h); assumption. }
  assert (Hstays : ∀ i X h, selected !! i = Some (Some X) → h ∈ setTxSerialHashes X →
            GetHash X ∉ dup → Some X ∈ vtxReplace N dup selected).
  { intros i X h Hi Hh HX. apply elem_of_vtxReplace.
    split; [|apply list_elem_of_lookup; eauto].
    apply kept_true. split; [exact HX |]. left.
    unfold setTxSerialHashes in Hh.
    destruct (IsZerocoinSpend (tx X)); [reflexivity | set_solver]. }
  assert (Hpow : ∀ X, fPoS = false → Some X ∈ vtxReplace N dup selected → Some X ∈ body).
  { intros X HPoW HXin. rewrite Hbody, HPoW. simpl first_pool_slot.
    destruct (selected_vtx_head _ _ _ _ _ _ Hs) as (l & Hl & _). fold selected in Hl.
    rewrite Hl, vtxReplace_head in HXin |- *. simpl.
    apply elem_of_cons in HXin as [HXin|HXin]; [discriminate | exact HXin]. }
  split; [|split; [|split; [|split]]].
  - intros i j X Y Hlt Hi Hj.
    destruct (sublist_two_split _ _ _ _ _ _ Hsub Hi Hj Hlt) as (l1 & l2 & l3 & Hsel).
    assert (HX : GetHash X ∉ dup) by (apply Hkept, list_elem_of_lookup; eauto).
    assert (HY : GetHash Y ∉ dup) by (apply Hkept, list_elem_of_lookup; eauto).
    unfold dup, screening_of, screen_block in HX, HY. fold selected in HX, HY.
    rewrite Hsel in HX, HY.
    apply (screen_unmarked_disjoint _ _ _ _ _ _ _ _ HX HY).
  - intros X HXin. assert (HX := Hkept X HXin).
    apply (elem_of_sublist _ _ _ HXin) in Hsub.
    apply list_elem_of_split in Hsub as (l1 & l2 & Hsel).
    unfold dup, screening_of, screen_block in HX. fold selected in HX. rewrite Hsel in HX.
    apply (screen_unmarked_fresh _ _ _ _ _ _ HX).
  - intros X HXin HX. split; [apply Hdrop, HX |].
    rewrite Hrem. apply elem_of_removed_recursively. auto.
  - intros i j X Y h Hlt Hi Hj HhX HhY HX.
    assert (HY := Hshare i j X Y h Hlt Hi Hj HhX HhY HX).
    assert (HXin := Hstays i X h Hi HhX HX).
    split; [exact HXin |]. split; [|split; [exact HY | apply Hdrop, HY]].
    intros HPoW. apply Hpow; assumption.
  - intros Hc i j X Y h eS eP Hlt Hi Hj HhX HhY Hmark HeS HeP HchainS HchainP Hothers.
    assert (HXd : GetHash X ∈ dup).
    { apply (selected_marked_iff K N pool a0 fPoS i X Hc Hi).
      apply marked_after_screen_tx in Hmark as [Hm _]. exact Hm. }
    assert (HYd : GetHash Y ∉ dup).
    { intros HY. apply (selected_marked_iff K N pool a0 fPoS j Y Hc Hj) in HY.
      destruct (lookup_two_split_take selected i j _ _ Hi Hj Hlt) as (l2 & Htake & _ & Hl2).
      unfold screening_before in HY, Hmark. fold selected height in HY, Hmark.
      rewrite Htake in HY.
      rewrite (second_not_marked N height _ (take i selected) X l2 Y eS eP
                 Hmark HeS HeP HchainS HchainP) in HY; [discriminate |].
      intros Z [HZ|HZ].
      - apply elem_of_take_lookup in HZ as (k & Hk & HZ).
        apply (Hothers k Z); [lia | lia | exact HZ].
      - apply Hl2 in HZ as (k & Hk & HZ). apply (Hothers k Z); [lia | lia | exact HZ]. }
    assert (HYin := Hstays j Y h Hj HhY HYd).
    split; [exact HXd |]. split; [apply Hdrop, HXd |]. split; [exact HYd |].
    split; [|split; [exact HYin | intros HPoW; apply Hpow; assumption]].
    rewrite Hrem. intros Hin. apply elem_of_removed_recursively in Hin as [_ Hin]. auto.
Qed.

Lemma CreateNewBlock_privacy_screening_witness :
  ∃ t,
    pblocktemplate (CreateNewBlock K0 N_serial_500 args0 pool_two_spends assembler0
                      [Opcode 5] false false false) = Some t
    ∧ let call :=
        CreateNewBlock K0 N_serial_500 args0 pool_two_spends assembler0 [Opcode 5]
          false false false in
      let body := drop (first_pool_slot false) (block_vtx (block t)) in
      let selected := selected_vtx K0 N_serial_500 pool_two_spends assembler0 false in
      let dup := setDuplicate (screening_of K0 N_serial_500 pool_two_spends assembler0 false) in
      let height := bi_nHeight (chainActive_Tip N_serial_500) + 1 in
      (∀ i j X Y, (i < j)%nat → body !! i = Some (Some X) → body !! j = Some (Some Y) →
         setTxSerialHashes X ## setTxSerialHashes Y
         ∧ setTxPubcoinHashes X ## setTxPubcoinHashes Y)
      ∧ (∀ X, Some X ∈ body →
           (∀ h, h ∈ setTxSerialHashes X → IsSerialInBlockchain N_serial_500 h height = false)
           ∧ (∀ h, h ∈ setTxPubcoinHashes X →
                   IsPubcoinInBlockchain N_serial_500 h (chainActive_Tip N_serial_500) = false))
      ∧ (∀ X, Some X ∈ selected → GetHash X ∈ dup →
           (Some X ∉ body) ∧ X ∈ removeRecursive_calls call)
      ∧ (∀ i j X Y h, (i < j)%nat →
           selected !! i = Some (Some X) → selected !! j = Some (Some Y) →
           h ∈ setTxSerialHashes X → h ∈ setTxSerialHashes Y →
           GetHash X ∉ dup →
           Some X ∈ vtxReplace N_serial_500 dup selected
           ∧ (false = false → Some X ∈ body)
           ∧ GetHash Y ∈ dup
           ∧ Some Y ∉ body)
      ∧ (mempool_consistent pool_two_spends →
         ∀ i j X Y h examinedS examinedP, (i < j)%nat →
           selected !! i = Some (Some X) → selected !! j = Some (Some Y) →
           h ∈ setTxSerialHashes X → h ∈ setTxSerialHashes Y →
           marked_after N_serial_500 height
             (screening_before K0 N_serial_500 pool_two_spends assembler0 false i) X
             examinedS examinedP →
           (∀ h', h' ∈ examinedS → h' ∉ setTxSerialHashes Y) →
           (∀ h', h' ∈ examinedP → h' ∉ setTxPubcoinHashes Y) →
           (∀ h', h' ∈ setTxSerialHashes Y →
                  IsSerialInBlockchain N_serial_500 h' height = false) →
           (∀ h', h' ∈ setTxPubcoinHashes Y →
                  IsPubcoinInBlockchain N_serial_500 h' (chainActive_Tip N_serial_500) = false) →
           (∀ k Z, (k < j)%nat → k ≠ i → selected !! k = Some (Some Z) →
              setTxSerialHashes Z ## setTxSerialHashes Y
              ∧ setTxPubcoinHashes Z ## setTxPubcoinHashes Y) →
           GetHash X ∈ dup
           ∧ (Some X ∉ body)
           ∧ (GetHash Y ∉ dup)
           ∧ (Y ∉ removeRecursive_calls call)
           ∧ Some Y ∈ vtxReplace N_serial_500 dup selected
           ∧ (false = false → Some Y ∈ body)).
Proof.
  eexists. split; [vm_compute; reflexivity |].
  apply (CreateNewBlock_privacy_screening K0 N_serial_500 args0 pool_two_spends assembler0
           [Opcode 5] false false false).
  vm_compute. reflexivity.
Defined.

(** C3 as stated fails: the mempool holds two spends of serial 501; the one
    selected first also spends serial 500, which the chain has confirmed.  The
    first is marked duplicate and removed before serial 501 is recorded, and
    the second stays in the template. *)
Lemma first_spend_removed_second_stays :
  ∃ t coinbase,
    pblocktemplate (CreateNewBlock K0 N_serial_500 args0 pool_two_spends assembler0
                      [Opcode 5] false false false) = Some t
    ∧ selected_vtx K0 N_serial_500 pool_two_spends assembler0 false
      = [None; Some tx_spend_500_501; Some tx_spend_501]
    ∧ 501 ∈ setTxSerialHashes tx_spend_500_501
    ∧ 501 ∈ setTxSerialHashes tx_spend_501
    ∧ block_vtx (block t) = [Some coinbase; Some tx_spend_501]
    ∧ removeRecursive_calls
        (CreateNewBlock K0 N_serial_500 args0 pool_two_spends assembler0
           [Opcode 5] false false false) = [tx_spend_500_501].
Proof.
  eexists _, _.
  split; [vm_compute; reflexivity |].
  split; [vm_compute; reflexivity |].
  split; [apply (bool_decide_unpack _); vm_compute; reflexivity |].
  split; [apply (bool_decide_unpack _); vm_compute; reflexivity |].
  split; vm_compute; reflexivity.
Qed.

(** ** The hashes that a marked transaction had recorded *)

Lemma coinbase_no_hashes N height outs :
  setTxSerialHashes (MakeTransactionRef N (coinbaseTx_new height outs)) = ∅
  ∧ setTxPubcoinHashes (MakeTransactionRef N (coinbaseTx_new height outs)) = ∅.
Proof. split; reflexivity. Qed.

(** C10, as the code has it.  Let the selected transaction [X] be marked
    duplicate in its turn after its serial hashes [examinedS] and its pubcoin
    hashes [examinedP] were examined.  Then the examined hashes are in
    [setSerials] and [setPubcoins] when the loop ends; [X] and every
    transaction selected after it that shares one of them are marked
    duplicate, handed to [mempool.removeRecursive] and absent from the mempool
    transactions of the template; none of these carries an examined hash, and
    in a proof-of-work template no transaction of the block does.  (In a
    proof-of-stake template the coinstake is not covered.) *)
Theorem examined_hashes_remain (K : Constants) (N : Node) (args : gArgs)
    (pool : gmap Z CTxMemPoolEntry) (a0 : BlockAssembler) (scriptPubKeyIn : list ScriptItem)
    (fMineWitnessTx fPoS fProofOfFullNode : bool) (t : CBlockTemplate)
    (i : nat) (X : CTransaction) (examinedS examinedP : list Z) :
  let call :=
    CreateNewBlock K N args pool a0 scriptPubKeyIn fMineWitnessTx fPoS fProofOfFullNode in
  let selected := selected_vtx K N pool a0 fPoS in
  let final := screening_of K N pool a0 fPoS in
  let body := drop (first_pool_slot fPoS) (block_vtx (block t)) in
  pblocktemplate call = Some t →
  selected !! i = Some (Some X) →
  marked_after N (bi_nHeight (chainActive_Tip N) + 1)
    (screening_before K N pool a0 fPoS i) X examinedS examinedP →
  (GetHash X ∈ setDuplicate final ∧ X ∈ removeRecursive_calls call ∧ Some X ∉ body)
  ∧ (∀ h, h ∈ examinedS → h ∈ setSerials final)
  ∧ (∀ h, h ∈ examinedP → h ∈ setPubcoins final)
  ∧ (∀ j Y h, (i < j)%nat → selected !! j = Some (Some Y) →
       (h ∈ examinedS ∧ h ∈ setTxSerialHashes Y)
       ∨ (h ∈ examinedP ∧ h ∈ setTxPubcoinHashes Y) →
       GetHash Y ∈ setDuplicate final ∧ Y ∈ removeRecursive_calls call ∧ Some Y ∉ body)
  ∧ (∀ Z h, Some Z ∈ body →
       (h ∈ examinedS → h ∉ setTxSerialHashes Z)
       ∧ (h ∈ examinedP → h ∉ setTxPubcoinHashes Z))
  ∧ (fPoS = false →
     ∀ Z h, Some Z ∈ block_vtx (block t) →
       (h ∈ examinedS → h ∉ setTxSerialHashes Z)
       ∧ (h ∈ examinedP → h ∉ setTxPubcoinHashes Z)).
Proof.
  intros call selected final body Ht Hi Hmark.
  apply CreateNewBlock_Some in Ht as (s & txCoinStake & nTimeStake & nBits0 & _ & Hs & Hfin & Hrem).
  fold selected final call in Hfin, Hrem.
  assert (Hsel := screening_of_split K N pool a0 fPoS i X Hi). fold selected in Hsel.
  destruct (template_body_sublist _ _ _ _ _ _ _ _ _ _ _ _ _ Hfin) as [Hsub _].
  fold body in Hsub.
  unfold screening_before in Hmark. fold selected in Hmark.
  destruct (screen_examined_hashes N _ _ (take i selected) (drop (S i) selected) X
              examinedS examinedP Hmark) as (HX & HXout & HS & HP & Hlater & Hnone).
  rewrite <- Hsel in HX, HXout, HS, HP, Hlater, Hnone.
  change (screen_block N (bi_nHeight (chainActive_Tip N) + 1)
            (nNetworkRewardReserve (chainActive_Tip N)) selected)
    with final in HX, HXout, HS, HP, Hlater, Hnone.
  assert (Hbody : ∀ Z, Some Z ∈ body → Some Z ∈ vtxReplace N (setDuplicate final) selected).
  { intros Z HZ. apply (elem_of_sublist _ _ _ HZ Hsub). }
  assert (Hcalls : ∀ Y, Some Y ∈ selected → GetHash Y ∈ setDuplicate final →
                        Y ∈ removeRecursive_calls call).
  { intros Y HY Hd. rewrite Hrem. apply elem_of_removed_recursively. auto. }
  split; [|split; [exact HS | split; [exact HP | split; [|split]]]].
  - split; [exact HX |]. split; [apply Hcalls; [apply list_elem_of_lookup; eauto | exact HX] |].
    intros Hin. apply HXout, Hbody, Hin.
  - intros j Y h Hlt Hj Hh.
    assert (HYin : Some Y ∈ drop (S i) selected).
    { apply list_elem_of_lookup. exists (j - S i)%nat. rewrite lookup_drop.
      replace (S i + (j - S i))%nat with j by lia. exact Hj. }
    destruct (Hlater Y h HYin Hh) as (HY & HYout & _).
    split; [exact HY |]. split; [apply Hcalls; [apply list_elem_of_lookup; eauto | exact HY] |].
    intros Hin. apply HYout, Hbody, Hin.
  - intros Z h HZ. apply Hnone, Hbody, HZ.
  - intros HPoW Z h HZ. subst fPoS.
    apply finish_block_Some in Hfin as (outs & _ & Hvtx & _).
    destruct (selected_vtx_head _ _ _ _ _ _ Hs) as (l & Hl & _). fold selected in Hl.
    rewrite Hl, vtxReplace_head in Hvtx. simpl in Hvtx. rewrite Hvtx in HZ.
    apply elem_of_cons in HZ as [HZ|HZ].
    + inversion HZ; subst Z.
      destruct (coinbase_no_hashes N (nHeight (assembler s)) outs) as [-> ->].
      split; intros _; apply not_elem_of_empty.
    + apply Hnone. rewrite Hl, vtxReplace_head. apply elem_of_cons. auto.
Qed.

Lemma examined_hashes_remain_witness :
  ∃ t,
    pblocktemplate (CreateNewBlock K0 N_serial_500 args0 pool_spends_499 assembler0
                      [Opcode 5] false false false) = Some t
    ∧ let call :=
        CreateNewBlock K0 N_serial_500 args0 pool_spends_499 assembler0 [Opcode 5]
          false false false in
      let selected := selected_vtx K0 N_serial_500 pool_spends_499 assembler0 false in
      let final := screening_of K0 N_serial_500 pool_spends_499 assembler0 false in
      let body := drop (first_pool_slot false) (block_vtx (block t)) in
      (GetHash tx_spend_499_500 ∈ setDuplicate final
       ∧ tx_spend_499_500 ∈ removeRecursive_calls call
       ∧ Some tx_spend_499_500 ∉ body)
      ∧ (∀ h, h ∈ [499] → h ∈ setSerials final)
      ∧ (∀ h, h ∈ [] → h ∈ setPubcoins final)
      ∧ (∀ j Y h, (1 < j)%nat → selected !! j = Some (Some Y) →
           (h ∈ [499] ∧ h ∈ setTxSerialHashes Y) ∨ (h ∈ [] ∧ h ∈ setTxPubcoinHashes Y) →
           GetHash Y ∈ setDuplicate final ∧ Y ∈ removeRecursive_calls call
           ∧ Some Y ∉ body)
      ∧ (∀ Z h, Some Z ∈ body →
           (h ∈ [499] → h ∉ setTxSerialHashes Z) ∧ (h ∈ [] → h ∉ setTxPubcoinHashes Z))
      ∧ (false = false →
         ∀ Z h, Some Z ∈ block_vtx (block t) →
           (h ∈ [499] → h ∉ setTxSerialHashes Z) ∧ (h ∈ [] → h ∉ setTxPubcoinHashes Z)).
Proof.
  eexists. split; [vm_compute; reflexivity |].
  apply (examined_hashes_remain K0 N_serial_500 args0 pool_spends_499 assembler0
           [Opcode 5] false false false _ 1%nat tx_spend_499_500 [499] []).
  - vm_compute. reflexivity.
  - vm_compute. reflexivity.
  - left. split; [|reflexivity].
    exists 500, []. split; [vm_compute; reflexivity |]. split.
    + intros x Hx. apply list_elem_of_singleton in Hx. subst x.
      split; [apply (bool_decide_unpack _); vm_compute; reflexivity | vm_compute; reflexivity].
    + right. vm_compute. reflexivity.
Defined.

(** C10 as stated fails for a proof-of-stake template.  The wallet stakes the
    zerocoin of serial 900; the mempool holds a spend of serials 900 and 901,
    selected first, and a spend of serial 900.  The chain has confirmed serial
    901, so the first is marked duplicate after serial 900 was examined and
    recorded, and the second is marked on account of serial 900.  Both are
    removed, and the coinstake, installed after the screening, is in the block
    with serial 900. *)
Lemma coinstake_carries_examined_hash :
  ∃ t coinbase stake,
    pblocktemplate (CreateNewBlock K0 N_staking_901 args0 pool_spends_900 assembler0
                      [Opcode 5] false true false) = Some t
    ∧ selected_vtx K0 N_staking_901 pool_spends_900 assembler0 true
      = [None; Some tx_spend_900_901; Some tx_spend_900]
    ∧ marked_after N_staking_901 (bi_nHeight (chainActive_Tip N_staking_901) + 1)
        (screening_before K0 N_staking_901 pool_spends_900 assembler0 true 1)
        tx_spend_900_901 [900] []
    ∧ 900 ∈ setTxSerialHashes tx_spend_900
    ∧ removeRecursive_calls
        (CreateNewBlock K0 N_staking_901 args0 pool_spends_900 assembler0
           [Opcode 5] false true false) = [tx_spend_900_901; tx_spend_900]
    ∧ block_vtx (block t) = [Some coinbase; Some stake]
    ∧ 900 ∈ setTxSerialHashes stake.
Proof.
  eexists _, _, _.
  split; [vm_compute; reflexivity |].
  split; [vm_compute; reflexivity |].
  split.
  { left. split; [|reflexivity].
    exists 901, []. split; [vm_compute; reflexivity |]. split.
    - intros x Hx. apply list_elem_of_singleton in Hx. subst x.
      split; [apply (bool_decide_unpack _); vm_compute; reflexivity | vm_compute; reflexivity].
    - right. vm_compute. reflexivity. }
  split; [apply (bool_decide_unpack _); vm_compute; reflexivity |].
  split; [vm_compute; reflexivity |].
  split; [vm_compute; reflexivity |].
  apply (bool_decide_unpack _). vm_compute. reflexivity.
Qed.

(** ** Evictions of a call that fails *)

(** X25: once a call of [CreateNewBlock] is past the wallet, the coinstake
    and the mempool lock, the transactions it hands to
    [mempool.removeRecursive] are exactly the selected transactions that
    collide in their own turn of the screening loop, whether or not the call
    returns a template in the end: the calls are made before the coinbase is
    built, the block signed and [TestBlockValidity] run. *)
Theorem CreateNewBlock_evicts_before_failing (K : Constants) (N : Node) (args : gArgs)
    (pool : gmap Z CTxMemPoolEntry) (a0 : BlockAssembler) (scriptPubKeyIn : list ScriptItem)
    (fMineWitnessTx fPoS fProofOfFullNode : bool) :
  mempool_consistent pool →
  (fPoS = true → GetMainWallet N = true) →
  is_Some (stake_stage K N fPoS) →
  mempool_TRY_LOCK N = true →
  let call :=
    CreateNewBlock K N args pool a0 scriptPubKeyIn fMineWitnessTx fPoS fProofOfFullNode in
  ∀ T, T ∈ removeRecursive_calls call
       ↔ ∃ i, selected_vtx K N pool a0 fPoS !! i = Some (Some T)
              ∧ marks_duplicate N (bi_nHeight (chainActive_Tip N) + 1)
                  (screening_before K N pool a0 fPoS i) T = true.
Proof.
  intros Hc Hw Hstake Hlock call T.
  assert (Hcalls : removeRecursive_calls call
                   = removed_recursively (setDuplicate (screening_of K N pool a0 fPoS))
                       (selected_vtx K N pool a0 fPoS)).
  { destruct (selection_of_returns K N pool a0 fPoS Hc Hstake) as [s Hs].
    unfold call, CreateNewBlock, screening_of, selected_vtx. rewrite Hs.
    unfold selection_of in Hs.
    replace (fPoS && negb (GetMainWallet N)) with false
      by (destruct fPoS; [rewrite (Hw eq_refl) |]; reflexivity).
    destruct (stake_stage K N fPoS) as [[[txCoinStake nTimeStake] nBits0]|];
      [|discriminate].
    rewrite Hlock. simpl negb. cbv iota.
    destruct (addPackageTxs _ _ _ _ _) as [s1| |] eqn:Hrun; try discriminate.
    inversion Hs; subst s1. cbn [removeRecursive_calls from_option].
    rewrite (addPackageTxs_loop_nHeight _ _ _ _ _ _ Hrun). reflexivity. }
  rewrite Hcalls, elem_of_removed_recursively. split.
  - intros [Hin Hd]. apply list_elem_of_lookup in Hin as [i Hi]. exists i.
    split; [exact Hi |]. apply (selected_marked_iff K N pool a0 fPoS i T Hc Hi), Hd.
  - intros (i & Hi & Hm). split; [apply list_elem_of_lookup; eauto |].
    apply (selected_marked_iff K N pool a0 fPoS i T Hc Hi), Hm.
Qed.

Lemma CreateNewBlock_evicts_before_failing_witness :
  let call :=
    CreateNewBlock K0 N_pubcoin_600_invalid args0 pool_mint_child assembler0 [Opcode 5]
      false false false in
  pblocktemplate call = None
  ∧ removeRecursive_calls call = [tx_mint_600]
  ∧ ∀ T, T ∈ removeRecursive_calls call
         ↔ ∃ i, selected_vtx K0 N_pubcoin_600_invalid pool_mint_child assembler0 false !! i
                = Some (Some T)
                ∧ marks_duplicate N_pubcoin_600_invalid
                    (bi_nHeight (chainActive_Tip N_pubcoin_600_invalid) + 1)
                    (screening_before K0 N_pubcoin_600_invalid pool_mint_child assembler0
                       false i) T = true.
Proof.
  split; [vm_compute; reflexivity |]. split; [vm_compute; reflexivity |].
  apply (CreateNewBlock_evicts_before_failing K0 N_pubcoin_600_invalid args0
           pool_mint_child assembler0 [Opcode 5] false false false).
  - apply (bool_decide_unpack _). vm_compute. reflexivity.
  - discriminate.
  - vm_compute. eauto.
  - reflexivity.
Defined.
